(* ===== verification/_CoqProject ===== *)
-Q . S2P
Prelude.v
Monad.v
Int32.v
Atomics.v
Lock.v
Cond.v
Serial.v
Polyfill.v
Sync.v
Phase.v
Chunking.v
Proxy.v
Worker.v
Compress.v
Pipeline.v
Handshake.v
HandshakeInv.v
HandshakeWorker.v
HandshakeMain.v
HandshakeRun.v
HandshakeSafety.v
App.v
