(* ===== verification/Prelude.v ===== *)
(** * A verification development for demo-browser-compress

    The repository streams an [ArrayBuffer] through a transform (a copy
    in src/src/plain.worker.ts, pako's deflate in
    src/src/compress.worker.ts) that runs in a Web Worker.  The browser
    main thread ([WorkerProxy], src/src/lib.ts 52-254) and the worker
    ([FileTranformingWorker], lib.ts 284-381, and its subclass
    [CompressWorker]) share a 32-byte [SharedArrayBuffer] of
    synchronisation cells and two data regions.  They coordinate through
    the futex-style [Lock] and [Cond] of src/src/lock.js, whose four
    objects sit at byte offsets 0, 8, 16 and 24 and are mirrored between
    the two sides, and through [postMessage].

    ** Files, in dependency order

    - [Prelude.v] (this file): notation scope [sync_scope], the hint
      databases [sync] and [sync_rw], the tactics [inv_bind] and
      [case_zeq], and the counting function [cnt] with its list lemmas.
    - [Monad.v]: the state, exception and trace monad [M] in which
      every message handler is written ([pret], [pbind], [pthrow],
      [pget], [pput], [pemit], notation in [handler_scope]).
    - [Int32.v]: [ToInt32] wrap-around ([wrap32]), [>>>] ([ushr]),
      [_checkParameters] (lock.js 36-48) and the index [loc >>> 2].
    - [Atomics.v]: the [Int32Array] of cells ([shmem]: a [list Z] and a
      FIFO waiter list per cell in a [gmap]) and the ECMAScript
      [Atomics] operations lock.js calls, [None] where the engine throws.
    - [Lock.v]: [Lock] (lock.js 83-145, and [asyncLock] 321-331): the
      cell holds 0 (free), 1 (held) or 2 (held, maybe waiters);
      [lock_step] and [unlock_step] perform one atomic operation of the
      source from a program point ([lk_pc], [ul_pc]); [tryLock] is one
      operation.
    - [Cond.v]: [Cond] (lock.js 207-274, and [asyncWait] 336-344):
      [cond_wait_step] composes load, [unlock_step], [Atomics.wait] and
      [lock_step] in source order; [notify_step] is add then notify.
    - [Serial.v]: the [Lock] and [Cond] objects (the buffer and cell
      they view), their constructors on structured-clone values
      ([jsval]), [serialize], [deserialize] and [toString] (lock.js
      147-169, 281-311).
    - [Polyfill.v]: [Atomics.waitNonblocking] (lock.js 346-451): the pool
      [helpers] of helper workers, their message queues, the main
      thread's queue of replies and the promises, in a step relation
      [pstep] interleaved with the other agents' [Atomics] operations;
      [pool_inv] is the pool's invariant; [waitNonblocking_nofast] is
      the same call without its fast path.
    - [Sync.v]: any number of agents on one (lock, condition) pair, each
      running any client of lock/tryLock/unlock/wait/notifyOne/notifyAll
      ([local_step]), interleaved one atomic step at a time ([tstep],
      [run]); [reachable] is defined by rule induction from [init_mem_ok].
    - [Phase.v]: an abstraction of an agent's program point in
      [Sync.v] ([aphase_of]: idle, acquiring, holding, in [wait]
      before or after its snapshot, parked, relocking, notifying,
      releasing) and the lemma [pair_run] that reads one atomic step
      of a pair off [tstep]: the phase moves of [astep], the sequence
      cell, who is woken, and that the other pair is untouched.
    - [Chunking.v]: the chunk sizes of the three transfer loops
      ([chunk_size], [chunks]: lib.ts 183-207 and 340-372,
      compress.worker.ts 91-109) and the compress worker's final flag.
    - [Proxy.v]: [WorkerProxy]: its fields as the record [proxy] and
      every method as a computation of [PM] whose events are the lock
      and condition operations, copies into the shared region, posted
      messages, progress callbacks and the resolution of [done()].
    - [Worker.v]: [FileTranformingWorker]: the ["init"] and ["push"]
      handlers, and plain.worker.ts's listener ([plain_worker], with
      [Monad.listen]); the read region's contents are a parameter
      [feed].
    - [Compress.v]: [CompressWorker] and [CustromDeflate] against the
      codec interface [Deflater] with laws [DeflaterLaws] (type
      classes), the pass-through codec [stored] as an instance, and
      compress.worker.ts's listener ([compress_worker]).
    - [Pipeline.v]: the main thread handling the worker's trace of
      events ([deliver]) against the region the proxy wrote
      ([proxy_region]).
    - [Handshake.v]: the transfer as it runs in the browser: [push()],
      one [onReceived] task per ["push"] message and [__onMessage] on
      the main thread, the ["push"] handler in the worker, each an
      agent with a program point ([mpc], [rpc], [wpc]) whose lock and
      condition calls are steps of the read or write pair of [Sync.v]
      on the one lock buffer ([rcall], [wcall]); [hstep] is one step of
      any agent, [hinit] the state [transformFile] builds, [hreachable]
      every state a schedule reaches.
    - [HandshakeInv.v]: the invariant [hinv_at] of the transfer after
      [x] chunks written by [push()] and [yo] read by the worker: each
      agent's program point against its phases on both pairs, the
      sequence cells as counts of notifications, the message queues,
      the regions' contents and the chunks collected so far.
    - [HandshakeWorker.v], [HandshakeMain.v], [HandshakeRun.v]: the
      invariant is kept by every statement of the worker, of [push()],
      of the tasks and of [__onMessage], and by every atomic step
      inside a lock or condition call on either pair.
    - [HandshakeSafety.v]: the invariant in every reachable state, what
      follows from it, and a complete run on a three-byte input.
    - [App.v]: App.tsx's drop zone: the output file names
      ([compressed_name], [decompressed_name] through JavaScript's
      [replace]), [onDrop] and the progress callback, and the zone's
      events ([zstep]) with React's batched state updates.

    ** What is proved (claims C1-C37)

    - The transfer as a whole (HandshakeSafety.v, C1-C6): in every
      state reachable by any interleaving of the main thread's tasks
      and the plain worker, [done()] can only have been resolved with
      the input's chunks in order, whose concatenation is the input;
      the buffers collected so far are a prefix of those chunks; the
      worker and [push()] (write pair) and the worker and the tasks
      (read pair) never hold a lock together; and no agent takes an
      error exit ([push()] or the worker throwing, a task returning
      with the lock held or throwing).  When the region size divides
      the input's length (the empty input included) [done()] is
      pending in every reachable state, and the run on two bytes with
      two-byte regions stops with no agent able to step.  The
      witnesses run a schedule of 110 steps that resolves [done()]
      with [[1; 2]; [3]].
    - Concurrency (Sync.v, C7-C13): in every reachable state at most
      one agent holds the lock; the lock cell is 0 exactly when nobody
      owns it; while an agent is parked on the lock another agent that
      can step holds it with the cell at 2, or contends past [lock]'s
      fast path, or is releasing it from 2 (no lost wakeup); each step
      refines an abstract mutex; the sequence cell counts
      notifications modulo 2^32, so a waiter that missed notifications
      does not park, except after a multiple of 2^32 of them.
    - The data path run sequentially (C14-C19, C26): the plain worker
      round trip reassembles the input; [push] copies the whole input
      in order; the worker emits exactly one block of events per chunk;
      the compress worker hands over exactly the codec's output of the
      input for any lawful codec; both sides wait for the other's
      acknowledgement between two writes into a region (backpressure);
      the channel is mirrored.
    - The chunk loop (C20-C21, C25): it terminates with enough fuel and
      its chunks, computed by [chunk_size], sum to [L], number
      [ceil(L/C)], fit the region, and end with [L mod C] or [C]; with
      [C = 0] no fuel is enough.
    - Error paths and findings (C13, C22-C25): the lock leaked by
      [onReceived], the worker's [RangeError] with both locks held when
      the main thread's write size exceeds its read size, the compress
      worker doing nothing on an empty input, no progress with a zero
      buffer size.
    - Handlers (C27-C29): [onReceived] on its success and oversized
      branches, and the bounds guaranteed by [_checkParameters].
    - The lock's [unlock] run alone (C30): three atomic operations at
      most, the cell back at 0, at most one waiter woken.
    - Objects (Serial.v, C31-C33): [deserialize] inverts [serialize]
      for every constructed [Lock] and [Cond], and every object it
      returns, whatever its input, views a cell inside its buffer.
    - The polyfill (Polyfill.v, C34-C35): in every reachable state the
      helper pool is consistent (each helper serves at most one wait,
      idle helpers are exactly the pooled ones, every pending promise
      has its helper, a helper is queued on a cell exactly while it
      blocks there, no promise is rejected); the fast path is an
      optimisation of the general path through a helper.
    - The UI (App.v, C36-C37): decompressing the compressed name gives
      the name back when it does not contain [".compress"]; with
      [dataTransfer.items] a drop zone runs one transform at a time.

    ** Bounds and fuel

    Every [while] loop is structural recursion on fuel; running out is
    the error [LoopFuel] or [WLoopFuel] (or [None] in [chunks]).  The
    theorems assume more than [L / C + 1] iterations, which is enough:
    the loop runs [ceil(L/C) <= L / C + 1] times plus the final test,
    and [chunks_zero_size_diverges] shows that no fuel is enough when
    [C = 0].  Integers of the shared cells are [Z] wrapped by
    [wrap32] as [Int32Array] stores them; byte counts are [nat].

    ** Not modelled

    - App.tsx's rendering, [saveBlobAsFile] and the [Blob]/download
      code, [readFileAsArrayBuffer] and [getLogger]: I/O.
    - pako: a library; the compress worker is proved against
      [DeflaterLaws].
    - In [Sync.v], [asyncLock]/[asyncWait] are the same atomic steps
      as [lock]/[wait]: the park is the helper's [Atomics.wait], which
      [Polyfill.v] models with the pool around it; the branch that keeps
      a native [waitNonblocking] (lock.js 386-387) and timeouts (never
      passed by lock.js) are not modelled.
    - Strings and arrays as arguments of the [Lock]/[Cond]
      constructors ([loc + 4] would concatenate); the payload-length
      check of the workers' [onMessage], which the proxy's messages
      always pass; src/test.js (a pako script); decompress.worker,
      which App.tsx imports but the repository lacks.
    - The interleaved model of [Handshake.v] is the plain worker's;
      the compress worker's handler runs pako between its lock calls
      and is verified sequentially ([Compress.v], [Pipeline.v]).  The
      invariant assumes [0 < C <= R] (the sizes [transformFile] passes;
      a larger write size is the [RangeError] of C22), and the
      interleaved model leaves out [onError] and the progress callback,
      which do not touch the shared state. *)

From Stdlib Require Export ZArith Lia.
From stdpp Require Export base list gmap relations.

Declare Scope sync_scope.
Delimit Scope sync_scope with sync.
Open Scope sync_scope.

Create HintDb sync discriminated.
Create Rewrite HintDb sync_rw.

(** ** Counting the elements of a list that satisfy a boolean test *)

Fixpoint cnt {A} (P : A -> bool) (l : list A) : nat :=
  match l with
  | [] => 0
  | x :: l' => (if P x then 1 else 0) + cnt P l'
  end.

Notation "'#{' P '}' l" := (cnt P l) (at level 10, P at level 200, l at level 9) : sync_scope.

Definition b2n (b : bool) : nat := if b then 1 else 0.

Lemma cnt_insert {A} `{Inhabited A} (P : A -> bool) (l : list A) (i : nat) (x : A) :
  i < length l ->
  cnt P (<[i:=x]> l) + b2n (P (l !!! i)) = cnt P l + b2n (P x).
Proof.
  revert i. induction l as [|y l IH]; intros [|i] Hi; simpl in *; try lia.
  - unfold b2n. destruct (P x), (P y); lia.
  - specialize (IH i ltac:(lia)). lia.
Qed.

Lemma cnt_app {A} (P : A -> bool) (l1 l2 : list A) : cnt P (l1 ++ l2) = cnt P l1 + cnt P l2.
Proof. induction l1 as [|x l1 IH]; simpl; [done|]. rewrite IH. lia. Qed.

Lemma existsb_cnt {A} (P : A -> bool) (l : list A) : existsb P l = negb (cnt P l =? 0).
Proof. induction l as [|x l IH]; cbn; [done|]. rewrite IH. by destruct (P x). Qed.

Lemma cnt_le_length {A} (P : A -> bool) (l : list A) : cnt P l <= length l.
Proof. induction l as [|x l IH]; simpl; [lia|]. destruct (P x); lia. Qed.

Lemma cnt_pos_iff {A} `{Inhabited A} (P : A -> bool) (l : list A) :
  0 < cnt P l <-> exists i, i < length l /\ P (l !!! i) = true.
Proof.
  induction l as [|x l IH]; simpl.
  - split; [lia|]. intros (?&?&?); lia.
  - destruct (P x) eqn:Hx.
    + split; [intros _; exists 0; simpl; auto with lia | lia].
    + rewrite IH. split.
      * intros (i&Hi&HP). exists (S i). simpl. auto with lia.
      * intros ([|i]&Hi&HP); simpl in *; [congruence|]. exists i. auto with lia.
Qed.

Lemma cnt_zero_iff {A} `{Inhabited A} (P : A -> bool) (l : list A) :
  cnt P l = 0 <-> forall i, i < length l -> P (l !!! i) = false.
Proof.
  split.
  - intros H0 i Hi. destruct (P (l !!! i)) eqn:E; [|done].
    assert (0 < cnt P l) by (apply cnt_pos_iff; eauto). lia.
  - intros Hall. destruct (cnt P l) eqn:E; [done|].
    destruct (proj1 (cnt_pos_iff P l) ltac:(lia)) as (i&Hi&HP).
    rewrite Hall in HP; done.
Qed.

Lemma cnt_at {A} (P : A -> bool) (l : list A) i x :
  l !! i = Some x -> P x = true -> 1 <= cnt P l.
Proof.
  revert i. induction l as [|y l IH]; intros [|i] Hi HP; simpl in *; try done.
  - injection Hi as ->. rewrite HP. lia.
  - specialize (IH i Hi HP). lia.
Qed.

(** The same facts through partial lookups, the form the theorems use. *)
Lemma cnt_zero_lookup {A} `{Inhabited A} (P : A -> bool) (l : list A) :
  cnt P l = 0 <-> forall i x, l !! i = Some x -> P x = false.
Proof.
  rewrite cnt_zero_iff. split.
  - intros Hall i x Hi. rewrite <- (list_lookup_total_correct _ _ _ Hi).
    apply Hall. by eapply lookup_lt_Some.
  - intros Hall i Hi. apply (Hall i). by apply list_lookup_lookup_total_lt.
Qed.

Lemma cnt_pos_lookup {A} `{Inhabited A} (P : A -> bool) (l : list A) :
  0 < cnt P l <-> exists i x, l !! i = Some x /\ P x = true.
Proof.
  rewrite cnt_pos_iff. split.
  - intros (i & Hi & HP). exists i, (l !!! i). split; [|done].
    by apply list_lookup_lookup_total_lt.
  - intros (i & x & Hi & HP). exists i. split; [by eapply lookup_lt_Some|].
    by rewrite (list_lookup_total_correct _ _ _ Hi).
Qed.

(** Two distinct positions satisfying [P] make the count at least 2. *)
Lemma cnt_two {A} `{Inhabited A} (P : A -> bool) (l : list A) (i j : nat) :
  i < length l -> j < length l -> i <> j ->
  P (l !!! i) = true -> P (l !!! j) = true -> 2 <= cnt P l.
Proof.
  revert i j. induction l as [|x l IH]; intros [|i] [|j] Hi Hj Hne Pi Pj;
    simpl in *; try lia.
  - rewrite Pi. assert (0 < cnt P l) by (apply cnt_pos_iff; exists j; auto with lia). lia.
  - rewrite Pj. assert (0 < cnt P l) by (apply cnt_pos_iff; exists i; auto with lia). lia.
  - specialize (IH i j ltac:(lia) ltac:(lia) ltac:(lia) Pi Pj). destruct (P x); lia.
Qed.

(** ** Total lookups on lists, the form the thread tables are read in *)

Lemma list_total_insert_same {A} `{Inhabited A} (l : list A) i x :
  i < length l -> <[i:=x]> l !!! i = x.
Proof. apply list_lookup_total_insert_eq. Qed.

Lemma list_total_insert_other {A} `{Inhabited A} (l : list A) i j x :
  i <> j -> <[i:=x]> l !!! j = l !!! j.
Proof. apply list_lookup_total_insert_ne. Qed.

(** ** Copying into a buffer in place: [d ++ drop (length d) b] *)

Lemma overwrite_length {A} (d b : list A) :
  length d <= length b -> length (d ++ drop (length d) b) = length b.
Proof. intros H. rewrite length_app, length_drop. lia. Qed.

Lemma overwrite_take {A} (d b : list A) n :
  n = length d -> take n (d ++ drop (length d) b) = d.
Proof. intros ->. by rewrite take_app_length. Qed.

#[export] Hint Rewrite @length_insert @cnt_app : sync_rw.
#[export] Hint Resolve cnt_le_length : sync.

(** ** Tactics *)

(** Split a successful option bind in a hypothesis. *)
(** ** Events separated by acknowledgements

    In a trace, every two events satisfying [P] (a write into a shared
    region) have an event satisfying [Q] (the wait for the reader's
    acknowledgement) strictly between them. *)

Definition separated {A} (P Q : A -> bool) (l : list A) : Prop :=
  forall i j x y, i < j -> l !! i = Some x -> l !! j = Some y -> P x = true -> P y = true ->
  exists k z, i < k < j /\ l !! k = Some z /\ Q z = true.

(** Every [P] event of [l] comes after a [Q] event of [l]. *)
Definition acked_before {A} (P Q : A -> bool) (l : list A) : Prop :=
  forall j y, l !! j = Some y -> P y = true ->
  exists k z, k < j /\ l !! k = Some z /\ Q z = true.

(** The executable check: [pending] is a [P] event not yet followed by
    a [Q] event. *)
Fixpoint acked {A} (P Q : A -> bool) (pending : bool) (l : list A) : bool :=
  match l with
  | [] => true
  | x :: l' =>
      if P x then negb pending && acked P Q true l'
      else if Q x then acked P Q false l'
      else acked P Q pending l'
  end.

Section Separated.
Context {A : Type} (P Q : A -> bool).

Lemma separated_cons_other x l :
  P x = false -> separated P Q l -> separated P Q (x :: l).
Proof.
  intros Hx Hl [|i] [|j] a b Hij Hi Hj Ha Hb; try lia; cbn in *; [congruence|].
  destruct (Hl i j a b ltac:(lia) Hi Hj Ha Hb) as (k & z & Hk & Hz & Qz).
  exists (S k), z. split_and!; [lia | lia | done | done].
Qed.

Lemma separated_cons_P x l :
  separated P Q l -> acked_before P Q l -> separated P Q (x :: l).
Proof.
  intros Hl Hb [|i] [|j] a b Hij Hi Hj Ha Hb'; try lia; cbn in *.
  - destruct (Hb j b Hj Hb') as (k & z & Hk & Hz & Qz).
    exists (S k), z. split_and!; [lia | lia | done | done].
  - destruct (Hl i j a b ltac:(lia) Hi Hj Ha Hb') as (k & z & Hk & Hz & Qz).
    exists (S k), z. split_and!; [lia | lia | done | done].
Qed.

Lemma acked_before_Q x l : P x = false -> Q x = true -> acked_before P Q (x :: l).
Proof.
  intros Hp Hq [|j] y Hj Hy; cbn in Hj; [congruence|].
  exists 0, x. split_and!; [lia | done | done].
Qed.

Lemma acked_before_other x l :
  P x = false -> acked_before P Q l -> acked_before P Q (x :: l).
Proof.
  intros Hp Hl [|j] y Hj Hy; cbn in Hj; [congruence|].
  destruct (Hl j y Hj Hy) as (k & z & Hk & Hz & Qz).
  exists (S k), z. split_and!; [lia | done | done].
Qed.

Lemma acked_sound pending l :
  acked P Q pending l = true ->
  separated P Q l /\ (pending = true -> acked_before P Q l).
Proof.
  revert pending. induction l as [|x l IH]; intros pending H.
  { split; [intros i j ? ? ? Hi; done | intros _ j y Hj; done]. }
  cbn in H. destruct (P x) eqn:Hp.
  - apply andb_true_iff in H as [Hn H]. destruct pending; [done|].
    destruct (IH true H) as [Hs Hb].
    split; [apply separated_cons_P; auto | done].
  - destruct (Q x) eqn:Hq.
    + destruct (IH false H) as [Hs _].
      split; [by apply separated_cons_other | intros _; by apply acked_before_Q].
    + destruct (IH pending H) as [Hs Hb].
      split; [by apply separated_cons_other | intros Hpd; apply acked_before_other; auto].
Qed.

Lemma acked_separated l : acked P Q false l = true -> separated P Q l.
Proof. intros H. exact (proj1 (acked_sound false l H)). Qed.

Lemma acked_app pending l1 l2 :
  acked P Q pending (l1 ++ l2) =
    acked P Q pending l1 && acked P Q (fold_left (fun pd x => if P x then true else if Q x then false else pd) l1 pending) l2.
Proof.
  revert pending. induction l1 as [|x l1 IH]; intros pending; cbn; [done|].
  destruct (P x), (Q x); rewrite ?IH; try done; destruct pending; done.
Qed.
End Separated.

Ltac inv_bind :=
  repeat match goal with
  | H : mbind _ _ = Some _ |- _ =>
      apply bind_Some in H; destruct H as (? & ? & ?)
  | H : Some _ = Some _ |- _ => injection H as H
  | H : None = Some _ |- _ => discriminate H
  end.

(** Case on the boolean equality tests of [Z] that guard the source's
    branches, turning each into its [Prop]. *)
Ltac case_zeq :=
  repeat match goal with
  | |- context [Z.eqb ?a ?b] => destruct (Z.eqb_spec a b)
  | H : context [Z.eqb ?a ?b] |- _ => destruct (Z.eqb_spec a b)
  end.
