(* ===== verification/Monad.v ===== *)
(** * A state, exception and trace monad

    The message handlers of src/src/lib.ts and src/src/compress.worker.ts
    mutate the fields of their object, may [throw], and perform
    operations another agent observes (lock and condition operations,
    copies into a shared region, [postMessage], callbacks).  A handler
    is modelled as a function of the object's state returning the
    outcome ([inl] the exception thrown, [inr] the value returned), the
    state afterwards, and the observable events in order.  As on a
    JavaScript object, the writes done before a [throw] stay. *)

From S2P Require Import Prelude.

Definition M (S E Ev A : Type) : Type := S -> (E + A) * S * list Ev.

Section Ops.
Context {S E Ev : Type}.

Definition pret {A} (a : A) : M S E Ev A := fun s => (inr a, s, []).

Definition pbind {A B} (m : M S E Ev A) (f : A -> M S E Ev B) : M S E Ev B := fun s =>
  match m s with
  | (inl e, s1, ev1) => (inl e, s1, ev1)
  | (inr a, s1, ev1) => let '(r, s2, ev2) := f a s1 in (r, s2, ev1 ++ ev2)
  end.

Definition pthrow {A} (e : E) : M S E Ev A := fun s => (inl e, s, []).
Definition pget : M S E Ev S := fun s => (inr s, s, []).
Definition pput (s' : S) : M S E Ev unit := fun _ => (inr tt, s', []).
Definition pemit (e : Ev) : M S E Ev unit := fun s => (inr tt, s, [e]).
End Ops.

Declare Scope handler_scope.
Delimit Scope handler_scope with handler.
Notation "x <- m ;; k" := (pbind m (fun x => k))
  (at level 100, m at next level, right associativity) : handler_scope.
Notation "m ;; k" := (pbind m (fun _ => k))
  (at level 100, right associativity) : handler_scope.

(** A worker's [message] listener: each message is handled by
    [handle] on the state the previous one left; an exception is
    reported by the host and does not stop the next message.  The
    outcome is the final state, all events, and the exceptions. *)
Fixpoint listen {S E Ev A} (handle : A -> M S E Ev unit) (ms : list A) (s : S)
    : S * list Ev * list E :=
  match ms with
  | [] => (s, [], [])
  | m :: ms' =>
      let '(r, s1, evs) := handle m s in
      let '(s2, evs', errs) := listen handle ms' s1 in
      (s2, evs ++ evs', match r with inl e => e :: errs | inr _ => errs end)
  end.

(** ** Sequencing *)

Section Laws.
Context {S E Ev : Type}.

Lemma pbind_inr {A B} (m : M S E Ev A) (f : A -> M S E Ev B) s a s1 e1 r s2 e2 :
  m s = (inr a, s1, e1) -> f a s1 = (r, s2, e2) -> pbind m f s = (r, s2, e1 ++ e2).
Proof. intros H1 H2. unfold pbind. rewrite H1, H2. reflexivity. Qed.

Lemma pbind_inl {A B} (m : M S E Ev A) (f : A -> M S E Ev B) s e s1 e1 :
  m s = (inl e, s1, e1) -> pbind m f s = (inl e, s1, e1).
Proof. intros H1. unfold pbind. rewrite H1. reflexivity. Qed.
End Laws.

(** Run a handler on a concrete or symbolic state: unfold the monad's
    operations, leaving the handler's own tests for the caller. *)
Ltac unfold_monad := unfold pbind, pget, pput, pemit, pret, pthrow.
