(* ===== verification/Int32.v ===== *)
(** * 32-bit integers of an [Int32Array]

    [ToInt32] wrap-around ([wrap32]), the unsigned right shift [>>>]
    ([ushr]) and the argument check [_checkParameters] of
    src/src/lock.js, with their range lemmas. *)

From S2P Require Import Prelude.

Local Open Scope Z_scope.

Definition two32 : Z := 2 ^ 32.
Definition two31 : Z := 2 ^ 31.

(** [ToInt32]: the value an [Int32Array] element holds after a store
    (ECMAScript ToInt32 on an integral number). *)
Definition wrap32 (z : Z) : Z :=
  let m := z mod two32 in
  if m <? two31 then m else m - two32.

(** A 32-bit signed value. *)
Definition is_int32 (z : Z) : Prop := - two31 <= z < two31.

#[export] Instance is_int32_dec z : Decision (is_int32 z).
Proof. unfold is_int32. apply _. Defined.

(** [x >>> n]: ToUint32 of [x], shifted right by [n mod 32]. *)
Definition ushr (x n : Z) : Z := Z.shiftr (x mod two32) (n mod 32).

(** [_checkParameters(sab, loc, truth, who)] (lock.js 36-48), where
    [truth] is [Lock] or [Cond], both with [ALIGN = NUMBYTES = 4].  The
    JavaScript [(loc | 0) == loc] is [wrap32 loc = loc]; [false] is the
    branch that throws [Error("Bad arguments to ...")]. *)
Definition ALIGN : Z := 4.
Definition NUMBYTES : Z := 4.

Definition check_parameters (is_sab : bool) (byte_length loc : Z) : bool :=
  is_sab && (wrap32 loc =? loc) && (0 <=? loc) && (loc mod ALIGN =? 0)
  && (loc + NUMBYTES <=? byte_length).

(** The Int32 index of a checked byte offset, [loc >>> 2] (lock.js
    106, 227). *)
Definition ibase (loc : Z) : nat := Z.to_nat (ushr loc 2).

(** The length of [new Int32Array(sab)]. *)
Definition int32_length (byte_length : Z) : nat := Z.to_nat (byte_length / 4).

Lemma wrap32_range z : is_int32 (wrap32 z).
Proof.
  unfold wrap32, is_int32, two32, two31.
  pose proof (Z.mod_pos_bound z (2^32) ltac:(lia)).
  destruct (Z.ltb_spec (z mod 2^32) (2^31)); lia.
Qed.

Lemma wrap32_id z : is_int32 z -> wrap32 z = z.
Proof.
  unfold wrap32, is_int32, two32, two31. intros Hz.
  destruct (Z.leb_spec 0 z).
  - rewrite Z.mod_small by lia. destruct (Z.ltb_spec z (2^31)); lia.
  - assert (Hm : z mod 2^32 = z + 2^32).
    { rewrite <- (Z.mod_small (z + 2^32) (2^32)) by lia.
      rewrite Zplus_mod, Z_mod_same_full, Z.add_0_r, Z.mod_mod by lia. reflexivity. }
    rewrite Hm. destruct (Z.ltb_spec (z + 2^32) (2^31)); lia.
Qed.

(** [wrap32] only depends on its argument modulo 2^32. *)
Lemma wrap32_idem z : wrap32 (wrap32 z) = wrap32 z.
Proof. apply wrap32_id, wrap32_range. Qed.

Lemma wrap32_mod_eq a b : a mod two32 = b mod two32 -> wrap32 a = wrap32 b.
Proof. unfold wrap32. intros ->. reflexivity. Qed.

Lemma wrap32_periodic z k : wrap32 (z + k * two32) = wrap32 z.
Proof.
  apply wrap32_mod_eq. unfold two32. rewrite Z_mod_plus_full. reflexivity.
Qed.

Lemma wrap32_mod z : wrap32 z mod two32 = z mod two32.
Proof.
  unfold wrap32, two32, two31.
  destruct (Z.ltb_spec (z mod 2^32) (2^31)).
  - apply Z.mod_mod. lia.
  - replace (z mod 2 ^ 32 - 2 ^ 32) with (z mod 2^32 + (-1) * 2^32) by lia.
    rewrite Z_mod_plus_full. apply Z.mod_mod. lia.
Qed.

Lemma wrap32_add_l a b : wrap32 (wrap32 a + b) = wrap32 (a + b).
Proof.
  apply wrap32_mod_eq. rewrite Zplus_mod, wrap32_mod, <- Zplus_mod. reflexivity.
Qed.

Lemma wrap32_small z : 0 <= z < two31 -> wrap32 z = z.
Proof. intros. apply wrap32_id. unfold is_int32, two31 in *. lia. Qed.

Lemma wrap32_eq_iff a b : wrap32 a = wrap32 b <-> a mod two32 = b mod two32.
Proof.
  split; [|apply wrap32_mod_eq].
  intros H. rewrite <- (wrap32_mod a), <- (wrap32_mod b), H. reflexivity.
Qed.

(** Adding [n] leaves a 32-bit cell unchanged exactly when [n] is a
    multiple of 2^32. *)
Lemma wrap32_add_eq z n : wrap32 (z + n) = wrap32 z <-> n mod two32 = 0.
Proof.
  rewrite wrap32_eq_iff. unfold two32. split.
  - intros H. replace n with ((z + n) - z) by lia.
    rewrite Zminus_mod, H, Z.sub_diag. apply Z.mod_0_l. lia.
  - intros Hn. rewrite Zplus_mod, Hn, Z.add_0_r, Z.mod_mod by lia. reflexivity.
Qed.

#[export] Hint Resolve wrap32_range : sync.
#[export] Hint Rewrite wrap32_add_l wrap32_periodic : sync_rw.

(** What [_checkParameters] guarantees of an accepted offset. *)
Lemma check_parameters_spec is_sab byte_length loc :
  check_parameters is_sab byte_length loc = true ->
  is_sab = true /\ 0 <= loc /\ loc + 4 <= byte_length /\
  (ibase loc < int32_length byte_length)%nat /\ Z.of_nat (ibase loc) * 4 = loc.
Proof.
  unfold check_parameters, ibase, int32_length, ushr, ALIGN, NUMBYTES.
  intros H. repeat rewrite andb_true_iff in H.
  destruct H as ((((-> & Hw) & H0) & Ha) & Hb).
  apply Z.eqb_eq in Hw, Ha. apply Z.leb_le in H0, Hb.
  pose proof (wrap32_range loc) as Hr. rewrite Hw in Hr. unfold is_int32, two31 in Hr.
  rewrite (Z.mod_small loc) by (unfold two32; lia).
  change (2 mod 32) with 2. rewrite Z.shiftr_div_pow2 by lia. change (2 ^ 2) with 4.
  pose proof (Z.div_mod loc 4 ltac:(lia)) as Hd. rewrite Ha in Hd.
  assert (Hle : loc / 4 + 1 <= byte_length / 4).
  { apply Z.div_le_lower_bound; lia. }
  split_and!; [done|lia|lia| |rewrite Z2Nat.id by (apply Z.div_pos; lia); lia].
  apply Z2Nat.inj_lt; [apply Z.div_pos; lia | lia | lia].
Qed.

(** C29. An offset accepted by [_checkParameters] names a whole
    [Int32] cell inside the buffer: its index [loc >>> 2] is below the
    [Int32Array]'s length and is exactly [loc / 4]. *)
Theorem check_parameters_index is_sab byte_length loc :
  check_parameters is_sab byte_length loc = true ->
  (ibase loc < int32_length byte_length)%nat /\ Z.of_nat (ibase loc) * 4 = loc.
Proof. intros (_ & _ & _ & H)%check_parameters_spec. exact H. Qed.

Lemma check_parameters_index_witness :
  check_parameters true 32 24 = true /\
  ((ibase 24 < int32_length 32)%nat /\ Z.of_nat (ibase 24) * 4 = 24).
Proof. split; [reflexivity | apply check_parameters_index with true; reflexivity]. Defined.
