(* ===== verification/Atomics.v ===== *)
(** * The shared memory and the [Atomics] operations on an [Int32Array]

    An agent sees the shared [SharedArrayBuffer] through
    [new Int32Array(sab)] (lock.js 105, 226): a fixed-length array of
    32-bit cells, plus, for every cell, the FIFO list of agents parked
    in [Atomics.wait] on it.  Each [Atomics] function used by lock.js is
    one definition here; [None] is the [RangeError] the engine throws on
    an index outside the array.  Agents are named by [nat]. *)

From S2P Require Import Prelude Int32.

Local Open Scope Z_scope.

Record shmem := Shmem {
  cells : list Z;                  (** the [Int32Array] *)
  waiters : gmap nat (list nat)    (** the waiter list of each cell *)
}.

Definition atomics_load (m : shmem) (i : nat) : option Z := cells m !! i.

Definition atomics_store (m : shmem) (i : nat) (v : Z) : option shmem :=
  if decide (i < length (cells m))%nat
  then Some (Shmem (<[i:=wrap32 v]> (cells m)) (waiters m))
  else None.

(** Returns the old value; replaces it when it equals [expected]. *)
Definition atomics_compareExchange (m : shmem) (i : nat) (expected replacement : Z)
    : option (Z * shmem) :=
  v ← cells m !! i;
  if decide (v = wrap32 expected)
  then Some (v, Shmem (<[i:=wrap32 replacement]> (cells m)) (waiters m))
  else Some (v, m).

Definition atomics_add (m : shmem) (i : nat) (d : Z) : option (Z * shmem) :=
  v ← cells m !! i;
  Some (v, Shmem (<[i:=wrap32 (v + d)]> (cells m)) (waiters m)).

Definition atomics_sub (m : shmem) (i : nat) (d : Z) : option (Z * shmem) :=
  v ← cells m !! i;
  Some (v, Shmem (<[i:=wrap32 (v - d)]> (cells m)) (waiters m)).

(** [Atomics.wait(ia, i, v)] called by agent [t]: returns ["not-equal"]
    at once when the cell differs from [v]; otherwise [t] is appended to
    the cell's waiter list and sleeps until an [Atomics.notify] removes
    it (no timeout is ever passed by lock.js). *)
Inductive wait_outcome := NotEqual | Parked.

Definition atomics_wait (m : shmem) (i : nat) (v : Z) (t : nat)
    : option (wait_outcome * shmem) :=
  w ← cells m !! i;
  if decide (w = wrap32 v)
  then Some (Parked, Shmem (cells m) (<[i:=waiters m !!! i ++ [t]]> (waiters m)))
  else Some (NotEqual, m).

(** [Atomics.notify(ia, i, count)]: wakes the first [count] waiters of
    the cell in FIFO order, all of them when [count] is [undefined]
    ([None]); returns the woken agents. *)
Definition atomics_notify (m : shmem) (i : nat) (count : option nat)
    : option (list nat * shmem) :=
  if decide (i < length (cells m))%nat then
    let q := waiters m !!! i in
    let n := default (length q) count in
    Some (take n q, Shmem (cells m) (<[i:=drop n q]> (waiters m)))
  else None.

(** Every cell holds a 32-bit value. *)
Definition wf_shmem (m : shmem) : Prop := Forall is_int32 (cells m).

(** ** Lemmas *)

Lemma Forall_insert_int32 (l : list Z) i v :
  Forall is_int32 l -> Forall is_int32 (<[i:=wrap32 v]> l).
Proof. intros H. apply Forall_insert; auto with sync. Qed.

Lemma lookup_int32 (m : shmem) i v : wf_shmem m -> cells m !! i = Some v -> is_int32 v.
Proof. intros Hwf Hi. eapply Forall_lookup_1; eauto. Qed.

Lemma atomics_store_spec m i v m' :
  atomics_store m i v = Some m' ->
  (i < length (cells m))%nat /\
  m' = Shmem (<[i:=wrap32 v]> (cells m)) (waiters m).
Proof. unfold atomics_store. case_decide; intros; inv_bind; subst; auto. Qed.

Lemma atomics_compareExchange_spec m i e r v m' :
  atomics_compareExchange m i e r = Some (v, m') ->
  cells m !! i = Some v /\
  m' = if decide (v = wrap32 e)
       then Shmem (<[i:=wrap32 r]> (cells m)) (waiters m) else m.
Proof.
  unfold atomics_compareExchange. intros H. inv_bind.
  case_decide; inv_bind; simplify_eq; split; auto; by case_decide.
Qed.

Lemma atomics_rmw_spec m i d v m' :
  (atomics_add m i d = Some (v, m') ->
   cells m !! i = Some v /\ m' = Shmem (<[i:=wrap32 (v + d)]> (cells m)) (waiters m)) /\
  (atomics_sub m i d = Some (v, m') ->
   cells m !! i = Some v /\ m' = Shmem (<[i:=wrap32 (v - d)]> (cells m)) (waiters m)).
Proof. unfold atomics_add, atomics_sub. split; intros H; inv_bind; simplify_eq; auto. Qed.

Lemma atomics_wait_spec m i v t o m' :
  atomics_wait m i v t = Some (o, m') ->
  exists w, cells m !! i = Some w /\
  ((w = wrap32 v /\ o = Parked /\
    m' = Shmem (cells m) (<[i:=waiters m !!! i ++ [t]]> (waiters m))) \/
   (w <> wrap32 v /\ o = NotEqual /\ m' = m)).
Proof.
  unfold atomics_wait. intros H. inv_bind. eexists; split; [eassumption|].
  case_decide; inv_bind; simplify_eq; auto.
Qed.

Lemma atomics_notify_spec m i c ws m' :
  atomics_notify m i c = Some (ws, m') ->
  (i < length (cells m))%nat /\
  let n := default (length (waiters m !!! i)) c in
  ws = take n (waiters m !!! i) /\
  m' = Shmem (cells m) (<[i:=drop n (waiters m !!! i)]> (waiters m)).
Proof. unfold atomics_notify. case_decide; intros; inv_bind; subst; auto. Qed.

(** [Atomics.notify] with a count wakes at most that many agents. *)
Lemma atomics_notify_count m i c ws m' :
  atomics_notify m i (Some c) = Some (ws, m') -> (length ws <= c)%nat.
Proof.
  intros (_ & -> & _)%atomics_notify_spec. simpl. rewrite length_take. lia.
Qed.
