(* ===== verification/Lock.v ===== *)
(** * [Lock] of src/src/lock.js

    The lock's whole state is one [Int32Array] cell: 0 unlocked, 1
    locked with no waiters, 2 locked with possible waiters.  The bodies
    of [lock] (lines 112-122), [asyncLock] (321-331, the same loop with
    [Atomics.waitNonblocking]) and [unlock] (136-145) are given as
    program counters: each constructor names the next atomic operation
    of the source, and [lock_step]/[unlock_step] perform it.  [tryLock]
    (127-131) is a single operation.  The constructor and
    [Lock.initialize] (83-107) check their arguments first. *)

From S2P Require Import Prelude Int32 Atomics.

Local Open Scope Z_scope.

(** ** Construction *)

(** [Lock.initialize(sab, loc)]: [None] is the thrown [Error]; on
    success the cell at [loc] holds 0. *)
Definition lock_initialize (is_sab : bool) (byte_length loc : Z) (m : shmem)
    : option shmem :=
  if check_parameters is_sab byte_length loc
  then atomics_store m (ibase loc) 0
  else None.

(** [new Lock(sab, loc)]: the index [_ibase] of its cell. *)
Definition lock_new (is_sab : bool) (byte_length loc : Z) : option nat :=
  if check_parameters is_sab byte_length loc then Some (ibase loc) else None.

(** ** [lock] / [asyncLock] *)

(** The next atomic operation of the [lock] loop:
    - [LkCas01]: [c = compareExchange(i, 0, 1)] (line 116);
    - [LkCas12]: [compareExchange(i, 1, 2) != 0] (line 118);
    - [LkWait]: [Atomics.wait(i, 2)] (line 119);
    - [LkParked]: asleep in that wait;
    - [LkCas02]: [c = compareExchange(i, 0, 2)] (line 120). *)
Inductive lk_pc := LkCas01 | LkCas12 | LkWait | LkParked | LkCas02.

#[export] Instance lk_pc_eq_dec : EqDecision lk_pc.
Proof. solve_decision. Defined.

Inductive lk_next := Acquired | LkAt (p : lk_pc).

(** The loop body after a failed exchange that returned [c]:
    [if (c == 2 || compareExchange(i, 1, 2) != 0) wait]. *)
Definition lock_retry (c : Z) : lk_pc := if c =? 2 then LkWait else LkCas12.

Definition lock_step (i t : nat) (p : lk_pc) (m : shmem) : option (lk_next * shmem) :=
  match p with
  | LkCas01 =>
      '(c, m') ← atomics_compareExchange m i 0 1;
      Some (if c =? 0 then Acquired else LkAt (lock_retry c), m')
  | LkCas12 =>
      '(r, m') ← atomics_compareExchange m i 1 2;
      Some (LkAt (if r =? 0 then LkCas02 else LkWait), m')
  | LkWait =>
      '(o, m') ← atomics_wait m i 2 t;
      Some (LkAt (match o with Parked => LkParked | NotEqual => LkCas02 end), m')
  | LkParked => None
  | LkCas02 =>
      '(c, m') ← atomics_compareExchange m i 0 2;
      Some (if c =? 0 then Acquired else LkAt (lock_retry c), m')
  end.

(** Where an agent woken from the lock's [Atomics.wait] resumes: the
    [while] test (line 120). *)
Definition lock_wake : lk_pc := LkCas02.

(** ** [tryLock] *)

Definition tryLock (i : nat) (m : shmem) : option (bool * shmem) :=
  '(c, m') ← atomics_compareExchange m i 0 1;
  Some (c =? 0, m').

(** ** [unlock] *)

(** - [UlSub]: [v0 = Atomics.sub(i, 1)] (line 139);
    - [UlStore]: [Atomics.store(i, 0)] (line 142), when [v0 != 1];
    - [UlNotify]: [Atomics.notify(i, 1)] (line 143). *)
Inductive ul_pc := UlSub | UlStore | UlNotify.

#[export] Instance ul_pc_eq_dec : EqDecision ul_pc.
Proof. solve_decision. Defined.

(** One atomic step of [unlock]: the next point ([None] when [unlock]
    returns), the agents woken, the new memory. *)
Definition unlock_step (i : nat) (p : ul_pc) (m : shmem)
    : option (option ul_pc * list nat * shmem) :=
  match p with
  | UlSub =>
      '(v0, m') ← atomics_sub m i 1;
      Some (if v0 =? 1 then None else Some UlStore, [], m')
  | UlStore =>
      m' ← atomics_store m i 0;
      Some (Some UlNotify, [], m')
  | UlNotify =>
      '(ws, m') ← atomics_notify m i (Some 1%nat);
      Some (None, ws, m')
  end.

(** The whole of [unlock] run by one agent without interference. *)
Fixpoint unlock_run (fuel : nat) (i : nat) (p : ul_pc) (m : shmem)
    : option (list nat * shmem) :=
  match fuel with
  | O => None
  | S fuel' =>
      '(nx, ws, m') ← unlock_step i p m;
      match nx with
      | None => Some (ws, m')
      | Some p' => '(ws', m'') ← unlock_run fuel' i p' m'; Some (ws ++ ws', m'')
      end
  end.

(** ** Functional behaviour of each step *)

Section Steps.
Context (i t : nat) (m : shmem) (v : Z).
Hypothesis Hv : cells m !! i = Some v.

Definition set_cell (x : Z) : shmem := Shmem (<[i:=x]> (cells m)) (waiters m).

Lemma cmpxchg_eval e r :
  is_int32 e ->
  atomics_compareExchange m i e r =
    Some (v, if decide (v = e) then Shmem (<[i:=wrap32 r]> (cells m)) (waiters m) else m).
Proof.
  intros He. unfold atomics_compareExchange. rewrite Hv. simpl.
  rewrite (wrap32_id e He). by case_decide.
Qed.

Lemma is_int32_012 (z : Z) : 0 <= z <= 2 -> is_int32 z.
Proof. unfold is_int32, two31. lia. Qed.

Lemma lock_step_cas (p : lk_pc) (new : Z) :
  (p = LkCas01 /\ new = 1 \/ p = LkCas02 /\ new = 2) ->
  lock_step i t p m =
    Some (if v =? 0 then (Acquired, set_cell new) else (LkAt (lock_retry v), m)).
Proof.
  intros [[-> ->]|[-> ->]]; simpl;
    rewrite cmpxchg_eval by (apply is_int32_012; lia); simpl;
    case_zeq; subst; case_decide; try lia; reflexivity.
Qed.

Lemma lock_step_cas01 :
  lock_step i t LkCas01 m =
    Some (if v =? 0 then (Acquired, set_cell 1) else (LkAt (lock_retry v), m)).
Proof. apply lock_step_cas. auto. Qed.

Lemma lock_step_cas02 :
  lock_step i t LkCas02 m =
    Some (if v =? 0 then (Acquired, set_cell 2) else (LkAt (lock_retry v), m)).
Proof. apply lock_step_cas. auto. Qed.

Lemma lock_step_cas12 :
  lock_step i t LkCas12 m =
    Some (LkAt (if v =? 0 then LkCas02 else LkWait),
          if decide (v = 1) then set_cell 2 else m).
Proof.
  simpl. rewrite cmpxchg_eval by (apply is_int32_012; lia). simpl. reflexivity.
Qed.

Lemma lock_step_wait :
  lock_step i t LkWait m =
    Some (if decide (v = 2)
          then (LkAt LkParked, Shmem (cells m) (<[i:=waiters m !!! i ++ [t]]> (waiters m)))
          else (LkAt LkCas02, m)).
Proof.
  simpl. unfold atomics_wait. rewrite Hv. simpl.
  rewrite (wrap32_small 2) by (unfold two31; lia). by destruct (decide (v = 2)).
Qed.

Lemma tryLock_eval :
  tryLock i m = Some (v =? 0, if decide (v = 0) then set_cell 1 else m).
Proof. unfold tryLock. rewrite cmpxchg_eval by (apply is_int32_012; lia). reflexivity. Qed.

Lemma unlock_step_sub :
  unlock_step i UlSub m =
    Some (if v =? 1 then None else Some UlStore, [], set_cell (wrap32 (v - 1))).
Proof. simpl. unfold atomics_sub. rewrite Hv. reflexivity. Qed.

Lemma cell_in_range : (i < length (cells m))%nat.
Proof. apply lookup_lt_Some with v. exact Hv. Qed.

Lemma unlock_step_store :
  unlock_step i UlStore m = Some (Some UlNotify, [], set_cell 0).
Proof.
  simpl. unfold atomics_store. pose proof cell_in_range.
  case_decide; [|lia]. reflexivity.
Qed.

Lemma unlock_step_notify :
  unlock_step i UlNotify m =
    Some (None, take 1 (waiters m !!! i),
          Shmem (cells m) (<[i:=drop 1 (waiters m !!! i)]> (waiters m))).
Proof.
  simpl. unfold atomics_notify. pose proof cell_in_range.
  case_decide; [|lia]. reflexivity.
Qed.
End Steps.

(** C30. [unlock] run without interference, on a held lock (cell 1 or
    2), completes in at most three atomic operations, leaves the cell
    at 0, and wakes nobody when the cell was 1 and at most the first
    waiter of the cell when it was 2. *)
Theorem unlock_releases i m v :
  cells m !! i = Some v -> (v = 1 \/ v = 2) ->
  exists ws m', unlock_run 3 i UlSub m = Some (ws, m') /\
    cells m' !! i = Some 0 /\
    ws = (if v =? 1 then [] else take 1 (waiters m !!! i)).
Proof.
  intros Hv Hv12. pose proof (cell_in_range i m v Hv) as Hi.
  cbn [unlock_run]. rewrite (unlock_step_sub i m v Hv).
  destruct Hv12 as [->| ->]; cbn -[wrap32 set_cell unlock_step].
  - eexists _, _. split; [reflexivity|]. split; [|reflexivity].
    unfold set_cell; cbn [cells]. rewrite list_lookup_insert_eq by done.
    rewrite wrap32_small; [done | unfold two31; lia].
  - assert (Hs : cells (set_cell i m (wrap32 (2 - 1))) !! i = Some (wrap32 (2 - 1)))
      by (unfold set_cell; cbn [cells]; by rewrite list_lookup_insert_eq).
    rewrite (unlock_step_store _ _ _ Hs). cbn -[set_cell unlock_step].
    assert (H0 : cells (set_cell i (set_cell i m (wrap32 (2 - 1))) 0) !! i = Some 0)
      by (unfold set_cell; cbn [cells]; rewrite list_insert_insert, decide_True by done; by rewrite list_lookup_insert_eq).
    rewrite (unlock_step_notify _ _ _ H0). cbn. eexists _, _. split; [reflexivity|].
    split; [exact H0 | reflexivity].
Qed.

Lemma unlock_releases_witness :
  cells (Shmem [2%Z] (<[0%nat := [7%nat; 8%nat]]> ∅)) !! 0%nat = Some 2 /\ (2 = 1 \/ 2 = 2) /\
  exists ws m', unlock_run 3 0 UlSub (Shmem [2%Z] (<[0%nat := [7%nat; 8%nat]]> ∅)) = Some (ws, m') /\
    cells m' !! 0%nat = Some 0 /\
    ws = (if 2 =? 1 then [] else take 1 (waiters (Shmem [2%Z] (<[0%nat := [7%nat; 8%nat]]> ∅)) !!! 0%nat)).
Proof.
  split_and!; [reflexivity | right; reflexivity |].
  apply unlock_releases; [reflexivity | right; reflexivity].
Defined.
