(* ===== verification/Cond.v ===== *)
(** * [Cond] of src/src/lock.js

    A condition variable is a sequence cell next to its [Lock].
    [wait] (lines 246-254, and [asyncWait] 336-344) loads the sequence
    number, runs the lock's [unlock], waits on the sequence cell for a
    change, then runs the lock's [lock]; it is composed here from
    [unlock_step] and [lock_step] of [Lock.v] exactly in that order.
    [notifyOne] / [notifyAll] (259-274) increment the cell and wake one
    or all of its waiters. *)

From S2P Require Import Prelude Int32 Atomics Lock.

Local Open Scope Z_scope.

(** [new Cond(lock, loc)] (219-229): the parameters are checked against
    the lock's buffer; the result is the index of the sequence cell. *)
Definition cond_new (is_sab : bool) (byte_length loc : Z) : option nat :=
  if check_parameters is_sab byte_length loc then Some (ibase loc) else None.

(** [Cond.initialize(sab, loc)] (207-211). *)
Definition cond_initialize (is_sab : bool) (byte_length loc : Z) (m : shmem)
    : option shmem :=
  if check_parameters is_sab byte_length loc
  then atomics_store m (ibase loc) 0
  else None.

(** ** [wait] / [asyncWait] *)

(** - [CvLoad]: [seq = Atomics.load(seqIndex)] (line 249);
    - [CvUnlock p seq]: inside [lock.unlock()] (line 251);
    - [CvBlock seq]: [Atomics.wait(seqIndex, seq)] (line 252);
    - [CvParked]: asleep in that wait;
    - [CvRelock p]: inside [lock.lock()] (line 253). *)
Inductive cv_pc :=
  | CvLoad
  | CvUnlock (p : ul_pc) (seq : Z)
  | CvBlock (seq : Z)
  | CvParked
  | CvRelock (p : lk_pc).

#[export] Instance cv_pc_eq_dec : EqDecision cv_pc.
Proof. solve_decision. Defined.

(** The next atomic operation of [notifyOne] / [notifyAll]:
    - [NtAdd]: [Atomics.add(seqIndex, 1)] (lines 262, 272);
    - [NtWake]: [Atomics.notify(seqIndex, 1)] (263) or
      [Atomics.notify(seqIndex)] (273). *)
Inductive nt_pc := NtAdd | NtWake.

#[export] Instance nt_pc_eq_dec : EqDecision nt_pc.
Proof. solve_decision. Defined.

Section CondSteps.
Context (li ci : nat).   (** the lock's cell and the sequence cell *)

(** One atomic step of [wait] by agent [t]: the next point ([None]
    when [wait] returns with the lock held), the agents woken, the
    new memory. *)
Definition cond_wait_step (t : nat) (p : cv_pc) (m : shmem)
    : option (option cv_pc * list nat * shmem) :=
  match p with
  | CvLoad =>
      seq ← atomics_load m ci;
      Some (Some (CvUnlock UlSub seq), @nil nat, m)
  | CvUnlock up seq =>
      '(nx, ws, m') ← unlock_step li up m;
      Some (Some (match (nx : option ul_pc) with None => CvBlock seq | Some up' => CvUnlock up' seq end), ws, m')
  | CvBlock seq =>
      '(o, m') ← atomics_wait m ci seq t;
      Some (Some (match (o : wait_outcome) with Parked => CvParked | NotEqual => CvRelock LkCas01 end), @nil nat, m')
  | CvParked => None
  | CvRelock lp =>
      '(nx, m') ← lock_step li t lp m;
      Some (match (nx : lk_next) with Acquired => None | LkAt lp' => Some (CvRelock lp') end, @nil nat, m')
  end.

(** ** [notifyOne] / [notifyAll] *)

Definition notify_step (all : bool) (p : nt_pc) (m : shmem)
    : option (option nt_pc * list nat * shmem) :=
  match p with
  | NtAdd =>
      '(_, m') ← atomics_add m ci 1;
      Some (Some NtWake, @nil nat, m')
  | NtWake =>
      '(ws, m') ← atomics_notify m ci (if all then None else Some 1%nat);
      Some (None, ws, m')
  end.
End CondSteps.

(** ** Functional behaviour of the condition variable's own steps *)

Section CondEval.
Context (li ci t : nat) (m : shmem) (c : Z).
Hypothesis Hc : cells m !! ci = Some c.

Lemma seq_in_range : (ci < length (cells m))%nat.
Proof. apply lookup_lt_Some with c. exact Hc. Qed.

Lemma cond_wait_load :
  cond_wait_step li ci t CvLoad m = Some (Some (CvUnlock UlSub c), @nil nat, m).
Proof. simpl. unfold atomics_load. rewrite Hc. reflexivity. Qed.

Lemma cond_wait_block seq :
  cond_wait_step li ci t (CvBlock seq) m =
    Some (if decide (c = wrap32 seq)
          then (Some CvParked, @nil nat,
                Shmem (cells m) (<[ci:=waiters m !!! ci ++ [t]]> (waiters m)))
          else (Some (CvRelock LkCas01), @nil nat, m)).
Proof. simpl. unfold atomics_wait. rewrite Hc. simpl. by case_decide. Qed.

Lemma notify_add_eval (all : bool) :
  notify_step ci all NtAdd m =
    Some (Some NtWake, @nil nat, Shmem (<[ci:=wrap32 (c + 1)]> (cells m)) (waiters m)).
Proof. simpl. unfold atomics_add. rewrite Hc. reflexivity. Qed.

Lemma notify_wake_eval (all : bool) :
  notify_step ci all NtWake m =
    Some (None, take (if all then length (waiters m !!! ci) else 1%nat) (waiters m !!! ci),
          Shmem (cells m)
            (<[ci:=drop (if all then length (waiters m !!! ci) else 1%nat) (waiters m !!! ci)]>
               (waiters m))).
Proof.
  simpl. unfold atomics_notify. pose proof seq_in_range.
  case_decide; [|lia]. by destruct all.
Qed.
End CondEval.
