(* ===== verification/Serial.v ===== *)
(** * [serialize], [deserialize] and [toString] of [Lock] and [Cond]

    The object side of src/src/lock.js: a [Lock] object holds the
    buffer it views ([_iab], line 105) and its cell index ([_ibase],
    106); a [Cond] object holds the same view, its own index and its
    [lock] (226-228).  [serialize] (156-158, 290-296) turns them into
    plain objects that [postMessage] can clone, [deserialize] (164-169,
    302-311) rebuilds them through the constructors, and [toString]
    (149-151, 283-285) prints the byte offset.

    The values [deserialize] receives are the structured-clone values
    of [jsval]: [undefined], [null], booleans, integral numbers,
    [SharedArrayBuffer]s (by identity and [byteLength]) and plain
    objects.  Strings and arrays are not among them: [loc + 4] would
    then be a string concatenation, which this model does not follow. *)

From Stdlib Require Import DecimalString.
From stdpp Require Import strings.
From S2P Require Import Prelude Int32 Lock Cond.

Local Open Scope Z_scope.

Inductive jsval :=
  | JUndefined
  | JNull
  | JBool (b : bool)
  | JNum (z : Z)
  | JSab (id : nat) (byte_length : Z)
  | JObj (props : list (string * jsval)).

(** [typeof v == "object"] *)
Definition is_object (v : jsval) : bool :=
  match v with JNull | JSab _ _ | JObj _ => true | _ => false end.

(** [v == null]: loose equality holds for [null] and [undefined]. *)
Definition loose_null (v : jsval) : bool :=
  match v with JNull | JUndefined => true | _ => false end.

(** [!!v] *)
Definition truthy (v : jsval) : bool :=
  match v with
  | JUndefined | JNull => false
  | JBool b => b
  | JNum z => negb (z =? 0)
  | JSab _ _ | JObj _ => true
  end.

Fixpoint lookup_prop (k : string) (ps : list (string * jsval)) : jsval :=
  match ps with
  | [] => JUndefined
  | (k', v) :: ps' => if String.eqb k k' then v else lookup_prop k ps'
  end.

(** The property read [v.k]; buffers and primitives have none of the
    properties read here. *)
Definition get (v : jsval) (k : string) : jsval :=
  match v with JObj ps => lookup_prop k ps | _ => JUndefined end.

(** The number that [_checkParameters]'s tests [(loc | 0) == loc],
    [loc >= 0], [loc % 4 == 0] and [loc + 4 <= byteLength] see: a
    boolean acts as 0 or 1 in all four; [null], [undefined], buffers and
    plain objects fail the first ([0 == null] is false, an object
    converts to [NaN]). *)
Definition loc_number (v : jsval) : option Z :=
  match v with JNum z => Some z | JBool b => Some (Z.b2z b) | _ => None end.

(** The outcome of a call: a returned value ([None] is [null]) or an
    exception. *)
Inductive jsresult (A : Type) := Returned (r : option A) | Thrown.
Arguments Returned {A} r.
Arguments Thrown {A}.

(** ** Objects *)

(** A [Lock]: the buffer behind [_iab] and [_ibase]. *)
Record lock_obj := LockObj { lk_sab : nat; lk_byte_length : Z; lk_ibase : nat }.

(** [new Lock(sab, loc)] (103-107); [None] is the thrown [Error]. *)
Definition lock_construct (sab loc : jsval) : option lock_obj :=
  match sab, loc_number loc with
  | JSab id len, Some z => i ← lock_new true len z; Some (LockObj id len i)
  | _, _ => None
  end.

(** The [lock] argument of [new Cond(lock, loc)]: a [Lock] object or
    any other value. *)
Inductive lock_arg := ALock (l : lock_obj) | AValue (v : jsval).

(** A [Cond]: [_iab] ([None] when it is [undefined]), [_ibase] and
    [lock]. *)
Record cond_obj := CondObj { cv_iab : option (nat * Z); cv_ibase : nat; cv_lock : lock_arg }.

(** [new Cond(lock, loc)] (219-229): the parameters are checked on
    [lock._iab.buffer] for a [Lock] and on [lock] itself otherwise;
    [_iab] is copied from [lock]. *)
Definition cond_construct (lock : lock_arg) (loc : jsval) : option cond_obj :=
  let checked := match lock with ALock l => JSab (lk_sab l) (lk_byte_length l) | AValue v => v end in
  let iab := match lock with ALock l => Some (lk_sab l, lk_byte_length l) | AValue _ => None end in
  match checked, loc_number loc with
  | JSab _ len, Some z => i ← cond_new true len z; Some (CondObj iab i lock)
  | _, _ => None
  end.

(** ** [serialize] / [deserialize] *)

(** [Lock.prototype.serialize] (156-158). *)
Definition lock_serialize (l : lock_obj) : jsval :=
  JObj [("isLockObject", JBool true); ("sab", JSab (lk_sab l) (lk_byte_length l));
        ("loc", JNum (Z.of_nat (lk_ibase l) * 4))].

(** [Lock.deserialize] (164-169). *)
Definition lock_deserialize (repr : jsval) : jsresult lock_obj :=
  if negb (is_object repr) || loose_null repr || negb (truthy (get repr "isLockObject"))
  then Returned None
  else match lock_construct (get repr "sab") (get repr "loc") with
       | Some l => Returned (Some l)
       | None => Thrown
       end.

(** [Cond.prototype.serialize] (290-296); [None] is the [TypeError] of
    calling [this.lock.serialize] when [lock] is not a [Lock]. *)
Definition cond_serialize (c : cond_obj) : option jsval :=
  match cv_lock c with
  | ALock l => Some (JObj [("isCondObject", JBool true); ("lock", lock_serialize l);
                           ("loc", JNum (Z.of_nat (cv_ibase c) * 4))])
  | AValue _ => None
  end.

(** [Cond.deserialize] (302-311). *)
Definition cond_deserialize (repr : jsval) : jsresult cond_obj :=
  if negb (is_object repr) || loose_null repr || negb (truthy (get repr "isCondObject"))
  then Returned None
  else match lock_deserialize (get repr "lock") with
       | Thrown => Thrown
       | Returned None => Returned None
       | Returned (Some l) =>
           match cond_construct (ALock l) (get repr "loc") with
           | Some c => Returned (Some c)
           | None => Thrown
           end
       end.

(** ** [toString] *)

(** [String(n)] of a non-negative integral number: its decimal digits. *)
Definition number_string (n : nat) : string := NilEmpty.string_of_uint (Nat.to_uint n).

(** [String(v)] of the values a [Cond]'s [lock] can hold. *)
Definition js_string (v : jsval) : string :=
  match v with
  | JUndefined => "undefined"
  | JNull => "null"
  | JBool b => if b then "true" else "false"
  | JNum z => if z <? 0 then "-" +:+ number_string (Z.to_nat (- z)) else number_string (Z.to_nat z)
  | JSab _ _ => "[object SharedArrayBuffer]"
  | JObj _ => "[object Object]"
  end.

(** [Lock.prototype.toString] (149-151). *)
Definition lock_toString (l : lock_obj) : string :=
  "{/*Lock*/ loc:" +:+ number_string (lk_ibase l * 4) +:+ "}".

(** [Cond.prototype.toString] (283-285). *)
Definition cond_toString (c : cond_obj) : string :=
  "{/*Cond*/ loc:" +:+ number_string (cv_ibase c * 4) +:+ " lock:" +:+
  match cv_lock c with ALock l => lock_toString l | AValue v => js_string v end +:+ "}".

(** ** Well-formed objects

    A [Lock] is well formed when its cell lies inside its buffer; a
    [Cond] when it is built on a well-formed [Lock], views the lock's
    buffer and its own cell lies inside that buffer. *)
Definition lock_wf (l : lock_obj) : Prop :=
  (lk_ibase l < int32_length (lk_byte_length l))%nat.

Definition cond_wf (c : cond_obj) : Prop :=
  match cv_lock c with
  | ALock l => lock_wf l /\ cv_iab c = Some (lk_sab l, lk_byte_length l) /\
               (cv_ibase c < int32_length (lk_byte_length l))%nat
  | AValue _ => False
  end.

(** ** Lemmas *)

Lemma lock_construct_spec sab loc l :
  lock_construct sab loc = Some l ->
  exists z, sab = JSab (lk_sab l) (lk_byte_length l) /\ loc_number loc = Some z /\
    check_parameters true (lk_byte_length l) z = true /\ lk_ibase l = ibase z.
Proof.
  unfold lock_construct, lock_new.
  destruct sab; try discriminate; destruct (loc_number loc) as [z|]; try discriminate.
  destruct (check_parameters true byte_length z) eqn:Hc; intros; simplify_eq/=.
  eauto 10.
Qed.

Lemma cond_construct_lock l loc c :
  cond_construct (ALock l) loc = Some c ->
  exists z, loc_number loc = Some z /\ check_parameters true (lk_byte_length l) z = true /\
    c = CondObj (Some (lk_sab l, lk_byte_length l)) (ibase z) (ALock l).
Proof.
  unfold cond_construct, cond_new. cbn.
  destruct (loc_number loc) as [z|]; try discriminate.
  destruct (check_parameters true (lk_byte_length l) z) eqn:Hc; intros; simplify_eq/=. eauto.
Qed.

(** The offset a constructor accepted, printed back by [serialize],
    names the same cell. *)
Lemma construct_serialized_loc len z :
  check_parameters true len z = true ->
  check_parameters true len (Z.of_nat (ibase z) * 4) = true /\
  ibase (Z.of_nat (ibase z) * 4) = ibase z.
Proof. intros Hc. pose proof (check_parameters_spec _ _ _ Hc) as (_ & _ & _ & _ & ->). auto. Qed.

Lemma lock_construct_wf sab loc l : lock_construct sab loc = Some l -> lock_wf l.
Proof.
  unfold lock_wf. intros (z & _ & _ & Hc & ->)%lock_construct_spec.
  apply (check_parameters_spec _ _ _ Hc).
Qed.

Lemma lock_deserialize_some repr l :
  lock_deserialize repr = Returned (Some l) -> lock_construct (get repr "sab") (get repr "loc") = Some l.
Proof.
  unfold lock_deserialize. destruct (_ || _); [discriminate|].
  destruct lock_construct; congruence.
Qed.

Lemma lock_serialize_deserialize l :
  lock_construct (JSab (lk_sab l) (lk_byte_length l)) (JNum (Z.of_nat (lk_ibase l) * 4)) = Some l ->
  lock_deserialize (lock_serialize l) = Returned (Some l).
Proof. intros H. unfold lock_deserialize. cbn -[lock_construct]. by rewrite H. Qed.

Lemma lock_construct_reserialize sab loc l :
  lock_construct sab loc = Some l ->
  lock_construct (JSab (lk_sab l) (lk_byte_length l)) (JNum (Z.of_nat (lk_ibase l) * 4)) = Some l.
Proof.
  intros (z & _ & _ & Hc & Hi)%lock_construct_spec. destruct l as [id len i]; cbn in *; subst i.
  destruct (construct_serialized_loc _ _ Hc) as [Hc' Hi'].
  unfold lock_construct, lock_new. cbn. by rewrite Hc', Hi'.
Qed.

(** A [Cond] constructed on a bare buffer instead of a [Lock] passes
    the parameter check, but its [_iab] is [lock._iab], [undefined]:
    its [wait] and [notify] fail later instead of the constructor. *)
Lemma cond_on_buffer_has_no_view id len z :
  check_parameters true len z = true ->
  cond_construct (AValue (JSab id len)) (JNum z) = Some (CondObj None (ibase z) (AValue (JSab id len))).
Proof. intros Hc. unfold cond_construct, cond_new. cbn. by rewrite Hc. Qed.

(** C31. [Lock.deserialize] inverts [Lock.prototype.serialize]: every
    [Lock] the constructor builds comes back from its serialized form
    as the same object (same buffer, same cell). *)
Theorem lock_serialize_roundtrip sab loc l :
  lock_construct sab loc = Some l ->
  lock_deserialize (lock_serialize l) = Returned (Some l).
Proof. intros H. apply lock_serialize_deserialize, (lock_construct_reserialize sab loc), H. Qed.

Lemma lock_serialize_roundtrip_witness :
  lock_construct (JSab 7 32) (JNum 24) = Some (LockObj 7 32 6) /\
  lock_deserialize (lock_serialize (LockObj 7 32 6)) = Returned (Some (LockObj 7 32 6)).
Proof. split; [reflexivity | apply (lock_serialize_roundtrip (JSab 7 32) (JNum 24)); reflexivity]. Defined.

(** C32. [Cond.deserialize] inverts [Cond.prototype.serialize]: a
    [Cond] built on a constructed [Lock] serializes without error, and
    its serialized form (which carries the lock's) deserializes to the
    same condition on the same lock. *)
Theorem cond_serialize_roundtrip sab lloc l loc c :
  lock_construct sab lloc = Some l ->
  cond_construct (ALock l) loc = Some c ->
  exists r, cond_serialize c = Some r /\ cond_deserialize r = Returned (Some c).
Proof.
  intros Hl (z & _ & Hc & ->)%cond_construct_lock.
  destruct (construct_serialized_loc _ _ Hc) as [Hc' Hi'].
  eexists. split; [reflexivity|]. unfold cond_deserialize. cbn -[lock_deserialize cond_construct].
  rewrite (lock_serialize_deserialize l (lock_construct_reserialize sab lloc l Hl)).
  unfold cond_construct, cond_new. cbn. by rewrite Hc', Hi'.
Qed.

Lemma cond_serialize_roundtrip_witness :
  lock_construct (JSab 7 32) (JNum 0) = Some (LockObj 7 32 0) /\
  cond_construct (ALock (LockObj 7 32 0)) (JNum 8) = Some (CondObj (Some (7%nat, 32)) 2 (ALock (LockObj 7 32 0))) /\
  exists r, cond_serialize (CondObj (Some (7%nat, 32)) 2 (ALock (LockObj 7 32 0))) = Some r /\
    cond_deserialize r = Returned (Some (CondObj (Some (7%nat, 32)) 2 (ALock (LockObj 7 32 0)))).
Proof.
  split_and!; [reflexivity | reflexivity |].
  apply (cond_serialize_roundtrip (JSab 7 32) (JNum 0) (LockObj 7 32 0) (JNum 8)); reflexivity.
Defined.

(** C33. Whatever value [deserialize] receives, the objects it returns
    are well formed: a [Lock]'s cell lies inside its buffer, and a
    [Cond] views its lock's buffer with its own cell inside it. *)
Theorem deserialize_well_formed repr :
  (forall l, lock_deserialize repr = Returned (Some l) -> lock_wf l) /\
  (forall c, cond_deserialize repr = Returned (Some c) -> cond_wf c).
Proof.
  split; [intros l H; by eapply lock_construct_wf, lock_deserialize_some|].
  intros c. unfold cond_deserialize. destruct (_ || _); [discriminate|].
  destruct (lock_deserialize (get repr "lock")) as [[l|]|] eqn:Hl; try discriminate.
  destruct (cond_construct (ALock l) (get repr "loc")) eqn:Hc; intros; simplify_eq.
  apply cond_construct_lock in Hc as (z & _ & Hz & ->). cbn.
  split_and!; [by eapply lock_construct_wf, lock_deserialize_some | done |].
  apply (check_parameters_spec _ _ _ Hz).
Qed.

Lemma deserialize_well_formed_witness :
  lock_deserialize (lock_serialize (LockObj 7 32 6)) = Returned (Some (LockObj 7 32 6)) /\
  lock_wf (LockObj 7 32 6).
Proof.
  split; [reflexivity|].
  apply (proj1 (deserialize_well_formed (lock_serialize (LockObj 7 32 6)))). reflexivity.
Defined.
