(* ===== verification/Polyfill.v ===== *)
(** * The [Atomics.waitNonblocking] polyfill of src/src/lock.js

    The main thread may not block, so [asyncLock] and [asyncWait]
    (lock.js 321-344) await [Atomics.waitNonblocking(ia, i, v)].  The
    polyfill (346-451) returns a promise: at once resolved with
    ["not-equal"] when the cell already differs from [v] (the fast
    path, 411-412); otherwise it takes a helper worker from the pool
    [helpers] ([allocHelper], 373-378), sets its [onmessage] to settle
    the promise and posts it ['wait', ia, i, v, timeout].  The helper
    (352-368) runs the blocking [Atomics.wait] and posts ['ok', result];
    the main thread's handler (418-431) returns the helper to the pool
    ([freeHelper], 380-382) and resolves the promise.

    [pstate] holds the shared memory, the pool, every helper worker
    created (its message queue and the cell it is blocked on), the
    handlers, the main thread's queue of helper messages and the
    promises.  [pstep] interleaves the main thread's calls and message
    handling, the helpers, and the other agents' [Atomics] operations
    on the same memory.  Helper [h] is the agent [base + h] of
    [Atomics.v]; the other agents are numbered below [base]. *)

From S2P Require Import Prelude Int32 Atomics.

Local Open Scope Z_scope.

(** The strings [Atomics.wait] returns: ["ok"] and ["not-equal"];
    ["timed-out"] needs a timeout, and lock.js never passes one. *)
Inductive wait_result := WrOk | WrNotEqual.

(** ['ok', result] and ['error', 'Exception'] (358, 366). *)
Inductive hmsg := HOk (r : wait_result) | HError.

Inductive promise := Pending | Resolved (r : wait_result) | Rejected.

(** A helper worker: its queue of ['wait', ia, index, value] messages
    and the cell it is blocked on in [Atomics.wait]. *)
Record helper := Helper { h_inbox : list (Z * Z); h_parked : option nat }.

Record pstate := PState {
  ps_mem : shmem;
  ps_helpers : list nat;              (** the array [helpers] *)
  ps_workers : list helper;           (** the helper workers created *)
  ps_onmessage : gmap nat nat;        (** [h.onmessage] settles this promise *)
  ps_inbox : list (nat * hmsg);       (** helper messages not yet handled *)
  ps_promises : list promise
}.

(** [TypeError] (395-396) and the [RangeError] of [Atomics.load] on an
    index outside the array (411). *)
Inductive call_error := TypeError | RangeError.

Section Polyfill.
Context (base : nat).

Definition hagent (h : nat) : nat := base + h.

Definition helper_of (a : nat) : option nat :=
  if (base <=? a)%nat then Some (a - base)%nat else None.

(** [allocHelper()] (373-378): [helpers.pop()], or a new worker. *)
Definition allocHelper (s : pstate) : nat * pstate :=
  match last (ps_helpers s) with
  | Some h => (h, PState (ps_mem s) (removelast (ps_helpers s)) (ps_workers s)
                         (ps_onmessage s) (ps_inbox s) (ps_promises s))
  | None => (length (ps_workers s),
             PState (ps_mem s) (ps_helpers s) (ps_workers s ++ [Helper [] None])
                    (ps_onmessage s) (ps_inbox s) (ps_promises s))
  end.

(** [freeHelper(h)] (380-382): [helpers.push(h)]. *)
Definition freeHelper (h : nat) (s : pstate) : pstate :=
  PState (ps_mem s) (ps_helpers s ++ [h]) (ps_workers s) (ps_onmessage s) (ps_inbox s) (ps_promises s).

(** [h.postMessage(['wait', ia, index, value, timeout])] (448). *)
Definition post_wait (h : nat) (i v : Z) (s : pstate) : pstate :=
  PState (ps_mem s) (ps_helpers s)
         (alter (fun w => Helper (h_inbox w ++ [(i, v)]) (h_parked w)) h (ps_workers s))
         (ps_onmessage s) (ps_inbox s) (ps_promises s).

Definition new_promise (x : promise) (s : pstate) : nat * pstate :=
  (length (ps_promises s),
   PState (ps_mem s) (ps_helpers s) (ps_workers s) (ps_onmessage s) (ps_inbox s)
          (ps_promises s ++ [x])).

(** [Atomics.waitNonblocking(ia, index_, value_)] (394-450) on the
    shared [Int32Array] when [shared] holds: the promise's number and
    the new state, or the exception. *)
Definition waitNonblocking (shared : bool) (index_ value_ : Z) (s : pstate)
    : (call_error + nat) * pstate :=
  if negb shared then (inl TypeError, s) else
  let index := wrap32 index_ in
  let value := wrap32 value_ in
  match (if index <? 0 then None else atomics_load (ps_mem s) (Z.to_nat index)) with
  | None => (inl RangeError, s)
  | Some w =>
      if negb (w =? value) then
        let '(p, s1) := new_promise (Resolved WrNotEqual) s in (inr p, s1)
      else
        let '(p, s1) := new_promise Pending s in
        let '(h, s2) := allocHelper s1 in
        let s3 := PState (ps_mem s2) (ps_helpers s2) (ps_workers s2)
                         (<[h:=p]> (ps_onmessage s2)) (ps_inbox s2) (ps_promises s2) in
        (inr p, post_wait h index value s3)
  end.

(** The helper's [onmessage] (352-368) on its first message: the
    blocking [Atomics.wait] either returns ["not-equal"], posted at
    once, or blocks the helper; an exception (an index out of range)
    posts ['error', 'Exception']. *)
Definition helper_recv (h : nat) (s : pstate) : option pstate :=
  w ← ps_workers s !! h;
  match h_parked w, h_inbox w with
  | None, (i, v) :: rest =>
      let upd (p : option nat) := <[h:=Helper rest p]> (ps_workers s) in
      match (if i <? 0 then None else atomics_wait (ps_mem s) (Z.to_nat i) v (hagent h)) with
      | Some (NotEqual, _) =>
          Some (PState (ps_mem s) (ps_helpers s) (upd None) (ps_onmessage s)
                       (ps_inbox s ++ [(h, HOk WrNotEqual)]) (ps_promises s))
      | Some (Parked, m') =>
          Some (PState m' (ps_helpers s) (upd (Some (Z.to_nat i))) (ps_onmessage s)
                       (ps_inbox s) (ps_promises s))
      | None =>
          Some (PState (ps_mem s) (ps_helpers s) (upd None) (ps_onmessage s)
                       (ps_inbox s ++ [(h, HError)]) (ps_promises s))
      end
  | _, _ => None
  end.

(** Agents woken by an [Atomics.notify] return from their wait; a
    helper among them posts ['ok', 'ok']. *)
Definition wake_helpers (ws : list nat) (s : pstate) : pstate :=
  PState (ps_mem s) (ps_helpers s)
         (imap (fun h w => if decide (hagent h ∈ ws) then Helper (h_inbox w) None else w)
               (ps_workers s))
         (ps_onmessage s)
         (ps_inbox s ++ omap (fun a => h ← helper_of a; Some (h, HOk WrOk)) ws)
         (ps_promises s).

(** The first message of helper [h] in the main thread's queue (each
    worker's messages arrive in order). *)
Fixpoint take_reply (h : nat) (l : list (nat * hmsg)) : option (hmsg * list (nat * hmsg)) :=
  match l with
  | [] => None
  | (h', m) :: l' =>
      if (h' =? h)%nat then Some (m, l')
      else '(m0, l'') ← take_reply h l'; Some (m0, (h', m) :: l'')
  end.

(** [resolve(x)] / [reject(x)]: a settled promise ignores them. *)
Definition settle (p : nat) (x : promise) (s : pstate) : pstate :=
  match ps_promises s !! p with
  | Some Pending => PState (ps_mem s) (ps_helpers s) (ps_workers s) (ps_onmessage s)
                           (ps_inbox s) (<[p:=x]> (ps_promises s))
  | _ => s
  end.

(** [h.onmessage] (418-431): free the helper, then settle. *)
Definition main_deliver (h : nat) (s : pstate) : option pstate :=
  '(m, rest) ← take_reply h (ps_inbox s);
  let s1 := PState (ps_mem s) (ps_helpers s) (ps_workers s) (ps_onmessage s) rest (ps_promises s) in
  match ps_onmessage s !! h with
  | None => Some s1
  | Some p =>
      let s2 := freeHelper h s1 in
      Some (match m with HOk r => settle p (Resolved r) s2 | HError => settle p Rejected s2 end)
  end.

Definition with_mem (m : shmem) (s : pstate) : pstate :=
  PState m (ps_helpers s) (ps_workers s) (ps_onmessage s) (ps_inbox s) (ps_promises s).

(** The interleaving: the main thread calls [waitNonblocking] or
    handles a helper's message, a helper handles its message, or
    another agent (numbered below [base]) stores, waits or notifies. *)
Inductive pstep : pstate -> pstate -> Prop :=
  | PsCall s s' idx v p : waitNonblocking true idx v s = (inr p, s') -> pstep s s'
  | PsRecv s s' h : helper_recv h s = Some s' -> pstep s s'
  | PsDeliver s s' h : main_deliver h s = Some s' -> pstep s s'
  | PsStore s m' i v : atomics_store (ps_mem s) i v = Some m' -> pstep s (with_mem m' s)
  | PsWait s m' i v a o : (a < base)%nat -> atomics_wait (ps_mem s) i v a = Some (o, m') ->
      pstep s (with_mem m' s)
  | PsNotify s m' i c ws : atomics_notify (ps_mem s) i c = Some (ws, m') ->
      pstep s (wake_helpers ws (with_mem m' s)).

(** Before the first call: no helper, no promise, and no helper agent
    waiting in the memory. *)
Definition pinit (m : shmem) : pstate := PState m [] [] ∅ [] [].

Definition pinit_ok (m : shmem) : Prop := forall i a, a ∈ waiters m !!! i -> (a < base)%nat.

Inductive preachable : pstate -> Prop :=
  | preach_init m : pinit_ok m -> preachable (pinit m)
  | preach_step s s' : preachable s -> pstep s s' -> preachable s'.
End Polyfill.

(** ** The pool invariant

    What a helper [h] has to do: the ['wait'] messages in its queue,
    the wait it is blocked in, and its messages not yet handled by the
    main thread. *)
Inductive job := JSent (i v : Z) | JParked (i : nat) | JReplied (m : hmsg).

Definition replies (h : nat) (l : list (nat * hmsg)) : list hmsg :=
  omap (fun hm => if (hm.1 =? h)%nat then Some hm.2 else None) l.

Definition jobs (s : pstate) (h : nat) : list job :=
  match ps_workers s !! h with
  | Some w => ((fun iv => JSent iv.1 iv.2) <$> h_inbox w) ++ (JParked <$> option_list (h_parked w))
  | None => []
  end ++ (JReplied <$> replies h (ps_inbox s)).

Definition parked_on (s : pstate) (h : nat) : option nat := w ← ps_workers s !! h; h_parked w.

Section Invariant.
Context (base : nat).

(** - the pool holds each helper once, exactly the created helpers with
      nothing to do;
    - a helper has at most one job, and then its [onmessage] settles a
      pending promise that no other busy helper settles;
    - every pending promise has a busy helper;
    - the waits sent are on cells of the array, so no helper reports
      an exception and no promise is rejected;
    - a helper is in the waiter list of cell [i] once exactly when it
      is blocked on [i]. *)
Record pool_inv (s : pstate) : Prop := {
  pi_nodup : NoDup (ps_helpers s);
  pi_free h : h ∈ ps_helpers s <-> (h < length (ps_workers s))%nat /\ jobs s h = [];
  pi_created h : (length (ps_workers s) <= h)%nat -> jobs s h = [];
  pi_busy h : jobs s h <> [] -> exists j p, jobs s h = [j] /\
    ps_onmessage s !! h = Some p /\ ps_promises s !! p = Some Pending;
  pi_unique h h' p : jobs s h <> [] -> jobs s h' <> [] ->
    ps_onmessage s !! h = Some p -> ps_onmessage s !! h' = Some p -> h = h';
  pi_served p : ps_promises s !! p = Some Pending ->
    exists h, jobs s h <> [] /\ ps_onmessage s !! h = Some p;
  pi_sent h i v : JSent i v ∈ jobs s h -> 0 <= i /\ (Z.to_nat i < length (cells (ps_mem s)))%nat;
  pi_no_error h : JReplied HError ∉ jobs s h;
  pi_waiters h i : cnt (fun a => (a =? hagent base h)%nat) (waiters (ps_mem s) !!! i) =
    if decide (parked_on s h = Some i) then 1%nat else 0%nat;
  pi_no_reject p : ps_promises s !! p <> Some Rejected
}.

Lemma replies_app h l1 l2 : replies h (l1 ++ l2) = replies h l1 ++ replies h l2.
Proof. apply omap_app. Qed.

Lemma replies_other h h' m : h' <> h -> replies h [(h', m)] = [].
Proof. intros Hne. cbn. by destruct (Nat.eqb_spec h' h). Qed.

Lemma replies_same h m : replies h [(h, m)] = [m].
Proof. cbn. by rewrite Nat.eqb_refl. Qed.

Lemma replies_cons h h' m l :
  replies h ((h', m) :: l) = (if (h' =? h)%nat then [m] else []) ++ replies h l.
Proof. cbn. by destruct (h' =? h)%nat. Qed.

Lemma take_reply_spec h l m rest :
  take_reply h l = Some (m, rest) ->
  replies h l = m :: replies h rest /\ forall h', h' <> h -> replies h' rest = replies h' l.
Proof.
  revert rest. induction l as [|[h' m'] l IH]; intros rest H; [discriminate|]. cbn in H.
  destruct (Nat.eqb_spec h' h) as [->|Hne].
  - injection H as <- <-. rewrite replies_cons, Nat.eqb_refl. split; [done|].
    intros h'' Hh''. rewrite replies_cons. destruct (Nat.eqb_spec h h''); [congruence|done].
  - destruct (take_reply h l) as [[m0 l'']|] eqn:E; [|discriminate]. injection H as <- <-.
    destruct (IH _ eq_refl) as [IH1 IH2]. rewrite !replies_cons.
    destruct (Nat.eqb_spec h' h); [congruence|]. split; [done|].
    intros h'' Hh''. rewrite !replies_cons, IH2 by done. reflexivity.
Qed.

Lemma jobs_with_mem m s h : jobs (with_mem m s) h = jobs s h.
Proof. reflexivity. Qed.

Lemma parked_on_with_mem m s h : parked_on (with_mem m s) h = parked_on s h.
Proof. reflexivity. Qed.

Lemma hagent_inj h h' : hagent base h = hagent base h' -> h = h'.
Proof. unfold hagent. lia. Qed.

Lemma helper_of_hagent a h : helper_of base a = Some h <-> a = hagent base h.
Proof. unfold helper_of, hagent. destruct (Nat.leb_spec base a); split; intros; simplify_eq; try lia. f_equal; lia. Qed.
End Invariant.

Section Preservation.
Context (base : nat).
Abbreviation hagent := (hagent base).
Abbreviation hcount h l := (cnt (fun a => (a =? hagent h)%nat) l).

Lemma jobs_single s h j :
  jobs s h = [j] ->
  match j with
  | JSent i v => exists w, ps_workers s !! h = Some w /\ h_inbox w = [(i, v)] /\
                   h_parked w = None /\ replies h (ps_inbox s) = []
  | JParked i => exists w, ps_workers s !! h = Some w /\ h_inbox w = [] /\
                   h_parked w = Some i /\ replies h (ps_inbox s) = []
  | JReplied m => (forall w, ps_workers s !! h = Some w -> h_inbox w = [] /\ h_parked w = None) /\
                  replies h (ps_inbox s) = [m]
  end.
Proof.
  unfold jobs. destruct (ps_workers s !! h) as [[ib pk]|]; cbn.
  - destruct ib as [|[i v] [|? ?]], pk as [k|], (replies h (ps_inbox s)) as [|m [|? ?]];
      cbn; intros Hj; simplify_eq; eauto 10.
    split; [by intros ? [= <-] | done].
  - destruct (replies h (ps_inbox s)) as [|m [|? ?]]; cbn; intros Hj; simplify_eq.
    split; [done|done].
Qed.

Lemma parked_in_jobs s h i : parked_on s h = Some i -> JParked i ∈ jobs s h.
Proof.
  unfold parked_on, jobs. destruct (ps_workers s !! h) as [[ib pk]|]; cbn; [|done].
  intros ->. set_solver.
Qed.

Lemma sent_in_jobs s h w i v rest :
  ps_workers s !! h = Some w -> h_inbox w = (i, v) :: rest -> JSent i v ∈ jobs s h.
Proof. unfold jobs. intros -> ->. cbn. set_solver. Qed.

Lemma replied_in_jobs s h m : m ∈ replies h (ps_inbox s) -> JReplied m ∈ jobs s h.
Proof. unfold jobs. intros Hm. apply elem_of_app. right. by apply list_elem_of_fmap_2. Qed.

Lemma busy_single s h : pool_inv base s -> jobs s h <> [] -> exists j, jobs s h = [j].
Proof. intros Hinv Hb. destruct (pi_busy _ _ Hinv h Hb) as (j & _ & Hj & _). eauto. Qed.

Lemma elem_jobs_single s h j : pool_inv base s -> j ∈ jobs s h -> jobs s h = [j].
Proof.
  intros Hinv Hj. assert (Hb : jobs s h <> []) by (intros E; rewrite E in Hj; set_solver).
  destruct (busy_single s h Hinv Hb) as [j' Hj']. rewrite Hj' in Hj |- *. set_solver.
Qed.

(** Only the memory changes, with every helper's waiter counts. *)
Lemma pool_inv_mem s m' :
  pool_inv base s -> length (cells m') = length (cells (ps_mem s)) ->
  (forall h i, hcount h (waiters m' !!! i) = hcount h (waiters (ps_mem s) !!! i)) ->
  pool_inv base (with_mem m' s).
Proof.
  intros [] Hlen Hw. constructor; cbn; try done.
  - intros h i v. rewrite jobs_with_mem, Hlen. eauto.
  - intros h i. rewrite Hw, parked_on_with_mem. auto.
Qed.

Lemma pool_inv_init m : pinit_ok base m -> pool_inv base (pinit m).
Proof.
  intros Hok. assert (Hj : forall h, jobs (pinit m) h = []) by (intros h; reflexivity).
  constructor; cbn; try (intros; rewrite ?Hj in *; set_solver || done).
  - constructor.
  - intros h. split; [set_solver|lia].
  - intros h i. apply cnt_zero_lookup. intros k a Ha.
    assert (a < base)%nat by (eapply Hok, list_elem_of_lookup_2, Ha).
    apply Nat.eqb_neq. unfold Polyfill.hagent. lia.
Qed.
(** Appending agent [a] to the waiter list of cell [i]. *)
Lemma hcount_enqueue (w : gmap nat (list nat)) i a h j :
  hcount h (<[i:=w !!! i ++ [a]]> w !!! j) =
    (hcount h (w !!! j) + if decide (j = i) then b2n (a =? hagent h)%nat else 0)%nat.
Proof.
  destruct (decide (j = i)) as [->|Hne].
  - rewrite lookup_total_insert_eq, cnt_app. cbn. unfold b2n. destruct (a =? _)%nat; lia.
  - rewrite lookup_total_insert_ne by done. lia.
Qed.

Lemma pool_inv_store s i v m' :
  pool_inv base s -> atomics_store (ps_mem s) i v = Some m' -> pool_inv base (with_mem m' s).
Proof.
  intros Hinv (Hi & ->)%atomics_store_spec. apply pool_inv_mem; [done| |done].
  cbn. by rewrite length_insert.
Qed.

Lemma pool_inv_env_wait s i v a o m' :
  pool_inv base s -> (a < base)%nat -> atomics_wait (ps_mem s) i v a = Some (o, m') ->
  pool_inv base (with_mem m' s).
Proof.
  intros Hinv Ha (w & _ & [(_ & _ & ->) | (_ & _ & ->)])%atomics_wait_spec;
    [|by destruct s].
  apply pool_inv_mem; [done|done|]. intros h j. cbn. rewrite hcount_enqueue.
  case_decide; [|lia]. unfold b2n, Polyfill.hagent.
  destruct (Nat.eqb_spec a (base + h)); lia.
Qed.
(** [allocHelper] on a pool that satisfies the first three clauses of
    the invariant returns an idle helper and removes it from the pool. *)
Lemma allocHelper_spec s h s2 :
  NoDup (ps_helpers s) ->
  (forall h, h ∈ ps_helpers s <-> (h < length (ps_workers s))%nat /\ jobs s h = []) ->
  (forall h, (length (ps_workers s) <= h)%nat -> jobs s h = []) ->
  allocHelper s = (h, s2) ->
  ps_mem s2 = ps_mem s /\ ps_onmessage s2 = ps_onmessage s /\ ps_inbox s2 = ps_inbox s /\
  ps_promises s2 = ps_promises s /\ jobs s h = [] /\
  NoDup (ps_helpers s2) /\ (forall h', h' ∈ ps_helpers s2 <-> h' ∈ ps_helpers s /\ h' <> h) /\
  (forall h', (h' < length (ps_workers s2))%nat <-> (h' < length (ps_workers s))%nat \/ h' = h) /\
  ps_workers s2 !! h = Some (Helper [] None) /\
  (forall h', h' <> h -> ps_workers s2 !! h' = ps_workers s !! h').
Proof.
  intros Hnd Hfree Hcr. unfold allocHelper.
  destruct (last (ps_helpers s)) as [h0|] eqn:Hl.
  - intros [= <- <-]. apply last_Some in Hl as [l' Hl'].
    assert (Hin : h0 ∈ ps_helpers s) by (rewrite Hl'; set_solver).
    destruct (proj1 (Hfree h0) Hin) as [Hlt Hj].
    rewrite Hl' in Hnd. apply NoDup_app in Hnd as (Hnd' & Hdisj & _).
    cbn. rewrite Hl', removelast_last. split_and!; try done.
    + intros h'. split; [intros Hh'; split; [set_solver|] | intros [Hh' Hne]; set_solver].
      intros ->. by apply (Hdisj h0 Hh'); set_solver.
    + intros h'. split; [lia|]. intros [?| ->]; lia.
    + unfold jobs in Hj. destruct (ps_workers s !! h0) as [[ib pk]|] eqn:Hw; [|apply lookup_lt_is_Some_2 in Hlt; destruct Hlt; congruence].
      destruct ib, pk; cbn in Hj; try discriminate. done.
  - intros [= <- <-]. apply last_None in Hl. cbn. rewrite Hl. split_and!; try done.
    + apply Hcr. lia.
    + constructor.
    + set_solver.
    + intros h'. rewrite length_app. cbn. lia.
    + rewrite lookup_app_r, Nat.sub_diag by lia. done.
    + intros h' Hne. destruct (decide (h' < length (ps_workers s))%nat).
      * by rewrite lookup_app_l.
      * rewrite lookup_app_r by lia. rewrite (lookup_ge_None_2 (ps_workers s)) by lia.
        apply lookup_ge_None_2. cbn. lia.
Qed.
Lemma waitNonblocking_inr idx val s p s' :
  waitNonblocking true idx val s = (inr p, s') ->
  exists i w, 0 <= i /\ atomics_load (ps_mem s) (Z.to_nat i) = Some w /\ p = length (ps_promises s) /\
  ((w <> wrap32 val /\ s' = snd (new_promise (Resolved WrNotEqual) s)) \/
   (w = wrap32 val /\ exists h s2, allocHelper (snd (new_promise Pending s)) = (h, s2) /\
      s' = post_wait h i (wrap32 val) (PState (ps_mem s2) (ps_helpers s2) (ps_workers s2)
                         (<[h:=p]> (ps_onmessage s2)) (ps_inbox s2) (ps_promises s2)))).
Proof.
  unfold waitNonblocking. intros H. cbn -[new_promise allocHelper] in H.
  destruct (Z.ltb_spec (wrap32 idx) 0); [discriminate|].
  destruct (atomics_load (ps_mem s) (Z.to_nat (wrap32 idx))) as [w|] eqn:Hw; [|discriminate].
  exists (wrap32 idx), w. split; [lia|]. split; [done|].
  destruct (Z.eqb_spec w (wrap32 val)); cbn -[allocHelper] in H.
  - destruct (allocHelper _) as [h s2] eqn:Ha. injection H as <- <-. split; [done|]. right. eauto 10.
  - injection H as <- <-. auto.
Qed.

Lemma jobs_post_wait_same h i v s w :
  ps_workers s !! h = Some w ->
  jobs (post_wait h i v s) h = jobs s h ++ [JSent i v] \/ h_parked w <> None \/ replies h (ps_inbox s) <> [].
Proof.
  intros Hw. unfold jobs, post_wait. cbn [ps_workers ps_inbox].
  rewrite list_lookup_alter, Hw. cbn [fmap option_fmap option_map].
  destruct w as [ib [k|]]; cbn [h_parked h_inbox]; [right; left; done|].
  destruct (replies h (ps_inbox s)) eqn:Hr; [left|right; right; done].
  rewrite decide_True by done. cbn [h_inbox h_parked]. rewrite fmap_app. cbn. by rewrite !app_nil_r.
Qed.

Lemma jobs_post_wait_other h h' i v s :
  h' <> h -> jobs (post_wait h i v s) h' = jobs s h'.
Proof. intros Hne. unfold jobs, post_wait. cbn [ps_workers ps_inbox]. by rewrite list_lookup_alter_ne. Qed.
Lemma jobs_new_promise x s h : jobs (snd (new_promise x s)) h = jobs s h.
Proof. reflexivity. Qed.

(** A pending promise of the old list is still pending after one more
    promise is appended. *)
Lemma pending_snoc l x q :
  (l ++ [x]) !! q = Some Pending -> l !! q = Some Pending \/ (q = length l /\ x = Pending).
Proof. rewrite lookup_snoc_Some. naive_solver. Qed.

Lemma pool_inv_fast s :
  pool_inv base s -> pool_inv base (snd (new_promise (Resolved WrNotEqual) s)).
Proof.
  intros []. constructor; cbn [snd new_promise ps_mem ps_helpers ps_workers ps_onmessage ps_inbox ps_promises];
    rewrite ?jobs_new_promise; try done.
  - intros h Hb. destruct (pi_busy0 h Hb) as (j & p & Hj & Hp & Hpp).
    exists j, p. split_and!; [done|done|]. by apply lookup_app_l_Some.
  - intros p [Hp | [_ [=]]]%pending_snoc. auto.
  - intros p [[_ Hp] | (_ & [=])]%lookup_snoc_Some. by apply (pi_no_reject0 p).
Qed.
Lemma jobs_ext s t h :
  ps_workers s !! h = ps_workers t !! h -> ps_inbox s = ps_inbox t -> jobs s h = jobs t h.
Proof. unfold jobs. by intros -> ->. Qed.

Lemma jobs_nil s h :
  jobs s h = [] -> replies h (ps_inbox s) = [] /\ parked_on s h = None /\
  forall w, ps_workers s !! h = Some w -> h_inbox w = [].
Proof.
  unfold jobs, parked_on. intros H. apply app_nil in H as [Hw Hr].
  apply fmap_nil_inv in Hr. split; [done|].
  destruct (ps_workers s !! h) as [[ib pk]|]; cbn in *; [|done].
  apply app_nil in Hw as [Hi Hp]. apply fmap_nil_inv in Hi. destruct pk; [discriminate|].
  split; [done|]. by intros ? [= <-].
Qed.

(** The state after the slow path of [waitNonblocking]: helper [h]
    now has the one job [JSent i v], the others are unchanged. *)
Lemma slow_path_jobs s h s2 i v p :
  pool_inv base s ->
  allocHelper (snd (new_promise Pending s)) = (h, s2) ->
  let S := post_wait h i v (PState (ps_mem s2) (ps_helpers s2) (ps_workers s2)
                              (<[h:=p]> (ps_onmessage s2)) (ps_inbox s2) (ps_promises s2)) in
  jobs s h = [] /\ jobs S h = [JSent i v] /\ (forall h', h' <> h -> jobs S h' = jobs s h') /\
  (forall h', parked_on S h' = parked_on s h') /\
  ps_mem S = ps_mem s /\ ps_onmessage S = <[h:=p]> (ps_onmessage s) /\ ps_inbox S = ps_inbox s /\
  ps_promises S = ps_promises s ++ [Pending] /\
  NoDup (ps_helpers S) /\ (forall h', h' ∈ ps_helpers S <-> h' ∈ ps_helpers s /\ h' <> h) /\
  (forall h', (h' < length (ps_workers S))%nat <-> (h' < length (ps_workers s))%nat \/ h' = h).
Proof.
  intros [] Ha S.
  destruct (allocHelper_spec (snd (new_promise Pending s)) _ _ pi_nodup0 pi_free0 pi_created0 Ha)
    as (Hm & Ho & Hi & Hp & Hj & Hnd & Hfr & Hlen & Hh & Hoth).
  rewrite jobs_new_promise in Hj.
  cbn [snd new_promise ps_mem ps_helpers ps_workers ps_onmessage ps_inbox ps_promises] in *.
  destruct (jobs_nil _ _ Hj) as (Hr & Hpk & _).
  assert (Hpre : forall h', h' <> h -> jobs S h' = jobs s h').
  { intros h' Hne. unfold S. rewrite jobs_post_wait_other by done. apply jobs_ext; cbn; [|done].
    rewrite Hoth by done. reflexivity. }
  split_and!; try done.
  - unfold S. destruct (jobs_post_wait_same h i v
      (PState (ps_mem s2) (ps_helpers s2) (ps_workers s2) (<[h:=p]> (ps_onmessage s2)) (ps_inbox s2) (ps_promises s2))
      _ Hh) as [-> | [? | Hr']]; [| done | by rewrite Hi in Hr'].
    unfold jobs at 1. cbn [ps_workers ps_inbox]. rewrite Hh, Hi, Hr. done.
  - intros h'. unfold parked_on at 1. unfold S, post_wait. cbn [ps_workers].
    destruct (decide (h' = h)) as [->|Hne].
    + rewrite list_lookup_alter, Hh. by rewrite decide_True, Hpk.
    + rewrite list_lookup_alter_ne, Hoth by done. reflexivity.
  - unfold S. cbn. by rewrite Ho.
  - unfold S. cbn. by rewrite length_alter.
Qed.
Lemma pool_inv_call s idx val p s' :
  pool_inv base s -> waitNonblocking true idx val s = (inr p, s') -> pool_inv base s'.
Proof.
  intros Hinv (i & w & Hi0 & Hload & -> & [[_ ->] | [-> (h & s2 & Ha & ->)]])%waitNonblocking_inr;
    [by apply pool_inv_fast|].
  pose proof Hinv as [].
  destruct (slow_path_jobs s h s2 i (wrap32 val) (length (ps_promises s)) Hinv Ha)
    as (Hj0 & Hjh & Hjo & Hpk & Hm & Ho & Hi & Hp & Hnd & Hfr & Hlen).
  set (S := post_wait _ _ _ _) in *.
  assert (Hold : forall q, ps_promises s !! q = Some Pending -> (q < length (ps_promises s))%nat)
    by (intros q Hq; by eapply lookup_lt_Some).
  assert (Hjobs : forall h', jobs S h' = if decide (h' = h) then [JSent i (wrap32 val)] else jobs s h')
    by (intros h'; case_decide; subst; auto).
  constructor; rewrite ?Hm, ?Ho, ?Hi, ?Hp; try done.
  - intros h'. rewrite Hfr, Hlen, Hjobs. case_decide as E; [subst; naive_solver|].
    rewrite pi_free0. naive_solver.
  - intros h' Hge. assert (h' <> h) by (pose proof (proj2 (Hlen h)); lia).
    rewrite Hjobs, decide_False by done. apply pi_created0. pose proof (proj2 (Hlen h')). lia.
  - intros h' Hb. rewrite Hjobs in Hb |- *. case_decide as E.
    + subst. exists (JSent i (wrap32 val)), (length (ps_promises s)).
      rewrite lookup_insert_eq, lookup_snoc_Some. naive_solver.
    + destruct (pi_busy0 h' Hb) as (j & q & Hj & Hq & Hqp). exists j, q.
      rewrite lookup_insert_ne by done. split_and!; [done|done|by apply lookup_app_l_Some].
  - intros h1 h2 q Hb1 Hb2 Hq1 Hq2. rewrite !Hjobs in Hb1, Hb2.
    destruct (decide (h1 = h)), (decide (h2 = h)); subst; try done.
    + rewrite lookup_insert_eq in Hq1. rewrite lookup_insert_ne in Hq2 by done.
      injection Hq1 as <-. destruct (pi_busy0 h2 Hb2) as (_ & q2 & _ & Hq & Hqp).
      apply Hold in Hqp. rewrite Hq in Hq2. injection Hq2 as ->. lia.
    + rewrite lookup_insert_eq in Hq2. rewrite lookup_insert_ne in Hq1 by done.
      injection Hq2 as <-. destruct (pi_busy0 h1 Hb1) as (_ & q2 & _ & Hq & Hqp).
      apply Hold in Hqp. rewrite Hq in Hq1. injection Hq1 as ->. lia.
    + rewrite lookup_insert_ne in Hq1, Hq2 by done. eauto.
  - intros q [Hq | [-> _]]%pending_snoc.
    + destruct (pi_served0 q Hq) as (h' & Hb & Hh'). exists h'.
      assert (h' <> h) by (intros ->; congruence).
      rewrite Hjobs, decide_False, lookup_insert_ne by done. done.
    + exists h. rewrite Hjobs, decide_True, lookup_insert_eq by done. done.
  - intros h' i' v'. rewrite Hjobs. case_decide; [|apply pi_sent0].
    intros [= -> ->]%list_elem_of_singleton. split; [done|]. by eapply lookup_lt_Some.
  - intros h'. rewrite Hjobs. case_decide; [set_solver|apply pi_no_error0].
  - intros h' i'. rewrite Hpk. apply pi_waiters0.
  - intros q [[_ Hq] | (_ & [=])]%lookup_snoc_Some. by apply (pi_no_reject0 q).
Qed.
(** Steps that only move helpers from one job to another. *)
Lemma pool_inv_rejob s s' :
  pool_inv base s ->
  ps_helpers s' = ps_helpers s -> ps_onmessage s' = ps_onmessage s ->
  ps_promises s' = ps_promises s -> length (ps_workers s') = length (ps_workers s) ->
  (forall h, jobs s' h = [] <-> jobs s h = []) ->
  (forall h, (length (jobs s' h) <= 1)%nat) ->
  (forall h i v, JSent i v ∈ jobs s' h -> 0 <= i /\ (Z.to_nat i < length (cells (ps_mem s')))%nat) ->
  (forall h, JReplied HError ∉ jobs s' h) ->
  (forall h i, hcount h (waiters (ps_mem s') !!! i) =
               if decide (parked_on s' h = Some i) then 1%nat else 0%nat) ->
  pool_inv base s'.
Proof.
  intros [] Hh Ho Hp Hl Hnil H1 Hsent Herr Hw.
  assert (Hsingle : forall h, jobs s' h <> [] -> exists j, jobs s' h = [j]).
  { intros h Hb. specialize (H1 h). destruct (jobs s' h) as [|j [|]]; cbn in H1; first [by eauto | lia | congruence]. }
  constructor; rewrite ?Hh, ?Ho, ?Hp, ?Hl; try done.
  - intros h. rewrite Hnil. apply pi_free0.
  - intros h Hge. apply Hnil. auto.
  - intros h Hb. destruct (Hsingle h Hb) as [j Hj].
    assert (Hb0 : jobs s h <> []) by (rewrite <- Hnil; done).
    destruct (pi_busy0 h Hb0) as (_ & q & _ & Hq & Hqp). eauto.
  - intros h1 h2 q Hb1 Hb2. apply pi_unique0; by rewrite <- Hnil.
  - intros q Hq. destruct (pi_served0 q Hq) as (h & Hb & Hh'). exists h. by rewrite Hnil.
Qed.

Lemma helper_recv_spec s h s' :
  pool_inv base s -> helper_recv base h s = Some s' ->
  exists i v w, 0 <= i /\ jobs s h = [JSent i v] /\ ps_workers s !! h = Some w /\
    ((exists m', atomics_wait (ps_mem s) (Z.to_nat i) v (hagent h) = Some (NotEqual, m') /\
       s' = PState (ps_mem s) (ps_helpers s) (<[h:=Helper [] None]> (ps_workers s))
                   (ps_onmessage s) (ps_inbox s ++ [(h, HOk WrNotEqual)]) (ps_promises s)) \/
     (exists m', atomics_wait (ps_mem s) (Z.to_nat i) v (hagent h) = Some (Parked, m') /\
       s' = PState m' (ps_helpers s) (<[h:=Helper [] (Some (Z.to_nat i))]> (ps_workers s))
                   (ps_onmessage s) (ps_inbox s) (ps_promises s))).
Proof.
  intros Hinv Hr. unfold helper_recv in Hr.
  destruct (ps_workers s !! h) as [w|] eqn:Hw; [cbn in Hr|discriminate].
  destruct (h_parked w) eqn:Hpk; [discriminate|].
  destruct (h_inbox w) as [|[i v] rest] eqn:Hib; [discriminate|].
  assert (Hj : jobs s h = [JSent i v]) by (eapply elem_jobs_single, sent_in_jobs; eauto).
  pose proof (jobs_single _ _ _ Hj) as (w' & Hw' & Hib' & _). rewrite Hw in Hw'. injection Hw' as <-.
  rewrite Hib in Hib'. injection Hib' as ->.
  destruct (pi_sent _ _ Hinv h i v) as [Hi0 Hi]; [rewrite Hj; set_solver|].
  rewrite (proj2 (Z.ltb_ge i 0) Hi0) in Hr.
  exists i, v, w. split_and!; [done|done|done|].
  unfold atomics_wait in Hr |- *. destruct (lookup_lt_is_Some_2 _ _ Hi) as [x Hx].
  rewrite Hx in Hr |- *. cbn in Hr |- *.
  case_decide; injection Hr as <-; [right|left]; eexists; split; reflexivity.
Qed.
(** Helper [h], which exists, now has worker state [w'] and the main
    thread's queue has grown by [extra]. *)
Lemma jobs_update s h w w' m extra h' :
  ps_workers s !! h = Some w ->
  jobs (PState m (ps_helpers s) (<[h:=w']> (ps_workers s)) (ps_onmessage s)
               (ps_inbox s ++ extra) (ps_promises s)) h' =
  if decide (h' = h)
  then ((fun iv => JSent iv.1 iv.2) <$> h_inbox w') ++ (JParked <$> option_list (h_parked w'))
       ++ (JReplied <$> (replies h (ps_inbox s) ++ replies h extra))
  else jobs s h' ++ (JReplied <$> replies h' extra).
Proof.
  intros Hw. unfold jobs. cbn [ps_workers ps_inbox]. rewrite replies_app, fmap_app.
  case_decide as E.
  - subst. rewrite list_lookup_insert_eq by (by eapply lookup_lt_Some). by rewrite fmap_app, !app_assoc.
  - rewrite list_lookup_insert_ne by done. by rewrite !app_assoc.
Qed.

Lemma parked_on_update s h w' m extra h' :
  parked_on (PState m (ps_helpers s) (<[h:=w']> (ps_workers s)) (ps_onmessage s) extra (ps_promises s)) h' =
  if decide (h' = h /\ (h < length (ps_workers s))%nat) then h_parked w' else parked_on s h'.
Proof.
  unfold parked_on. cbn [ps_workers]. case_decide as E.
  - destruct E as [-> Hlt]. by rewrite list_lookup_insert_eq.
  - destruct (decide (h' = h)) as [->|Hne].
    + assert (Hn : ps_workers s !! h = None) by (apply lookup_ge_None_2; lia).
      rewrite Hn. by rewrite (proj2 (list_lookup_insert_None _ _ _ _) Hn).
    + by rewrite list_lookup_insert_ne.
Qed.

Lemma pool_inv_recv s h s' :
  pool_inv base s -> helper_recv base h s = Some s' -> pool_inv base s'.
Proof.
  intros Hinv Hr. destruct (helper_recv_spec s h s' Hinv Hr) as (i & v & w & Hi0 & Hj & Hw & Hcase).
  destruct (jobs_single _ _ _ Hj) as (w' & Hw' & Hib & Hpk & Hrep). rewrite Hw in Hw'. injection Hw' as <-.
  assert (Hlt : (h < length (ps_workers s))%nat) by (by eapply lookup_lt_Some).
  assert (Hpk0 : parked_on s h = None) by (unfold parked_on; rewrite Hw; done).
  destruct Hcase as [(m' & Hwait & ->) | (m' & Hwait & ->)].
  - apply pool_inv_rejob with s; try done.
    + cbn. by rewrite length_insert.
    + intros h'. rewrite (jobs_update s h w _ _ _ h' Hw). case_decide; [subst; rewrite Hj, Hrep, replies_same; cbn; done|].
      rewrite replies_other by done. by rewrite fmap_nil, app_nil_r.
    + intros h'. rewrite (jobs_update s h w _ _ _ h' Hw). case_decide; [subst; rewrite Hrep, replies_same; cbn; lia|].
      rewrite replies_other by done. rewrite fmap_nil, app_nil_r.
      destruct (decide (jobs s h' = [])) as [->|Hb]; [cbn; lia|]. by destruct (busy_single _ _ Hinv Hb) as [? ->].
    + intros h' i' v'. rewrite (jobs_update s h w _ _ _ h' Hw). case_decide; [subst; rewrite Hrep, replies_same; cbn; set_solver|].
      rewrite replies_other by done. rewrite fmap_nil, app_nil_r. apply (pi_sent _ _ Hinv).
    + intros h'. rewrite (jobs_update s h w _ _ _ h' Hw). case_decide; [subst; rewrite Hrep, replies_same; cbn; set_solver|].
      rewrite replies_other by done. rewrite fmap_nil, app_nil_r. apply (pi_no_error _ _ Hinv).
    + intros h' j. cbn [ps_mem]. rewrite parked_on_update. rewrite (pi_waiters _ _ Hinv h' j).
      destruct (decide (h' = h /\ (h < length (ps_workers s))%nat)) as [[-> _]|]; [by rewrite Hpk0|done].
  - apply (atomics_wait_spec) in Hwait as (x & Hx & [(_ & _ & ->) | (_ & [=] & _)]).
    rewrite <- (app_nil_r (ps_inbox s)).
    apply pool_inv_rejob with s; try done.
    + cbn. by rewrite length_insert.
    + intros h'. rewrite (jobs_update s h w _ _ _ h' Hw). case_decide; [subst; rewrite Hj, Hrep; cbn; done|].
      by rewrite app_nil_r.
    + intros h'. rewrite (jobs_update s h w _ _ _ h' Hw). case_decide; [subst; rewrite Hrep; cbn; lia|].
      rewrite app_nil_r. destruct (decide (jobs s h' = [])) as [->|Hb]; [cbn; lia|].
      by destruct (busy_single _ _ Hinv Hb) as [? ->].
    + intros h' i' v'. rewrite (jobs_update s h w _ _ _ h' Hw). case_decide; [subst; rewrite Hrep; cbn; set_solver|].
      rewrite app_nil_r. apply (pi_sent _ _ Hinv).
    + intros h'. rewrite (jobs_update s h w _ _ _ h' Hw). case_decide; [subst; rewrite Hrep; cbn; set_solver|].
      rewrite app_nil_r. apply (pi_no_error _ _ Hinv).
    + intros h' j. cbn [ps_mem waiters]. rewrite hcount_enqueue, parked_on_update, (pi_waiters _ _ Hinv h' j).
      destruct (decide (h' = h)) as [->|Hne].
      * rewrite Hpk0, (decide_True (P := h = h /\ (h < length (ps_workers s))%nat)) by auto.
        cbn [h_parked]. unfold b2n. rewrite Nat.eqb_refl.
        destruct (decide (j = Z.to_nat i)) as [->|Hne];
          repeat first [rewrite decide_True by congruence | rewrite decide_False by congruence]; lia.
      * rewrite (decide_False (P := h' = h /\ (h < length (ps_workers s))%nat)) by naive_solver.
        unfold b2n, Polyfill.hagent.
        destruct (decide (j = Z.to_nat i)); [|lia]. destruct (Nat.eqb_spec (base + h) (base + h')); lia.
Qed.
Lemma pool_inv_deliver s h s' :
  pool_inv base s -> main_deliver h s = Some s' -> pool_inv base s'.
Proof.
  intros Hinv Hd. pose proof Hinv as [].
  unfold main_deliver in Hd. destruct (take_reply h (ps_inbox s)) as [[m rest]|] eqn:Ht; [|discriminate].
  cbn in Hd. destruct (take_reply_spec _ _ _ _ Ht) as [Hrep Hoth].
  assert (Hj : jobs s h = [JReplied m]).
  { apply elem_jobs_single; [done|]. apply replied_in_jobs. rewrite Hrep. set_solver. }
  destruct (jobs_single _ _ _ Hj) as [Hw Hrep1]. rewrite Hrep in Hrep1. injection Hrep1 as Hrest.
  assert (Hb : jobs s h <> []) by (by rewrite Hj).
  destruct (pi_busy0 h Hb) as (_ & p & _ & Hp & Hpp). rewrite Hp in Hd.
  assert (Hm : m <> HError) by (intros ->; apply (pi_no_error0 h); rewrite Hj; set_solver).
  destruct m as [r|]; [|done]. unfold settle in Hd. cbn in Hd. rewrite Hpp in Hd. injection Hd as <-.
  assert (Hlt : (h < length (ps_workers s))%nat).
  { destruct (decide (h < length (ps_workers s))%nat); [done|]. by rewrite pi_created0 in Hj by lia. }
  assert (Hnin : h ∉ ps_helpers s) by (rewrite pi_free0; naive_solver).
  assert (Hjobs : forall h', jobs (PState (ps_mem s) (ps_helpers s ++ [h]) (ps_workers s) (ps_onmessage s)
                                     rest (<[p:=Resolved r]> (ps_promises s))) h' =
                             if decide (h' = h) then [] else jobs s h').
  { intros h'. unfold jobs. cbn [ps_workers ps_inbox]. case_decide as E.
    - subst. rewrite Hrest. destruct (ps_workers s !! h) as [w|] eqn:Ew; [|done].
      destruct (Hw w eq_refl) as [-> ->]. done.
    - by rewrite Hoth. }
  constructor; cbn [ps_mem ps_helpers ps_workers ps_onmessage ps_inbox ps_promises].
  - apply NoDup_app. split_and!; [done| |apply NoDup_singleton]. set_solver.
  - intros h'. rewrite Hjobs, elem_of_app, list_elem_of_singleton.
    case_decide; [subst; naive_solver|]. rewrite pi_free0. naive_solver.
  - intros h' Hge. rewrite Hjobs. case_decide; [done|]. auto.
  - intros h' Hb'. rewrite Hjobs in Hb' |- *. case_decide as E; [done|].
    destruct (pi_busy0 h' Hb') as (j & q & Hj' & Hq & Hqp). exists j, q.
    assert (q <> p) by (intros ->; apply E; eapply pi_unique0; eauto).
    by rewrite list_lookup_insert_ne by done.
  - intros h1 h2 q. rewrite !Hjobs. do 2 (case_decide; [done|]). eauto.
  - intros q Hq. destruct (decide (q = p)) as [->|Hne].
    + rewrite list_lookup_insert_eq in Hq by (by eapply lookup_lt_Some). discriminate.
    + rewrite list_lookup_insert_ne in Hq by done.
      destruct (pi_served0 q Hq) as (h'' & Hb'' & Hh''). exists h''.
      assert (h'' <> h) by (intros ->; congruence). rewrite Hjobs, decide_False by done. done.
  - intros h' i v. rewrite Hjobs. case_decide; [set_solver|]. apply pi_sent0.
  - intros h'. rewrite Hjobs. case_decide; [set_solver|]. apply pi_no_error0.
  - intros h' i. apply pi_waiters0.
  - intros q. destruct (decide (q = p)) as [->|Hne].
    + rewrite list_lookup_insert_eq by (by eapply lookup_lt_Some). done.
    + rewrite list_lookup_insert_ne by done. apply pi_no_reject0.
Qed.
Lemma hcount_elem h l : hagent h ∈ l <-> (0 < hcount h l)%nat.
Proof.
  rewrite cnt_pos_lookup. split.
  - intros (k & Hk)%list_elem_of_lookup_1. exists k, (hagent h). split; [done|]. apply Nat.eqb_refl.
  - intros (k & a & Hk & Ha%Nat.eqb_eq). subst. by eapply list_elem_of_lookup_2.
Qed.

Lemma replies_wake h ws :
  replies h (omap (fun a => h' ← helper_of base a; Some (h', HOk WrOk)) ws) =
  replicate (hcount h ws) (HOk WrOk).
Proof.
  induction ws as [|a ws IH]; [done|]. cbn [omap list_omap cnt].
  destruct (helper_of base a) as [h'|] eqn:Ha; cbn -[replies].
  - apply helper_of_hagent in Ha as ->. rewrite replies_cons, IH.
    destruct (Nat.eqb_spec h' h) as [->|Hne].
    + by rewrite Nat.eqb_refl.
    + destruct (Nat.eqb_spec (hagent h') (hagent h)) as [E%hagent_inj|]; [done|]. done.
  - rewrite IH. destruct (Nat.eqb_spec a (hagent h)) as [->|]; [|done].
    assert (helper_of base (hagent h) = Some h) by (by apply helper_of_hagent). congruence.
Qed.

Lemma jobs_wake s ws h :
  jobs (wake_helpers base ws s) h =
  if decide (hagent h ∈ ws)
  then match ps_workers s !! h with
       | Some w => (fun iv => JSent iv.1 iv.2) <$> h_inbox w
       | None => []
       end ++ (JReplied <$> (replies h (ps_inbox s) ++ replicate (hcount h ws) (HOk WrOk)))
  else jobs s h ++ (JReplied <$> replicate (hcount h ws) (HOk WrOk)).
Proof.
  unfold jobs, wake_helpers. cbn [ps_workers ps_inbox].
  rewrite list_lookup_imap, replies_app, replies_wake, fmap_app.
  destruct (ps_workers s !! h) as [w|]; cbn [fmap option_fmap option_map]; case_decide; cbn;
    rewrite ?app_nil_r, ?app_assoc; done.
Qed.

Lemma parked_on_wake s ws h :
  parked_on (wake_helpers base ws s) h = if decide (hagent h ∈ ws) then None else parked_on s h.
Proof.
  unfold parked_on, wake_helpers. cbn [ps_workers]. rewrite list_lookup_imap.
  destruct (ps_workers s !! h); cbn; case_decide; done.
Qed.
Lemma pool_inv_notify s i c ws m' :
  pool_inv base s -> atomics_notify (ps_mem s) i c = Some (ws, m') ->
  pool_inv base (wake_helpers base ws (with_mem m' s)).
Proof.
  intros Hinv (Hi & Hws & ->)%atomics_notify_spec.
  set (q := waiters (ps_mem s) !!! i) in *. set (n := default (length q) c) in *.
  assert (Hsplit : forall h, hcount h q = (hcount h ws + hcount h (drop n q))%nat).
  { intros h. rewrite Hws, <- cnt_app, take_drop. done. }
  (* a helper in [ws] was blocked on [i]: its one job was [JParked i] *)
  assert (Hwoken : forall h, hagent h ∈ ws ->
    parked_on s h = Some i /\ hcount h ws = 1%nat /\ hcount h (drop n q) = 0%nat /\
    exists w, ps_workers s !! h = Some w /\ h_inbox w = [] /\ replies h (ps_inbox s) = []).
  { intros h Hin. apply hcount_elem in Hin. pose proof (Hsplit h) as Hs.
    pose proof (pi_waiters _ _ Hinv h i) as Hc. fold q in Hc.
    case_decide as Hp; [|lia]. split_and!; [done|lia|lia|].
    apply parked_in_jobs, (elem_jobs_single _ _ _ Hinv), jobs_single in Hp as (w & ? & ? & _ & ?).
    eauto. }
  assert (Hasleep : forall h, hagent h ∉ ws -> hcount h ws = 0%nat).
  { intros h Hn. destruct (hcount h ws) eqn:E; [done|]. exfalso. apply Hn, hcount_elem. lia. }
  apply pool_inv_rejob with s; try done.
  - cbn. by rewrite length_imap.
  - intros h. rewrite jobs_wake, jobs_with_mem. cbn [with_mem ps_workers ps_inbox]. case_decide as Hin.
    + destruct (Hwoken h Hin) as (Hpk & -> & _ & w & -> & Hib & ->). rewrite Hib.
      split; [done|]. intros Hj. apply parked_in_jobs in Hpk. rewrite Hj in Hpk. set_solver.
    + rewrite Hasleep by done. by rewrite app_nil_r.
  - intros h. rewrite jobs_wake, jobs_with_mem. cbn [with_mem ps_workers ps_inbox]. case_decide as Hin.
    + destruct (Hwoken h Hin) as (_ & -> & _ & w & -> & Hib & ->). rewrite Hib. cbn. lia.
    + rewrite Hasleep by done. rewrite app_nil_r.
      destruct (decide (jobs s h = [])) as [->|Hb]; [cbn; lia|].
      by destruct (busy_single _ _ Hinv Hb) as [? ->].
  - intros h i' v. rewrite jobs_wake, jobs_with_mem. cbn [with_mem ps_workers ps_inbox ps_mem cells].
    case_decide as Hin.
    + destruct (Hwoken h Hin) as (_ & -> & _ & w & -> & Hib & ->). rewrite Hib. cbn. set_solver.
    + rewrite Hasleep by done. rewrite app_nil_r. apply (pi_sent _ _ Hinv).
  - intros h. rewrite jobs_wake, jobs_with_mem. cbn [with_mem ps_workers ps_inbox]. case_decide as Hin.
    + destruct (Hwoken h Hin) as (_ & -> & _ & w & -> & Hib & ->). rewrite Hib. cbn. set_solver.
    + rewrite Hasleep by done. rewrite app_nil_r. apply (pi_no_error _ _ Hinv).
  - intros h j. rewrite parked_on_wake, parked_on_with_mem. cbn [with_mem wake_helpers ps_mem waiters].
    pose proof (pi_waiters _ _ Hinv h j) as Hc.
    destruct (decide (j = i)) as [->|Hne].
    + rewrite lookup_total_insert_eq. fold q in Hc |- *. pose proof (Hsplit h) as Hs.
      destruct (decide (hagent h ∈ ws)) as [Hin|Hin].
      * cbv iota. destruct (Hwoken h Hin) as (_ & _ & -> & _). by rewrite decide_False.
      * cbv iota. rewrite Hasleep in Hs by done. rewrite <- Hc. lia.
    + rewrite lookup_total_insert_ne by done. destruct (decide (hagent h ∈ ws)) as [Hin|Hin].
      * cbv iota. destruct (Hwoken h Hin) as (Hpk & _). rewrite Hc, Hpk, !decide_False by congruence. done.
      * done.
Qed.
Lemma pool_inv_step s s' : pool_inv base s -> pstep base s s' -> pool_inv base s'.
Proof.
  intros Hinv Hst. destruct Hst.
  - by eapply pool_inv_call.
  - by eapply pool_inv_recv.
  - by eapply pool_inv_deliver.
  - by eapply pool_inv_store.
  - by eapply pool_inv_env_wait.
  - by eapply pool_inv_notify.
Qed.

Lemma take_reply_last h l m : replies h l = [] -> take_reply h (l ++ [(h, m)]) = Some (m, l).
Proof.
  induction l as [|[h' m'] l IH]; cbn [app take_reply]; [by rewrite Nat.eqb_refl|].
  rewrite replies_cons. destruct (Nat.eqb_spec h' h); [done|]. cbn. intros Hr. by rewrite IH.
Qed.
End Preservation.

(** [Atomics.waitNonblocking] without the fast path of lines 409-412:
    every call goes through a helper.  The reference the fast path is
    an optimisation of. *)
Definition waitNonblocking_nofast (shared : bool) (index_ value_ : Z) (s : pstate)
    : (call_error + nat) * pstate :=
  if negb shared then (inl TypeError, s) else
  let index := wrap32 index_ in
  let value := wrap32 value_ in
  let '(p, s1) := new_promise Pending s in
  let '(h, s2) := allocHelper s1 in
  let s3 := PState (ps_mem s2) (ps_helpers s2) (ps_workers s2)
                   (<[h:=p]> (ps_onmessage s2)) (ps_inbox s2) (ps_promises s2) in
  (inr p, post_wait h index value s3).

(** ** Schedules

    A schedule of the interleaving, executable so that runs of the
    polyfill can be evaluated. *)
Inductive pact :=
  | ACall (idx v : Z) | ARecv (h : nat) | ADeliver (h : nat)
  | AStore (i : nat) (v : Z) | AWait (a i : nat) (v : Z) | ANotify (i : nat) (c : option nat).

Definition pexec (base : nat) (a : pact) (s : pstate) : option pstate :=
  match a with
  | ACall idx v => match waitNonblocking true idx v s with (inr _, s') => Some s' | _ => None end
  | ARecv h => helper_recv base h s
  | ADeliver h => main_deliver h s
  | AStore i v => m' ← atomics_store (ps_mem s) i v; Some (with_mem m' s)
  | AWait a i v => if (a <? base)%nat then '(_, m') ← atomics_wait (ps_mem s) i v a; Some (with_mem m' s) else None
  | ANotify i c => '(ws, m') ← atomics_notify (ps_mem s) i c; Some (wake_helpers base ws (with_mem m' s))
  end.

Fixpoint prun (base : nat) (tr : list pact) (s : pstate) : option pstate :=
  match tr with [] => Some s | a :: tr' => s' ← pexec base a s; prun base tr' s' end.

Lemma pexec_step base a s s' : pexec base a s = Some s' -> pstep base s s'.
Proof.
  destruct a; unfold pexec; intros H.
  - destruct (waitNonblocking true idx v s) as [[|p] s''] eqn:E; cbn in H; [discriminate|].
    injection H as <-. eauto using pstep.
  - eauto using pstep.
  - eauto using pstep.
  - inv_bind. subst. eauto using pstep.
  - destruct (Nat.ltb_spec a base); [|discriminate].
    destruct (atomics_wait (ps_mem s) i v a) as [[o m']|] eqn:E; cbn in H; [|discriminate].
    injection H as <-. eauto using pstep.
  - destruct (atomics_notify (ps_mem s) i c) as [[ws m']|] eqn:E; cbn in H; [|discriminate].
    injection H as <-. eauto using pstep.
Qed.

Lemma prun_reachable base tr s s' : preachable base s -> prun base tr s = Some s' -> preachable base s'.
Proof.
  revert s. induction tr as [|a tr IH]; intros s Hs H; cbn in H; [by injection H as <-|].
  destruct (pexec base a s) as [s1|] eqn:E; [|discriminate]. cbn in H.
  eapply IH; [|exact H]. econstructor; [exact Hs|]. by eapply pexec_step.
Qed.

(** A lock cell held with waiters (2) and a free one (0); helper
    agents are numbered from 10.  The main thread's [asyncLock] waits on
    cell 0, which a helper blocks on; another agent stores 0 and
    notifies; the main thread handles the reply, then waits on cell 1
    and the pool hands back the same helper. *)
Definition demo_mem : shmem := Shmem [2; 0] ∅.

Definition demo_schedule : list pact :=
  [ACall 0 2; ARecv 0; AStore 0 0; ANotify 0 (Some 1%nat); ADeliver 0; ACall 1 0].

Definition demo_polyfill : pstate :=
  PState (Shmem [0; 0] (<[0%nat:=[]]> ∅)) [] [Helper [(1, 0)] None] (<[0%nat:=1%nat]> ∅) []
         [Resolved WrOk; Pending].

Lemma demo_pinit_ok : pinit_ok 10 demo_mem.
Proof. intros i a. unfold demo_mem. cbn [waiters]. rewrite lookup_total_empty. set_solver. Qed.

(** ** Theorems *)

(** C34. In every reachable state of the polyfill interleaved with
    any other agents, the helper pool is consistent ([pool_inv]): the
    pool holds exactly the idle helpers, once each; a helper serves at
    most one wait at a time, for a pending promise no other helper
    serves; every pending promise has its helper (none is lost); a
    helper is in a cell's waiter list exactly while it is blocked on
    it; no helper reports an exception and no promise is rejected. *)
Theorem polyfill_pool_invariant base s : preachable base s -> pool_inv base s.
Proof. induction 1; [by apply pool_inv_init | by eapply pool_inv_step]. Qed.

Lemma polyfill_pool_invariant_witness : preachable 10 demo_polyfill /\ pool_inv 10 demo_polyfill.
Proof.
  assert (H : preachable 10 demo_polyfill).
  { apply (prun_reachable 10 demo_schedule (pinit demo_mem));
      [apply preach_init, demo_pinit_ok | vm_compute; reflexivity]. }
  split; [exact H | exact (polyfill_pool_invariant 10 demo_polyfill H)].
Defined.

Lemma list_insert_alter_same {A} (l : list A) f h x :
  <[h:=x]> (alter f h l) = <[h:=x]> l.
Proof.
  apply list_eq. intros j. destruct (decide (j = h)) as [->|Hne].
  - destruct (decide (h < length l)%nat).
    + rewrite !list_lookup_insert_eq by (rewrite ?length_alter; done). done.
    + rewrite !(proj2 (list_lookup_insert_None _ _ _ _)); [done| |]; apply lookup_ge_None_2;
        rewrite ?length_alter; lia.
  - rewrite !list_lookup_insert_ne, list_lookup_alter_ne by done. done.
Qed.

Section FastPath.
Context (base : nat) (s : pstate) (idx val w : Z).
Hypothesis Hinv : pool_inv base s.
Hypothesis Hi0 : 0 <= wrap32 idx.
Hypothesis Hload : atomics_load (ps_mem s) (Z.to_nat (wrap32 idx)) = Some w.

Lemma waitNonblocking_loaded :
  waitNonblocking true idx val s =
    if negb (w =? wrap32 val) then (inr (length (ps_promises s)), snd (new_promise (Resolved WrNotEqual) s))
    else waitNonblocking_nofast true idx val s.
Proof.
  unfold waitNonblocking, waitNonblocking_nofast. cbn -[new_promise allocHelper].
  rewrite (proj2 (Z.ltb_ge _ 0) Hi0), Hload. by destruct (w =? wrap32 val).
Qed.

(** The general path on a cell that differs from the value: the
    helper's wait returns ["not-equal"] at once, and handling its
    reply returns the helper to the pool and resolves the promise. *)
Lemma nofast_not_equal :
  w <> wrap32 val ->
  exists h s2 s3,
    allocHelper (snd (new_promise Pending s)) = (h, s2) /\
    helper_recv base h (snd (waitNonblocking_nofast true idx val s)) = Some s3 /\
    main_deliver h s3 = Some
      (PState (ps_mem s) (ps_helpers s2 ++ [h]) (<[h:=Helper [] None]> (ps_workers s2))
              (<[h:=length (ps_promises s)]> (ps_onmessage s)) (ps_inbox s)
              (ps_promises s ++ [Resolved WrNotEqual])).
Proof.
  intros Hne. unfold waitNonblocking_nofast, new_promise. cbn -[allocHelper post_wait].
  destruct (allocHelper _) as [h s2] eqn:Ha.
  destruct (slow_path_jobs base s h s2 (wrap32 idx) (wrap32 val) (length (ps_promises s)) Hinv Ha)
    as (_ & Hjh & _ & _ & Hm & Ho & Hi & Hp & _).
  set (S := post_wait _ _ _ _) in *.
  destruct (jobs_single _ _ _ Hjh) as (w' & Hw' & Hib & Hpk & Hrep).
  assert (HwS : ps_workers S = alter (fun w => Helper (h_inbox w ++ [(wrap32 idx, wrap32 val)]) (h_parked w))
                                     h (ps_workers s2)) by reflexivity.
  assert (HhS : ps_helpers S = ps_helpers s2) by reflexivity.
  clearbody S.
  exists h, s2. eexists. split; [done|]. split.
  { unfold helper_recv. cbn [snd]. rewrite Hw'. cbn. rewrite Hpk, Hib, (proj2 (Z.ltb_ge _ 0) Hi0).
    unfold atomics_wait. rewrite Hm. unfold atomics_load in Hload. rewrite Hload. cbn.
    rewrite decide_False by (by rewrite wrap32_idem). reflexivity. }
  unfold main_deliver. cbn [ps_inbox]. rewrite Hi in Hrep |- *. rewrite take_reply_last by done.
  cbn. rewrite Ho, lookup_insert_eq. unfold settle. cbn. rewrite Hp.
  rewrite lookup_app_r, Nat.sub_diag by lia. cbn.
  rewrite insert_app_r_alt, Nat.sub_diag by lia. cbn.
  rewrite HhS, HwS, list_insert_alter_same. done.
Qed.
End FastPath.

Lemma nofast_promise s idx val :
  fst (waitNonblocking_nofast true idx val s) = inr (length (ps_promises s)).
Proof. unfold waitNonblocking_nofast, new_promise. cbn -[allocHelper]. by destruct (allocHelper _). Qed.

(** C35. The fast path of [waitNonblocking] (lines 409-412, "avoid the
    helper thread in this common case") is an optimisation of the
    general path: on a cell equal to the value the two definitions are
    the same; on a cell that differs, the general path, run until the
    helper's reply is handled, resolves the same promise with the same
    ["not-equal"], leaves the same memory, promises and message queue,
    and gives the helper back to the pool where it was (or leaves one
    more idle helper when the pool was empty). *)
Theorem fast_path_equiv base s idx val w :
  pool_inv base s -> 0 <= wrap32 idx -> atomics_load (ps_mem s) (Z.to_nat (wrap32 idx)) = Some w ->
  (w = wrap32 val -> waitNonblocking true idx val s = waitNonblocking_nofast true idx val s) /\
  (w <> wrap32 val ->
   exists p s' h s3 g,
     waitNonblocking true idx val s = (inr p, s') /\
     fst (waitNonblocking_nofast true idx val s) = inr p /\
     helper_recv base h (snd (waitNonblocking_nofast true idx val s)) = Some s3 /\
     main_deliver h s3 = Some g /\
     ps_promises s' !! p = Some (Resolved WrNotEqual) /\
     ps_mem g = ps_mem s' /\ ps_inbox g = ps_inbox s' /\ ps_promises g = ps_promises s' /\
     (ps_helpers s <> [] -> ps_helpers g = ps_helpers s' /\ ps_workers g = ps_workers s') /\
     (ps_helpers s = [] -> ps_helpers g = [h] /\ ps_workers g = ps_workers s' ++ [Helper [] None])).
Proof.
  intros Hinv Hi0 Hload. rewrite (waitNonblocking_loaded s idx val w Hi0 Hload). split.
  { intros ->. by rewrite Z.eqb_refl. }
  intros Hne. rewrite (proj2 (Z.eqb_neq _ _) Hne). cbn [negb].
  destruct (nofast_not_equal base s idx val w Hinv Hi0 Hload Hne) as (h & s2 & s3 & Ha & Hr & Hd).
  pose proof Hinv as [].
  destruct (allocHelper_spec (snd (new_promise Pending s)) h s2 pi_nodup0 pi_free0 pi_created0 Ha)
    as (_ & _ & _ & _ & _ & _ & _ & _ & Hh & _).
  eexists _, _, h, s3, _. split_and!; [reflexivity | apply nofast_promise | exact Hr | exact Hd | | done | done | done | |].
  - cbn. rewrite lookup_app_r, Nat.sub_diag by lia. done.
  - unfold allocHelper in Ha. cbn in Ha. cbn. rewrite (list_insert_id _ _ _ Hh).
    destruct (last (ps_helpers s)) as [h0|] eqn:Hl; injection Ha as <- <-; cbn.
    + intros _. apply last_Some in Hl as [l' ->]. by rewrite removelast_last.
    + by apply last_None in Hl.
  - unfold allocHelper in Ha. cbn in Ha. cbn. rewrite (list_insert_id _ _ _ Hh).
    intros Hnil. rewrite Hnil in Ha. cbn in Ha. injection Ha as <- <-. done.
Qed.

Lemma fast_path_equiv_witness :
  pool_inv 10 (pinit demo_mem) /\ 0 <= wrap32 1 /\ atomics_load (ps_mem (pinit demo_mem)) (Z.to_nat (wrap32 1)) = Some 0 /\
  exists p s' h s3 g,
    waitNonblocking true 1 5 (pinit demo_mem) = (inr p, s') /\
    fst (waitNonblocking_nofast true 1 5 (pinit demo_mem)) = inr p /\
    helper_recv 10 h (snd (waitNonblocking_nofast true 1 5 (pinit demo_mem))) = Some s3 /\
    main_deliver h s3 = Some g /\
    ps_promises s' !! p = Some (Resolved WrNotEqual) /\
    ps_mem g = ps_mem s' /\ ps_inbox g = ps_inbox s' /\ ps_promises g = ps_promises s' /\
    (ps_helpers (pinit demo_mem) <> [] -> ps_helpers g = ps_helpers s' /\ ps_workers g = ps_workers s') /\
    (ps_helpers (pinit demo_mem) = [] -> ps_helpers g = [h] /\ ps_workers g = ps_workers s' ++ [Helper [] None]).
Proof.
  assert (Hinv : pool_inv 10 (pinit demo_mem)) by (apply pool_inv_init, demo_pinit_ok).
  split_and!; [exact Hinv | vm_compute; discriminate | reflexivity |].
  refine (proj2 (fast_path_equiv 10 (pinit demo_mem) 1 5 0 Hinv _ _) _);
    [vm_compute; discriminate | reflexivity | vm_compute; discriminate].
Defined.
