(* ===== verification/Sync.v ===== *)
(** * Agents sharing one [Lock] and its [Cond]

    Any number of agents (the main thread's async tasks, workers) share
    the lock cell [li] and the sequence cell [ci] of one [Lock]/[Cond]
    pair of src/src/lock.js.  Each agent runs an arbitrary client of
    the documented API: from [Idle] it calls [lock]/[asyncLock] or
    [tryLock]; holding the lock it calls [unlock], [wait]/[asyncWait],
    [notifyOne] or [notifyAll].  The system interleaves the agents one
    atomic [Atomics] operation at a time ([tstep]); [reachable] is the
    set of states of all such runs.  The pipeline of lib.ts uses two
    such pairs on disjoint cells (indices 0/2 and 4/6 of the lock
    buffer), each an instance of this system. *)

From S2P Require Import Prelude Int32 Atomics Lock Cond.

Local Open Scope Z_scope.

(** Where an agent is: idle, inside one of the API functions (at the
    named atomic operation), or holding the lock in client code. *)
Inductive tpc :=
  | Idle
  | TLock (p : lk_pc)
  | Held
  | TUnlock (p : ul_pc)
  | TWait (p : cv_pc)
  | TNotify (all : bool) (p : nt_pc).

#[export] Instance tpc_eq_dec : EqDecision tpc.
Proof. solve_decision. Defined.
#[export] Instance tpc_inhabited : Inhabited tpc := populate Idle.

(** The client's choice: call an API function, or run the next atomic
    operation of the function it is in. *)
Inductive act :=
  | ALock | ATryLock | AUnlock | AWait | ANotify (all : bool) | ARun.

Record sys := Sys { sys_mem : shmem; sys_pcs : list tpc }.

(** An agent removed from a waiter list by [Atomics.notify] resumes
    after its [Atomics.wait]. *)
Definition wake (p : tpc) : tpc :=
  match p with
  | TLock LkParked => TLock lock_wake
  | TWait (CvRelock LkParked) => TWait (CvRelock lock_wake)
  | TWait CvParked => TWait (CvRelock LkCas01)
  | _ => p
  end.

Definition wake_set (ws : list nat) (pcs : list tpc) : list tpc :=
  imap (fun u p => if decide (u ∈ ws) then wake p else p) pcs.

Section System.
Context (li ci : nat).

(** One atomic step of agent [t] at [p]: its next point, the agents
    it wakes, the new memory. *)
Definition local_step (t : nat) (p : tpc) (a : act) (m : shmem)
    : option (tpc * list nat * shmem) :=
  match p, a with
  | Idle, ALock => Some (TLock LkCas01, @nil nat, m)
  | Idle, ATryLock =>
      '(b, m') ← tryLock li m; Some (if (b : bool) then Held else Idle, @nil nat, m')
  | TLock lp, ARun =>
      '(nx, m') ← lock_step li t lp m;
      Some (match (nx : lk_next) with Acquired => Held | LkAt lp' => TLock lp' end, @nil nat, m')
  | Held, AUnlock => Some (TUnlock UlSub, @nil nat, m)
  | Held, AWait => Some (TWait CvLoad, @nil nat, m)
  | Held, ANotify all => Some (TNotify all NtAdd, @nil nat, m)
  | TUnlock up, ARun =>
      '(nx, ws, m') ← unlock_step li up m;
      Some (match (nx : option ul_pc) with None => Idle | Some up' => TUnlock up' end, ws, m')
  | TWait cp, ARun =>
      '(nx, ws, m') ← cond_wait_step li ci t cp m;
      Some (match (nx : option cv_pc) with None => Held | Some cp' => TWait cp' end, ws, m')
  | TNotify all np, ARun =>
      '(nx, ws, m') ← notify_step ci all np m;
      Some (match (nx : option nt_pc) with None => Held | Some np' => TNotify all np' end, ws, m')
  | _, _ => None
  end.

Definition tstep (t : nat) (a : act) (s : sys) : option sys :=
  p ← sys_pcs s !! t;
  '(p', ws, m') ← local_step t p a (sys_mem s);
  Some (Sys m' (wake_set ws (<[t:=p']> (sys_pcs s)))).

(** A run: a schedule of (agent, choice) pairs. *)
Fixpoint run (tr : list (nat * act)) (s : sys) : option sys :=
  match tr with
  | [] => Some s
  | (t, a) :: tr' => s' ← tstep t a s; run tr' s'
  end.

(** The memory after [Lock.initialize] and [Cond.initialize]. *)
Definition init_mem_ok (m : shmem) : Prop :=
  (li < length (cells m))%nat /\ (ci < length (cells m))%nat /\ li <> ci /\
  wf_shmem m /\ cells m !! li = Some 0 /\
  waiters m !!! li = [] /\ waiters m !!! ci = [].

Inductive reachable : sys -> Prop :=
  | reach_init m n : init_mem_ok m -> reachable (Sys m (replicate n Idle))
  | reach_step s t a s' : reachable s -> tstep t a s = Some s' -> reachable s'.
End System.

(** ** Classifying program points *)

(** The point inside [lock()] (called by the client or by [wait]). *)
Definition lock_pc_of (p : tpc) : option lk_pc :=
  match p with TLock lp | TWait (CvRelock lp) => Some lp | _ => None end.

(** The point inside [unlock()] (called by the client or by [wait]). *)
Definition unlock_pc_of (p : tpc) : option ul_pc :=
  match p with TUnlock up | TWait (CvUnlock up _) => Some up | _ => None end.

(** Owns the lock: in client code, in [wait] before its [unlock], in
    [notify], or in [unlock] before its [Atomics.sub]. *)
Definition owner (p : tpc) : bool :=
  match p with
  | Held | TWait CvLoad | TNotify _ _ => true
  | _ => bool_decide (unlock_pc_of p = Some UlSub)
  end.

(** Has decremented 2 to 1 and not yet stored 0. *)
Definition releasing (p : tpc) : bool := bool_decide (unlock_pc_of p = Some UlStore).

Definition holds (p : tpc) : bool := owner p || releasing p.

Definition lock_parked (p : tpc) : bool := bool_decide (lock_pc_of p = Some LkParked).

Definition cond_parked (p : tpc) : bool := bool_decide (p = TWait CvParked).

(** Will next set the cell to 2 or wake a lock waiter: contending in
    the [lock] loop past its fast path, or in [unlock] past its
    [Atomics.sub] from 2. *)
Definition pending (p : tpc) : bool :=
  match lock_pc_of p with Some (LkCas12 | LkWait | LkCas02) => true | _ => false end
  || match unlock_pc_of p with Some (UlStore | UlNotify) => true | _ => false end.

(** ** Waking and counting *)

Ltac tpc_cases p :=
  destruct p as [|[]| |[]|[|[] ?| ? | |[]]|? []].

Lemma wake_not_lock_parked p : lock_parked (wake p) = false.
Proof. tpc_cases p; reflexivity. Qed.

Lemma wake_not_cond_parked p : cond_parked (wake p) = false.
Proof. tpc_cases p; reflexivity. Qed.

Lemma wake_holds p : holds (wake p) = holds p.
Proof. tpc_cases p; reflexivity. Qed.

Lemma wake_lock_parked_pending p : lock_parked p = true -> pending (wake p) = true.
Proof. tpc_cases p; easy. Qed.

Lemma wake_id p : lock_parked p = false -> cond_parked p = false -> wake p = p.
Proof. tpc_cases p; easy. Qed.

Lemma cnt_imap {A} (P : A -> bool) (f : nat -> A -> A) (l : list A) :
  (forall i x, P (f i x) = P x) -> cnt P (imap f l) = cnt P l.
Proof.
  revert f. induction l as [|x l IH]; intros f Hf; simpl; [done|].
  rewrite Hf, IH; [done|]. intros; apply Hf.
Qed.

Lemma cnt_step (P : tpc -> bool) (pcs : list tpc) t p' ws :
  (t < length pcs)%nat -> (forall q, P (wake q) = P q) ->
  (cnt P (wake_set ws (<[t:=p']> pcs)) + b2n (P (pcs !!! t)) = cnt P pcs + b2n (P p'))%nat.
Proof.
  intros Ht Hw. unfold wake_set. rewrite cnt_imap by (intros; case_decide; auto).
  by apply cnt_insert.
Qed.

Lemma lookup_step (pcs : list tpc) t p' ws u q :
  wake_set ws (<[t:=p']> pcs) !! u = Some q <->
  exists q0, <[t:=p']> pcs !! u = Some q0 /\ q = if decide (u ∈ ws) then wake q0 else q0.
Proof.
  unfold wake_set. rewrite list_lookup_imap.
  destruct (<[t:=p']> pcs !! u); simpl; split.
  - intros [= <-]. eauto.
  - intros (? & [= <-] & ->). done.
  - done.
  - intros (? & ? & _); done.
Qed.

Lemma length_step (pcs : list tpc) t p' ws :
  length (wake_set ws (<[t:=p']> pcs)) = length pcs.
Proof. unfold wake_set. by rewrite length_imap, length_insert. Qed.

#[export] Hint Resolve wake_not_lock_parked wake_not_cond_parked wake_holds : sync.
#[export] Hint Rewrite length_step : sync_rw.

(** ** What one atomic step does to the lock cell *)

(** Every step of an agent from [p] to [p'] leaves the lock cell and
    the agent's holding status unchanged, acquires a free lock, marks a
    held lock contended, releases it with [Atomics.sub] (to 0 from 1,
    or to 1 from 2, then releasing), or completes a release by storing
    0. *)
Inductive lock_effect (v v' : Z) (p p' : tpc) : Prop :=
  | LeKeep : v' = v -> holds p' = holds p -> lock_effect v v' p p'
  | LeAcquire : v = 0 -> (v' = 1 \/ v' = 2) -> holds p = false -> holds p' = true ->
      lock_effect v v' p p'
  | LeMark : v = 1 -> v' = 2 -> holds p' = holds p -> lock_effect v v' p p'
  | LeRelease : owner p = true -> v' = wrap32 (v - 1) ->
      (v = 1 /\ holds p' = false \/ v <> 1 /\ releasing p' = true) ->
      lock_effect v v' p p'
  | LeStore : releasing p = true -> v' = 0 -> holds p' = false -> lock_effect v v' p p'.

Ltac eval_local H :=
  cbn [local_step] in H;
  repeat first
    [ erewrite cond_wait_load in H by eassumption
    | erewrite cond_wait_block in H by eassumption
    | erewrite notify_add_eval in H by eassumption
    | erewrite notify_wake_eval in H by eassumption ];
  cbn [cond_wait_step] in H;
  repeat first
    [ erewrite lock_step_cas01 in H by eassumption
    | erewrite lock_step_cas02 in H by eassumption
    | erewrite lock_step_cas12 in H by eassumption
    | erewrite lock_step_wait in H by eassumption
    | erewrite tryLock_eval in H by eassumption
    | erewrite unlock_step_sub in H by eassumption
    | erewrite unlock_step_store in H by eassumption
    | erewrite unlock_step_notify in H by eassumption ];
  simpl in H; unfold lock_retry in H; repeat (case_zeq || case_decide); inv_bind; simplify_eq.

(** Read a cell after a step that wrote it, another cell, or nothing. *)
Ltac solve_cell :=
  unfold set_cell; simpl;
  first [ eassumption
        | rewrite list_lookup_insert_eq by (eapply lookup_lt_Some; eassumption); reflexivity
        | rewrite list_lookup_insert_ne by congruence; eassumption ].

Ltac solve_lock_effect :=
  first [ apply LeKeep; reflexivity
        | apply LeAcquire; [reflexivity | lia | reflexivity | reflexivity]
        | apply LeMark; reflexivity
        | apply LeRelease; [reflexivity | reflexivity |];
          first [ left; split; [reflexivity | reflexivity]
                | right; split; [assumption | reflexivity] ]
        | apply LeStore; reflexivity ].

Section Effects.
Context (li ci t : nat) (m : shmem) (v c : Z).
Hypothesis Hne : li <> ci.
Hypothesis Hv : cells m !! li = Some v.
Hypothesis Hc : cells m !! ci = Some c.

Lemma local_step_lock p a p' ws m' :
  local_step li ci t p a m = Some (p', ws, m') ->
  exists v', cells m' !! li = Some v' /\ lock_effect v v' p p'.
Proof.
  intros H. tpc_cases p; destruct a; eval_local H;
    eexists; (split; [solve_cell | solve_lock_effect]).
Qed.
End Effects.

(** ** Parked agents and waiter lists *)

Lemma local_step_not_parked li ci t p a m p' ws m' :
  local_step li ci t p a m = Some (p', ws, m') ->
  lock_parked p = false /\ cond_parked p = false.
Proof. intros H. tpc_cases p; destruct a; cbn in H; inv_bind; done. Qed.

(** A woken agent is no longer in a waiter list: only the agents that
    are not woken keep their parked status. *)
Lemma lookup_step_parked (P : tpc -> bool) pcs t p' ws u :
  (forall x, P (wake x) = false) ->
  (exists x, wake_set ws (<[t:=p']> pcs) !! u = Some x /\ P x = true) <->
  (u ∉ ws) /\ exists x, <[t:=p']> pcs !! u = Some x /\ P x = true.
Proof.
  intros HPw. setoid_rewrite lookup_step. split.
  - intros (x & (x0 & Hx0 & ->) & HP). case_decide; [by rewrite HPw in HP|]. eauto.
  - intros (Hu & x & Hx & HP). exists x. split; [|done]. exists x. by case_decide.
Qed.

Lemma elem_of_drop_NoDup (q : list nat) n u :
  NoDup q -> NoDup (drop n q) /\ (u ∈ drop n q <-> u ∈ q /\ u ∉ take n q).
Proof.
  intros Hnd. rewrite <- (take_drop n q) in Hnd.
  apply NoDup_app in Hnd as (_ & Hdis & Hnd'). split; [done|].
  rewrite <- (take_drop n q) at 2. rewrite elem_of_app.
  split; [intros Hu; split; [by right|]; intros Ht; by apply (Hdis u) | intros [[|] ?]; done].
Qed.

(** How a waiter list of one cell evolves over a step of agent [t]
    from a non-parked point: unchanged (none of the woken agents is in
    it), [t] appended, or its first [n] agents woken. *)
Lemma queue_step (P : tpc -> bool) (pcs : list tpc) t p p' ws (q q' : list nat) :
  (forall x, P (wake x) = false) ->
  pcs !! t = Some p -> P p = false ->
  NoDup q -> (forall u, u ∈ q <-> exists x, pcs !! u = Some x /\ P x = true) ->
  ((q' = q /\ P p' = false /\ (forall u, u ∈ ws -> u ∉ q))
   \/ (q' = q ++ [t] /\ P p' = true /\ ws = [])
   \/ (exists n, ws = take n q /\ q' = drop n q /\ P p' = false)) ->
  NoDup q' /\
  forall u, u ∈ q' <-> exists x, wake_set ws (<[t:=p']> pcs) !! u = Some x /\ P x = true.
Proof.
  intros HPw Hp HPp Hnd Hq Heff.
  assert (Ht : t ∉ q) by (rewrite Hq; intros (x & Hx & HP); congruence).
  assert (Hr : forall u, (exists x, wake_set ws (<[t:=p']> pcs) !! u = Some x /\ P x = true)
                 <-> (u ∉ ws) /\ (if decide (u = t) then P p' = true else u ∈ q)).
  { intros u. rewrite lookup_step_parked by done.
    destruct (decide (u = t)) as [->|Hne].
    - rewrite list_lookup_insert_eq by (eapply lookup_lt_Some; eauto).
      split; [intros (? & (x & [= <-] & ?)); done | intros (? & ?); eauto].
    - rewrite list_lookup_insert_ne by congruence. by rewrite Hq. }
  destruct Heff as [(-> & HP' & Hws)|[(-> & HP' & ->)|(n & -> & -> & HP')]];
    split; try setoid_rewrite Hr.
  - done.
  - intros u. case_decide; subst; [rewrite HP'; naive_solver|]. naive_solver.
  - apply NoDup_app. split_and!; [done| |apply NoDup_singleton]. set_solver.
  - intros u. case_decide; subst; set_solver.
  - by apply (elem_of_drop_NoDup q n 0).
  - intros u. rewrite (proj2 (elem_of_drop_NoDup q n u Hnd)).
    case_decide; subst; [rewrite HP'; naive_solver|]. naive_solver.
Qed.

(** What one step does to the waiter lists. *)
Inductive queue_effect (li ci t : nat) (p' : tpc) (ws : list nat)
    (w w' : gmap nat (list nat)) : Prop :=
  | QeKeep : ws = [] -> w' = w -> lock_parked p' = false -> cond_parked p' = false ->
      queue_effect li ci t p' ws w w'
  | QeParkLock : ws = [] -> w' = <[li:=w !!! li ++ [t]]> w ->
      lock_parked p' = true -> cond_parked p' = false -> queue_effect li ci t p' ws w w'
  | QeParkCond : ws = [] -> w' = <[ci:=w !!! ci ++ [t]]> w ->
      lock_parked p' = false -> cond_parked p' = true -> queue_effect li ci t p' ws w w'
  | QeWakeLock : ws = take 1 (w !!! li) -> w' = <[li:=drop 1 (w !!! li)]> w ->
      lock_parked p' = false -> cond_parked p' = false -> queue_effect li ci t p' ws w w'
  | QeWakeCond n : ws = take n (w !!! ci) -> w' = <[ci:=drop n (w !!! ci)]> w ->
      lock_parked p' = false -> cond_parked p' = false -> queue_effect li ci t p' ws w w'.

Lemma local_step_queue li ci t m v c p a p' ws m' :
  li <> ci -> cells m !! li = Some v -> cells m !! ci = Some c ->
  local_step li ci t p a m = Some (p', ws, m') ->
  queue_effect li ci t p' ws (waiters m) (waiters m').
Proof.
  intros Hne Hv Hc H. tpc_cases p; destruct a; eval_local H;
    first [ apply QeKeep; reflexivity | apply QeParkLock; reflexivity
          | apply QeParkCond; reflexivity | apply QeWakeLock; reflexivity
          | eapply QeWakeCond; reflexivity ].
Qed.

(** ** Memory well-formedness is kept by every step *)

Lemma local_step_mem li ci t m v c p a p' ws m' :
  li <> ci -> cells m !! li = Some v -> cells m !! ci = Some c ->
  local_step li ci t p a m = Some (p', ws, m') ->
  length (cells m') = length (cells m) /\ (wf_shmem m -> wf_shmem m').
Proof.
  intros Hne Hv Hc H. tpc_cases p; destruct a; eval_local H;
    unfold set_cell, wf_shmem; simpl; rewrite ?length_insert;
    (split; [reflexivity|]); intros Hwf; try apply Forall_insert; auto with sync;
    apply Lock.is_int32_012; lia.
Qed.

(** What one step does for the lock's waiters: the agent becomes or
    stays contending, the cell becomes 2, nothing changes for them
    (the agent was not contending, the cell was not 2 and the agent
    does not park on the lock), or the agent is in [unlock]'s
    [Atomics.notify] and wakes the first waiter. *)
Lemma local_step_pending li ci t m v c p a p' ws m' :
  li <> ci -> cells m !! li = Some v -> cells m !! ci = Some c ->
  local_step li ci t p a m = Some (p', ws, m') ->
  exists v', cells m' !! li = Some v' /\
    (pending p' = true \/ v' = 2
     \/ (pending p = false /\ v <> 2 /\ lock_parked p' = false)
     \/ (unlock_pc_of p = Some UlNotify /\ ws = take 1 (waiters m !!! li)
         /\ lock_parked p' = false)).
Proof.
  intros Hne Hv Hc H. destruct (decide (v = 2)) as [Hv2|Hv2];
    tpc_cases p; destruct a; eval_local H; eexists; (split; [solve_cell|]);
    first [ left; reflexivity | right; left; lia
          | right; right; left; split_and!; [reflexivity | lia | reflexivity]
          | right; right; right; split_and!; reflexivity ].
Qed.

Lemma pending_not_parked q : pending q = true -> lock_parked q = false /\ cond_parked q = false.
Proof. tpc_cases q; easy. Qed.

Lemma parked_disjoint q : lock_parked q = true -> cond_parked q = true -> False.
Proof. tpc_cases q; easy. Qed.

Lemma elem_of_take_1 (l : list nat) n u : u ∈ take n l -> u ∈ l.
Proof. intros Hu. rewrite <- (take_drop n l). set_solver. Qed.

(** ** The invariant of the lock and its waiter lists *)

Section Invariant.
Context (li ci : nat).

(** The cell holds 0, 1 or 2, and is 0 exactly when no agent holds
    the lock. *)
Definition lock_cell_ok (s : sys) : Prop :=
  exists v, cells (sys_mem s) !! li = Some v /\ 0 <= v <= 2 /\
    (v = 0 <-> cnt holds (sys_pcs s) = 0%nat).

(** The waiter list of cell [i] has no duplicates and holds exactly
    the agents parked at a [P] point. *)
Definition queue_ok (i : nat) (P : tpc -> bool) (s : sys) : Prop :=
  NoDup (waiters (sys_mem s) !!! i) /\
  forall u, u ∈ waiters (sys_mem s) !!! i <->
    exists q, sys_pcs s !! u = Some q /\ P q = true.

(** Somebody will wake the lock's waiters: while an agent is parked
    on the lock, the cell is 2 (so the holder's [unlock] notifies) or
    an agent is past the point where it sets 2 or notifies. *)
Definition waker_ok (s : sys) : Prop :=
  (exists u q, sys_pcs s !! u = Some q /\ lock_parked q = true) ->
  cells (sys_mem s) !! li = Some 2 \/
  exists u q, sys_pcs s !! u = Some q /\ pending q = true.

Record inv (s : sys) : Prop := {
  inv_ne : li <> ci;
  inv_wf : wf_shmem (sys_mem s);
  inv_li : (li < length (cells (sys_mem s)))%nat;
  inv_ci : (ci < length (cells (sys_mem s)))%nat;
  inv_lock : lock_cell_ok s;
  inv_excl : (cnt holds (sys_pcs s) <= 1)%nat;
  inv_lq : queue_ok li lock_parked s;
  inv_cq : queue_ok ci cond_parked s;
  inv_waker : waker_ok s
}.

Lemma tstep_inv t a s s' :
  tstep li ci t a s = Some s' ->
  exists p p' ws m', sys_pcs s !! t = Some p /\
    local_step li ci t p a (sys_mem s) = Some (p', ws, m') /\
    s' = Sys m' (wake_set ws (<[t:=p']> (sys_pcs s))).
Proof. unfold tstep. intros H. inv_bind. destruct x0 as [[??]?]. inv_bind. eauto 10. Qed.

Lemma inv_cell_ci s : inv s -> exists c, cells (sys_mem s) !! ci = Some c.
Proof. intros Hi. apply lookup_lt_is_Some_2, inv_ci, Hi. Qed.
End Invariant.

(** ** Every step keeps the invariant *)

Section Preservation.
Context (li ci t : nat) (a : act) (m m' : shmem) (pcs : list tpc) (p p' : tpc) (ws : list nat).
Hypothesis Hinv : inv li ci (Sys m pcs).
Hypothesis Hp : pcs !! t = Some p.
Hypothesis Hl : local_step li ci t p a m = Some (p', ws, m').

Let pcs' := wake_set ws (<[t:=p']> pcs).

Lemma holds_owner q : owner q = true -> holds q = true.
Proof. unfold holds. by intros ->. Qed.

Lemma holds_releasing q : releasing q = true -> holds q = true.
Proof. unfold holds. intros ->. apply orb_true_r. Qed.

Lemma pres_lock : lock_cell_ok li (Sys m' pcs') /\ (cnt holds pcs' <= 1)%nat.
Proof.
  destruct (inv_lock _ _ _ Hinv) as (v & Hv & Hr & Hz).
  pose proof (inv_excl _ _ _ Hinv) as Hx. simpl in *.
  destruct (inv_cell_ci _ _ _ Hinv) as [c Hc].
  destruct (local_step_lock li ci t m v c (inv_ne _ _ _ Hinv) Hv Hc p a p' ws m' Hl)
    as (v' & Hv' & Heff).
  assert (Ht : (t < length pcs)%nat) by (eapply lookup_lt_Some; eauto).
  pose proof (cnt_step holds pcs t p' ws Ht wake_holds) as Hcnt.
  rewrite (list_lookup_total_correct _ _ _ Hp) in Hcnt.
  assert (Hh : holds p = true -> v <> 0).
  { intros Hhp ->. pose proof (cnt_at holds pcs t p Hp Hhp). lia. }
  unfold lock_cell_ok, pcs'; simpl.
  destruct Heff as [-> Hk | Hv0 Hv1 Hp0 Hp1 | Hv0 Hv1 Hk | Ho Hv1 Hd | Hr0 Hv1 Hp1].
  - rewrite Hk in Hcnt. split; [exists v; split_and!; auto; lia | lia].
  - rewrite Hp0, Hp1 in Hcnt. simpl in Hcnt. split; [exists v'; split_and!; auto; lia | lia].
  - rewrite Hk in Hcnt. split; [exists v'; split_and!; auto; lia | lia].
  - apply holds_owner in Ho. rewrite Ho in Hcnt. specialize (Hh Ho).
    destruct Hd as [[-> Hp1] | [Hne1 Hp1%holds_releasing]]; rewrite Hp1 in Hcnt;
      simpl in Hcnt; [|assert (v = 2) as -> by lia];
      rewrite wrap32_small in Hv1 by (unfold two31; lia); subst v';
      (split; [eexists; split_and!; eauto; lia | lia]).
  - apply holds_releasing in Hr0. rewrite Hr0, Hp1 in Hcnt. simpl in Hcnt.
    split; [exists v'; split_and!; auto; lia | lia].
Qed.

Lemma pres_queues :
  queue_ok li lock_parked (Sys m' pcs') /\ queue_ok ci cond_parked (Sys m' pcs').
Proof.
  destruct (inv_lock _ _ _ Hinv) as (v & Hv & _).
  destruct (inv_cell_ci _ _ _ Hinv) as [c Hc].
  pose proof (inv_ne _ _ _ Hinv) as Hne.
  destruct (local_step_not_parked _ _ _ _ _ _ _ _ _ Hl) as [Hlp Hcp].
  destruct (inv_lq _ _ _ Hinv) as [Hnd1 Hq1]. destruct (inv_cq _ _ _ Hinv) as [Hnd2 Hq2].
  simpl in *.
  assert (Hdis : forall u, u ∈ waiters m !!! ci -> u ∉ waiters m !!! li).
  { intros u Hu1 Hu2. apply Hq1 in Hu2 as (x & Hx & Px). apply Hq2 in Hu1 as (y & Hy & Py).
    rewrite Hx in Hy. injection Hy as <-. eauto using parked_disjoint. }
  unfold queue_ok, pcs'; simpl.
  destruct (local_step_queue li ci t m v c p a p' ws m' Hne Hv Hc Hl)
    as [-> -> H1 H2 | -> -> H1 H2 | -> -> H1 H2 | -> -> H1 H2 | n -> -> H1 H2];
    rewrite ?lookup_total_insert_eq; rewrite ?lookup_total_insert_ne by congruence;
    (split; [apply (queue_step lock_parked pcs t p p' _ (waiters m !!! li));
               [apply wake_not_lock_parked | done..|]
            |apply (queue_step cond_parked pcs t p p' _ (waiters m !!! ci));
               [apply wake_not_cond_parked | done..|]]).
  (* unchanged list, nobody woken: QeKeep (both lists), the other list of
     QeParkLock and QeParkCond *)
  1, 2, 4, 5: left; split_and!; [reflexivity | assumption | set_solver].
  (* the agent parks on this list *)
  1, 2: right; left; split_and!; [reflexivity | assumption | reflexivity].
  (* [unlock] wakes the first lock waiter; the condition's list is unchanged *)
  - right; right. exists 1%nat. split_and!; [reflexivity | reflexivity | assumption].
  - left. split_and!; [reflexivity | assumption |].
    intros u Hu%elem_of_take_1 Hu'. by apply (Hdis u).
  (* [notify] wakes the first [n] condition waiters *)
  - left. split_and!; [reflexivity | assumption |].
    intros u Hu%elem_of_take_1. by apply Hdis.
  - right; right. exists n. split_and!; [reflexivity | reflexivity | assumption].
Qed.

Lemma pres_waker : waker_ok li (Sys m' pcs').
Proof.
  destruct (inv_lock _ _ _ Hinv) as (v & Hv & _).
  destruct (inv_cell_ci _ _ _ Hinv) as [c Hc].
  destruct (inv_lq _ _ _ Hinv) as [_ Hq1].
  pose proof (inv_waker _ _ _ Hinv) as Hw.
  destruct (local_step_not_parked _ _ _ _ _ _ _ _ _ Hl) as [Hlp Hcp].
  unfold waker_ok, pcs' in *; simpl in *. intros [u Hpk].
  apply (proj1 (lookup_step_parked lock_parked pcs t p' ws u wake_not_lock_parked))
    in Hpk as (Hu & x & Hx & Px).
  (* an agent pending in [s] other than [t] stays pending *)
  assert (Hkeep : forall w q, w <> t -> pcs !! w = Some q -> pending q = true ->
            exists u q, wake_set ws (<[t:=p']> pcs) !! u = Some q /\ pending q = true).
  { intros w q Hwt Hwq Hpq. exists w, q. split; [|done]. apply lookup_step.
    exists q. rewrite list_lookup_insert_ne by congruence. split; [done|].
    destruct (pending_not_parked q Hpq). case_decide; [by rewrite wake_id|done]. }
  destruct (local_step_pending li ci t m v c p a p' ws m' (inv_ne _ _ _ Hinv) Hv Hc Hl)
    as (v' & Hv' & [Hpd | [-> | [(Hnp & Hv2 & Hlp') | (_ & Hws & Hlp')]]]); [| by left | |].
  - right. exists t, p'. split; [|done]. apply lookup_step. exists p'.
    rewrite list_lookup_insert_eq by (eapply lookup_lt_Some; eauto).
    destruct (pending_not_parked p' Hpd). split; [done|]. case_decide; [by rewrite wake_id|done].
  - destruct (decide (u = t)) as [->|Hut].
    { rewrite list_lookup_insert_eq in Hx by (eapply lookup_lt_Some; eauto). congruence. }
    rewrite list_lookup_insert_ne in Hx by congruence.
    destruct (Hw (ex_intro _ u (ex_intro _ x (conj Hx Px)))) as [Hv2' | (w & q & Hwq & Hpq)];
      [congruence|].
    right. apply (Hkeep w q); [|done..]. intros ->. congruence.
  - destruct (decide (u = t)) as [->|Hut].
    { rewrite list_lookup_insert_eq in Hx by (eapply lookup_lt_Some; eauto). congruence. }
    rewrite list_lookup_insert_ne in Hx by congruence.
    assert (Hin : u ∈ waiters m !!! li) by (apply Hq1; eauto).
    destruct (waiters m !!! li) as [|h rest] eqn:Eq; [set_solver|].
    assert (Hh : h ∈ h :: rest) by set_solver.
    apply Hq1 in Hh as (y & Hy & Py).
    assert (h <> t) by (intros ->; congruence).
    right. exists h, (wake y). split; [|by apply wake_lock_parked_pending].
    apply lookup_step. exists y. rewrite list_lookup_insert_ne by congruence.
    split; [done|]. rewrite Hws. simpl. case_decide; set_solver.
Qed.

Lemma pres_mem :
  wf_shmem m' /\ (li < length (cells m'))%nat /\ (ci < length (cells m'))%nat.
Proof.
  destruct (inv_lock _ _ _ Hinv) as (v & Hv & _).
  destruct (inv_cell_ci _ _ _ Hinv) as [c Hc].
  destruct (local_step_mem li ci t m v c p a p' ws m' (inv_ne _ _ _ Hinv) Hv Hc Hl)
    as [Hlen Hwf].
  rewrite Hlen. split_and!; [apply Hwf, (inv_wf _ _ _ Hinv) | apply (inv_li _ _ _ Hinv)
                            | apply (inv_ci _ _ _ Hinv)].
Qed.
End Preservation.

Section Reachable.
Context (li ci : nat).

Lemma inv_step t a s s' : inv li ci s -> tstep li ci t a s = Some s' -> inv li ci s'.
Proof.
  intros Hinv Hs. destruct (tstep_inv li ci t a s s' Hs) as (p & p' & ws & m' & Hp & Hl & ->).
  destruct s as [m pcs]. simpl in *.
  destruct (pres_mem li ci t a m m' pcs p p' ws) as (Hwf & Hli & Hci); try eassumption.
  destruct (pres_lock li ci t a m m' pcs p p' ws) as [Hlk Hx]; try eassumption.
  destruct (pres_queues li ci t a m m' pcs p p' ws) as [Hq1 Hq2]; try eassumption.
  assert (Hw : waker_ok li (Sys m' (wake_set ws (<[t:=p']> pcs))))
    by (eapply pres_waker; eassumption).
  constructor; auto. apply (inv_ne _ _ _ Hinv).
Qed.

Lemma inv_init m n : init_mem_ok li ci m -> inv li ci (Sys m (replicate n Idle)).
Proof.
  intros (Hli & Hci & Hne & Hwf & H0 & Hq1 & Hq2).
  assert (Hc0 : cnt holds (replicate n Idle) = 0%nat) by (induction n; simpl; auto).
  assert (Hidle : forall u q, replicate n Idle !! u = Some q -> q = Idle).
  { intros u q Hu. by apply lookup_replicate in Hu as [-> _]. }
  constructor; unfold lock_cell_ok, queue_ok, waker_ok; simpl; auto;
    [exists 0; split_and!; auto; lia | lia | | |].
  - rewrite Hq1. split; [constructor|]. intros u. split; [set_solver|].
    intros (q & Hu & Pq). rewrite (Hidle _ _ Hu) in Pq. done.
  - rewrite Hq2. split; [constructor|]. intros u. split; [set_solver|].
    intros (q & Hu & Pq). rewrite (Hidle _ _ Hu) in Pq. done.
  - intros (u & q & Hu & Pq). rewrite (Hidle _ _ Hu) in Pq. done.
Qed.

Lemma reachable_inv s : reachable li ci s -> inv li ci s.
Proof. induction 1; eauto using inv_init, inv_step. Qed.
End Reachable.

(** ** Progress of a non-parked agent *)

Ltac eval_goal :=
  cbn [local_step];
  repeat first
    [ erewrite cond_wait_load by eassumption
    | erewrite cond_wait_block by eassumption
    | erewrite notify_add_eval by eassumption
    | erewrite notify_wake_eval by eassumption ];
  cbn [cond_wait_step];
  repeat first
    [ erewrite lock_step_cas01 by eassumption
    | erewrite lock_step_cas02 by eassumption
    | erewrite lock_step_cas12 by eassumption
    | erewrite lock_step_wait by eassumption
    | erewrite tryLock_eval by eassumption
    | erewrite unlock_step_sub by eassumption
    | erewrite unlock_step_store by eassumption
    | erewrite unlock_step_notify by eassumption ];
  simpl; repeat (case_zeq || case_decide); eexists; reflexivity.

(** Every agent that is not asleep in an [Atomics.wait] can take a
    step (calling [lock] when idle, [unlock] when holding). *)
Lemma local_step_enabled li ci t m v c q :
  cells m !! li = Some v -> cells m !! ci = Some c ->
  lock_parked q = false -> cond_parked q = false ->
  exists a r, local_step li ci t q a m = Some r.
Proof.
  intros Hv Hc Hl Hcp. tpc_cases q; try discriminate;
    first [ exists ARun; eval_goal | exists ALock; eval_goal | exists AUnlock; eval_goal ].
Qed.

(** ** The abstract mutex *)

(** The agent that owns the lock, if any. *)
Fixpoint first_owner (pcs : list tpc) : option nat :=
  match pcs with
  | [] => None
  | q :: l => if owner q then Some 0%nat else S <$> first_owner l
  end.

(** A step of an abstract mutex by agent [t]: nothing, [t] acquires a
    free mutex, or the owner [t] releases it. *)
Definition amutex_step (t : nat) (o o' : option nat) : Prop :=
  o' = o \/ (o = None /\ o' = Some t) \/ (o = Some t /\ o' = None).

Lemma owner_holds q : owner q = true -> holds q = true.
Proof. unfold holds. by intros ->. Qed.

Lemma cnt_owner_le_holds pcs : (cnt owner pcs <= cnt holds pcs)%nat.
Proof.
  induction pcs as [|q l IH]; simpl; [lia|]. unfold holds at 1.
  destruct (owner q); simpl; lia.
Qed.

Lemma first_owner_spec (pcs : list tpc) :
  (cnt owner pcs <= 1)%nat ->
  (forall i, first_owner pcs = Some i <-> exists q, pcs !! i = Some q /\ owner q = true) /\
  (first_owner pcs = None <-> cnt owner pcs = 0%nat).
Proof.
  induction pcs as [|q l IH]; simpl; intros Hle.
  - split; [intros i; split; [done|]; intros (? & ? & ?); done | done].
  - destruct (owner q) eqn:Hq; simpl in *.
    + assert (H0 : cnt owner l = 0%nat) by lia.
      split; [|split; [done | lia]]. intros [|i]; simpl; split; [eauto | done | done |].
      intros (x & Hx & Ox). pose proof (cnt_at owner l i x Hx Ox). lia.
    + destruct (IH Hle) as [IHs IHn]. split.
      * intros [|i]; simpl.
        -- split; [by destruct (first_owner l) | intros (x & [= <-] & ?); congruence].
        -- rewrite <- IHs. destruct (first_owner l); simpl; split; congruence.
      * rewrite <- IHn. destruct (first_owner l); simpl; split; congruence.
Qed.

Lemma wake_owner q : owner (wake q) = owner q.
Proof. tpc_cases q; reflexivity. Qed.

Lemma first_owner_ext (l l' : list tpc) :
  (forall u, owner <$> l !! u = owner <$> l' !! u) -> first_owner l = first_owner l'.
Proof.
  revert l'. induction l as [|q l IH]; intros [|q' l'] Hl; simpl; try done.
  - specialize (Hl 0%nat). done.
  - specialize (Hl 0%nat). done.
  - pose proof (Hl 0%nat) as H0. simpl in H0. injection H0 as ->.
    rewrite (IH l'); [done|]. intros u. apply (Hl (S u)).
Qed.

Lemma owner_step (pcs : list tpc) t p' ws u :
  (t < length pcs)%nat ->
  owner <$> wake_set ws (<[t:=p']> pcs) !! u =
  if decide (u = t) then Some (owner p') else owner <$> pcs !! u.
Proof.
  intros Ht. unfold wake_set. rewrite list_lookup_imap.
  destruct (decide (u = t)) as [->|Hne].
  - rewrite list_lookup_insert_eq by done. simpl. case_decide; by rewrite ?wake_owner.
  - rewrite list_lookup_insert_ne by congruence.
    destruct (pcs !! u); simpl; [case_decide; by rewrite ?wake_owner | done].
Qed.

Lemma holds_not_parked q : holds q = true -> lock_parked q = false /\ cond_parked q = false.
Proof. tpc_cases q; easy. Qed.

Lemma tstep_of_local li ci t a s p p' ws m' :
  sys_pcs s !! t = Some p -> local_step li ci t p a (sys_mem s) = Some (p', ws, m') ->
  tstep li ci t a s = Some (Sys m' (wake_set ws (<[t:=p']> (sys_pcs s)))).
Proof. intros Hp Hl. unfold tstep. rewrite Hp. cbn -[local_step]. by rewrite Hl. Qed.

Lemma run_reachable li ci tr s s' :
  reachable li ci s -> run li ci tr s = Some s' -> reachable li ci s'.
Proof.
  revert s. induction tr as [|[t a] tr IH]; simpl; intros s Hr H.
  - congruence.
  - inv_bind. eapply IH; [eapply reach_step|]; eauto.
Qed.

(** Two agents that both hold the lock are one agent. *)
Lemma holds_excl li ci s t1 t2 p1 p2 :
  inv li ci s ->
  sys_pcs s !! t1 = Some p1 -> sys_pcs s !! t2 = Some p2 ->
  holds p1 = true -> holds p2 = true -> t1 = t2.
Proof.
  intros Hi H1 H2 P1 P2. pose proof (inv_excl _ _ _ Hi) as Hx.
  destruct (decide (t1 = t2)) as [|Hne]; [done|].
  assert (2 <= cnt holds (sys_pcs s))%nat; [|lia].
  apply (cnt_two holds (sys_pcs s) t1 t2); try (by eapply lookup_lt_Some); [done| |];
    by rewrite (list_lookup_total_correct _ _ _ H1) || rewrite (list_lookup_total_correct _ _ _ H2).
Qed.

(** ** The lock's guarantees *)

(** C7. Mutual exclusion: in every reachable state of any number of
    agents running [lock]/[asyncLock]/[tryLock]/[unlock]/[wait]/
    [notify] of lock.js, at most one agent holds the lock (owns it, or
    is releasing it between [Atomics.sub] and [Atomics.store]). *)
Theorem mutual_exclusion li ci s t1 t2 p1 p2 :
  reachable li ci s ->
  sys_pcs s !! t1 = Some p1 -> sys_pcs s !! t2 = Some p2 ->
  holds p1 = true -> holds p2 = true -> t1 = t2.
Proof. intros Hr. eapply holds_excl, reachable_inv, Hr. Qed.

(** C8. The lock cell holds 0, 1 or 2 in every reachable state, and it
    is 0 exactly when no agent holds the lock. *)
Theorem lock_cell_invariant li ci s :
  reachable li ci s ->
  exists v, cells (sys_mem s) !! li = Some v /\ 0 <= v <= 2 /\
    (v = 0 <-> forall u q, sys_pcs s !! u = Some q -> holds q = false).
Proof.
  intros Hr. destruct (inv_lock _ _ _ (reachable_inv _ _ _ Hr)) as (v & Hv & Hb & Hz).
  exists v. split_and!; [done | lia | lia |]. by rewrite Hz, cnt_zero_lookup.
Qed.

(** C9. No lost wake-up on the lock: while an agent [u] sleeps in the
    lock's [Atomics.wait], another agent [w] that can take a step is
    either holding the lock with the cell at 2 (its [unlock] subtracts
    from 2, so it stores 0 and calls [Atomics.notify]), or contending
    past the fast path of [lock] (it can only own the lock by setting
    the cell to 2), or in [unlock] after subtracting from 2 (about to
    store 0 and notify). *)
Theorem lock_waiters_have_waker li ci s u q :
  reachable li ci s -> sys_pcs s !! u = Some q -> lock_parked q = true ->
  exists w qw, w <> u /\ sys_pcs s !! w = Some qw /\
    ((holds qw = true /\ cells (sys_mem s) !! li = Some 2) \/ pending qw = true) /\
    exists a s', tstep li ci w a s = Some s'.
Proof.
  intros Hr Hu Hq. pose proof (reachable_inv _ _ _ Hr) as Hinv.
  destruct (inv_lock _ _ _ Hinv) as (v & Hv & _ & Hz).
  destruct (inv_cell_ci _ _ _ Hinv) as [c Hc].
  assert (Hw : exists w qw, sys_pcs s !! w = Some qw /\
            ((holds qw = true /\ cells (sys_mem s) !! li = Some 2) \/ pending qw = true)).
  { destruct (inv_waker _ _ _ Hinv (ex_intro _ u (ex_intro _ q (conj Hu Hq))))
      as [H2 | (w & qw & Hw & Pw)]; [|eauto].
    assert (0 < cnt holds (sys_pcs s))%nat as (w & qw & ? & ?)%cnt_pos_lookup; [|eauto 10].
    rewrite Hv in H2. injection H2 as ->. destruct (cnt holds (sys_pcs s)); lia. }
  destruct Hw as (w & qw & Hw & Pw).
  assert (Hnp : lock_parked qw = false /\ cond_parked qw = false)
    by (destruct Pw as [[? _]|?]; eauto using holds_not_parked, pending_not_parked).
  destruct (local_step_enabled li ci w (sys_mem s) v c qw Hv Hc (proj1 Hnp) (proj2 Hnp))
    as (a & [[p' ws] m'] & Hl).
  exists w, qw. split_and!; [intros ->; destruct Hnp as [Hn _]; congruence|done|done|].
  exists a, (Sys m' (wake_set ws (<[w:=p']> (sys_pcs s)))).
  by apply (tstep_of_local li ci w a s qw).
Qed.

(** C10. Refinement: each step of the lock.js system, seen through the
    owner of the lock, is a step of an abstract mutex: nothing changes,
    the stepping agent acquires a free mutex, or the owner releases it. *)
Theorem lock_refines_mutex li ci s t a s' :
  reachable li ci s -> tstep li ci t a s = Some s' ->
  amutex_step t (first_owner (sys_pcs s)) (first_owner (sys_pcs s')).
Proof.
  intros Hr Hs.
  assert (Hle : forall s0, reachable li ci s0 -> (cnt owner (sys_pcs s0) <= 1)%nat).
  { intros s0 H0. pose proof (inv_excl _ _ _ (reachable_inv _ _ _ H0)).
    pose proof (cnt_owner_le_holds (sys_pcs s0)). lia. }
  pose proof (Hle _ (reach_step _ _ _ _ _ _ Hr Hs)) as Hle'. specialize (Hle _ Hr).
  destruct (tstep_inv li ci t a s s' Hs) as (p & p' & ws & m' & Hp & Hl & ->). simpl in *.
  assert (Ht : (t < length (sys_pcs s))%nat) by (eapply lookup_lt_Some; eauto).
  pose proof (cnt_step owner (sys_pcs s) t p' ws Ht wake_owner) as Hcnt.
  rewrite (list_lookup_total_correct _ _ _ Hp) in Hcnt.
  destruct (first_owner_spec _ Hle) as [Hs1 Hn1].
  destruct (first_owner_spec _ Hle') as [Hs2 Hn2].
  unfold amutex_step.
  destruct (owner p) eqn:Op, (owner p') eqn:Op'; simpl in Hcnt.
  1, 4: left; apply first_owner_ext; intros u; rewrite owner_step by done;
        case_decide; subst; [rewrite Hp; simpl; congruence | done].
  - right; right. split; [apply Hs1; eauto|]. apply Hn2. lia.
  - right; left. split; [apply Hn1; lia|]. apply Hs2. exists p'. split; [|done].
    apply lookup_step. exists p'. rewrite list_lookup_insert_eq by done. split; [done|].
    case_decide; [|done]. destruct (holds_not_parked p') as [??];
      [by apply owner_holds | by rewrite wake_id].
Qed.

(** ** The condition variable's sequence cell *)

(** A step is [notifyOne]/[notifyAll]'s [Atomics.add(seqIndex, 1)]. *)
Definition adds_seq (p : tpc) (a : act) : bool :=
  match p, a with TNotify _ NtAdd, ARun => true | _, _ => false end.

(** A run that also counts the notifications it performs. *)
Fixpoint run_count (li ci : nat) (tr : list (nat * act)) (s : sys) : option (sys * nat) :=
  match tr with
  | [] => Some (s, 0%nat)
  | (t, a) :: tr' =>
      s1 ← tstep li ci t a s;
      '(s2, n) ← run_count li ci tr' s1;
      Some (s2, (b2n (default false ((fun p => adds_seq p a) <$> sys_pcs s !! t)) + n)%nat)
  end.

Lemma local_step_seq li ci t m v c p a p' ws m' :
  li <> ci -> cells m !! li = Some v -> cells m !! ci = Some c ->
  local_step li ci t p a m = Some (p', ws, m') ->
  cells m' !! ci = Some (if adds_seq p a then wrap32 (c + 1) else c).
Proof. intros Hne Hv Hc H. tpc_cases p; destruct a; eval_local H; solve_cell. Qed.

Lemma run_count_reachable li ci tr s s' n :
  reachable li ci s -> run_count li ci tr s = Some (s', n) -> reachable li ci s'.
Proof.
  revert s n. induction tr as [|[t a] tr IH]; simpl; intros s n Hr H.
  - congruence.
  - destruct (tstep li ci t a s) as [s1|] eqn:Hs; [|done]. simpl in H.
    destruct (run_count li ci tr s1) as [[s2 n2]|] eqn:Hrun; [|done]. simpl in H.
    injection H as <- <-. eapply IH; [eapply reach_step|]; eauto.
Qed.

(** The sequence cell after a run that counted [n] notifications. *)
Lemma seq_after_run li ci tr s s' n c :
  reachable li ci s -> run_count li ci tr s = Some (s', n) ->
  cells (sys_mem s) !! ci = Some c ->
  cells (sys_mem s') !! ci = Some (wrap32 (c + Z.of_nat n)).
Proof.
  revert s n c. induction tr as [|[t a] tr IH]; simpl; intros s n c Hr H Hc.
  - injection H as <- <-. rewrite Z.add_0_r, wrap32_id; [done|].
    eapply lookup_int32; [apply (inv_wf _ _ _ (reachable_inv _ _ _ Hr)) | done].
  - destruct (tstep li ci t a s) as [s1|] eqn:Hs; [|done]. simpl in H.
    destruct (run_count li ci tr s1) as [[s2 n2]|] eqn:Hrun; [|done]. simpl in H.
    injection H as <- <-.
    pose proof (reachable_inv _ _ _ Hr) as Hinv.
    destruct (inv_lock _ _ _ Hinv) as (v & Hv & _).
    destruct (tstep_inv li ci t a s s1 Hs) as (p & p' & ws & m' & Hp & Hl & ->).
    pose proof (local_step_seq li ci t _ v c p a p' ws m' (inv_ne _ _ _ Hinv) Hv Hc Hl) as Hc'.
    rewrite (IH _ _ _ (reach_step _ _ _ _ _ _ Hr Hs) Hrun Hc'), Hp. simpl.
    destruct (adds_seq p a); simpl; [rewrite wrap32_add_l|]; f_equal; f_equal; lia.
Qed.

(** C11. The sequence cell counts notifications modulo 2^32: over any
    run from a reachable state, it moves from [c] to [wrap32 (c + n)]
    where [n] is the number of [notifyOne]/[notifyAll] calls whose
    [Atomics.add] ran; no other operation writes it. *)
Theorem seq_counts_notifies li ci tr s s' n c :
  reachable li ci s -> run_count li ci tr s = Some (s', n) ->
  cells (sys_mem s) !! ci = Some c ->
  cells (sys_mem s') !! ci = Some (wrap32 (c + Z.of_nat n)).
Proof. exact (seq_after_run li ci tr s s' n c). Qed.

(** [Atomics.wait(seqIndex, seq)] in [wait], on a sequence cell holding
    [c]: the agent parks when [c] is still [seq], and goes on to
    [lock()] otherwise. *)
Lemma tstep_block li ci t s seq c :
  sys_pcs s !! t = Some (TWait (CvBlock seq)) -> cells (sys_mem s) !! ci = Some c ->
  exists s'', tstep li ci t ARun s = Some s'' /\
    if decide (c = wrap32 seq)
    then sys_pcs s'' !! t = Some (TWait CvParked) /\ t ∈ waiters (sys_mem s'') !!! ci
    else sys_pcs s'' !! t = Some (TWait (CvRelock LkCas01)).
Proof.
  intros Hp Hc. eexists. split.
  { apply (tstep_of_local li ci t ARun s (TWait (CvBlock seq))
      (if decide (c = wrap32 seq) then TWait CvParked else TWait (CvRelock LkCas01)) []
      (if decide (c = wrap32 seq)
       then Shmem (cells (sys_mem s)) (<[ci:=waiters (sys_mem s) !!! ci ++ [t]]> (waiters (sys_mem s)))
       else sys_mem s)); [done|].
    cbn [local_step]. rewrite (cond_wait_block li ci t _ c Hc).
    destruct (decide (c = wrap32 seq)); reflexivity. }
  assert (Ht : (t < length (sys_pcs s))%nat) by (eapply lookup_lt_Some; eauto).
  case_decide; cbn [sys_pcs sys_mem waiters]; [split|];
    try (apply lookup_step; eexists; split;
         [by rewrite list_lookup_insert_eq | case_decide; [set_solver | done]]).
  rewrite lookup_total_insert_eq. set_solver.
Qed.

(** C12. No lost notification: an agent in [wait] whose snapshot [seq]
    was the sequence cell's value in a reachable state [s] does not
    block in its [Atomics.wait] if, since [s], a number of
    notifications not divisible by 2^32 ran; it goes on to reacquire
    the lock. *)
Theorem cond_wait_sees_notify li ci tr s s' n seq t :
  reachable li ci s -> cells (sys_mem s) !! ci = Some seq ->
  run_count li ci tr s = Some (s', n) ->
  sys_pcs s' !! t = Some (TWait (CvBlock seq)) ->
  Z.of_nat n mod two32 <> 0 ->
  exists s'', tstep li ci t ARun s' = Some s'' /\
    sys_pcs s'' !! t = Some (TWait (CvRelock LkCas01)).
Proof.
  intros Hr Hs Hrun Ht Hn.
  pose proof (seq_after_run li ci tr s s' n seq Hr Hrun Hs) as Hc.
  destruct (tstep_block li ci t s' seq _ Ht Hc) as (s'' & Hstep & Hres).
  exists s''. split; [done|]. case_decide as Heq; [|done].
  exfalso. apply Hn, (wrap32_add_eq seq). rewrite Heq. reflexivity.
Qed.

(** C13. The only lost notifications: when the number of notifications
    since the snapshot is a multiple of 2^32 (in particular zero), the
    sequence cell is back at the snapshot and the waiter parks in the
    sequence cell's waiter list. *)
Theorem cond_wait_blocks_on_wrap li ci tr s s' n seq t :
  reachable li ci s -> cells (sys_mem s) !! ci = Some seq ->
  run_count li ci tr s = Some (s', n) ->
  sys_pcs s' !! t = Some (TWait (CvBlock seq)) ->
  Z.of_nat n mod two32 = 0 ->
  exists s'', tstep li ci t ARun s' = Some s'' /\
    sys_pcs s'' !! t = Some (TWait CvParked) /\ t ∈ waiters (sys_mem s'') !!! ci.
Proof.
  intros Hr Hs Hrun Ht Hn.
  pose proof (seq_after_run li ci tr s s' n seq Hr Hrun Hs) as Hc.
  destruct (tstep_block li ci t s' seq _ Ht Hc) as (s'' & Hstep & Hres).
  exists s''. split; [done|]. case_decide as Heq; [done|].
  exfalso. apply Heq, wrap32_add_eq, Hn.
Qed.

(** ** Two agents on the lock buffer's first pair of cells *)

Section Demo.
Local Open Scope nat_scope.

Definition demo_init : sys := Sys (Shmem [0%Z; 0%Z] ∅) [Idle; Idle].

Lemma demo_init_reachable : reachable 0 1 demo_init.
Proof.
apply (reach_init 0 1 (Shmem [0%Z; 0%Z] ∅) 2).
split_and!; simpl; try reflexivity; try lia.
unfold wf_shmem. simpl. repeat constructor; unfold two31; lia.
Qed.

Lemma demo_reachable tr s : run 0 1 tr demo_init = Some s -> reachable 0 1 s.
Proof. apply run_reachable, demo_init_reachable. Qed.

Lemma demo_count_reachable tr s n : run_count 0 1 tr demo_init = Some (s, n) -> reachable 0 1 s.
Proof. apply run_count_reachable, demo_init_reachable. Qed.

(** Agent 0 locks; agent 1 contends, marks the cell 2 and parks. *)
Definition demo_contended : list (nat * act) :=
[(0, ALock); (0, ARun); (1, ALock); (1, ARun); (1, ARun); (1, ARun)].

(** ... then agent 0 unlocks, waking agent 1, which acquires. *)
Definition demo_handoff : list (nat * act) :=
demo_contended ++ [(0, AUnlock); (0, ARun); (0, ARun); (0, ARun); (1, ARun)].

(** Agent 0 locks and enters [wait] (snapshot of the sequence cell). *)
Definition demo_waiting : list (nat * act) := [(0, ALock); (0, ARun); (0, AWait)].

(** Agent 0 loads the sequence number and unlocks; agent 1 locks,
  runs [notifyOne] and unlocks. *)
Definition demo_notified : list (nat * act) :=
[(0, ARun); (0, ARun); (1, ALock); (1, ARun); (1, ANotify false); (1, ARun); (1, ARun)].

(** Agent 0 loads the sequence number and unlocks; nobody notifies. *)
Definition demo_unnotified : list (nat * act) := [(0, ARun); (0, ARun)].

(** The states these schedules reach, computed. *)
Definition s_contended : sys :=
  Eval vm_compute in default demo_init (run 0 1 demo_contended demo_init).
Definition s_handoff : sys :=
  Eval vm_compute in default demo_init (run 0 1 demo_handoff demo_init).
Definition s_released : sys :=
  Eval vm_compute in default demo_init (tstep 0 1 0 AUnlock s_contended).
Definition s_waiting : sys :=
  Eval vm_compute in default demo_init (run 0 1 demo_waiting demo_init).
Definition s_notified : sys :=
  Eval vm_compute in default demo_init (fst <$> run_count 0 1 demo_notified s_waiting).
Definition s_unnotified : sys :=
  Eval vm_compute in default demo_init (fst <$> run_count 0 1 demo_unnotified s_waiting).

Lemma mutual_exclusion_witness :
  run 0 1 demo_handoff demo_init = Some s_handoff /\
  sys_pcs s_handoff !! 1 = Some Held /\ holds Held = true /\ 1 = 1.
Proof.
  split; [vm_compute; reflexivity|]. split; [reflexivity|]. split; [reflexivity|].
  apply (mutual_exclusion 0 1 s_handoff 1 1 Held Held);
    [apply (demo_reachable demo_handoff); vm_compute; reflexivity | reflexivity..].
Defined.

Lemma lock_cell_invariant_witness :
  run 0 1 demo_contended demo_init = Some s_contended /\
  exists v, cells (sys_mem s_contended) !! 0 = Some v /\ (0 <= v <= 2)%Z /\
    (v = 0%Z <-> forall u q, sys_pcs s_contended !! u = Some q -> holds q = false).
Proof.
  split; [vm_compute; reflexivity|].
  apply (lock_cell_invariant 0 1).
  apply (demo_reachable demo_contended). vm_compute. reflexivity.
Defined.

Lemma lock_waiters_have_waker_witness :
  sys_pcs s_contended !! 1 = Some (TLock LkParked) /\ lock_parked (TLock LkParked) = true /\
  exists w qw, w <> 1%nat /\ sys_pcs s_contended !! w = Some qw /\
    ((holds qw = true /\ cells (sys_mem s_contended) !! 0%nat = Some 2%Z) \/ pending qw = true) /\
    exists a s', tstep 0 1 w a s_contended = Some s'.
Proof.
  split; [reflexivity|]. split; [reflexivity|].
  apply (lock_waiters_have_waker 0 1 s_contended 1 (TLock LkParked));
    [apply (demo_reachable demo_contended); vm_compute; reflexivity | reflexivity | reflexivity].
Defined.

Lemma lock_refines_mutex_witness :
  tstep 0 1 0 AUnlock s_contended = Some s_released /\
  amutex_step 0 (first_owner (sys_pcs s_contended)) (first_owner (sys_pcs s_released)).
Proof.
  split; [vm_compute; reflexivity|].
  apply (lock_refines_mutex 0 1 s_contended 0 AUnlock);
    [apply (demo_reachable demo_contended); vm_compute; reflexivity
    | vm_compute; reflexivity].
Defined.

Lemma seq_counts_notifies_witness :
  run_count 0 1 demo_notified s_waiting = Some (s_notified, 1) /\
  cells (sys_mem s_waiting) !! 1 = Some 0%Z /\
  cells (sys_mem s_notified) !! 1 = Some (wrap32 (0 + Z.of_nat 1)).
Proof.
  split; [vm_compute; reflexivity|]. split; [reflexivity|].
  apply (seq_counts_notifies 0 1 demo_notified s_waiting);
    [apply (demo_reachable demo_waiting); vm_compute; reflexivity
    | vm_compute; reflexivity | reflexivity].
Defined.

Lemma cond_wait_sees_notify_witness :
  run_count 0 1 demo_notified s_waiting = Some (s_notified, 1) /\
  cells (sys_mem s_waiting) !! 1 = Some 0%Z /\
  sys_pcs s_notified !! 0 = Some (TWait (CvBlock 0)) /\ (Z.of_nat 1 mod two32 <> 0)%Z /\
  exists s'', tstep 0 1 0 ARun s_notified = Some s'' /\
    sys_pcs s'' !! 0 = Some (TWait (CvRelock LkCas01)).
Proof.
  split; [vm_compute; reflexivity|]. split; [reflexivity|]. split; [reflexivity|].
  split; [vm_compute; discriminate|].
  apply (cond_wait_sees_notify 0 1 demo_notified s_waiting s_notified 1 0 0);
    [apply (demo_reachable demo_waiting); vm_compute; reflexivity | reflexivity
    | vm_compute; reflexivity | reflexivity | vm_compute; discriminate].
Defined.

Lemma cond_wait_blocks_on_wrap_witness :
  run_count 0 1 demo_unnotified s_waiting = Some (s_unnotified, 0) /\
  cells (sys_mem s_waiting) !! 1 = Some 0%Z /\
  sys_pcs s_unnotified !! 0 = Some (TWait (CvBlock 0)) /\ (Z.of_nat 0 mod two32 = 0)%Z /\
  exists s'', tstep 0 1 0 ARun s_unnotified = Some s'' /\
    sys_pcs s'' !! 0 = Some (TWait CvParked) /\ 0 ∈ waiters (sys_mem s'') !!! 1.
Proof.
  split; [vm_compute; reflexivity|]. split; [reflexivity|]. split; [reflexivity|].
  split; [reflexivity|].
  apply (cond_wait_blocks_on_wrap 0 1 demo_unnotified s_waiting s_unnotified 0 0 0);
    [apply (demo_reachable demo_waiting); vm_compute; reflexivity | reflexivity
    | vm_compute; reflexivity | reflexivity | reflexivity].
Defined.
End Demo.
