(* ===== verification/Phase.v ===== *)
(** * A lock/condition pair as its clients see it

    [Sync.v] interleaves the atomic operations of [lock], [unlock],
    [wait] and [notify] of src/src/lock.js.  Code that uses a pair (the
    two transfer loops of lib.ts, [Handshake.v]) needs less: whether
    the agent is idle, acquiring, holding the lock in its own code,
    inside [notifyOne] before or after its [Atomics.add], inside [wait]
    at its load, after its load of the sequence number [seq], asleep,
    or re-acquiring, or inside [unlock].  [aphase] is that view of a
    program point.  [run_step_spec] says how one atomic step moves the
    stepping agent's phase ([astep]) and the sequence cell, whom it
    can wake, and that an acquisition finds nobody holding the lock;
    [local_step_frame] that no step touches another cell of the shared
    buffer, so that the two pairs of the lock buffer (lib.ts 84-92)
    step independently ([inv_frame]). *)

From S2P Require Import Prelude Int32 Atomics Lock Cond Sync.

Local Open Scope Z_scope.

Inductive aphase :=
  | PhIdle                  (** outside the API *)
  | PhAcq                   (** inside [lock]/[asyncLock] *)
  | PhHeld                  (** in client code, holding the lock *)
  | PhNotify (added : bool) (** inside [notifyOne]/[notifyAll], after its [Atomics.add] or not *)
  | PhLoad                 (** inside [wait], before loading the sequence cell *)
  | PhWait (seq : Z)       (** inside [wait], [seq] loaded, not asleep *)
  | PhParked               (** asleep in [wait]'s [Atomics.wait] *)
  | PhRelock               (** inside [wait]'s final [lock] *)
  | PhUnlock.               (** inside [unlock] *)

#[export] Instance aphase_eq_dec : EqDecision aphase.
Proof. solve_decision. Defined.

Definition aphase_of (q : tpc) : aphase :=
  match q with
  | Idle => PhIdle
  | TLock _ => PhAcq
  | Held => PhHeld
  | TUnlock _ => PhUnlock
  | TWait CvLoad => PhLoad
  | TWait (CvUnlock _ v) | TWait (CvBlock v) => PhWait v
  | TWait CvParked => PhParked
  | TWait (CvRelock _) => PhRelock
  | TNotify _ NtAdd => PhNotify false
  | TNotify _ NtWake => PhNotify true
  end.

(** Phases in which the agent runs its own code or an API function
    that it entered holding the lock and has not released it in. *)
Definition client_holds (ph : aphase) : bool :=
  match ph with PhHeld | PhNotify _ | PhLoad => true | _ => false end.

(** An agent outside any API call, free to run its next statement. *)
Definition at_rest (q : tpc) : bool :=
  match q with Idle | Held => true | _ => false end.

(** The moves of one atomic step, the sequence cell holding [c]. *)
Inductive astep (c : Z) : aphase -> aphase -> Prop :=
  | as_acq : astep c PhAcq PhAcq
  | as_acq_held : astep c PhAcq PhHeld
  | as_unlock : astep c PhUnlock PhUnlock
  | as_unlock_idle : astep c PhUnlock PhIdle
  | as_load : astep c PhLoad (PhWait c)
  | as_wait v : astep c (PhWait v) (PhWait v)
  | as_park v : c = wrap32 v -> astep c (PhWait v) PhParked
  | as_noteq v : c <> wrap32 v -> astep c (PhWait v) PhRelock
  | as_relock : astep c PhRelock PhRelock
  | as_relock_held : astep c PhRelock PhHeld
  | as_add : astep c (PhNotify false) (PhNotify true)
  | as_wake : astep c (PhNotify true) PhHeld.

Ltac solve_astep :=
  first [ apply as_acq | apply as_acq_held | apply as_unlock | apply as_unlock_idle
        | apply as_load | apply as_wait | apply as_park; first [assumption | reflexivity]
        | apply as_noteq; assumption | apply as_relock | apply as_relock_held
        | apply as_add | apply as_wake ].

(** ** Lemmas on phases *)

Lemma client_holds_holds q : client_holds (aphase_of q) = true -> holds q = true.
Proof. tpc_cases q; easy. Qed.

Lemma wake_phase q : aphase_of (wake q) = aphase_of q \/ cond_parked q = true.
Proof. tpc_cases q; auto. Qed.

Lemma cond_parked_phase q : cond_parked q = true -> aphase_of q = PhParked.
Proof. tpc_cases q; easy. Qed.

Lemma wake_parked q : aphase_of q = PhParked -> aphase_of (wake q) = PhRelock.
Proof. tpc_cases q; easy. Qed.

Lemma wake_set_nil (pcs : list tpc) : wake_set [] pcs = pcs.
Proof.
  unfold wake_set. apply list_eq. intros i. rewrite list_lookup_imap.
  by destruct (pcs !! i).
Qed.

(** ** Calling an API function *)

(** The four calls the transfer loops make: they only move the caller. *)
Definition call_target (a : act) : option tpc :=
  match a with
  | ALock => Some (TLock LkCas01)
  | AUnlock => Some (TUnlock UlSub)
  | AWait => Some (TWait CvLoad)
  | ANotify all => Some (TNotify all NtAdd)
  | _ => None
  end.

Lemma tstep_call li ci t a m pcs q q' :
  pcs !! t = Some q -> call_target a = Some q' ->
  (if a is ALock then q = Idle else q = Held) ->
  tstep li ci t a (Sys m pcs) = Some (Sys m (<[t:=q']> pcs)).
Proof.
  intros Hq Ha Hr. unfold tstep. cbn [sys_pcs sys_mem]. rewrite Hq.
  destruct a; cbn in Ha, Hr; simplify_eq; cbn -[wake_set]; rewrite wake_set_nil; reflexivity.
Qed.

Lemma local_step_call_inv li ci t a m q r :
  call_target a <> None -> local_step li ci t q a m = Some r ->
  exists q', call_target a = Some q' /\ r = (q', [], m) /\
    (if a is ALock then q = Idle else q = Held).
Proof.
  intros Ha H. destruct a; try done; tpc_cases q; cbn in H; simplify_eq; eauto.
Qed.

(** ** One atomic step of an agent inside an API function *)

Section RunStep.
Context (li ci t : nat) (m m' : shmem) (pcs : list tpc) (p p' : tpc) (ws : list nat) (c : Z).
Hypothesis Hinv : inv li ci (Sys m pcs).
Hypothesis Hp : pcs !! t = Some p.
Hypothesis Hc : cells m !! ci = Some c.
Hypothesis Hl : local_step li ci t p ARun m = Some (p', ws, m').

Lemma run_step_core :
  astep c (aphase_of p) (aphase_of p') /\
  cells m' !! ci = Some (if bool_decide (aphase_of p = PhNotify false) then wrap32 (c + 1) else c) /\
  (ws = [] \/ ws = take 1 (waiters m !!! li) \/ aphase_of p = PhNotify true).
Proof.
  destruct (inv_lock _ _ _ Hinv) as (v & Hv & _). pose proof (inv_ne _ _ _ Hinv) as Hne.
  simpl in Hv.
  tpc_cases p; eval_local Hl; cbn;
    rewrite ?bool_decide_true by done; rewrite ?bool_decide_false by done;
    (split; [|split]); try solve_astep; try solve_cell; auto.
Qed.

Lemma run_step_woken u q :
  u <> t -> pcs !! u = Some q -> u ∈ ws -> cond_parked q = true -> aphase_of p = PhNotify true.
Proof.
  intros Hut Hu Hin Hcp. destruct run_step_core as (_ & _ & [->|[->|?]]); [set_solver| |done].
  apply elem_of_take_1 in Hin. destruct (inv_lq _ _ _ Hinv) as [_ Hq].
  apply Hq in Hin as (q0 & Hq0 & Hlp). simpl in Hq0. rewrite Hu in Hq0. injection Hq0 as <-.
  exfalso. by apply (parked_disjoint q).
Qed.

(** An agent other than [t] keeps its phase, except a sleeper in
    [wait] woken by [t]'s [Atomics.notify] on the sequence cell. *)
Lemma run_step_other u q :
  u <> t -> pcs !! u = Some q ->
  aphase_of (if decide (u ∈ ws) then wake q else q) = aphase_of q \/
  (aphase_of q = PhParked /\ aphase_of (if decide (u ∈ ws) then wake q else q) = PhRelock /\
   aphase_of p = PhNotify true).
Proof.
  intros Hut Hu. case_decide as Hin; [|by left].
  destruct (wake_phase q) as [|Hcp]; [by left|right].
  split_and!; [by apply cond_parked_phase | by apply wake_parked, cond_parked_phase |].
  by apply (run_step_woken u q).
Qed.

(** The stepping agent keeps the phase it moves to: it is not among
    the agents it wakes, or waking does not change its phase. *)
Lemma run_step_self :
  aphase_of (if decide (t ∈ ws) then wake p' else p') = aphase_of p'.
Proof.
  case_decide as Hin; [|done]. destruct (wake_phase p') as [|Hcp]; [done|].
  destruct run_step_core as (Has & _ & [->|[->|Hnt]]); [set_solver| |].
  - apply elem_of_take_1 in Hin. destruct (inv_lq _ _ _ Hinv) as [_ Hq].
    apply Hq in Hin as (q0 & Hq0 & Hlp). simpl in Hq0. rewrite Hp in Hq0. injection Hq0 as <-.
    destruct (local_step_not_parked _ _ _ _ _ _ _ _ _ Hl) as [Hnp _]. congruence.
  - apply cond_parked_phase in Hcp. rewrite Hnt, Hcp in Has. inversion Has.
Qed.

(** [notify] wakes the only sleeper in [wait]. *)
Lemma run_step_wake u q :
  aphase_of p = PhNotify true -> u <> t -> pcs !! u = Some q -> aphase_of q = PhParked ->
  (forall u' q', pcs !! u' = Some q' -> aphase_of q' = PhParked -> u' = u) ->
  u ∈ ws /\ aphase_of (wake q) = PhRelock.
Proof.
  intros Hph Hut Hu Hq Huniq. split; [|by apply wake_parked].
  assert (Hcp : forall q0, aphase_of q0 = PhParked -> cond_parked q0 = true) by (intros q0; tpc_cases q0; done).
  destruct (inv_cq _ _ _ Hinv) as [Hnd Hwq]. simpl in Hwq.
  assert (Hin : u ∈ waiters m !!! ci) by (apply Hwq; eauto).
  assert (Hall : forall w, w ∈ waiters m !!! ci -> w = u).
  { intros w Hw. apply Hwq in Hw as (q0 & Hq0 & Hc0). apply (Huniq w q0 Hq0). by apply cond_parked_phase. }
  destruct (waiters m !!! ci) as [|h rest] eqn:Ew; [set_solver|].
  assert (h = u) as -> by (apply Hall; set_solver).
  destruct (inv_lock _ _ _ Hinv) as (v & Hv & _). simpl in *.
  tpc_cases p; try discriminate. eval_local Hl. all: rewrite Ew; destruct all; cbn; set_solver.
Qed.

(** An agent that acquires the lock finds nobody holding it. *)
Lemma run_step_acquire :
  (aphase_of p = PhAcq \/ aphase_of p = PhRelock) -> aphase_of p' = PhHeld ->
  forall u q, pcs !! u = Some q -> holds q = false.
Proof.
  intros Hph Hph'. destruct (inv_lock _ _ _ Hinv) as (v & Hv & _ & Hz). simpl in *.
  destruct (local_step_lock li ci t m v c (inv_ne _ _ _ Hinv) Hv Hc p ARun p' ws m' Hl)
    as (v' & _ & Heff).
  assert (Hp0 : holds p = false) by (destruct Hph as [Hph|Hph]; tpc_cases p; done).
  assert (Hp1 : holds p' = true) by (tpc_cases p'; done).
  destruct Heff as [_ Hk | Hv0 _ _ _ | _ _ Hk | Ho _ _ | Hr _ _].
  - congruence.
  - intros u q Hu. apply (proj1 (cnt_zero_lookup holds pcs)) with u; [lia | done].
  - congruence.
  - apply owner_holds in Ho. congruence.
  - apply holds_releasing in Hr. congruence.
Qed.
End RunStep.

(** ** Steps leave the other cells of the buffer alone *)

Lemma local_step_frame li ci t p a m p' ws m' v c :
  li <> ci -> cells m !! li = Some v -> cells m !! ci = Some c ->
  local_step li ci t p a m = Some (p', ws, m') ->
  length (cells m') = length (cells m) /\ (wf_shmem m -> wf_shmem m') /\
  forall i, i <> li -> i <> ci ->
    cells m' !! i = cells m !! i /\ waiters m' !!! i = waiters m !!! i.
Proof.
  intros Hne Hv Hc Hl.
  destruct (local_step_mem li ci t m v c p a p' ws m') as [Hlen Hwf]; try done.
  split_and!; [done | done |]. intros i Hi1 Hi2.
  tpc_cases p; destruct a; eval_local Hl; unfold set_cell; cbn;
    rewrite ?list_lookup_insert_ne by congruence; rewrite ?lookup_total_insert_ne by congruence;
    auto.
Qed.

(** The invariant of a pair only reads its own two cells. *)
Lemma inv_frame li ci m m' pcs :
  inv li ci (Sys m pcs) ->
  cells m' !! li = cells m !! li -> cells m' !! ci = cells m !! ci ->
  waiters m' !!! li = waiters m !!! li -> waiters m' !!! ci = waiters m !!! ci ->
  length (cells m') = length (cells m) -> wf_shmem m' ->
  inv li ci (Sys m' pcs).
Proof.
  intros [Hne Hwf Hli Hci Hlk Hx Hlq Hcq Hwk] E1 E2 E3 E4 Hlen Hwf'.
  unfold lock_cell_ok, queue_ok, waker_ok in *; simpl in *.
  constructor; unfold lock_cell_ok, queue_ok, waker_ok; simpl;
    rewrite ?E1, ?E3, ?E4, ?Hlen; auto.
Qed.

(** A new agent starts idle (an [async] call of [onReceived]). *)
Lemma inv_extend li ci m pcs : inv li ci (Sys m pcs) -> inv li ci (Sys m (pcs ++ [Idle])).
Proof.
  intros [Hne Hwf Hli Hci Hlk Hx Hlq Hcq Hwk].
  assert (Hlk' : forall (P : tpc -> bool), P Idle = false ->
            forall u, (exists q, (pcs ++ [Idle]) !! u = Some q /\ P q = true) <->
                      (exists q, pcs !! u = Some q /\ P q = true)).
  { intros P HP u. split; intros (q & Hq & Pq).
    - apply lookup_app_Some in Hq as [Hq|(_ & Hq)]; [eauto|].
      apply list_lookup_singleton_Some in Hq as [_ <-]. congruence.
    - exists q. split; [by apply lookup_app_l_Some|done]. }
  unfold lock_cell_ok, queue_ok, waker_ok in *; simpl in *.
  constructor; unfold lock_cell_ok, queue_ok, waker_ok; simpl; rewrite ?cnt_app; simpl; auto.
  - destruct Hlk as (v & ? & ? & Hz). exists v. rewrite Nat.add_0_r. auto.
  - lia.
  - destruct Hlq as [? Hq]. split; [done|]. intros u. rewrite Hq. by rewrite (Hlk' lock_parked).
  - destruct Hcq as [? Hq]. split; [done|]. intros u. rewrite Hq. by rewrite (Hlk' cond_parked).
  - intros (u & Hu). rewrite (Hlk' lock_parked) in Hu by done.
    destruct (Hwk (ex_intro _ u Hu)) as [?|(w & Hw)]; [by left|right].
    exists w. by apply (Hlk' pending).
Qed.

(** ** Two pairs on one buffer *)

Section TwoPairs.
Context (li ci li' ci' : nat).
Hypothesis Hd : li' <> li /\ li' <> ci /\ ci' <> li /\ ci' <> ci.

(** A call: only the caller moves. *)
Lemma pair_call m pcs t a q' s2 :
  call_target a = Some q' -> tstep li ci t a (Sys m pcs) = Some s2 ->
  s2 = Sys m (<[t:=q']> pcs) /\ pcs !! t = Some (if a is ALock then Idle else Held).
Proof.
  intros Ha Hs. destruct (tstep_inv li ci t a _ _ Hs) as (p & p' & ws & m' & Hp & Hl & ->).
  destruct (local_step_call_inv li ci t a m p _ ltac:(congruence) Hl) as (q & Hq & [= -> -> ->] & Hr).
  simpl in *. rewrite Ha in Hq. injection Hq as ->. rewrite wake_set_nil.
  split; [done|]. rewrite Hp. by destruct a; subst.
Qed.

(** An atomic step inside an API function, and what the other pair
    sees of it. *)
Lemma pair_run m pcs pcs2 t s2 :
  inv li ci (Sys m pcs) -> inv li' ci' (Sys m pcs2) ->
  tstep li ci t ARun (Sys m pcs) = Some s2 ->
  exists c p p' ws,
    cells m !! ci = Some c /\ pcs !! t = Some p /\
    sys_pcs s2 = wake_set ws (<[t:=p']> pcs) /\
    astep c (aphase_of p) (aphase_of p') /\
    cells (sys_mem s2) !! ci =
      Some (if bool_decide (aphase_of p = PhNotify false) then wrap32 (c + 1) else c) /\
    (forall u q, u <> t -> pcs !! u = Some q ->
       aphase_of (sys_pcs s2 !!! u) = aphase_of q \/
       (aphase_of q = PhParked /\ aphase_of (sys_pcs s2 !!! u) = PhRelock /\
        aphase_of p = PhNotify true)) /\
    ((aphase_of p = PhAcq \/ aphase_of p = PhRelock) -> aphase_of p' = PhHeld ->
       forall u q, pcs !! u = Some q -> holds q = false) /\
    (aphase_of p = PhNotify true -> forall u q, u <> t -> pcs !! u = Some q ->
       aphase_of q = PhParked ->
       (forall u' q', pcs !! u' = Some q' -> aphase_of q' = PhParked -> u' = u) ->
       aphase_of (sys_pcs s2 !!! u) = PhRelock) /\
    aphase_of (sys_pcs s2 !!! t) = aphase_of p' /\
    inv li ci s2 /\ inv li' ci' (Sys (sys_mem s2) pcs2) /\
    cells (sys_mem s2) !! ci' = cells m !! ci' /\ length (sys_pcs s2) = length pcs.
Proof.
  intros Hi Hi' Hs. pose proof (inv_step li ci t ARun _ _ Hi Hs) as Hi2.
  destruct (tstep_inv li ci t ARun _ _ Hs) as (p & p' & ws & m' & Hp & Hl & ->). simpl in *.
  destruct (inv_cell_ci _ _ _ Hi) as [c Hc]. destruct (inv_lock _ _ _ Hi) as (v & Hv & _).
  pose proof (inv_ne _ _ _ Hi) as Hne. simpl in *.
  destruct (run_step_core li ci t m m' pcs p p' ws c Hi Hp Hc Hl) as (Has & Hc' & _).
  destruct (local_step_frame li ci t p ARun m p' ws m' v c Hne Hv Hc Hl) as (Hlen & Hwf & Hfr).
  exists c, p, p', ws. split_and!; try done.
  - intros u q Hu Hq. rewrite (list_lookup_total_correct _ u (if decide (u ∈ ws) then wake q else q)).
    + apply (run_step_other li ci t m m' pcs p p' ws c Hi Hp Hc Hl u q Hu Hq).
    + apply lookup_step. exists q. rewrite list_lookup_insert_ne by congruence. done.
  - eapply run_step_acquire; eassumption.
  - intros Hph u q Hu Hq Hpk Huniq.
    destruct (run_step_wake li ci t m m' pcs p p' ws c Hi Hp Hc Hl u q Hph Hu Hq Hpk Huniq) as [Hin Hw].
    rewrite (list_lookup_total_correct _ u (wake q)); [done|].
    apply lookup_step. exists q. rewrite list_lookup_insert_ne by congruence. by rewrite decide_True.
  - rewrite (list_lookup_total_correct _ t (if decide (t ∈ ws) then wake p' else p')).
    + apply (run_step_self li ci t m m' pcs p p' ws c Hi Hp Hc Hl).
    + apply lookup_step. exists p'. rewrite list_lookup_insert_eq by (eapply lookup_lt_Some; eauto). done.
  - destruct Hd as (H1 & H2 & H3 & H4).
    destruct (Hfr li' ltac:(done) ltac:(done)) as [E1 E3]. destruct (Hfr ci' ltac:(done) ltac:(done)) as [E2 E4].
    apply (inv_frame li' ci' m m' pcs2 Hi' E1 E2 E3 E4 Hlen (Hwf (inv_wf _ _ _ Hi))).
  - destruct Hd as (_ & _ & H3 & H4). apply Hfr; done.
  - apply length_step.
Qed.
End TwoPairs.
