(* ===== verification/Chunking.v ===== *)
(** * The chunking of the two transfer loops

    [WorkerProxy.push] (src/src/lib.ts 183-207) and the worker's
    ["push"] handler ([FileTranformingWorker], lib.ts 340-372, and its
    copy in compress.worker.ts 91-109) cut a buffer of [L] bytes into
    chunks of the shared region's size [C]:
<<
      let writeSize = C;
      if (offset + C > L) writeSize = L % C;
      ...
      offset += writeSize;
>>
    The loop runs while [offset < L]; it is modelled with a fuel
    argument, and the theorems say how much fuel is enough.  Inside the
    loop [offset < L], so when [C = 0] the test [offset + C > L] is
    false and the chunk is [0]: the JavaScript [L % 0] ([NaN]) is never
    evaluated. *)

From S2P Require Import Prelude.

Local Open Scope nat_scope.

(** The length of the chunk at [offset] (lib.ts 191-194, 342-345). *)
Definition chunk_size (L C offset : nat) : nat :=
  if L <? offset + C then L mod C else C.

(** The lengths of the chunks the loop transfers from [offset] on;
    [None] when the fuel runs out first. *)
Fixpoint chunks (fuel L C offset : nat) : option (list nat) :=
  match fuel with
  | O => None
  | S fuel' =>
      if offset <? L
      then let n := chunk_size L C offset in
           cs ← chunks fuel' L C (offset + n); Some (n :: cs)
      else Some []
  end.

(** The chunk list the loop should produce: [L / C] full chunks, then
    the remainder when it is not zero. *)
Definition expected_chunks (L C : nat) : list nat :=
  replicate (L / C) C ++ (if L mod C =? 0 then [] else [L mod C]).

(** The compress worker's [isFinished] flag (compress.worker.ts 102):
    [readOffset + readLength >= fileLength], for each chunk. *)
Fixpoint last_flags (L offset : nat) (cs : list nat) : list bool :=
  match cs with
  | [] => []
  | n :: cs' => (L <=? offset + n) :: last_flags L (offset + n) cs'
  end.

(** ** Lemmas *)

Lemma chunk_size_le L C offset : 0 < C -> chunk_size L C offset <= C.
Proof.
  intros HC. unfold chunk_size. pose proof (Nat.mod_upper_bound L C ltac:(lia)).
  destruct (L <? offset + C); lia.
Qed.

Lemma chunk_size_full L C k :
  (k + 1) * C <= L -> chunk_size L C (k * C) = C.
Proof.
  intros H. unfold chunk_size. destruct (Nat.ltb_spec L (k * C + C)); [lia | done].
Qed.

Lemma chunk_size_last L C k :
  0 < C -> k * C <= L < (k + 1) * C -> chunk_size L C (k * C) = L mod C /\ L / C = k.
Proof.
  intros HC [H1 H2]. assert (Hk : L / C = k).
  { symmetry. apply Nat.div_unique with (L - k * C); lia. }
  unfold chunk_size. destruct (Nat.ltb_spec L (k * C + C)); [done | lia].
Qed.

(** From a chunk boundary [k * C], with fuel beyond the remaining full
    chunks, the loop produces the rest of [expected_chunks]. *)
Lemma chunks_from L C k fuel :
  0 < C -> k * C <= L -> L / C - k + 1 < fuel ->
  chunks fuel L C (k * C) = Some (replicate (L / C - k) C ++
                                  (if L mod C =? 0 then [] else [L mod C])).
Proof.
  revert k. induction fuel as [|fuel IH]; intros k HC Hk Hf; [lia|].
  pose proof (Nat.div_mod_eq L C) as Hdm. pose proof (Nat.mod_upper_bound L C ltac:(lia)).
  assert (HkLC : k <= L / C) by (apply Nat.div_le_lower_bound; lia).
  simpl. destruct (Nat.ltb_spec (k * C) L) as [Hlt|Hge].
  - destruct (decide ((k + 1) * C <= L)) as [Hfull|Hpart].
    + rewrite chunk_size_full by done.
      replace (k * C + C) with ((k + 1) * C) by lia.
      assert (Hk1 : k + 1 <= L / C) by (apply Nat.div_le_lower_bound; lia).
      rewrite IH by lia.
      replace (L / C - k) with (S (L / C - (k + 1))) by lia. reflexivity.
    + destruct (chunk_size_last L C k HC ltac:(lia)) as [-> Hq].
      destruct fuel as [|fuel']; [lia|]. simpl.
      replace (k * C + L mod C) with L by lia. rewrite Nat.ltb_irrefl. simpl.
      rewrite Hq, Nat.sub_diag. simpl.
      destruct (Nat.eqb_spec (L mod C) 0); [lia | reflexivity].
  - assert (L = k * C) by lia. subst L.
    rewrite Nat.div_mul, Nat.Div0.mod_mul, Nat.sub_diag by lia. reflexivity.
Qed.

Lemma sum_list_replicate n c : sum_list (replicate n c) = n * c.
Proof. induction n; simpl; lia. Qed.

Lemma ceil_div L C : 0 < C ->
  (L + C - 1) / C = L / C + (if L mod C =? 0 then 0 else 1).
Proof.
  intros HC. pose proof (Nat.div_mod_eq L C). pose proof (Nat.mod_upper_bound L C ltac:(lia)).
  symmetry. destruct (Nat.eqb_spec (L mod C) 0).
  - apply Nat.div_unique with (C - 1); lia.
  - apply Nat.div_unique with (L mod C - 1); lia.
Qed.

Lemma expected_chunks_sum L C : 0 < C -> sum_list (expected_chunks L C) = L.
Proof.
  intros HC. unfold expected_chunks. pose proof (Nat.div_mod_eq L C).
  rewrite sum_list_with_app, sum_list_replicate.
  destruct (Nat.eqb_spec (L mod C) 0); simpl; lia.
Qed.

Lemma expected_chunks_fit L C : 0 < C -> Forall (fun n => 0 < n <= C) (expected_chunks L C).
Proof.
  intros HC. unfold expected_chunks. pose proof (Nat.mod_upper_bound L C ltac:(lia)).
  apply Forall_app. split; [apply Forall_replicate; lia|].
  destruct (Nat.eqb_spec (L mod C) 0); repeat constructor; lia.
Qed.

Lemma expected_chunks_short L C :
  0 < C -> cnt (fun n => n <? C) (expected_chunks L C) = if L mod C =? 0 then 0 else 1.
Proof.
  intros HC. unfold expected_chunks. pose proof (Nat.mod_upper_bound L C ltac:(lia)).
  rewrite cnt_app. assert (Hr : forall k, cnt (fun n => n <? C) (replicate k C) = 0).
  { induction k as [|k IH]; cbn [cnt replicate]; [done|]. rewrite IH, Nat.ltb_irrefl. done. }
  rewrite Hr. destruct (Nat.eqb_spec (L mod C) 0); cbn [cnt]; [done|].
  rewrite (proj2 (Nat.ltb_lt _ _)) by lia. done.
Qed.

Lemma expected_chunks_full L C : Forall (fun n => C <= n) (removelast (expected_chunks L C)).
Proof.
  unfold expected_chunks. destruct (L mod C =? 0).
  - rewrite app_nil_r. assert (Hr : Forall (fun n => C <= n) (replicate (L / C) C))
      by (apply Forall_replicate; lia).
    induction (replicate (L / C) C) as [|x [|y l] IH]; cbn in *; [done | done |].
    apply Forall_cons in Hr as [Hx Hr]. constructor; [done | by apply IH].
  - rewrite removelast_last. apply Forall_replicate. lia.
Qed.

(** Over positive chunks that end the input, [isFinished] holds of
    the last chunk only. *)
Lemma last_flags_last L off cs :
  off + sum_list cs = L -> Forall (fun n => 0 < n) cs -> cs <> [] ->
  last_flags L off cs = replicate (length cs - 1) false ++ [true].
Proof.
  revert off. induction cs as [|n cs IH]; intros off Hs Hp Hne; [done|].
  apply Forall_cons in Hp as [Hn Hcs]. cbn [sum_list] in Hs. cbn [last_flags length].
  destruct cs as [|n' cs'].
  - cbn in *. destruct (Nat.leb_spec L (off + n)); [done | lia].
  - apply Forall_cons in Hcs as Hcs'. destruct Hcs' as [Hn' _].
    rewrite (IH (off + n)); [| cbn in *; lia | done | done].
    destruct (Nat.leb_spec L (off + n)); cbn in *; [lia|]. rewrite Nat.sub_0_r. done.
Qed.

Lemma expected_chunks_length L C :
  0 < C -> length (expected_chunks L C) = (L + C - 1) / C.
Proof.
  intros HC. unfold expected_chunks. rewrite length_app, length_replicate, ceil_div by lia.
  destruct (Nat.eqb_spec (L mod C) 0); simpl; lia.
Qed.

Lemma expected_chunks_last L C :
  0 < C -> 0 < L -> last (expected_chunks L C) = Some (if L mod C =? 0 then C else L mod C).
Proof.
  intros HC HL. unfold expected_chunks.
  pose proof (Nat.div_mod_eq L C). pose proof (Nat.mod_upper_bound L C ltac:(lia)).
  destruct (Nat.eqb_spec (L mod C) 0) as [Hm|Hm].
  - rewrite app_nil_r. destruct (L / C) as [|q] eqn:Hq; [lia|].
    rewrite replicate_S_end, last_snoc. reflexivity.
  - by rewrite last_snoc.
Qed.

Lemma chunks_enough L C fuel :
  0 < C -> L / C + 1 < fuel -> chunks fuel L C 0 = Some (expected_chunks L C).
Proof.
  intros HC Hf. pose proof (chunks_from L C 0 fuel HC ltac:(lia) ltac:(lia)) as H.
  simpl in H. rewrite Nat.sub_0_r in H. exact H.
Qed.

(** ** The loops' chunk sequence *)

(** C20. With a positive buffer size, the transfer loop terminates
    within [L / C + 2] iterations of fuel and transfers [L / C] full
    chunks followed by the remainder when it is not zero. *)
Theorem transfer_chunks L C fuel :
  0 < C -> L / C + 1 < fuel -> chunks fuel L C 0 = Some (expected_chunks L C).
Proof. apply chunks_enough. Qed.

(** C21. No truncation, no duplication: with enough fuel the transfer
    loop over [chunk_size] returns chunks that sum to [L], number
    [ceil(L / C)], each between 1 and [C] bytes, the last one being
    [L mod C], or a full [C] when [C] divides [L]. *)
Theorem chunks_sum_count L C fuel :
  0 < C -> L / C + 1 < fuel ->
  exists cs, chunks fuel L C 0 = Some cs /\
    sum_list cs = L /\ length cs = (L + C - 1) / C /\
    Forall (fun n => 0 < n <= C) cs /\
    (0 < L -> last cs = Some (if L mod C =? 0 then C else L mod C)).
Proof.
  intros HC Hf. exists (expected_chunks L C).
  split_and!; [by apply chunks_enough|by apply expected_chunks_sum|by apply expected_chunks_length
    |by apply expected_chunks_fit|intros; by apply expected_chunks_last].
Qed.

(** C25. With a zero buffer size the loop never advances: for a
    non-empty input no amount of fuel is enough ([writeBufferSize] and
    [readBufferSize] are never checked to be positive). *)
Theorem chunks_zero_size_diverges L fuel :
  0 < L -> chunks fuel L 0 0 = None.
Proof.
  intros HL. induction fuel as [|fuel IH]; [reflexivity|]. simpl.
  destruct (Nat.ltb_spec 0 L); [|lia]. unfold chunk_size. simpl.
  destruct (Nat.ltb_spec L 0); [lia|]. by rewrite IH.
Qed.

(** The compress worker flags exactly the last chunk as final,
    and an empty input has no chunk at all, so deflate is never told
    to finish. *)
Theorem compress_last_flag L C :
  0 < C ->
  last_flags L 0 (expected_chunks L C) =
    if L =? 0 then [] else replicate (length (expected_chunks L C) - 1) false ++ [true].
Proof.
  intros HC. pose proof (expected_chunks_sum L C HC) as Hsum.
  destruct (Nat.eqb_spec L 0) as [->|HL].
  - unfold expected_chunks. by rewrite Nat.Div0.div_0_l, Nat.Div0.mod_0_l.
  - apply last_flags_last; [lia | |].
    + eapply Forall_impl; [apply expected_chunks_fit, HC | cbn; lia].
    + intros Hnil. rewrite Hnil in Hsum. cbn in Hsum. lia.
Qed.

(** ** Witnesses on small inputs *)

Lemma transfer_chunks_witness :
  0 < 2 /\ 5 / 2 + 1 < 5 /\ chunks 5 5 2 0 = Some (expected_chunks 5 2).
Proof.
  split; [lia|]. split; [vm_compute; lia|].
  apply transfer_chunks; [lia | vm_compute; lia].
Defined.

Lemma chunks_sum_count_witness :
  0 < 2 /\ 5 / 2 + 1 < 5 /\
  exists cs, chunks 5 5 2 0 = Some cs /\
    sum_list cs = 5 /\ length cs = (5 + 2 - 1) / 2 /\
    Forall (fun n => 0 < n <= 2) cs /\
    (0 < 5 -> last cs = Some (if 5 mod 2 =? 0 then 2 else 5 mod 2)).
Proof. split; [lia|]. split; [vm_compute; lia|]. apply chunks_sum_count; [lia|vm_compute; lia]. Defined.

Lemma chunks_zero_size_diverges_witness : 0 < 3 /\ chunks 10 3 0 0 = None.
Proof. split; [lia|]. apply chunks_zero_size_diverges. lia. Defined.

Lemma compress_last_flag_witness :
  0 < 2 /\
  last_flags 5 0 (expected_chunks 5 2) =
    if 5 =? 0 then [] else replicate (length (expected_chunks 5 2) - 1) false ++ [true].
Proof. split; [lia|]. apply compress_last_flag. lia. Defined.
