(* ===== verification/Proxy.v ===== *)
(** * The main-thread [WorkerProxy] of src/src/lib.ts

    [WorkerProxy] (lib.ts 52-254) owns the input [ArrayBuffer], the two
    shared data regions and the lock buffer, and talks to the worker by
    [postMessage].  Its state is the record [proxy]; each method is a
    computation in the monad [PM] of [Monad.v]: it reads and writes the
    record, may throw (the writes done before the [throw] stay, as they
    do on a mutated object), and emits the events the
    other agent can observe, in order: lock and condition operations on
    the shared cells (by their [Int32Array] index), copies into the
    shared write region, posted messages, progress reports and the
    resolution of [done()].

    An [async] method is cut at its [await]s: [push] is [push_start]
    (up to [asyncLock]), one [push_iter] per loop iteration (up to
    [asyncWait]), and the final [unlock].  Each [await] of a lock or
    condition is an event; what the other agent does meanwhile is the
    business of [Sync.v] (the cells' interleavings) and [Pipeline.v]
    (the data that crosses). *)

From Stdlib Require Import QArith.
From S2P Require Import Prelude Monad Int32 Atomics Lock Cond Sync Chunking.

(** ** Data *)

(** [WorkerProxyStatus] (lib.ts 37-43). *)
Inductive status := INIT | INITED | WORKING | FINISHED | ERROR.

#[export] Instance status_eq_dec : EqDecision status.
Proof. solve_decision. Defined.

Definition status_code (s : status) : Z :=
  match s with INIT => 0 | INITED => 1 | WORKING => 2 | FINISHED => 3 | ERROR => -1 end.

(** [TaskConf] (lib.ts 27-35), with [DEFAULT_BUFFER_SIZE] (line 25). *)
Record task_conf := TaskConf { writeBufferSize : nat; readBufferSize : nat }.

Definition DEFAULT_BUFFER_SIZE : nat := 512 * 1024.

Definition defaultTaskOpts : task_conf := TaskConf DEFAULT_BUFFER_SIZE DEFAULT_BUFFER_SIZE.

(** The [Int32Array] indices of the four synchronisation cells of
    [__lockSab] (lib.ts 84-92): byte offsets 0, 8, 16, 24. *)
Definition READ_LOCK : nat := ibase 0.
Definition READ_COND : nat := ibase 8.
Definition WRITE_LOCK : nat := ibase 16.
Definition WRITE_COND : nat := ibase 24.

(** The two shared data regions, by their name on the main thread. *)
Inductive region := ProxyWriteRegion | ProxyReadRegion.

#[export] Instance region_eq_dec : EqDecision region.
Proof. solve_decision. Defined.

(** Messages to the worker (lib.ts 109-121, 188): ["init"] carries the
    regions the worker reads and writes, their sizes, and the input
    length. *)
Inductive to_worker :=
  | MsgInit (readBuffer writeBuffer : region) (readBufferSize writeBufferSize fileLength : nat)
  | MsgPush.

(** What the other agents observe of the proxy. *)
Inductive px_event :=
  | PxAcquire (cell : nat)          (** [asyncLock] returned *)
  | PxRelease (cell : nat)          (** [unlock] *)
  | PxNotifyOne (cell : nat)        (** [notifyOne] *)
  | PxWait (cell : nat)             (** [asyncWait] *)
  | PxCopy (data : list Byte.byte)  (** [targetView.set(view)] into the write region *)
  | PxPost (msg : to_worker)        (** [worker.postMessage] *)
  | PxProgress (value : Q)          (** the progress callback is called *)
  | PxResolve (result : list (list Byte.byte)). (** [__doneResolve] is called *)

(** The exceptions the methods throw. *)
Inductive px_error :=
  | UnexpectedState (s : status)    (** lib.ts 176-178 *)
  | InputTooLarge                   (** lib.ts 198-200 *)
  | OversizedChunk                  (** lib.ts 220-222 *)
  | Rethrown (err : nat)            (** lib.ts 252: the worker's error, rethrown *)
  | UnsupportedMessage              (** lib.ts 157 *)
  | LoopFuel.                       (** the modelled [while] ran out of fuel *)

Record proxy := Proxy {
  px_ab : list Byte.byte;                 (** [__ab] *)
  px_opts : task_conf;                    (** [__opts] *)
  px_writeBuffer : list Byte.byte;        (** contents of [__writeBuffer] *)
  px_readBuffer : list Byte.byte;         (** contents of [__readBuffer] *)
  px_targets : list (list Byte.byte);     (** [__targetArrayBuffers] *)
  px_status : status;                     (** [__status] *)
  px_offset : nat;                        (** [__offset] *)
  px_onProgress : bool;                   (** [__onProgressCallback] is set *)
  px_doneSet : bool                       (** [__doneResolve] is set *)
}.

(** ** The monad *)

Definition PM : Type -> Type := M proxy px_error px_event.

Local Open Scope handler_scope.

Definition set_status (s : status) (p : proxy) : proxy :=
  Proxy (px_ab p) (px_opts p) (px_writeBuffer p) (px_readBuffer p) (px_targets p) s
        (px_offset p) (px_onProgress p) (px_doneSet p).

Definition set_offset (o : nat) (p : proxy) : proxy :=
  Proxy (px_ab p) (px_opts p) (px_writeBuffer p) (px_readBuffer p) (px_targets p) (px_status p)
        o (px_onProgress p) (px_doneSet p).

Definition set_writeBuffer (b : list Byte.byte) (p : proxy) : proxy :=
  Proxy (px_ab p) (px_opts p) b (px_readBuffer p) (px_targets p) (px_status p)
        (px_offset p) (px_onProgress p) (px_doneSet p).

Definition set_targets (t : list (list Byte.byte)) (p : proxy) : proxy :=
  Proxy (px_ab p) (px_opts p) (px_writeBuffer p) (px_readBuffer p) t (px_status p)
        (px_offset p) (px_onProgress p) (px_doneSet p).

(** ** The methods *)

(** [constructor(worker, opts, inputBuffer)] (lib.ts 74-101): the data
    regions are new, zero-filled [SharedArrayBuffer]s of the configured
    sizes; [Object.assign({}, defaultTaskOpts, opts)] is [opts], whose
    two fields are both given. *)
Definition new_proxy (opts : task_conf) (ab : list Byte.byte) : proxy :=
  Proxy ab opts (replicate (writeBufferSize opts) Byte.x00)
        (replicate (readBufferSize opts) Byte.x00) [] INIT 0 false false.

(** The lock buffer the constructor builds (lib.ts 84-88): a zero-filled
    [SharedArrayBuffer(4 * 8)] seen as 8 [Int32] cells, with the two
    locks and the two conditions initialized. *)
Definition new_lock_sab : option shmem :=
  let m0 := Shmem (replicate 8 0%Z) ∅ in
  m1 ← lock_initialize true 32 0 m0;
  m2 ← cond_initialize true 32 8 m1;
  m3 ← lock_initialize true 32 16 m2;
  cond_initialize true 32 24 m3.

(** [initWorker()] (lib.ts 107-122): the worker's read region is the
    proxy's write region and the sizes are swapped accordingly. *)
Definition initWorker : PM unit :=
  p <- pget;;
  pemit (PxPost (MsgInit ProxyWriteRegion ProxyReadRegion
                  (writeBufferSize (px_opts p)) (readBufferSize (px_opts p))
                  (length (px_ab p)))).

(** [done()] (lib.ts 124-129). *)
Definition done_ : PM unit :=
  p <- pget;;
  pput (Proxy (px_ab p) (px_opts p) (px_writeBuffer p) (px_readBuffer p) (px_targets p)
              (px_status p) (px_offset p) (px_onProgress p) true).

(** [onProgress(callback)] (lib.ts 137-139). *)
Definition onProgress : PM unit :=
  p <- pget;;
  pput (Proxy (px_ab p) (px_opts p) (px_writeBuffer p) (px_readBuffer p) (px_targets p)
              (px_status p) (px_offset p) true (px_doneSet p)).

(** The value passed to the progress callback (lib.ts 231).  It is
    only computed on a ["push"] message, which the worker sends only
    for a non-empty input, so the JavaScript [0 / 0] never arises. *)
Definition progress_value (offset len : nat) : Q :=
  (inject_Z (Z.of_nat offset) / inject_Z (Z.of_nat len) * 100)%Q.

(** [push()], up to its first [await] (lib.ts 166-181). *)
Definition push_start : PM unit :=
  p <- pget;;
  match px_status p with
  | INITED => pput (set_status WORKING p)
  | WORKING => pret tt
  | s => pthrow (UnexpectedState s)
  end;;
  pemit (PxAcquire WRITE_LOCK).

(** [writeSize] (lib.ts 191-194). *)
Definition write_size (p : proxy) : nat :=
  chunk_size (length (px_ab p)) (writeBufferSize (px_opts p)) (px_offset p).

(** [new Uint8Array(this.__ab, this.__offset, writeSize)] (lib.ts 195). *)
Definition push_view (p : proxy) : list Byte.byte :=
  take (write_size p) (drop (px_offset p) (px_ab p)).

(** One iteration of [push]'s [while] loop, up to its [asyncWait]
    (lib.ts 185-206): the view is copied to the front of the write
    region (lines 196-203). *)
Definition push_iter : PM unit :=
  p <- pget;;
  (if Nat.eqb (px_offset p) 0 then pemit (PxPost MsgPush) else pret tt);;
  let view := push_view p in
  if length (px_writeBuffer p) <? length view then pthrow InputTooLarge else
  pput (set_offset (px_offset p + write_size p)
          (set_writeBuffer (view ++ drop (length view) (px_writeBuffer p)) p));;
  pemit (PxCopy view);;
  pemit (PxNotifyOne WRITE_COND);;
  pemit (PxWait WRITE_COND).

(** The [while] loop (lib.ts 183-207), with fuel. *)
Fixpoint push_loop (fuel : nat) : PM unit :=
  match fuel with
  | O => pthrow LoopFuel
  | S fuel' =>
      p <- pget;;
      if px_offset p <? length (px_ab p) then push_iter;; push_loop fuel' else pret tt
  end.

(** [push()] (lib.ts 166-211). *)
Definition push (fuel : nat) : PM unit :=
  push_start;; push_loop fuel;; pemit (PxRelease WRITE_LOCK).

(** [onInited()] (lib.ts 131-135). *)
Definition onInited (fuel : nat) : PM unit :=
  p <- pget;; pput (set_status INITED p);; push fuel.

(** [onReceived(size = readBufferSize)] (lib.ts 213-236); [None] is the
    [undefined] argument.  The [readBuffer]'s contents are what the
    worker last wrote there. *)
Definition onReceived (size : option nat) : PM unit :=
  p <- pget;;
  let size := default (readBufferSize (px_opts p)) size in
  pemit (PxAcquire READ_LOCK);;
  if negb (bool_decide (px_status p = WORKING)) then pret tt else
  if readBufferSize (px_opts p) <? size then pthrow OversizedChunk else
  pput (set_targets (px_targets p ++ [take size (px_readBuffer p)]) p);;
  (if px_onProgress p
   then pemit (PxProgress (progress_value (px_offset p) (length (px_ab p))))
   else pret tt);;
  pemit (PxNotifyOne READ_COND);;
  pemit (PxRelease READ_LOCK).

(** [onFinished()] (lib.ts 238-247). *)
Definition onFinished : PM unit :=
  p <- pget;;
  pput (set_status FINISHED p);;
  (if px_doneSet p then pemit (PxResolve (px_targets p)) else pret tt);;
  (if px_onProgress p then pemit (PxProgress 100%Q) else pret tt).

(** [onError(err)] (lib.ts 249-253). *)
Definition onError (err : nat) : PM unit :=
  p <- pget;; pput (set_status ERROR p);; pthrow (Rethrown err).

(** Messages from the worker (lib.ts 45-49). *)
Inductive from_worker :=
  | FwInited | FwPush (size : option nat) | FwFinish | FwError (err : nat) | FwOther.

(** [__onMessage([event, payload])] (lib.ts 141-159). *)
Definition onMessage (fuel : nat) (m : from_worker) : PM unit :=
  match m with
  | FwInited => onInited fuel
  | FwPush size => onReceived size
  | FwFinish => onFinished
  | FwError err => onError err
  | FwOther => pthrow UnsupportedMessage
  end.

(** ** Observations *)

(** The bytes copied into the write region, in order. *)
Definition copies (evs : list px_event) : list Byte.byte :=
  concat (map (fun e => match e with PxCopy d => d | _ => [] end) evs).

Definition is_push (e : px_event) : bool :=
  match e with PxPost MsgPush => true | _ => false end.

(** The events of the iteration of [push]'s loop that copies the [n]
    bytes at [off], and of the whole loop. *)
Definition push_block (ab : list Byte.byte) (off n : nat) : list px_event :=
  (if off =? 0 then [PxPost MsgPush] else []) ++
  [PxCopy (take n (drop off ab)); PxNotifyOne WRITE_COND; PxWait WRITE_COND].

Fixpoint push_trace (ab : list Byte.byte) (off : nat) (cs : list nat) : list px_event :=
  match cs with
  | [] => []
  | n :: cs' => push_block ab off n ++ push_trace ab (off + n) cs'
  end.

(** A write into the shared write region, and the wait for the
    worker's acknowledgement of it. *)
Definition is_region_write (e : px_event) : bool :=
  match e with PxCopy _ => true | _ => false end.

Definition is_write_ack (e : px_event) : bool :=
  match e with PxWait c => c =? WRITE_COND | _ => false end.

(** ** Behaviour of the handlers *)

(** C22. [onReceived] on a proxy that is not [WORKING] returns after
    acquiring the read lock and never releases it (lib.ts 215-218:
    [return] between [asyncLock] and [unlock]); the worker's next
    [writeLock.lock()] on the same cell then blocks for ever. *)
Theorem onReceived_not_working_keeps_lock p size :
  px_status p <> WORKING ->
  onReceived size p = (inr tt, p, [PxAcquire READ_LOCK]).
Proof.
  intros Hs. unfold onReceived. cbn. rewrite bool_decide_false by done. reflexivity.
Qed.

(** C28. An announced size larger than the read region throws
    [OversizedChunk], also with the read lock held. *)
Theorem onReceived_oversized p size :
  px_status p = WORKING -> readBufferSize (px_opts p) < size ->
  onReceived (Some size) p = (inl OversizedChunk, p, [PxAcquire READ_LOCK]).
Proof.
  intros Hs Hz. unfold onReceived. cbn -[Nat.ltb]. rewrite bool_decide_true by done.
  rewrite (proj2 (Nat.ltb_lt _ _) Hz). reflexivity.
Qed.

(** C27. Otherwise [onReceived] appends a copy of the first [size]
    bytes of the read region to the output, reports progress when a
    callback is set, notifies the worker and releases the read lock. *)
Theorem onReceived_appends p size :
  px_status p = WORKING -> size <= readBufferSize (px_opts p) ->
  onReceived (Some size) p =
    (inr tt, set_targets (px_targets p ++ [take size (px_readBuffer p)]) p,
     [PxAcquire READ_LOCK] ++
     (if px_onProgress p then [PxProgress (progress_value (px_offset p) (length (px_ab p)))]
      else []) ++
     [PxNotifyOne READ_COND; PxRelease READ_LOCK]).
Proof.
  intros Hs Hz. unfold onReceived. cbn -[Nat.ltb]. rewrite bool_decide_true by done.
  rewrite (proj2 (Nat.ltb_ge _ _) Hz). cbn. destruct (px_onProgress p); reflexivity.
Qed.

(** The progress values grow with the producer's offset and stay
    within [0, 100] while the offset is within the input. *)
Theorem progress_bounds o1 o2 L :
  o1 <= o2 <= L -> 0 < L ->
  (0 <= progress_value o1 L /\ progress_value o1 L <= progress_value o2 L /\
   progress_value o2 L <= 100)%Q.
Proof.
  intros [H12 H2L] HL. unfold progress_value.
  assert (HLq : (0 < inject_Z (Z.of_nat L))%Q) by (change 0%Q with (inject_Z 0); rewrite <- Zlt_Qlt; lia).
  assert (Hm : forall a b, (a <= b)%nat ->
            (inject_Z (Z.of_nat a) / inject_Z (Z.of_nat L) * 100 <=
             inject_Z (Z.of_nat b) / inject_Z (Z.of_nat L) * 100)%Q).
  { intros a b Hab. apply Qmult_le_r; [reflexivity|].
    apply Qmult_le_r; [apply Qinv_lt_0_compat, HLq|]. rewrite <- Zle_Qle. lia. }
  split_and!.
  - apply Qle_trans with (inject_Z (Z.of_nat 0) / inject_Z (Z.of_nat L) * 100)%Q;
      [simpl; unfold Qdiv; rewrite Qmult_0_l; apply Qle_refl | apply Hm; lia].
  - apply Hm. lia.
  - apply Qle_trans with (inject_Z (Z.of_nat L) / inject_Z (Z.of_nat L) * 100)%Q;
      [apply Hm; lia|]. unfold Qdiv. rewrite Qmult_inv_r; [apply Qle_refl|].
    intros Heq. rewrite Heq in HLq. discriminate.
Qed.

(** ** [push] *)

Lemma push_view_length p :
  0 < writeBufferSize (px_opts p) -> length (push_view p) <= writeBufferSize (px_opts p).
Proof.
  intros HC. unfold push_view. rewrite length_take.
  pose proof (chunk_size_le (length (px_ab p)) _ (px_offset p) HC). unfold write_size. lia.
Qed.

Section Push.
Context (p : proxy).
Hypothesis HC : 0 < writeBufferSize (px_opts p).
Hypothesis Hwb : length (px_writeBuffer p) = writeBufferSize (px_opts p).

Lemma push_iter_eval :
  push_iter p =
    (inr tt, set_offset (px_offset p + write_size p)
               (set_writeBuffer (push_view p ++ drop (length (push_view p)) (px_writeBuffer p)) p),
     (if px_offset p =? 0 then [PxPost MsgPush] else []) ++
     [PxCopy (push_view p); PxNotifyOne WRITE_COND; PxWait WRITE_COND]).
Proof.
  pose proof (push_view_length p HC).
  unfold push_iter. cbn -[Nat.ltb Nat.eqb push_view write_size].
  rewrite (proj2 (Nat.ltb_ge _ _)) by lia.
  destruct (px_offset p =? 0); reflexivity.
Qed.

Lemma push_iter_writeBuffer :
  length (push_view p ++ drop (length (push_view p)) (px_writeBuffer p)) =
    writeBufferSize (px_opts p).
Proof.
  pose proof (push_view_length p HC).
  rewrite length_app, length_drop. lia.
Qed.
End Push.

Lemma push_loop_spec fuel p cs :
  0 < writeBufferSize (px_opts p) ->
  length (px_writeBuffer p) = writeBufferSize (px_opts p) ->
  chunks fuel (length (px_ab p)) (writeBufferSize (px_opts p)) (px_offset p) = Some cs ->
  Forall (fun n => 0 < n) cs ->
  exists p' evs, push_loop fuel p = (inr tt, p', evs) /\
    px_ab p' = px_ab p /\ px_opts p' = px_opts p /\ px_status p' = px_status p /\
    px_offset p' = px_offset p + sum_list cs /\
    copies evs = take (sum_list cs) (drop (px_offset p) (px_ab p)) /\
    cnt is_push evs = (if px_offset p =? 0 then length (take 1 cs) else 0) /\
    evs = push_trace (px_ab p) (px_offset p) cs.
Proof.
  revert p cs. induction fuel as [|fuel IH]; intros p cs HC Hwb Hcs Hpos; [done|].
  cbn [chunks] in Hcs. cbn [push_loop pbind pget].
  destruct (Nat.ltb_spec (px_offset p) (length (px_ab p))) as [Hlt|Hge].
  - apply bind_Some in Hcs as (cs' & Hcs' & Hc). injection Hc as <-.
    apply Forall_cons in Hpos as [Hn Hpos].
    destruct (IH (set_offset (px_offset p + write_size p)
                   (set_writeBuffer (push_view p ++ drop (length (push_view p))
                                       (px_writeBuffer p)) p))
                 cs' HC (push_iter_writeBuffer p HC Hwb) Hcs' Hpos)
      as (p' & evs & Hrun & Hab & Hop & Hst & Hoff & Hcp & Hpu & Hev).
    rewrite (pbind_inr _ _ _ _ _ _ _ _ _ (push_iter_eval p HC Hwb) Hrun).
    exists p', (((if px_offset p =? 0 then [PxPost MsgPush] else []) ++
       [PxCopy (push_view p); PxNotifyOne WRITE_COND; PxWait WRITE_COND]) ++ evs).
    split; [reflexivity|]. cbn in Hab, Hop, Hst, Hoff, Hcp, Hpu, Hev.
    split_and!; try congruence.
    + rewrite Hoff. unfold write_size. cbn. lia.
    + unfold copies in *. rewrite map_app, concat_app, Hcp, <- drop_drop.
      unfold push_view, write_size.
      destruct (px_offset p =? 0); cbn [map concat app sum_list];
        rewrite ?app_nil_r, take_take_drop; reflexivity.
    + rewrite cnt_app, Hpu. unfold write_size in *.
      destruct (Nat.eqb_spec (px_offset p + chunk_size (length (px_ab p))
                  (writeBufferSize (px_opts p)) (px_offset p)) 0); [lia|].
      destruct (Nat.eqb_spec (px_offset p) 0); reflexivity.
    + rewrite Hev. reflexivity.
  - injection Hcs as <-. exists p, []. split; [reflexivity|].
    split_and!; cbn; try reflexivity; try lia.
    destruct (px_offset p =? 0); reflexivity.
Qed.

Lemma push_trace_acked ab off cs rest :
  acked is_region_write is_write_ack false (push_trace ab off cs ++ rest) =
    acked is_region_write is_write_ack false rest.
Proof.
  revert off. induction cs as [|n cs IH]; intros off; [done|].
  cbn [push_trace]. rewrite <- app_assoc. unfold push_block.
  destruct (off =? 0); cbn; apply IH.
Qed.

Lemma push_start_ok p :
  px_status p = INITED \/ px_status p = WORKING ->
  push_start p = (inr tt, set_status WORKING p, [PxAcquire WRITE_LOCK]).
Proof. destruct p as [? ? ? ? ? [] ? ? ?]; cbn; intros [H|H]; try discriminate; reflexivity. Qed.

Lemma expected_chunks_first L C :
  0 < C -> length (take 1 (expected_chunks L C)) = if L =? 0 then 0 else 1.
Proof.
  intros HC. pose proof (expected_chunks_sum L C HC) as Hs.
  pose proof (expected_chunks_fit L C HC) as Hf.
  destruct (expected_chunks L C) as [|n cs]; cbn in *.
  - subst L. reflexivity.
  - apply Forall_cons in Hf as [Hn _]. destruct (Nat.eqb_spec L 0); [lia | reflexivity].
Qed.

(** [push] checks the status first: from [INITED] or [WORKING] it
    goes to [WORKING] and takes the write lock; from any other status it
    throws before touching the lock. *)
Theorem push_start_spec p :
  push_start p =
    match px_status p with
    | INITED | WORKING => (inr tt, set_status WORKING p, [PxAcquire WRITE_LOCK])
    | s => (inl (UnexpectedState s), p, [])
    end.
Proof. destruct p as [? ? ? ? ? [] ? ? ?]; reflexivity. Qed.

Lemma push_run fuel p :
  px_status p = INITED \/ px_status p = WORKING -> px_offset p = 0 ->
  0 < writeBufferSize (px_opts p) ->
  length (px_writeBuffer p) = writeBufferSize (px_opts p) ->
  length (px_ab p) / writeBufferSize (px_opts p) + 1 < fuel ->
  exists p' evs,
    push fuel p = (inr tt, p', [PxAcquire WRITE_LOCK] ++ (evs ++ [PxRelease WRITE_LOCK])) /\
    px_status p' = WORKING /\ px_offset p' = length (px_ab p) /\
    copies evs = px_ab p /\
    cnt is_push evs = (if length (px_ab p) =? 0 then 0 else 1) /\
    evs = push_trace (px_ab p) 0 (expected_chunks (length (px_ab p)) (writeBufferSize (px_opts p))).
Proof.
  intros Hst Hoff HC Hwb Hf.
  pose proof (chunks_from (length (px_ab p)) _ 0 fuel HC ltac:(lia) ltac:(lia)) as Hch.
  rewrite Nat.mul_0_l, Nat.sub_0_r in Hch.
  destruct (push_loop_spec fuel (set_status WORKING p) (expected_chunks (length (px_ab p))
              (writeBufferSize (px_opts p))) HC Hwb ltac:(cbn; rewrite Hoff; exact Hch))
    as (p' & evs & Hrun & Hab & Hop & Hs' & Ho' & Hcp & Hpu & Hev).
  { eapply Forall_impl; [apply expected_chunks_fit, HC|]. cbn. lia. }
  cbn in Hab, Hop, Hs', Ho', Hcp, Hpu, Hev.
  rewrite expected_chunks_sum in Ho', Hcp by done.
  rewrite Hoff, expected_chunks_first in Hpu by done. cbn in Hpu.
  rewrite Hoff in Ho', Hcp, Hev. rewrite drop_0, take_ge in Hcp by lia.
  exists p', evs. split_and!; [|done|lia|done|done|done].
  unfold push. eapply pbind_inr; [by apply push_start_ok|].
  eapply pbind_inr; [exact Hrun | reflexivity].
Qed.

(** C15. [push] from the start of a non-empty or empty input, with a
    positive region size and [L / C + 2] iterations of fuel, returns
    with the whole input copied into the write region in order, the
    offset at the end of the input, one ["push"] message exactly when
    the input is not empty, the write lock taken first and released
    last, and never throws [InputTooLarge]. *)
Theorem push_transfers_input fuel p :
  px_status p = INITED \/ px_status p = WORKING -> px_offset p = 0 ->
  0 < writeBufferSize (px_opts p) ->
  length (px_writeBuffer p) = writeBufferSize (px_opts p) ->
  length (px_ab p) / writeBufferSize (px_opts p) + 1 < fuel ->
  exists p' evs, push fuel p = (inr tt, p', evs) /\
    px_status p' = WORKING /\ px_offset p' = length (px_ab p) /\
    copies evs = px_ab p /\
    cnt is_push evs = (if length (px_ab p) =? 0 then 0 else 1) /\
    head evs = Some (PxAcquire WRITE_LOCK) /\ last evs = Some (PxRelease WRITE_LOCK).
Proof.
  intros Hst Hoff HC Hwb Hf.
  destruct (push_run fuel p Hst Hoff HC Hwb Hf) as (p' & evs & Hrun & Hs' & Ho' & Hcp & Hpu & _).
  exists p', ([PxAcquire WRITE_LOCK] ++ (evs ++ [PxRelease WRITE_LOCK])).
  split_and!; [exact Hrun | done | done | | | reflexivity |].
  - unfold copies in *. rewrite !map_app, !concat_app, Hcp. cbn. by rewrite app_nil_r.
  - by rewrite !cnt_app, Hpu.
  - by rewrite app_assoc, last_snoc.
Qed.

(** C18. Backpressure on the main thread's side: in the events of
    [push], any two copies into the shared write region are separated
    by an [asyncWait] on the write condition, which returns only after
    the worker's [notifyOne]; the region is never overwritten before
    the worker has acknowledged the previous chunk. *)
Theorem push_waits_for_ack fuel p :
  px_status p = INITED \/ px_status p = WORKING -> px_offset p = 0 ->
  0 < writeBufferSize (px_opts p) ->
  length (px_writeBuffer p) = writeBufferSize (px_opts p) ->
  length (px_ab p) / writeBufferSize (px_opts p) + 1 < fuel ->
  exists p' evs, push fuel p = (inr tt, p', evs) /\
    separated is_region_write is_write_ack evs.
Proof.
  intros Hst Hoff HC Hwb Hf.
  destruct (push_run fuel p Hst Hoff HC Hwb Hf) as (p' & evs & Hrun & _ & _ & _ & _ & ->).
  eexists _, _. split; [exact Hrun|]. apply acked_separated.
  cbn [app acked is_region_write is_write_ack]. rewrite push_trace_acked. reflexivity.
Qed.

(** On an empty input [push] takes and releases the write lock
    and posts nothing: the worker is never asked to run, so it never
    sends ["finish"] and [done()] never resolves. *)
Theorem push_empty_input fuel p :
  px_status p = INITED \/ px_status p = WORKING -> px_ab p = [] -> 0 < fuel ->
  push fuel p = (inr tt, set_status WORKING p, [PxAcquire WRITE_LOCK; PxRelease WRITE_LOCK]).
Proof.
  intros Hst Hab Hf. destruct fuel as [|fuel]; [lia|].
  change [PxAcquire WRITE_LOCK; PxRelease WRITE_LOCK]
    with ([PxAcquire WRITE_LOCK] ++ ([] ++ [PxRelease WRITE_LOCK])).
  unfold push. eapply pbind_inr; [by apply push_start_ok|].
  eapply pbind_inr; [|reflexivity]. cbn. rewrite Hab. reflexivity.
Qed.

(** The lock buffer the constructor builds, and the initial condition
    of both of its pairs. *)
Lemma new_lock_sab_eval : new_lock_sab = Some (Shmem (replicate 8 0%Z) ∅).
Proof. reflexivity. Qed.

Lemma lock_sab_init_ok :
  init_mem_ok READ_LOCK READ_COND (Shmem (replicate 8 0%Z) ∅) /\
  init_mem_ok WRITE_LOCK WRITE_COND (Shmem (replicate 8 0%Z) ∅).
Proof.
  split; (split_and!;
    [vm_compute; lia | vm_compute; lia | vm_compute; congruence
    | apply Forall_replicate; unfold is_int32, two31; lia | reflexivity..]).
Qed.

(** The lock buffer built by the constructor is eight zero cells
    with no waiters, and each of its two (lock, condition) pairs meets
    the initial condition of [Sync.v], so the theorems proved there for
    every interleaving hold for the proxy's read and write channels. *)
Theorem new_lock_sab_ok :
  exists m, new_lock_sab = Some m /\ cells m = replicate 8 0%Z /\
    init_mem_ok READ_LOCK READ_COND m /\ init_mem_ok WRITE_LOCK WRITE_COND m.
Proof.
  exists (Shmem (replicate 8 0%Z) ∅). split_and!; [apply new_lock_sab_eval | reflexivity |..];
    apply lock_sab_init_ok.
Qed.

(** ** Witnesses *)

Definition demo_proxy : proxy :=
  set_status INITED (new_proxy (TaskConf 2 2) [Byte.x01; Byte.x02; Byte.x03]).

Lemma onReceived_not_working_keeps_lock_witness :
  px_status demo_proxy <> WORKING /\
  onReceived None demo_proxy = (inr tt, demo_proxy, [PxAcquire READ_LOCK]).
Proof. split; [discriminate | apply onReceived_not_working_keeps_lock; discriminate]. Defined.

Lemma onReceived_oversized_witness :
  px_status (set_status WORKING demo_proxy) = WORKING /\
  readBufferSize (px_opts (set_status WORKING demo_proxy)) < 3 /\
  onReceived (Some 3) (set_status WORKING demo_proxy) =
    (inl OversizedChunk, set_status WORKING demo_proxy, [PxAcquire READ_LOCK]).
Proof.
  split_and!; [reflexivity | cbn; lia |].
  apply onReceived_oversized; [reflexivity | cbn; lia].
Defined.

Lemma onReceived_appends_witness :
  px_status (set_status WORKING demo_proxy) = WORKING /\
  1 <= readBufferSize (px_opts (set_status WORKING demo_proxy)) /\
  onReceived (Some 1) (set_status WORKING demo_proxy) =
    (inr tt, set_targets [[Byte.x00]] (set_status WORKING demo_proxy),
     [PxAcquire READ_LOCK; PxNotifyOne READ_COND; PxRelease READ_LOCK]).
Proof.
  split_and!; [reflexivity | cbn; lia |].
  apply (onReceived_appends (set_status WORKING demo_proxy) 1); [reflexivity | cbn; lia].
Defined.

Lemma progress_bounds_witness :
  1 <= 2 <= 3 /\ 0 < 3 /\
  (0 <= progress_value 1 3 /\ progress_value 1 3 <= progress_value 2 3 /\
   progress_value 2 3 <= 100)%Q.
Proof. refine (conj (conj _ _) (conj _ (progress_bounds 1 2 3 _ _))); lia. Defined.

Lemma push_transfers_input_witness :
  exists p' evs, push 4 demo_proxy = (inr tt, p', evs) /\
    px_status p' = WORKING /\ px_offset p' = length (px_ab demo_proxy) /\
    copies evs = px_ab demo_proxy /\
    cnt is_push evs = (if length (px_ab demo_proxy) =? 0 then 0 else 1) /\
    head evs = Some (PxAcquire WRITE_LOCK) /\ last evs = Some (PxRelease WRITE_LOCK).
Proof.
  apply push_transfers_input; [left; reflexivity | reflexivity | cbn; lia | reflexivity |].
  vm_compute. lia.
Defined.

Lemma push_waits_for_ack_witness :
  exists p' evs, push 4 demo_proxy = (inr tt, p', evs) /\
    separated is_region_write is_write_ack evs.
Proof.
  apply push_waits_for_ack; [left; reflexivity | reflexivity | cbn; lia | reflexivity |].
  vm_compute. lia.
Defined.

Lemma push_empty_input_witness :
  push 1 (set_status INITED (new_proxy (TaskConf 2 2) [])) =
    (inr tt, set_status WORKING (set_status INITED (new_proxy (TaskConf 2 2) [])),
     [PxAcquire WRITE_LOCK; PxRelease WRITE_LOCK]).
Proof. apply push_empty_input; [left | | lia]; reflexivity. Defined.
