(* ===== verification/Worker.v ===== *)
(** * The worker side: [FileTranformingWorker] of src/src/lib.ts

    The class (lib.ts 284-381) is the whole of src/src/plain.worker.ts,
    which hands every message to its [onMessage].  Its state is the
    record [worker]; its handlers are computations in the monad of
    [Monad.v] whose events are the worker's blocking lock and condition
    operations, its copies into the shared write region and its
    [postMessage]s to the main thread.

    The read region is written by the main thread while the worker
    waits; its contents when the worker reads at read offset [o] are a
    parameter [feed o] of the [push] handler ([Pipeline.v] instantiates
    it with what [WorkerProxy.push] wrote).  The write region's
    contents are part of the state: only the worker writes them. *)

From S2P Require Import Prelude Monad Int32 Lock Cond Chunking Proxy.

Local Open Scope handler_scope.

(** [FileTranformingWorkerStatus] (lib.ts 271-277). *)
Inductive wstatus := WINIT | WINITED | WWORKING | WFINISHED | WERROR.

#[export] Instance wstatus_eq_dec : EqDecision wstatus.
Proof. solve_decision. Defined.

(** The [Int32Array] indices of [__readLock], [__readCond],
    [__writeLock] and [__writeCond]. *)
Record wcells := WCells { rl : nat; rc : nat; wl : nat; wc : nat }.

Record worker := Worker {
  w_status : wstatus;                (** [__status] *)
  w_readBufferSize : nat;            (** [__readBufferSize] *)
  w_writeBufferSize : nat;           (** [__writeBufferSize] *)
  w_fileLength : nat;                (** [__fileLength] *)
  w_readOffset : nat;                (** [__readOffset] *)
  w_readRegion : option region;      (** [__readBuffer] *)
  w_writeRegion : option region;     (** [__writeBuffer] *)
  w_writeBuffer : list Byte.byte;    (** contents of [__writeBuffer] *)
  w_cells : option wcells            (** the four [Lock]/[Cond] objects *)
}.

(** [new FileTranformingWorker()] (lib.ts 284-298). *)
Definition new_worker : worker := Worker WINIT 0 0 0 0 None None [] None.

Inductive w_event :=
  | WAcquire (cell : nat)          (** [lock()] returned *)
  | WRelease (cell : nat)          (** [unlock()] *)
  | WNotifyOne (cell : nat)        (** [notifyOne()] *)
  | WWait (cell : nat)             (** [wait()] returned *)
  | WCopy (data : list Byte.byte)  (** [writeView.set(readView)] *)
  | WPost (msg : from_worker).     (** [postMessage] to the main thread *)

Inductive w_error :=
  | WUnexpectedState (s : wstatus)  (** lib.ts 333-336 *)
  | WConstruction                   (** [new Lock]/[new Cond] threw *)
  | WRangeError                     (** a [Uint8Array] view past the end of its buffer *)
  | WTypeError                      (** a method called on an undefined field *)
  | WLoopFuel.                      (** the modelled [while] ran out of fuel *)

Definition WM : Type -> Type := M worker w_error w_event.

Definition set_wstatus (s : wstatus) (w : worker) : worker :=
  Worker s (w_readBufferSize w) (w_writeBufferSize w) (w_fileLength w) (w_readOffset w)
         (w_readRegion w) (w_writeRegion w) (w_writeBuffer w) (w_cells w).

Definition set_readOffset (o : nat) (w : worker) : worker :=
  Worker (w_status w) (w_readBufferSize w) (w_writeBufferSize w) (w_fileLength w) o
         (w_readRegion w) (w_writeRegion w) (w_writeBuffer w) (w_cells w).

Definition set_wbuffer (b : list Byte.byte) (w : worker) : worker :=
  Worker (w_status w) (w_readBufferSize w) (w_writeBufferSize w) (w_fileLength w)
         (w_readOffset w) (w_readRegion w) (w_writeRegion w) b (w_cells w).

(** ** ["init"] (lib.ts 306-326) *)

(** The four objects built over the 32-byte [lockSab] at byte offsets
    16, 24, 0 and 8 (lib.ts 317-320): the worker's read pair is the
    main thread's write pair. *)
Definition make_cells : option wcells :=
  rl ← lock_new true 32 (2 * 8);
  rc ← cond_new true 32 (3 * 8);
  wl ← lock_new true 32 (0 * 8);
  wc ← cond_new true 32 (1 * 8);
  Some (WCells rl rc wl wc).

(** The fields and the four objects (lib.ts 309-320); the write region
    is the main thread's zero-filled [SharedArrayBuffer] of
    [writeBufferSize] bytes. *)
Definition ftw_setup (readBuffer writeBuffer : region)
    (readBufferSize writeBufferSize fileLength : nat) : WM unit :=
  w <- pget;;
  pput (Worker (w_status w) readBufferSize writeBufferSize fileLength (w_readOffset w)
               (Some readBuffer) (Some writeBuffer)
               (replicate writeBufferSize Byte.x00) (w_cells w));;
  match make_cells with
  | None => pthrow WConstruction
  | Some cs =>
      w1 <- pget;;
      pput (Worker (w_status w1) (w_readBufferSize w1) (w_writeBufferSize w1) (w_fileLength w1)
                   (w_readOffset w1) (w_readRegion w1) (w_writeRegion w1) (w_writeBuffer w1)
                   (Some cs))
  end.

(** ["init"] (lib.ts 306-326). *)
Definition ftw_init (readBuffer writeBuffer : region)
    (readBufferSize writeBufferSize fileLength : nat) : WM unit :=
  ftw_setup readBuffer writeBuffer readBufferSize writeBufferSize fileLength;;
  pemit (WPost FwInited);;
  w <- pget;; pput (set_wstatus WINITED w).

(** ** ["push"] (lib.ts 327-376) *)

(** Handing [n] bytes to the main thread through the write region:
    [writeLock.lock()], a view of [n] bytes at the start of the write
    region ([RangeError] past its end), the copy of [data], the ["push"]
    message, [writeCond.wait()] for the acknowledgement and
    [writeLock.unlock()] (lib.ts 352-361, and [onData] in
    compress.worker.ts 25-36). *)
Definition write_chunk (c : wcells) (n : nat) (data : list Byte.byte) : WM unit :=
  pemit (WAcquire (wl c));;
  w <- pget;;
  if length (w_writeBuffer w) <? n then pthrow WRangeError else
  pput (set_wbuffer (data ++ drop (length data) (w_writeBuffer w)) w);;
  pemit (WCopy data);;
  pemit (WPost (FwPush (Some n)));;
  pemit (WWait (wc c));;
  pemit (WRelease (wl c)).

(** One iteration of the [while] loop (lib.ts 340-372); [feed o] is
    the read region's contents. *)
Definition ftw_iter (feed : nat -> list Byte.byte) (c : wcells) : WM unit :=
  w <- pget;;
  let C := w_readBufferSize w in
  let L := w_fileLength w in
  let off := w_readOffset w in
  let readLength := chunk_size L C off in
  write_chunk c readLength (take readLength (feed off));;
  (if readLength <? C then pemit (WPost FwFinish) else pret tt);;
  pemit (WNotifyOne (rc c));;
  (if off + readLength <? L then pemit (WWait (rc c)) else pret tt);;
  w' <- pget;;
  pput (set_readOffset (off + readLength) w').

Fixpoint ftw_loop (fuel : nat) (feed : nat -> list Byte.byte) (c : wcells) : WM unit :=
  match fuel with
  | O => pthrow WLoopFuel
  | S fuel' =>
      w <- pget;;
      if w_readOffset w <? w_fileLength w
      then ftw_iter feed c;; ftw_loop fuel' feed c
      else pret tt
  end.

Definition ftw_push (fuel : nat) (feed : nat -> list Byte.byte) : WM unit :=
  w <- pget;;
  match w_status w with
  | WINITED => pput (set_wstatus WWORKING w)
  | WWORKING => pret tt
  | s => pthrow (WUnexpectedState s)
  end;;
  w1 <- pget;;
  match w_cells w1 with
  | None => pthrow WTypeError
  | Some c =>
      pemit (WAcquire (rl c));;
      ftw_loop fuel feed c;;
      pemit (WRelease (rl c))
  end.

(** [onMessage] (lib.ts 300-380) on the two messages the main thread
    sends. *)
Definition ftw_onMessage (fuel : nat) (feed : nat -> list Byte.byte) (m : to_worker) : WM unit :=
  match m with
  | MsgInit r w rs ws len => ftw_init r w rs ws len
  | MsgPush => ftw_push fuel feed
  end.

(** plain.worker.ts (lines 8-13): one [FileTranformingWorker] created
    at start-up handles the main thread's messages in order. *)
Definition plain_worker (fuel : nat) (feed : nat -> list Byte.byte) (ms : list to_worker)
    : worker * list w_event * list w_error :=
  listen (ftw_onMessage fuel feed) ms new_worker.

(** ** Observations *)

Definition w_pushes (evs : list w_event) : list nat :=
  omap (fun e => match e with WPost (FwPush (Some n)) => Some n | _ => None end) evs.

Definition w_copies (evs : list w_event) : list (list Byte.byte) :=
  omap (fun e => match e with WCopy d => Some d | _ => None end) evs.

Definition is_finish (e : w_event) : bool :=
  match e with WPost FwFinish => true | _ => false end.

(** The events of one iteration of the plain worker's loop for a chunk
    of [n] bytes at offset [off], and of the whole loop. *)
Definition chunk_events (feed : nat -> list Byte.byte) (c : wcells) (C L off n : nat)
    : list w_event :=
  [WAcquire (wl c); WCopy (take n (feed off)); WPost (FwPush (Some n)); WWait (wc c);
   WRelease (wl c)] ++
  (if n <? C then [WPost FwFinish] else []) ++ [WNotifyOne (rc c)] ++
  (if off + n <? L then [WWait (rc c)] else []).

Fixpoint loop_events (feed : nat -> list Byte.byte) (c : wcells) (C L off : nat) (cs : list nat)
    : list w_event :=
  match cs with
  | [] => []
  | n :: cs' => chunk_events feed c C L off n ++ loop_events feed c C L (off + n) cs'
  end.

(** A write into the worker's write region, and the wait for the main
    thread's acknowledgement of it. *)
Definition is_region_wcopy (e : w_event) : bool :=
  match e with WCopy _ => true | _ => false end.

Definition is_wack (c : wcells) (e : w_event) : bool :=
  match e with WWait x => x =? wc c | _ => false end.

(** The bytes the worker reads for the chunks [cs] from offset [o]. *)
Fixpoint reads (feed : nat -> list Byte.byte) (o : nat) (cs : list nat) : list (list Byte.byte) :=
  match cs with
  | [] => []
  | n :: cs' => take n (feed o) :: reads feed (o + n) cs'
  end.

(** ** Functional behaviour of one iteration *)

Lemma w_copies_app l1 l2 : w_copies (l1 ++ l2) = w_copies l1 ++ w_copies l2.
Proof. apply omap_app. Qed.

Lemma w_pushes_app l1 l2 : w_pushes (l1 ++ l2) = w_pushes l1 ++ w_pushes l2.
Proof. apply omap_app. Qed.


Lemma write_chunk_eval c n data w :
  n <= length (w_writeBuffer w) ->
  write_chunk c n data w =
    (inr tt, set_wbuffer (data ++ drop (length data) (w_writeBuffer w)) w,
     [WAcquire (wl c); WCopy data; WPost (FwPush (Some n)); WWait (wc c); WRelease (wl c)]).
Proof.
  intros Hn. unfold write_chunk. unfold_monad. cbn -[Nat.ltb take drop].
  rewrite (proj2 (Nat.ltb_ge _ _) Hn). reflexivity.
Qed.

Lemma set_wbuffer_twice b1 b2 w : set_wbuffer b1 (set_wbuffer b2 w) = set_wbuffer b1 w.
Proof. reflexivity. Qed.

Section Iter.
Context (feed : nat -> list Byte.byte) (c : wcells) (w : worker).

Definition read_length : nat :=
  chunk_size (w_fileLength w) (w_readBufferSize w) (w_readOffset w).

Definition iter_events : list w_event :=
  chunk_events feed c (w_readBufferSize w) (w_fileLength w) (w_readOffset w) read_length.

Lemma ftw_iter_eval :
  read_length <= length (w_writeBuffer w) ->
  ftw_iter feed c w =
    (inr tt, set_readOffset (w_readOffset w + read_length)
               (set_wbuffer (take read_length (feed (w_readOffset w)) ++
                             drop (length (take read_length (feed (w_readOffset w))))
                               (w_writeBuffer w)) w),
     iter_events).
Proof.
  intros Hle. unfold ftw_iter, write_chunk, iter_events, chunk_events, read_length in *.
  unfold_monad.
  cbn -[Nat.ltb chunk_size take drop].
  rewrite (proj2 (Nat.ltb_ge _ _) Hle).
  destruct (_ <? w_readBufferSize w), (_ <? w_fileLength w); reflexivity.
Qed.

Lemma ftw_iter_overflow :
  length (w_writeBuffer w) < read_length ->
  ftw_iter feed c w = (inl WRangeError, w, [WAcquire (wl c)]).
Proof.
  intros Hlt. unfold ftw_iter, write_chunk, read_length in *. unfold_monad.
  cbn -[Nat.ltb chunk_size take drop].
  rewrite (proj2 (Nat.ltb_lt _ _) Hlt). reflexivity.
Qed.
End Iter.

Lemma loop_events_observe feed c C L off cs :
  w_pushes (loop_events feed c C L off cs) = cs /\
  w_copies (loop_events feed c C L off cs) = reads feed off cs /\
  cnt is_finish (loop_events feed c C L off cs) = cnt (fun n => n <? C) cs.
Proof.
  revert off. induction cs as [|n cs IH]; intros off; [done|]. cbn [loop_events reads cnt].
  destruct (IH (off + n)) as (H1 & H2 & H3).
  rewrite w_pushes_app, w_copies_app, cnt_app, H1, H2, H3. unfold chunk_events.
  destruct (n <? C), (off + n <? L); cbn; auto.
Qed.

Lemma ftw_loop_spec fuel feed c w cs :
  0 < w_readBufferSize w -> w_readBufferSize w <= length (w_writeBuffer w) ->
  chunks fuel (w_fileLength w) (w_readBufferSize w) (w_readOffset w) = Some cs ->
  exists w', ftw_loop fuel feed c w =
      (inr tt, w', loop_events feed c (w_readBufferSize w) (w_fileLength w) (w_readOffset w) cs) /\
    w_status w' = w_status w /\ w_cells w' = w_cells w /\
    w_readOffset w' = w_readOffset w + sum_list cs /\
    w_readBufferSize w' = w_readBufferSize w /\ w_fileLength w' = w_fileLength w /\
    length (w_writeBuffer w') = length (w_writeBuffer w).
Proof.
  revert w cs. induction fuel as [|fuel IH]; intros w cs HC Hwb Hcs; [done|].
  cbn [chunks] in Hcs. cbn [ftw_loop pbind pget].
  destruct (Nat.ltb_spec (w_readOffset w) (w_fileLength w)) as [Hlt|Hge].
  - apply bind_Some in Hcs as (cs' & Hcs' & Hc). injection Hc as <-.
    pose proof (chunk_size_le (w_fileLength w) _ (w_readOffset w) HC).
    set (v := take (read_length w) (feed (w_readOffset w))).
    set (w1 := set_readOffset (w_readOffset w + read_length w)
                 (set_wbuffer (v ++ drop (length v) (w_writeBuffer w)) w)).
    assert (Hv : length v <= length (w_writeBuffer w)).
    { unfold v, read_length. rewrite length_take. lia. }
    assert (Hl1 : length (w_writeBuffer w1) = length (w_writeBuffer w)).
    { cbn. rewrite length_app, length_drop. lia. }
    destruct (IH w1 cs') as (w' & Hrun & Hst & Hce & Hoff & Hrs & Hfl & Hlw);
      [exact HC | rewrite Hl1; exact Hwb | exact Hcs' |].
    rewrite (pbind_inr _ _ _ _ _ _ _ _ _ (ftw_iter_eval feed c w ltac:(unfold read_length; lia)) Hrun).
    exists w'. cbn -[Nat.ltb] in Hst, Hce, Hoff, Hrs, Hfl. split_and!; try congruence.
    + reflexivity.
    + rewrite Hoff. unfold read_length. cbn. lia.
  - injection Hcs as <-. exists w. split_and!; cbn; try reflexivity; lia.
Qed.

Lemma ftw_push_start w :
  w_status w = WINITED \/ w_status w = WWORKING ->
  (match w_status w with
   | WINITED => pput (set_wstatus WWORKING w)
   | WWORKING => pret tt
   | s => pthrow (WUnexpectedState s)
   end : WM unit) w = (inr tt, set_wstatus WWORKING w, []).
Proof. destruct w as [[] ? ? ? ? ? ? ? ?]; intros [H|H]; try discriminate; reflexivity. Qed.

Lemma ftw_push_run fuel feed w c :
  w_status w = WINITED \/ w_status w = WWORKING -> w_cells w = Some c ->
  w_readOffset w = 0 -> 0 < w_readBufferSize w ->
  w_readBufferSize w <= length (w_writeBuffer w) ->
  w_fileLength w / w_readBufferSize w + 1 < fuel ->
  exists w', ftw_push fuel feed w =
    (inr tt, w', [WAcquire (rl c)] ++
                 loop_events feed c (w_readBufferSize w) (w_fileLength w) 0
                   (expected_chunks (w_fileLength w) (w_readBufferSize w)) ++
                 [WRelease (rl c)]) /\
    w_status w' = WWORKING /\ w_readOffset w' = w_fileLength w.
Proof.
  intros Hst Hc Hoff HC Hwb Hf.
  set (cs := expected_chunks (w_fileLength w) (w_readBufferSize w)).
  pose proof (chunks_from (w_fileLength w) _ 0 fuel HC ltac:(lia) ltac:(lia)) as Hch.
  rewrite Nat.mul_0_l, Nat.sub_0_r in Hch.
  destruct (ftw_loop_spec fuel feed c (set_wstatus WWORKING w) cs HC Hwb
              ltac:(cbn; rewrite Hoff; exact Hch))
    as (w' & Hrun & Hst' & _ & Ho' & _).
  cbn [set_wstatus w_readOffset w_status w_readBufferSize w_fileLength] in Hrun, Hst', Ho'.
  rewrite Hoff in Hrun, Ho'.
  rewrite (expected_chunks_sum _ _ HC : sum_list cs = _) in Ho'.
  exists w'. split_and!; [|done|lia].
  set (le := loop_events feed c (w_readBufferSize w) (w_fileLength w) 0 cs) in *.
  change ([WAcquire (rl c)] ++ le ++ [WRelease (rl c)]) with
    ([] ++ ([] ++ ([] ++ ([WAcquire (rl c)] ++ (le ++ [WRelease (rl c)]))))).
  unfold ftw_push. eapply pbind_inr; [reflexivity|].
  eapply pbind_inr; [by apply ftw_push_start|].
  eapply pbind_inr; [reflexivity|]. cbn [w_cells set_wstatus]. rewrite Hc.
  eapply pbind_inr; [reflexivity|]. eapply pbind_inr; [exact Hrun | reflexivity].
Qed.

Lemma loop_events_acked feed c C L off cs rest :
  acked is_region_wcopy (is_wack c) false (loop_events feed c C L off cs ++ rest) =
    acked is_region_wcopy (is_wack c) false rest.
Proof.
  revert off. induction cs as [|n cs IH]; intros off; [done|].
  cbn [loop_events]. rewrite <- app_assoc. unfold chunk_events.
  cbn -[Nat.ltb]. rewrite Nat.eqb_refl. cbn -[Nat.ltb].
  destruct (n <? C), (off + n <? L); cbn; try destruct (rc c =? wc c); apply IH.
Qed.

(** ** Properties *)

(** C16. From [INITED] or [WORKING] at read offset 0, with a positive
    read size [C] no larger than the write region and [L / C + 2]
    iterations of fuel, the ["push"] handler returns at read offset
    [L] after exactly the events of [loop_events] between taking and
    releasing the read lock: it announces the chunks of
    [Chunking.expected_chunks L C] in order, copies the first [n] bytes
    of the read region for each, and posts ["finish"] once when [C]
    does not divide [L] and never otherwise. *)
Theorem worker_transfers fuel feed w c :
  w_status w = WINITED \/ w_status w = WWORKING -> w_cells w = Some c ->
  w_readOffset w = 0 -> 0 < w_readBufferSize w ->
  w_readBufferSize w <= length (w_writeBuffer w) ->
  w_fileLength w / w_readBufferSize w + 1 < fuel ->
  exists w' evs, ftw_push fuel feed w = (inr tt, w', evs) /\
    evs = [WAcquire (rl c)] ++
          loop_events feed c (w_readBufferSize w) (w_fileLength w) 0
            (expected_chunks (w_fileLength w) (w_readBufferSize w)) ++
          [WRelease (rl c)] /\
    w_status w' = WWORKING /\ w_readOffset w' = w_fileLength w /\
    w_pushes evs = expected_chunks (w_fileLength w) (w_readBufferSize w) /\
    w_copies evs = reads feed 0 (expected_chunks (w_fileLength w) (w_readBufferSize w)) /\
    cnt is_finish evs = (if w_fileLength w mod w_readBufferSize w =? 0 then 0 else 1).
Proof.
  intros Hst Hc Hoff HC Hwb Hf.
  destruct (ftw_push_run fuel feed w c Hst Hc Hoff HC Hwb Hf) as (w' & Hrun & Hst' & Ho').
  destruct (loop_events_observe feed c (w_readBufferSize w) (w_fileLength w) 0
              (expected_chunks (w_fileLength w) (w_readBufferSize w))) as (Hpu & Hcp & Hfi).
  rewrite expected_chunks_short in Hfi by done.
  eexists w', _. split_and!; [exact Hrun | reflexivity | done | done | | |].
  - by rewrite !w_pushes_app, Hpu, app_nil_r.
  - by rewrite !w_copies_app, Hcp, app_nil_r.
  - by rewrite !cnt_app, Hfi.
Qed.

(** C19. Backpressure on the worker's side: in the events of its
    ["push"] handler, any two copies into the write region are
    separated by a [writeCond.wait()], which returns only after the
    main thread's [onReceived] has copied the chunk out and called
    [notifyOne]. *)
Theorem worker_waits_for_ack fuel feed w c :
  w_status w = WINITED \/ w_status w = WWORKING -> w_cells w = Some c ->
  w_readOffset w = 0 -> 0 < w_readBufferSize w ->
  w_readBufferSize w <= length (w_writeBuffer w) ->
  w_fileLength w / w_readBufferSize w + 1 < fuel ->
  exists w' evs, ftw_push fuel feed w = (inr tt, w', evs) /\
    separated is_region_wcopy (is_wack c) evs.
Proof.
  intros Hst Hc Hoff HC Hwb Hf.
  destruct (ftw_push_run fuel feed w c Hst Hc Hoff HC Hwb Hf) as (w' & Hrun & _).
  eexists _, _. split; [exact Hrun|]. apply acked_separated.
  cbn [app acked is_region_wcopy is_wack]. rewrite loop_events_acked. reflexivity.
Qed.

(** C23. When the worker's read size [C] exceeds its write region
    (the main thread's [writeBufferSize] larger than its
    [readBufferSize]) and the input holds at least [C] bytes, the first
    iteration's [new Uint8Array(writeBuffer, 0, readLength)] throws a
    [RangeError] while the worker holds both its read lock and its
    write lock, which the main thread's [asyncLock]s then never get. *)
Theorem worker_write_overflow fuel feed w c :
  w_status w = WINITED \/ w_status w = WWORKING -> w_cells w = Some c ->
  w_readOffset w = 0 -> length (w_writeBuffer w) < w_readBufferSize w <= w_fileLength w ->
  0 < fuel ->
  ftw_push fuel feed w =
    (inl WRangeError, set_wstatus WWORKING w, [WAcquire (rl c); WAcquire (wl c)]).
Proof.
  intros Hst Hc Hoff [Hlt Hle] Hf. destruct fuel as [|fuel]; [lia|].
  assert (Hn : read_length (set_wstatus WWORKING w) = w_readBufferSize w).
  { unfold read_length, chunk_size. cbn -[Nat.ltb]. rewrite Hoff.
    rewrite (proj2 (Nat.ltb_ge _ _)) by lia. reflexivity. }
  change [WAcquire (rl c); WAcquire (wl c)] with
    ([] ++ ([] ++ ([] ++ ([WAcquire (rl c)] ++ ([] ++ [WAcquire (wl c)]))))).
  unfold ftw_push. eapply pbind_inr; [reflexivity|].
  eapply pbind_inr; [by apply ftw_push_start|].
  eapply pbind_inr; [reflexivity|]. cbn [w_cells set_wstatus]. rewrite Hc.
  eapply pbind_inr; [reflexivity|]. apply pbind_inl.
  cbn [ftw_loop]. eapply pbind_inr; [reflexivity|].
  rewrite (proj2 (Nat.ltb_lt _ _)) by (cbn; lia).
  apply pbind_inl. apply ftw_iter_overflow. rewrite Hn. cbn. lia.
Qed.

(** C26. The channel is mirrored: the worker that handles the ["init"]
    message [initWorker] posts reads the main thread's write region
    with the main thread's write lock and condition, writes the main
    thread's read region under its read lock and condition, and swaps
    the two sizes accordingly; it answers ["inited"]. *)
Theorem init_mirrored p fuel feed :
  exists msg w, initWorker p = (inr tt, p, [PxPost msg]) /\
    ftw_onMessage fuel feed msg new_worker = (inr tt, w, [WPost FwInited]) /\
    w_status w = WINITED /\
    w_cells w = Some (WCells WRITE_LOCK WRITE_COND READ_LOCK READ_COND) /\
    w_readRegion w = Some ProxyWriteRegion /\ w_writeRegion w = Some ProxyReadRegion /\
    w_readBufferSize w = writeBufferSize (px_opts p) /\
    w_writeBufferSize w = readBufferSize (px_opts p) /\
    length (w_writeBuffer w) = readBufferSize (px_opts p) /\
    w_fileLength w = length (px_ab p) /\ w_readOffset w = 0.
Proof.
  eexists _, _. split_and!; [reflexivity | reflexivity | ..]; cbn; try reflexivity.
  apply length_replicate.
Qed.

(** ** Witnesses *)

Definition demo_cells : wcells := WCells 4 6 0 2.

Definition demo_worker : worker :=
  Worker WINITED 2 2 5 0 (Some ProxyWriteRegion) (Some ProxyReadRegion)
         [Byte.x00; Byte.x00] (Some demo_cells).

Definition demo_feed (o : nat) : list Byte.byte :=
  take 2 (drop o [Byte.x01; Byte.x02; Byte.x03; Byte.x04; Byte.x05]).

Lemma worker_transfers_witness :
  exists w' evs, ftw_push 4 demo_feed demo_worker = (inr tt, w', evs) /\
    evs = [WAcquire (rl demo_cells)] ++
          loop_events demo_feed demo_cells (w_readBufferSize demo_worker)
            (w_fileLength demo_worker) 0
            (expected_chunks (w_fileLength demo_worker) (w_readBufferSize demo_worker)) ++
          [WRelease (rl demo_cells)] /\
    w_status w' = WWORKING /\ w_readOffset w' = w_fileLength demo_worker /\
    w_pushes evs = expected_chunks (w_fileLength demo_worker) (w_readBufferSize demo_worker) /\
    w_copies evs = reads demo_feed 0 (expected_chunks (w_fileLength demo_worker)
                                        (w_readBufferSize demo_worker)) /\
    cnt is_finish evs =
      (if w_fileLength demo_worker mod w_readBufferSize demo_worker =? 0 then 0 else 1).
Proof.
  apply worker_transfers; [left; reflexivity | reflexivity | reflexivity | cbn; lia
                          | cbn; lia | vm_compute; lia].
Defined.

Lemma worker_waits_for_ack_witness :
  exists w' evs, ftw_push 4 demo_feed demo_worker = (inr tt, w', evs) /\
    separated is_region_wcopy (is_wack demo_cells) evs.
Proof.
  apply worker_waits_for_ack; [left; reflexivity | reflexivity | reflexivity | cbn; lia
                              | cbn; lia | vm_compute; lia].
Defined.

Lemma worker_write_overflow_witness :
  ftw_push 1 demo_feed (set_wbuffer [Byte.x00] demo_worker) =
    (inl WRangeError, set_wstatus WWORKING (set_wbuffer [Byte.x00] demo_worker),
     [WAcquire (rl demo_cells); WAcquire (wl demo_cells)]).
Proof.
  apply worker_write_overflow; [left; reflexivity | reflexivity | reflexivity | cbn; lia | lia].
Defined.
