(* ===== verification/Compress.v ===== *)
(** * The compress worker of src/src/compress.worker.ts

    [CompressWorker] (lines 44-117) is a [FileTranformingWorker] whose
    ["push"] handler feeds each chunk it reads to a [pako.Deflate]
    instance, [CustromDeflate] (14-42), instead of copying it: the
    codec calls [onData] for every output chunk, which hands the chunk
    to the main thread exactly as the plain worker does, and [onEnd]
    when the stream ends, which posts ["finish"].

    pako is a library the sources only call; what the worker relies on
    is the interface [Deflater] with its laws [DeflaterLaws]: output
    chunks of at most [chunkSize] bytes, [onEnd] exactly on the push
    flagged final, and a streamed input compressing to the same bytes
    as the whole input.  The worker's theorems are proved against the
    interface; the pass-through codec [Stored] is an instance of it. *)

From S2P Require Import Prelude Monad Int32 Lock Cond Chunking Proxy Worker.

Local Open Scope handler_scope.

(** ** The codec interface *)

Class Deflater (D : Type) := {
  (** [new pako.Deflate({chunkSize})] *)
  deflate_new : nat -> D;
  (** [push(data, isFinished)]: the codec afterwards, the chunks it
      passes to [onData] in order, and whether it calls [onEnd] *)
  deflate_push : D -> list Byte.byte -> bool -> D * list (list Byte.byte) * bool;
  deflate_chunkSize : D -> nat;
  deflate_ended : D -> bool;
  (** the codec's output for a whole input *)
  deflate_spec : list Byte.byte -> list Byte.byte
}.

Section Feed.
Context {D : Type} `{Deflater D}.

(** The output chunks of a sequence of pushes. *)
Fixpoint deflate_feed (d : D) (ins : list (list Byte.byte * bool)) : list (list Byte.byte) :=
  match ins with
  | [] => []
  | (x, f) :: ins' => let '(d', outs, _) := deflate_push d x f in outs ++ deflate_feed d' ins'
  end.
End Feed.

(** A sequence of chunks with only the last flagged final. *)
Definition flag_last (xs : list (list Byte.byte)) : list (list Byte.byte * bool) :=
  zip xs (replicate (length xs - 1) false ++ [true]).

Class DeflaterLaws (D : Type) `{Deflater D} := {
  deflate_new_chunkSize n : deflate_chunkSize (deflate_new n) = n;
  deflate_new_ended n : deflate_ended (deflate_new n) = false;
  deflate_push_chunkSize d x f d' outs e :
    deflate_push d x f = (d', outs, e) -> deflate_chunkSize d' = deflate_chunkSize d;
  deflate_push_fits d x f d' outs e :
    deflate_push d x f = (d', outs, e) -> Forall (fun o => length o <= deflate_chunkSize d) outs;
  deflate_push_end d x f d' outs e :
    deflate_ended d = false -> deflate_push d x f = (d', outs, e) ->
    e = f /\ deflate_ended d' = f;
  deflate_stream n xs : 0 < n -> xs <> [] ->
    concat (deflate_feed (deflate_new n) (flag_last xs)) = deflate_spec (concat xs)
}.

(** ** The worker *)

Section CompressWorker.
Context {D : Type} `{Deflater D}.

Record cworker := CWorker {
  cw_base : worker;              (** the fields of [FileTranformingWorker] *)
  cw_deflator : option D         (** [__deflator] *)
}.

Definition CWM : Type -> Type := M cworker w_error w_event.

(** A method of the base class run on the base fields. *)
Definition lift {A} (m : WM A) : CWM A := fun s =>
  let '(r, b, evs) := m (cw_base s) in (r, CWorker b (cw_deflator s), evs).

Definition set_deflator (d : D) : CWM unit := fun s =>
  (inr tt, CWorker (cw_base s) (Some d), []).

(** [new CustromDeflate(ftm)] (lines 18-24): a codec whose [chunkSize]
    is the smaller of the worker's two buffer sizes. *)
Definition custrom_deflate (ftm : worker) : D :=
  deflate_new (if w_readBufferSize ftm <? w_writeBufferSize ftm
               then w_readBufferSize ftm else w_writeBufferSize ftm).

(** ["init"] (compress.worker.ts 58-77): the base class's fields and
    objects, then [new CustromDeflate(this)], then ["inited"]. *)
Definition cw_init (readBuffer writeBuffer : region)
    (readBufferSize writeBufferSize fileLength : nat) : CWM unit :=
  lift (ftw_setup readBuffer writeBuffer readBufferSize writeBufferSize fileLength);;
  s <- pget;;
  set_deflator (custrom_deflate (cw_base s));;
  lift (pemit (WPost FwInited));;
  lift (w <- pget;; pput (set_wstatus WINITED w)).

(** [onData(chunk)] (25-36). *)
Definition onData (c : wcells) (chunk : list Byte.byte) : CWM unit :=
  lift (write_chunk c (length chunk) chunk).

Fixpoint onData_all (c : wcells) (outs : list (list Byte.byte)) : CWM unit :=
  match outs with
  | [] => pret tt
  | o :: outs' => onData c o;; onData_all c outs'
  end.

(** [onEnd(status)] (38-41): pako's own [onEnd] only records the
    status. *)
Definition onEnd : CWM unit := lift (pemit (WPost FwFinish)).

(** One iteration of the [while] loop (91-109): [deflator.push]
    calls [onData] for each output chunk, then [onEnd] when the
    stream ends. *)
Definition cw_iter (feed : nat -> list Byte.byte) (c : wcells) : CWM unit :=
  s <- pget;;
  let w := cw_base s in
  let C := w_readBufferSize w in
  let L := w_fileLength w in
  let off := w_readOffset w in
  let readLength := chunk_size L C off in
  let readView := take readLength (feed off) in
  let isFinished := L <=? off + readLength in
  match cw_deflator s with
  | None => pthrow WTypeError
  | Some d =>
      let '(d', outs, ended) := deflate_push d readView isFinished in
      set_deflator d';;
      onData_all c outs;;
      (if ended then onEnd else pret tt);;
      lift (pemit (WNotifyOne (rc c)));;
      lift (if off + readLength <? L then pemit (WWait (rc c)) else pret tt);;
      lift (w' <- pget;; pput (set_readOffset (off + readLength) w'))
  end.

Fixpoint cw_loop (fuel : nat) (feed : nat -> list Byte.byte) (c : wcells) : CWM unit :=
  match fuel with
  | O => pthrow WLoopFuel
  | S fuel' =>
      s <- pget;;
      if w_readOffset (cw_base s) <? w_fileLength (cw_base s)
      then cw_iter feed c;; cw_loop fuel' feed c
      else pret tt
  end.

(** ["push"] (78-112). *)
Definition cw_push (fuel : nat) (feed : nat -> list Byte.byte) : CWM unit :=
  s <- pget;;
  lift (match w_status (cw_base s) with
        | WINITED => w <- pget;; pput (set_wstatus WWORKING w)
        | WWORKING => pret tt
        | st => pthrow (WUnexpectedState st)
        end);;
  s1 <- pget;;
  match w_cells (cw_base s1) with
  | None => pthrow WTypeError
  | Some c =>
      lift (pemit (WAcquire (rl c)));;
      cw_loop fuel feed c;;
      lift (pemit (WRelease (rl c)))
  end.

Definition cw_onMessage (fuel : nat) (feed : nat -> list Byte.byte) (m : to_worker)
    : CWM unit :=
  match m with
  | MsgInit r w rs ws len => cw_init r w rs ws len
  | MsgPush => cw_push fuel feed
  end.
(** [new CompressWorker()] (lines 48-50): the base fields as
    [new FileTranformingWorker()], no codec yet. *)
Definition new_cworker : cworker := CWorker new_worker None.

(** The module body of compress.worker.ts (lines 118-128): one
    [CompressWorker] handles the main thread's messages in order. *)
Definition compress_worker (fuel : nat) (feed : nat -> list Byte.byte) (ms : list to_worker)
    : cworker * list w_event * list w_error :=
  listen (cw_onMessage fuel feed) ms new_cworker.
End CompressWorker.

Arguments cworker D : clear implicits.

(** ** A lawful codec: the stored (pass-through) transform *)

(** The input split into chunks of [n] bytes; the fuel is the input's
    length. *)
Fixpoint split_by (fuel n : nat) (l : list Byte.byte) : list (list Byte.byte) :=
  match fuel with
  | O => []
  | S fuel' => match l with [] => [] | _ :: _ => take n l :: split_by fuel' n (drop n l) end
  end.

Record stored := Stored { st_chunk : nat; st_ended : bool }.

Definition stored_push (d : stored) (x : list Byte.byte) (f : bool)
    : stored * list (list Byte.byte) * bool :=
  if st_ended d then (d, [], false)
  else (Stored (st_chunk d) f, split_by (length x) (st_chunk d) x, f).

#[export] Instance stored_deflater : Deflater stored := {
  deflate_new n := Stored n false;
  deflate_push := stored_push;
  deflate_chunkSize := st_chunk;
  deflate_ended := st_ended;
  deflate_spec x := x
}.

Lemma split_by_fits fuel n l : Forall (fun o => length o <= n) (split_by fuel n l).
Proof.
  revert l. induction fuel as [|fuel IH]; intros [|b l]; cbn; constructor; [|apply IH].
  rewrite length_take. lia.
Qed.

Lemma split_by_concat fuel n l : 0 < n -> length l <= fuel -> concat (split_by fuel n l) = l.
Proof.
  revert l. induction fuel as [|fuel IH]; intros [|b l] Hn Hl; cbn in *; try done; [lia|].
  rewrite IH; [| done | rewrite length_drop; cbn; lia].
  apply take_drop.
Qed.

Lemma flag_last_cons x y r : flag_last (x :: y :: r) = (x, false) :: flag_last (y :: r).
Proof. unfold flag_last. cbn. rewrite Nat.sub_0_r. reflexivity. Qed.

Lemma stored_feed n xs :
  0 < n -> xs <> [] -> concat (deflate_feed (Stored n false) (flag_last xs)) = concat xs.
Proof.
  intros Hn. induction xs as [|x [|y r] IH]; intros Hne; [done| |].
  - cbn. rewrite !app_nil_r. apply split_by_concat; lia.
  - rewrite flag_last_cons. cbn -[flag_last]. rewrite concat_app, IH by done.
    rewrite split_by_concat by lia. reflexivity.
Qed.

#[export] Instance stored_laws : DeflaterLaws stored.
Proof.
  split.
  - reflexivity.
  - reflexivity.
  - intros [n e0] x f d' outs e. cbn. unfold stored_push. cbn.
    destruct e0; intros [= <- _ _]; reflexivity.
  - intros [n e0] x f d' outs e. cbn. unfold stored_push. cbn.
    destruct e0; intros [= _ <- _]; [constructor | apply split_by_fits].
  - intros [n e0] x f d' outs e. cbn. unfold stored_push. cbn. intros ->.
    intros [= <- _ <-]. auto.
  - intros n xs Hn Hne. apply stored_feed; assumption.
Qed.

(** ** The compress worker's behaviour *)

(** The events of [onData] for each of [outs]. *)
Definition data_events (c : wcells) (outs : list (list Byte.byte)) : list w_event :=
  concat (map (fun o => [WAcquire (wl c); WCopy o; WPost (FwPush (Some (length o)));
                         WWait (wc c); WRelease (wl c)]) outs).

Lemma data_events_observe c outs :
  w_copies (data_events c outs) = outs /\
  w_pushes (data_events c outs) = map length outs /\
  cnt is_finish (data_events c outs) = 0.
Proof.
  induction outs as [|o outs IH]; [done|]. destruct IH as (H1 & H2 & H3).
  unfold data_events, w_copies, w_pushes in *. cbn [map concat].
  rewrite !omap_app, cnt_app, H1, H2, H3. done.
Qed.

Section CwProofs.
Context {D : Type} `{DeflaterLaws D}.

Lemma onData_all_spec c outs (s : cworker D) :
  Forall (fun o => length o <= length (w_writeBuffer (cw_base s))) outs ->
  exists X, onData_all c outs s =
    (inr tt, CWorker (set_wbuffer X (cw_base s)) (cw_deflator s), data_events c outs) /\
    length X = length (w_writeBuffer (cw_base s)).
Proof.
  revert s. induction outs as [|o outs IH]; intros [b dd] Hf; cbn [cw_base cw_deflator] in *.
  - exists (w_writeBuffer b). split; [|done]. by destruct b.
  - apply Forall_cons in Hf as [Ho Hf].
    set (b1 := set_wbuffer (o ++ drop (length o) (w_writeBuffer b)) b).
    assert (Hl : length (w_writeBuffer b1) = length (w_writeBuffer b)).
    { cbn. rewrite length_app, length_drop. lia. }
    destruct (IH (CWorker b1 dd)) as (X & HX & HlX);
      [change (cw_base (CWorker b1 dd)) with b1; rewrite Hl; exact Hf|].
    change (cw_base (CWorker b1 dd)) with b1 in HX, HlX.
    exists X. split; [|lia].
    eapply pbind_inr; [|exact HX].
    unfold onData, lift. rewrite write_chunk_eval by done. reflexivity.
Qed.

Section Iter.
Context (feed : nat -> list Byte.byte) (c : wcells) (s : cworker D) (d d' : D)
        (outs : list (list Byte.byte)) (e : bool).
Let b := cw_base s.
Let n := chunk_size (w_fileLength b) (w_readBufferSize b) (w_readOffset b).
Hypothesis Hd : cw_deflator s = Some d.
Hypothesis Hpush :
  deflate_push d (take n (feed (w_readOffset b))) (w_fileLength b <=? w_readOffset b + n) =
    (d', outs, e).
Hypothesis Hfit : deflate_chunkSize d <= length (w_writeBuffer b).

Lemma cw_iter_spec :
  exists X, cw_iter feed c s =
    (inr tt, CWorker (set_readOffset (w_readOffset b + n) (set_wbuffer X b)) (Some d'),
     data_events c outs ++ (if e then [WPost FwFinish] else []) ++ [WNotifyOne (rc c)] ++
     (if w_readOffset b + n <? w_fileLength b then [WWait (rc c)] else [])) /\
    length X = length (w_writeBuffer b).
Proof.
  pose proof (deflate_push_fits _ _ _ _ _ _ Hpush) as Hf.
  destruct (onData_all_spec c outs (CWorker b (Some d')))
    as (X & HX & HlX); [eapply Forall_impl; [exact Hf | cbn; lia]|].
  exists X. split; [|exact HlX].
  cut (exists evs, cw_iter feed c s =
         (inr tt, CWorker (set_readOffset (w_readOffset b + n) (set_wbuffer X b)) (Some d'), evs)
       /\ evs = data_events c outs ++ (if e then [WPost FwFinish] else []) ++
                [WNotifyOne (rc c)] ++
                (if w_readOffset b + n <? w_fileLength b then [WWait (rc c)] else [])).
  { intros (evs & -> & ->). reflexivity. }
  destruct (w_readOffset b + n <? w_fileLength b) eqn:Hw;
    destruct e; eexists; (split;
    [ unfold cw_iter; (eapply pbind_inr; [reflexivity|]); cbv beta;
      fold b; fold n; rewrite Hd, Hpush, Hw; cbv beta iota;
      (eapply pbind_inr; [reflexivity|]); (eapply pbind_inr; [exact HX|]);
      (eapply pbind_inr; [reflexivity|]); (eapply pbind_inr; [reflexivity|]);
      (eapply pbind_inr; [reflexivity|]); reflexivity
    | cbn; by rewrite ?app_nil_r ]).
Qed.
End Iter.

Lemma iter_observe c outs (e f : bool) :
  let evs := data_events c outs ++ (if e then [WPost FwFinish] else []) ++
             [WNotifyOne (rc c)] ++ (if f then [WWait (rc c)] else []) in
  w_copies evs = outs /\ w_pushes evs = map length outs /\
  cnt is_finish evs = (if e then 1 else 0).
Proof.
  cbn zeta. destruct (data_events_observe c outs) as (H1 & H2 & H3).
  unfold w_copies, w_pushes in *. rewrite !omap_app, !cnt_app, H1, H2, H3.
  destruct e, f; cbn; rewrite ?app_nil_r; auto.
Qed.

Lemma cw_loop_next feed c fuel (s s1 s2 : cworker D) ev1 r ev2 :
  w_readOffset (cw_base s) < w_fileLength (cw_base s) ->
  cw_iter feed c s = (inr tt, s1, ev1) -> cw_loop fuel feed c s1 = (r, s2, ev2) ->
  cw_loop (S fuel) feed c s = (r, s2, ev1 ++ ev2).
Proof.
  intros Hlt H1 H2. change (ev1 ++ ev2) with ([] ++ (ev1 ++ ev2)).
  cbn [cw_loop]. eapply pbind_inr; [reflexivity|]. cbv beta.
  rewrite (proj2 (Nat.ltb_lt _ _) Hlt). eapply pbind_inr; eassumption.
Qed.

Lemma cw_loop_stop feed c fuel (s : cworker D) :
  w_fileLength (cw_base s) <= w_readOffset (cw_base s) ->
  cw_loop (S fuel) feed c s = (inr tt, s, []).
Proof.
  intros Hge. cbn [cw_loop]. change (@nil w_event) with (@nil w_event ++ []).
  eapply pbind_inr; [reflexivity|]. cbv beta. rewrite (proj2 (Nat.ltb_ge _ _) Hge).
  reflexivity.
Qed.

(** The announced sizes of a trace fit [k] and are the copies' lengths. *)
Definition sizes_ok (k : nat) (evs : list w_event) : Prop :=
  Forall (fun n => n <= k) (w_pushes evs) /\ w_pushes evs = map length (w_copies evs).

Lemma sizes_ok_app k l1 l2 : sizes_ok k l1 -> sizes_ok k l2 -> sizes_ok k (l1 ++ l2).
Proof.
  intros [H1 E1] [H2 E2]. split; rewrite ?w_pushes_app, ?w_copies_app.
  - by apply Forall_app.
  - by rewrite E1, E2, fmap_app.
Qed.

Lemma sizes_ok_iter c outs (e f : bool) k :
  Forall (fun o : list Byte.byte => length o <= k) outs ->
  sizes_ok k (data_events c outs ++ (if e then [WPost FwFinish] else []) ++
              [WNotifyOne (rc c)] ++ (if f then [WWait (rc c)] else [])).
Proof.
  intros Hf. destruct (iter_observe c outs e f) as (Ho1 & Ho2 & _).
  split; rewrite Ho2; [by apply Forall_fmap | by rewrite Ho1].
Qed.

Lemma cw_loop_spec feed c fuel (s : cworker D) cs d :
  cw_deflator s = Some d -> deflate_ended d = false ->
  0 < w_readBufferSize (cw_base s) ->
  deflate_chunkSize d <= length (w_writeBuffer (cw_base s)) ->
  chunks fuel (w_fileLength (cw_base s)) (w_readBufferSize (cw_base s))
    (w_readOffset (cw_base s)) = Some cs ->
  w_readOffset (cw_base s) + sum_list cs = w_fileLength (cw_base s) ->
  Forall (fun n => 0 < n) cs -> cs <> [] ->
  exists s' evs, cw_loop fuel feed c s = (inr tt, s', evs) /\
    w_status (cw_base s') = w_status (cw_base s) /\
    w_readOffset (cw_base s') = w_fileLength (cw_base s) /\
    concat (w_copies evs) =
      concat (deflate_feed d (flag_last (reads feed (w_readOffset (cw_base s)) cs))) /\
    sizes_ok (deflate_chunkSize d) evs /\ cnt is_finish evs = 1.
Proof.
  revert s cs d. induction fuel as [|fuel IH]; intros s cs d Hd He HC Hfit Hcs Hsum Hpos Hne;
    [done|].
  set (b := cw_base s) in *. set (n := chunk_size (w_fileLength b) (w_readBufferSize b)
                                       (w_readOffset b)).
  cbn [chunks] in Hcs. destruct (Nat.ltb_spec (w_readOffset b) (w_fileLength b)) as [Hlt|Hge];
    [|injection Hcs as <-; done].
  apply bind_Some in Hcs as (cs' & Hcs' & Hc). injection Hc as <-. fold n in Hcs'.
  apply Forall_cons in Hpos as [Hn Hpos]. cbn in Hsum.
  destruct (deflate_push d (take n (feed (w_readOffset b))) (w_fileLength b <=? w_readOffset b + n))
    as [[d' outs] e] eqn:Hpush.
  destruct (deflate_push_end _ _ _ _ _ _ He Hpush) as [-> He'].
  pose proof (deflate_push_chunkSize _ _ _ _ _ _ Hpush) as Hcs_d.
  pose proof (sizes_ok_iter c outs (w_fileLength b <=? w_readOffset b + n)
                (w_readOffset b + n <? w_fileLength b) _ (deflate_push_fits _ _ _ _ _ _ Hpush))
    as Hok.
  destruct (cw_iter_spec feed c s d d' outs _ Hd Hpush Hfit) as (X & Hiter & HlX).
  fold b n in Hiter, HlX.
  destruct (iter_observe c outs (w_fileLength b <=? w_readOffset b + n)
              (w_readOffset b + n <? w_fileLength b)) as (Ho1 & _ & Ho3).
  cbn [reads].
  destruct cs' as [|n' cs''].
  - (* the last chunk: the loop stops after it *)
    destruct fuel as [|fuel']; [done|].
    rewrite (proj2 (Nat.leb_le _ _)) in Hpush, Hok, Ho1, Ho3, Hiter by (cbn in Hsum; lia).
    eexists _, _. split; [eapply cw_loop_next; [exact Hlt | exact Hiter | apply cw_loop_stop]|].
    { cbn in Hsum |- *. lia. }
    split_and!; [reflexivity | cbn in Hsum |- *; lia | | | ].
    + rewrite w_copies_app, Ho1. cbn -[deflate_push]. fold b n. rewrite Hpush.
      cbn. by rewrite !app_nil_r.
    + rewrite app_nil_r. exact Hok.
    + by rewrite cnt_app, Ho3.
  - (* more chunks follow *)
    apply Forall_cons in Hpos as Hpos'. destruct Hpos' as [Hn' _].
    rewrite (proj2 (Nat.leb_gt _ _)) in Hpush, Hok, Ho1, Ho3, Hiter, He' by (cbn in Hsum; lia).
    destruct (IH (CWorker (set_readOffset (w_readOffset b + n) (set_wbuffer X b)) (Some d'))
                 (n' :: cs'') d') as (s' & evs & Hrun & Hst & Hoff & Hcp & Hsz & Hfi);
      [done | done | done | cbn; rewrite HlX, Hcs_d; lia | exact Hcs' | cbn in *; lia
      | done | done |].
    eexists s', _. split; [exact (cw_loop_next _ _ _ _ _ _ _ _ _ Hlt Hiter Hrun)|].
    cbn [cw_base set_readOffset set_wbuffer w_status w_readOffset w_fileLength] in *.
    split_and!; [done | done | | | ].
    + rewrite w_copies_app, concat_app, Ho1, Hcp. cbn [reads].
      rewrite flag_last_cons. cbn -[flag_last deflate_push].
      fold b n. rewrite Hpush. cbn -[flag_last]. by rewrite concat_app.
    + apply sizes_ok_app; [exact Hok | by rewrite <- Hcs_d].
    + by rewrite cnt_app, Ho3, Hfi.
Qed.
End CwProofs.

Section CwClaims.
Context {D : Type} `{DeflaterLaws D}.

Lemma cw_push_start (s : cworker D) :
  w_status (cw_base s) = WINITED \/ w_status (cw_base s) = WWORKING ->
  lift (match w_status (cw_base s) with
        | WINITED => w <- pget;; pput (set_wstatus WWORKING w)
        | WWORKING => pret tt
        | st => pthrow (WUnexpectedState st)
        end) s = (inr tt, CWorker (set_wstatus WWORKING (cw_base s)) (cw_deflator s), []).
Proof.
  destruct s as [[[] ? ? ? ? ? ? ? ?] ?]; cbn; intros [Hs|Hs]; try discriminate; reflexivity.
Qed.

(** C17. Against any lawful codec: from [INITED] or [WORKING] at read
    offset 0, with a positive read size, a fresh codec whose
    [chunkSize] fits the write region, a non-empty input and enough
    fuel, the compress worker's ["push"] handler returns at the end of
    the input; the bytes it hands to the main thread are the codec's
    output for the whole input it read, in order, each announced
    chunk fits the region and is announced with its own length, and
    ["finish"] is posted exactly once. *)
Theorem compress_worker_stream fuel feed (s : cworker D) c k :
  w_status (cw_base s) = WINITED \/ w_status (cw_base s) = WWORKING ->
  w_cells (cw_base s) = Some c -> w_readOffset (cw_base s) = 0 ->
  0 < w_readBufferSize (cw_base s) ->
  cw_deflator s = Some (deflate_new k) -> 0 < k -> k <= length (w_writeBuffer (cw_base s)) ->
  0 < w_fileLength (cw_base s) ->
  w_fileLength (cw_base s) / w_readBufferSize (cw_base s) + 1 < fuel ->
  exists s' evs, cw_push fuel feed s = (inr tt, s', evs) /\
    w_status (cw_base s') = WWORKING /\
    w_readOffset (cw_base s') = w_fileLength (cw_base s) /\
    concat (w_copies evs) =
      deflate_spec (concat (reads feed 0 (expected_chunks (w_fileLength (cw_base s))
                                                          (w_readBufferSize (cw_base s))))) /\
    Forall (fun n => n <= k) (w_pushes evs) /\
    w_pushes evs = map length (w_copies evs) /\ cnt is_finish evs = 1.
Proof.
  intros Hst Hc Hoff HC Hd Hk Hkw HL Hf.
  set (b := cw_base s) in *. set (L := w_fileLength b) in *. set (C := w_readBufferSize b) in *.
  pose proof (chunks_from L C 0 fuel HC ltac:(lia) ltac:(lia)) as Hch.
  rewrite Nat.mul_0_l, Nat.sub_0_r in Hch.
  pose proof (expected_chunks_sum L C HC) as Hsum.
  assert (Hne : expected_chunks L C <> []) by (intros Hn; rewrite Hn in Hsum; cbn in Hsum; lia).
  set (s1 := CWorker (set_wstatus WWORKING b) (cw_deflator s)).
  destruct (cw_loop_spec feed c fuel s1 (expected_chunks L C) (deflate_new k))
    as (s' & evs & Hrun & Hst' & Ho' & Hcp & [Hpu Hpl] & Hfi);
    [exact Hd | apply deflate_new_ended | exact HC | by rewrite deflate_new_chunkSize
    | cbn; rewrite Hoff; exact Hch | cbn; lia
    | eapply Forall_impl; [apply expected_chunks_fit, HC | cbn; lia] | exact Hne |].
  cbn [s1 cw_base set_wstatus w_status w_readOffset w_fileLength] in Hst', Ho', Hcp.
  rewrite Hoff, deflate_stream in Hcp;
    [| exact Hk | destruct (expected_chunks L C); [done | discriminate]].
  rewrite deflate_new_chunkSize in Hpu.
  exists (CWorker (cw_base s') (cw_deflator s')),
    ([] ++ ([] ++ ([] ++ ([WAcquire (rl c)] ++ (evs ++ [WRelease (rl c)]))))).
  split.
  { unfold cw_push. eapply pbind_inr; [reflexivity|]. cbv beta.
    eapply pbind_inr; [by apply cw_push_start|].
    eapply pbind_inr; [reflexivity|]. cbv beta. cbn [cw_base set_wstatus w_cells].
    fold b. rewrite Hc.
    eapply pbind_inr; [reflexivity|]. eapply pbind_inr; [exact Hrun | reflexivity]. }
  rewrite !app_nil_l. split_and!; [done | done | | | |].
  - rewrite !w_copies_app, !concat_app, Hcp. cbn. by rewrite app_nil_r.
  - rewrite !w_pushes_app. cbn. rewrite app_nil_r. exact Hpu.
  - rewrite !w_pushes_app, !w_copies_app, Hpl. cbn. by rewrite !app_nil_r.
  - rewrite !cnt_app, Hfi. reflexivity.
Qed.

(** C24. On an empty input the compress worker takes and releases
    its read lock and does nothing else: the codec is never pushed,
    [onEnd] never runs, no ["finish"] is posted, and [done()] never
    resolves. *)
Theorem compress_empty_input fuel feed (s : cworker D) c :
  w_status (cw_base s) = WINITED \/ w_status (cw_base s) = WWORKING ->
  w_cells (cw_base s) = Some c -> w_fileLength (cw_base s) = 0 -> 0 < fuel ->
  cw_push fuel feed s =
    (inr tt, CWorker (set_wstatus WWORKING (cw_base s)) (cw_deflator s),
     [WAcquire (rl c); WRelease (rl c)]).
Proof.
  intros Hst Hc HL Hf. destruct fuel as [|fuel]; [lia|].
  change [WAcquire (rl c); WRelease (rl c)] with
    ([] ++ ([] ++ ([] ++ ([WAcquire (rl c)] ++ (([] ++ []) ++ [WRelease (rl c)]))))).
  unfold cw_push. eapply pbind_inr; [reflexivity|]. cbv beta.
  eapply pbind_inr; [by apply cw_push_start|].
  eapply pbind_inr; [reflexivity|]. cbv beta. cbn [cw_base set_wstatus w_cells].
  rewrite Hc. eapply pbind_inr; [reflexivity|].
  eapply pbind_inr.
  { cbn [cw_loop]. eapply pbind_inr; [reflexivity|]. cbv beta.
    cbn [cw_base set_wstatus w_fileLength]. rewrite HL. reflexivity. }
  reflexivity.
Qed.
End CwClaims.

(** ** Witnesses, with the stored codec *)

Definition demo_cworker : cworker stored := CWorker demo_worker (Some (deflate_new 2)).

Lemma compress_worker_stream_witness :
  exists s' evs, cw_push 4 demo_feed demo_cworker = (inr tt, s', evs) /\
    w_status (cw_base s') = WWORKING /\
    w_readOffset (cw_base s') = w_fileLength (cw_base demo_cworker) /\
    concat (w_copies evs) =
      deflate_spec (concat (reads demo_feed 0 (expected_chunks (w_fileLength (cw_base demo_cworker))
                                                   (w_readBufferSize (cw_base demo_cworker))))) /\
    Forall (fun n => n <= 2) (w_pushes evs) /\
    w_pushes evs = map length (w_copies evs) /\ cnt is_finish evs = 1.
Proof.
  apply (compress_worker_stream 4 demo_feed demo_cworker demo_cells 2);
    first [left; reflexivity | reflexivity | cbn; lia | vm_compute; lia].
Defined.

Definition demo_empty_cworker : cworker stored :=
  CWorker (Worker WINITED 2 2 0 0 (Some ProxyWriteRegion) (Some ProxyReadRegion)
                  [Byte.x00; Byte.x00] (Some demo_cells))
          (Some (deflate_new 2)).

Lemma compress_empty_input_witness :
  cw_push 1 demo_feed demo_empty_cworker =
    (inr tt, CWorker (set_wstatus WWORKING (cw_base demo_empty_cworker))
                     (cw_deflator demo_empty_cworker),
     [WAcquire (rl demo_cells); WRelease (rl demo_cells)]).
Proof. apply compress_empty_input; first [left; reflexivity | reflexivity | lia]. Defined.
