(* ===== verification/Pipeline.v ===== *)
(** * The data path through the plain worker

    [Worker.v] gives the worker's ["push"] handler as a trace of
    events, [Proxy.v] the main thread's handlers.  Here the main thread
    consumes the worker's trace: every copy into the shared region is
    what the proxy's [readBuffer] holds, and every [postMessage]
    reaches [WorkerProxy.__onMessage] in order.  Handling each message
    against the region as the worker left it when posting is what the
    lock protocol guarantees: after its ["push"] message the worker
    blocks in [writeCond.wait()] until [onReceived] has copied the data
    and called [notifyOne] (lib.ts 359-360, 224-234).

    The region the worker reads at offset [o] is the proxy's write
    region after [push] copied [take C (drop o ab)] to its front
    ([proxy_region]); the bytes behind the copy are whatever the region
    held before. *)

From S2P Require Import Prelude Monad Int32 Chunking Proxy Worker.

Local Open Scope handler_scope.

Definition set_readBuffer (b : list Byte.byte) (p : proxy) : proxy :=
  Proxy (px_ab p) (px_opts p) (px_writeBuffer p) b (px_targets p) (px_status p)
        (px_offset p) (px_onProgress p) (px_doneSet p).

(** The main thread's view of one event of the worker. *)
Definition deliver_one (fuel : nat) (e : w_event) : PM unit :=
  match e with
  | WCopy d => p <- pget;; pput (set_readBuffer (d ++ drop (length d) (px_readBuffer p)) p)
  | WPost m => onMessage fuel m
  | _ => pret tt
  end.

Fixpoint deliver (fuel : nat) (evs : list w_event) : PM unit :=
  match evs with
  | [] => pret tt
  | e :: evs' => deliver_one fuel e;; deliver fuel evs'
  end.

(** The proxy's write region, seen by the worker at read offset [o]. *)
Definition proxy_region (ab : list Byte.byte) (C : nat) (junk : nat -> list Byte.byte)
    (o : nat) : list Byte.byte :=
  take C (drop o ab) ++ junk o.

(** The results [done()] was resolved with. *)
Definition resolved (pevs : list px_event) : list (list (list Byte.byte)) :=
  omap (fun e => match e with PxResolve r => Some r | _ => None end) pevs.

Lemma deliver_app fuel e1 e2 p p1 ev1 r p2 ev2 :
  deliver fuel e1 p = (inr tt, p1, ev1) -> deliver fuel e2 p1 = (r, p2, ev2) ->
  deliver fuel (e1 ++ e2) p = (r, p2, ev1 ++ ev2).
Proof.
  revert p ev1. induction e1 as [|e e1 IH]; intros p ev1 H1 H2.
  - injection H1 as -> <-. exact H2.
  - cbn [deliver app] in *. unfold pbind in H1 |- *.
    destruct (deliver_one fuel e p) as [[[err|[]] q] evq]; [discriminate|].
    destruct (deliver fuel e1 q) as [[r1 q1] ev1'] eqn:He. injection H1 as -> -> <-.
    rewrite (IH q ev1' He H2). by rewrite app_assoc.
Qed.

Lemma deliver_chunk fuel feed c C L off n p :
  px_status p = WORKING -> n <= readBufferSize (px_opts p) ->
  length (take n (feed off)) = n ->
  exists pevs, deliver fuel (chunk_events feed c C L off n) p =
    (inr tt,
     (if n <? C then set_status FINISHED else fun q => q)
       (set_targets (px_targets p ++ [take n (feed off)])
          (set_readBuffer (take n (feed off) ++ drop n (px_readBuffer p)) p)), pevs) /\
    resolved pevs = (if (n <? C) && px_doneSet p then [px_targets p ++ [take n (feed off)]] else []).
Proof.
  intros Hs Hn Hl. destruct p as [ab opts wb rb tg st o pr ds].
  cbn [px_status px_opts px_readBuffer px_targets px_doneSet] in *; subst st.
  unfold chunk_events.
  destruct (n <? C), (off + n <? L), pr, ds;
    cbn [app deliver deliver_one onMessage]; unfold onReceived, onFinished; unfold_monad;
    cbn -[Nat.ltb take drop progress_value];
    rewrite bool_decide_true by done; rewrite (proj2 (Nat.ltb_ge _ _) Hn);
    cbn -[Nat.ltb take drop progress_value]; rewrite take_app_length' by done; rewrite Hl;
    (eexists; split; [reflexivity|]); reflexivity.
Qed.

Lemma proxy_region_take ab C junk o n :
  n <= C -> o + n <= length ab -> take n (proxy_region ab C junk o) = take n (drop o ab).
Proof.
  intros HC Hl. unfold proxy_region.
  rewrite take_app_le by (rewrite length_take, length_drop; lia).
  rewrite take_take. f_equal. lia.
Qed.

Lemma reads_drop ab off cs :
  concat (reads (fun o => drop o ab) off cs) = take (sum_list cs) (drop off ab).
Proof.
  revert off. induction cs as [|n cs IH]; intros off; cbn; [done|].
  by rewrite IH, <- drop_drop, take_take_drop.
Qed.

Lemma resolved_app l1 l2 : resolved (l1 ++ l2) = resolved l1 ++ resolved l2.
Proof. apply omap_app. Qed.

Lemma deliver_loop fuel ab C junk c L cs off p :
  px_status p = WORKING ->
  Forall (fun n => n <= readBufferSize (px_opts p) /\ n <= C) cs ->
  off + sum_list cs <= length ab -> Forall (fun n => C <= n) (removelast cs) ->
  exists p' pevs,
    deliver fuel (loop_events (proxy_region ab C junk) c C L off cs) p = (inr tt, p', pevs) /\
    px_targets p' = px_targets p ++ reads (fun o => drop o ab) off cs /\
    px_status p' = (if existsb (fun n => n <? C) cs then FINISHED else WORKING) /\
    resolved pevs =
      (if existsb (fun n => n <? C) cs && px_doneSet p then [px_targets p'] else []) /\
    px_opts p' = px_opts p /\ px_doneSet p' = px_doneSet p.
Proof.
  revert off p. induction cs as [|n cs IH]; intros off p Hs Hf Hl Hfull.
  { exists p, []. split_and!; cbn; rewrite ?app_nil_r; done. }
  apply Forall_cons in Hf as [[Hnr HnC] Hf]. cbn in Hl.
  pose proof (proxy_region_take ab C junk off n HnC ltac:(lia)) as Ht.
  destruct (deliver_chunk fuel (proxy_region ab C junk) c C L off n p Hs Hnr
              ltac:(rewrite Ht, length_take, length_drop; lia)) as (pevs1 & Hd1 & Hr1).
  rewrite Ht in Hd1, Hr1. cbn [loop_events reads existsb].
  destruct (Nat.ltb_spec n C) as [Hlt|Hge].
  - (* a short chunk is the last one *)
    destruct cs as [|n' cs']; [|cbn in Hfull; apply Forall_cons in Hfull as [? _]; lia].
    eexists _, (pevs1 ++ []). split_and!.
    + apply (deliver_app _ _ _ _ _ _ _ _ _ Hd1). reflexivity.
    + reflexivity.
    + reflexivity.
    + rewrite resolved_app, Hr1, app_nil_r. reflexivity.
    + reflexivity.
    + reflexivity.
  - destruct (IH (off + n) (set_targets (px_targets p ++ [take n (drop off ab)])
                 (set_readBuffer (take n (drop off ab) ++ drop n (px_readBuffer p)) p)))
      as (p' & pevs2 & Hd2 & Ht2 & Hs2 & Hr2 & Ho2 & Hds2); cbn -[removelast];
      [done | done | lia | destruct cs; [done|]; by apply Forall_cons in Hfull as [_ ?] |].
    exists p', (pevs1 ++ pevs2). cbn in Ht2, Ho2, Hds2. split_and!.
    + exact (deliver_app _ _ _ _ _ _ _ _ _ Hd1 Hd2).
    + rewrite Ht2, <- app_assoc. reflexivity.
    + exact Hs2.
    + rewrite resolved_app, Hr1, Hr2. reflexivity.
    + exact Ho2.
    + exact Hds2.
Qed.

(** C14. Round trip through the plain worker: from a [WORKING] proxy
    with no output yet, a read region at least as large as the write
    region, and a worker initialised by the mirrored ["init"], the
    worker's ["push"] handler reads what the proxy wrote, and the main
    thread, handling its messages in order, collects buffers whose
    concatenation is exactly the input.  The transfer ends with
    [FINISHED] and [done()] resolved with those buffers only when the
    input length is not a multiple of [writeBufferSize]; otherwise the
    proxy stays [WORKING] and [done()] stays pending. *)
Theorem plain_round_trip fuel fuel' junk p w c :
  px_status p = WORKING -> px_targets p = [] ->
  0 < writeBufferSize (px_opts p) -> writeBufferSize (px_opts p) <= readBufferSize (px_opts p) ->
  w_status w = WINITED \/ w_status w = WWORKING -> w_cells w = Some c -> w_readOffset w = 0 ->
  w_readBufferSize w = writeBufferSize (px_opts p) -> w_fileLength w = length (px_ab p) ->
  length (w_writeBuffer w) = readBufferSize (px_opts p) ->
  length (px_ab p) / writeBufferSize (px_opts p) + 1 < fuel ->
  exists w' evs p' pevs,
    ftw_push fuel (proxy_region (px_ab p) (writeBufferSize (px_opts p)) junk) w =
      (inr tt, w', evs) /\
    deliver fuel' evs p = (inr tt, p', pevs) /\
    concat (px_targets p') = px_ab p /\
    px_status p' =
      (if length (px_ab p) mod writeBufferSize (px_opts p) =? 0 then WORKING else FINISHED) /\
    resolved pevs =
      (if px_doneSet p && negb (length (px_ab p) mod writeBufferSize (px_opts p) =? 0)
       then [px_targets p'] else []).
Proof.
  intros Hs Ht HC HCr Hws Hc Hoff HwC HwL Hwb Hf.
  set (C := writeBufferSize (px_opts p)) in *. set (L := length (px_ab p)) in *.
  destruct (ftw_push_run fuel (proxy_region (px_ab p) C junk) w c Hws Hc Hoff
              ltac:(lia) ltac:(lia) ltac:(rewrite HwC, HwL; exact Hf)) as (w' & Hrun & _).
  rewrite HwC, HwL in Hrun.
  set (cs := expected_chunks L C) in *.
  pose proof (expected_chunks_sum L C HC : sum_list cs = L) as Hsum.
  pose proof (expected_chunks_short L C HC : cnt _ cs = _) as Hshort.
  destruct (deliver_loop fuel' (px_ab p) C junk c L cs 0 p Hs)
    as (p' & pevs & Hd & Ht' & Hs' & Hr' & _ & _);
    [ eapply Forall_impl; [apply expected_chunks_fit, HC | cbn; lia]
    | lia | apply expected_chunks_full |].
  eexists w', _, p', ([] ++ (pevs ++ [])). split_and!.
  - exact Hrun.
  - eapply deliver_app; [reflexivity|]. eapply deliver_app; [exact Hd | reflexivity].
  - rewrite Ht', Ht, app_nil_l, reads_drop, Hsum. cbn. apply take_ge. lia.
  - rewrite Hs', existsb_cnt, Hshort. by destruct (L mod C =? 0).
  - rewrite app_nil_l, app_nil_r, Hr', existsb_cnt, Hshort.
    by destruct (L mod C =? 0), (px_doneSet p).
Qed.

(** ** Witness *)

Definition demo_pipeline_proxy : proxy :=
  set_status WORKING (new_proxy (TaskConf 2 2) [Byte.x01; Byte.x02; Byte.x03; Byte.x04; Byte.x05]).

Lemma plain_round_trip_witness :
  exists w' evs p' pevs,
    ftw_push 4 (proxy_region (px_ab demo_pipeline_proxy) 2 (fun _ => [])) demo_worker =
      (inr tt, w', evs) /\
    deliver 0 evs demo_pipeline_proxy = (inr tt, p', pevs) /\
    concat (px_targets p') = px_ab demo_pipeline_proxy /\
    px_status p' =
      (if length (px_ab demo_pipeline_proxy) mod writeBufferSize (px_opts demo_pipeline_proxy) =? 0
       then WORKING else FINISHED) /\
    resolved pevs =
      (if px_doneSet demo_pipeline_proxy &&
          negb (length (px_ab demo_pipeline_proxy) mod writeBufferSize (px_opts demo_pipeline_proxy) =? 0)
       then [px_targets p'] else []).
Proof.
  apply (plain_round_trip 4 0 (fun _ => []) demo_pipeline_proxy demo_worker demo_cells);
    first [left; reflexivity | reflexivity | cbn; lia | vm_compute; lia].
Defined.
