(* ===== verification/Handshake.v ===== *)
(** * The main thread and the worker, interleaved

    [Proxy.v] and [Worker.v] give each side of a transfer as a
    sequential handler, and [Pipeline.v] runs them one after the other.
    Here they run at the same time, as they do in the browser: the
    main thread's [push()] task (lib.ts 166-211), one [onReceived]
    task per ["push"] message (213-236), its message loop
    ([__onMessage], 141-159) and the worker's ["push"] handler
    (327-376) are agents that take one step at a time in any order.

    The shared state is the one the code shares:
    - the lock buffer [__lockSab], one [shmem] of eight cells; the
      read pair (cells 0 and 2 of the main thread's [READ_LOCK] and
      [READ_COND]) and the write pair (cells 4 and 6) each have their
      own table of agents, and each lock or condition operation is a
      step [Sync.tstep] of its pair;
    - the two data regions, the main thread's [__writeBuffer] (the
      worker's [__readBuffer]) and [__readBuffer] (the worker's
      [__writeBuffer]): the fields [px_writeBuffer] and [px_readBuffer]
      of the proxy, which the worker reads and writes in place;
    - the two message queues of [postMessage].

    An agent's program point ([mpc], [wpc], [rpc]) is the statement it
    runs once its current lock or condition call has returned; the call
    itself runs as steps [HRunR]/[HRunW] of its pair.  A statement that
    touches no shared state is merged with the next one that does.  The
    main thread's tasks interleave at every step, not only at their
    [await]s: every run of the browser is a run of the model.  The
    progress callback and logging are not modelled; [hs_done] is the
    value [done()] resolved with. *)

From S2P Require Import Prelude Monad Int32 Atomics Lock Cond Sync Phase Chunking Proxy Worker Pipeline.

Local Open Scope handler_scope.

(** ** Program points *)

(** [push()] on the main thread. *)
Inductive mpc :=
  | MpIdle     (** not called yet *)
  | MpTest     (** the [while] test and the ["push"] post (lib.ts 183-189) *)
  | MpCopy     (** [writeSize], the view and the copy (191-204) *)
  | MpNotify   (** [writeCond.notifyOne()] (205) *)
  | MpWait     (** [writeCond.asyncWait()] (206) *)
  | MpDone     (** returned after [writeLock.unlock()] (209) *)
  | MpThrown.  (** threw (176-178, 198-200) *)

(** The worker's ["push"] handler; [n] is [readLength]. *)
Inductive wpc :=
  | WkIdle           (** waiting for the ["push"] message *)
  | WkTest           (** the [while] test, [readLength] and [writeLock.lock()] (340-352) *)
  | WkCopy (n : nat)     (** [writeView.set(readView)] (353-358) *)
  | WkPost (n : nat)     (** [postMessage(["push", n])], [writeCond.wait()] (359-360) *)
  | WkUnlock (n : nat)   (** [writeLock.unlock()] (361) *)
  | WkFinish (n : nat)   (** the ["finish"] post and [readCond.notifyOne()] (362-366) *)
  | WkWait (n : nat)     (** [readCond.wait()] unless at the end (367-369) *)
  | WkAdvance (n : nat)  (** [readOffset += readLength] (371) *)
  | WkDone           (** returned after [readLock.unlock()] (373) *)
  | WkThrown.        (** threw (333-336, or a [RangeError] at 353-357) *)

(** An [onReceived(size)] task. *)
Inductive rpc :=
  | RtCheck (size : nat)  (** after [asyncLock]: the status and size tests and the copy (216-234) *)
  | RtUnlock              (** [readLock.unlock()] (235) *)
  | RtDone
  | RtReturned            (** returned at 217, the lock still held *)
  | RtThrown.             (** threw at 220, the lock still held *)

#[export] Instance mpc_eq_dec : EqDecision mpc.
Proof. solve_decision. Defined.
#[export] Instance wpc_eq_dec : EqDecision wpc.
Proof. solve_decision. Defined.
#[export] Instance rpc_eq_dec : EqDecision rpc.
Proof. solve_decision. Defined.
#[export] Instance wcells_eq_dec : EqDecision wcells.
Proof. solve_decision. Defined.
#[export] Instance to_worker_eq_dec : EqDecision to_worker.
Proof. solve_decision. Defined.
#[export] Instance from_worker_eq_dec : EqDecision from_worker.
Proof. solve_decision. Defined.

(** ** The state *)

(** Agents: in the write pair the worker is 0 and [push()] is 1; in
    the read pair the worker is 0 and the [k]-th [onReceived] task is
    [S k]. *)
Record hs := HS {
  hs_mem : shmem;                      (** [__lockSab] *)
  hs_rpcs : list tpc;                  (** the agents of the read pair *)
  hs_wpcs : list tpc;                  (** the agents of the write pair *)
  hs_px : proxy;                       (** the [WorkerProxy] and the two regions *)
  hs_mp : mpc;
  hs_tasks : list rpc;
  hs_toMain : list from_worker;        (** messages to the main thread *)
  hs_w : worker;                       (** the [FileTranformingWorker] *)
  hs_wp : wpc;
  hs_toWorker : list to_worker;        (** messages to the worker *)
  hs_done : option (list (list Byte.byte))
}.

Definition W_WORKER : nat := 0.
Definition W_PUSH : nat := 1.
Definition R_WORKER : nat := 0.

Section Updates.
Context (s : hs).
Definition with_rpair (m : shmem) (pcs : list tpc) : hs :=
  HS m pcs (hs_wpcs s) (hs_px s) (hs_mp s) (hs_tasks s) (hs_toMain s) (hs_w s) (hs_wp s)
     (hs_toWorker s) (hs_done s).
Definition with_wpair (m : shmem) (pcs : list tpc) : hs :=
  HS m (hs_rpcs s) pcs (hs_px s) (hs_mp s) (hs_tasks s) (hs_toMain s) (hs_w s) (hs_wp s)
     (hs_toWorker s) (hs_done s).
Definition with_main (px : proxy) (mp : mpc) (tasks : list rpc) (toMain : list from_worker)
    (toWorker : list to_worker) (d : option (list (list Byte.byte))) : hs :=
  HS (hs_mem s) (hs_rpcs s) (hs_wpcs s) px mp tasks toMain (hs_w s) (hs_wp s) toWorker d.
Definition with_worker (px : proxy) (w : worker) (wp : wpc) (toMain : list from_worker)
    (toWorker : list to_worker) : hs :=
  HS (hs_mem s) (hs_rpcs s) (hs_wpcs s) px (hs_mp s) (hs_tasks s) toMain w wp toWorker (hs_done s).
End Updates.

(** A lock or condition operation of agent [t] on one pair. *)
Definition rcall (t : nat) (a : act) (s : hs) : option hs :=
  s' ← tstep READ_LOCK READ_COND t a (Sys (hs_mem s) (hs_rpcs s));
  Some (with_rpair s (sys_mem s') (sys_pcs s')).

Definition wcall (t : nat) (a : act) (s : hs) : option hs :=
  s' ← tstep WRITE_LOCK WRITE_COND t a (Sys (hs_mem s) (hs_wpcs s));
  Some (with_wpair s (sys_mem s') (sys_pcs s')).

(** ** The main thread *)

(** The next statement of [push()], run when its last call has
    returned ([push_step]). *)
Definition push_body (s : hs) : option hs :=
  let p := hs_px s in
  match hs_mp s with
  | MpTest =>
      if px_offset p <? length (px_ab p)
      then Some (with_main s p MpCopy (hs_tasks s) (hs_toMain s)
                   (hs_toWorker s ++ if px_offset p =? 0 then [MsgPush] else []) (hs_done s))
      else wcall W_PUSH AUnlock (with_main s p MpDone (hs_tasks s) (hs_toMain s) (hs_toWorker s) (hs_done s))
  | MpCopy =>
      let view := push_view p in
      if length (px_writeBuffer p) <? length view
      then Some (with_main s p MpThrown (hs_tasks s) (hs_toMain s) (hs_toWorker s) (hs_done s))
      else Some (with_main s (set_offset (px_offset p + write_size p)
                                (set_writeBuffer (view ++ drop (length view) (px_writeBuffer p)) p))
                   MpNotify (hs_tasks s) (hs_toMain s) (hs_toWorker s) (hs_done s))
  | MpNotify =>
      wcall W_PUSH (ANotify false) (with_main s p MpWait (hs_tasks s) (hs_toMain s) (hs_toWorker s) (hs_done s))
  | MpWait =>
      wcall W_PUSH AWait (with_main s p MpTest (hs_tasks s) (hs_toMain s) (hs_toWorker s) (hs_done s))
  | _ => None
  end.

Definition push_step (s : hs) : option hs :=
  q ← hs_wpcs s !! W_PUSH;
  if negb (at_rest q) then None else push_body s.

(** The next statement of the [k]-th [onReceived] task. *)
Definition task_body (k : nat) (s : hs) : option hs :=
  let p := hs_px s in
  r ← hs_tasks s !! k;
  match r with
  | RtCheck size =>
      if negb (bool_decide (px_status p = WORKING))
      then Some (with_main s p (hs_mp s) (<[k:=RtReturned]> (hs_tasks s)) (hs_toMain s) (hs_toWorker s) (hs_done s))
      else if readBufferSize (px_opts p) <? size
      then Some (with_main s p (hs_mp s) (<[k:=RtThrown]> (hs_tasks s)) (hs_toMain s) (hs_toWorker s) (hs_done s))
      else rcall (S k) (ANotify false)
             (with_main s (set_targets (px_targets p ++ [take size (px_readBuffer p)]) p)
                (hs_mp s) (<[k:=RtUnlock]> (hs_tasks s)) (hs_toMain s) (hs_toWorker s) (hs_done s))
  | RtUnlock =>
      rcall (S k) AUnlock
        (with_main s p (hs_mp s) (<[k:=RtDone]> (hs_tasks s)) (hs_toMain s) (hs_toWorker s) (hs_done s))
  | _ => None
  end.

Definition task_step (k : nat) (s : hs) : option hs :=
  q ← hs_rpcs s !! S k;
  if negb (at_rest q) then None else task_body k s.

(** [__onMessage] on the next message from the worker.  ["inited"]
    runs [onInited]: the status, then [push()] up to its [asyncLock];
    ["push"] starts a new [onReceived] task, which first calls
    [asyncLock]; the other messages run their handler of [Proxy.v]
    to completion. *)
Definition main_step (s : hs) : option hs :=
  let p := hs_px s in
  match hs_toMain s with
  | [] => None
  | FwInited :: rest =>
      if bool_decide (hs_mp s = MpIdle) then
        let '(r, p', _) := push_start (set_status INITED p) in
        match r with
        | inl _ => Some (with_main s p' MpThrown (hs_tasks s) rest (hs_toWorker s) (hs_done s))
        | inr _ => wcall W_PUSH ALock (with_main s p' MpTest (hs_tasks s) rest (hs_toWorker s) (hs_done s))
        end
      else None
  | FwPush size :: rest =>
      let k := length (hs_tasks s) in
      let s1 := with_rpair s (hs_mem s) (hs_rpcs s ++ [Idle]) in
      rcall (S k) ALock
        (with_main s1 p (hs_mp s) (hs_tasks s ++ [RtCheck (default (readBufferSize (px_opts p)) size)])
           rest (hs_toWorker s) (hs_done s))
  | m :: rest =>
      let '(_, p', evs) := onMessage 0 m p in
      Some (with_main s p' (hs_mp s) (hs_tasks s) rest (hs_toWorker s)
              (match resolved evs with r :: _ => Some r | [] => hs_done s end))
  end.

(** ** The worker *)

(** The next statement of the worker's ["push"] handler.  The copy
    reads the main thread's write region and writes its read region,
    both in place. *)
Definition worker_body (s : hs) : option hs :=
  let w := hs_w s in
  let p := hs_px s in
  match hs_wp s with
  | WkIdle =>
      match hs_toWorker s with
      | MsgPush :: rest =>
          match w_status w with
          | WINITED | WWORKING =>
              wcall W_WORKER ALock (with_worker s p (set_wstatus WWORKING w) WkTest (hs_toMain s) rest)
          | _ => Some (with_worker s p w WkThrown (hs_toMain s) rest)
          end
      | _ => None
      end
  | WkTest =>
      if w_readOffset w <? w_fileLength w
      then rcall R_WORKER ALock
             (with_worker s p w (WkCopy (chunk_size (w_fileLength w) (w_readBufferSize w) (w_readOffset w)))
                (hs_toMain s) (hs_toWorker s))
      else wcall W_WORKER AUnlock (with_worker s p w WkDone (hs_toMain s) (hs_toWorker s))
  | WkCopy n =>
      if length (px_readBuffer p) <? n
      then Some (with_worker s p w WkThrown (hs_toMain s) (hs_toWorker s))
      else let data := take n (px_writeBuffer p) in
           Some (with_worker s (set_readBuffer (data ++ drop (length data) (px_readBuffer p)) p) w
                   (WkPost n) (hs_toMain s) (hs_toWorker s))
  | WkPost n =>
      rcall R_WORKER AWait (with_worker s p w (WkUnlock n) (hs_toMain s ++ [FwPush (Some n)]) (hs_toWorker s))
  | WkUnlock n =>
      rcall R_WORKER AUnlock (with_worker s p w (WkFinish n) (hs_toMain s) (hs_toWorker s))
  | WkFinish n =>
      wcall W_WORKER (ANotify false)
        (with_worker s p w (WkWait n)
           (hs_toMain s ++ if n <? w_readBufferSize w then [FwFinish] else []) (hs_toWorker s))
  | WkWait n =>
      if w_readOffset w + n <? w_fileLength w
      then wcall W_WORKER AWait (with_worker s p w (WkAdvance n) (hs_toMain s) (hs_toWorker s))
      else Some (with_worker s p w (WkAdvance n) (hs_toMain s) (hs_toWorker s))
  | WkAdvance n =>
      Some (with_worker s p (set_readOffset (w_readOffset w + n) w) WkTest (hs_toMain s) (hs_toWorker s))
  | _ => None
  end.

Definition worker_step (s : hs) : option hs :=
  qw ← hs_wpcs s !! W_WORKER;
  qr ← hs_rpcs s !! R_WORKER;
  if negb (at_rest qw && at_rest qr) then None else worker_body s.

(** ** Steps, runs and reachable states *)

Inductive hact :=
  | HRunR (t : nat)    (** the next atomic operation of agent [t] in the read pair *)
  | HRunW (t : nat)    (** ... in the write pair *)
  | HWorker | HPush | HTask (k : nat) | HMain.

Definition hstep (a : hact) (s : hs) : option hs :=
  match a with
  | HRunR t => rcall t ARun s
  | HRunW t => wcall t ARun s
  | HWorker => worker_step s
  | HPush => push_step s
  | HTask k => task_step k s
  | HMain => main_step s
  end.

Fixpoint hrun (tr : list hact) (s : hs) : option hs :=
  match tr with
  | [] => Some s
  | a :: tr' => s' ← hstep a s; hrun tr' s'
  end.

(** The state after [App.tsx]'s [transformFile] built the proxy, sent
    the worker its ["init"] (handled by [ftw_onMessage]), registered
    the progress callback and called [done()] (lib.ts 74-129, App.tsx
    71-76): the worker's ["inited"] waits in the main thread's queue.
    The worker's four objects are those [init_mirrored] computes. *)
Definition hinit (opts : task_conf) (ab : list Byte.byte) : option hs :=
  m ← new_lock_sab;
  let '(_, p, evs) := ((initWorker;; onProgress;; done_) : PM unit) (new_proxy opts ab) in
  match evs with
  | [PxPost msg] =>
      let '(r, w, wevs) := ftw_onMessage 0 (fun _ => []) msg new_worker in
      if bool_decide (w_cells w = Some (WCells WRITE_LOCK WRITE_COND READ_LOCK READ_COND))
      then Some (HS m [Idle] [Idle; Idle] p MpIdle []
                    (omap (fun e => match e with WPost x => Some x | _ => None end) wevs)
                    w WkIdle [] None)
      else None
  | _ => None
  end.

Inductive hreachable (opts : task_conf) (ab : list Byte.byte) : hs -> Prop :=
  | hreach_init s : hinit opts ab = Some s -> hreachable opts ab s
  | hreach_step a s s' : hreachable opts ab s -> hstep a s = Some s' -> hreachable opts ab s'.
