(* ===== verification/HandshakeInv.v ===== *)
(** * The invariant of the interleaved transfer

    The handshake of [Handshake.v] is a ping-pong on each pair: on the
    write pair the main thread copies chunk [x] and notifies, the
    worker reads it and notifies back; on the read pair the worker
    copies chunk [y] and waits, the [onReceived] task of that chunk
    copies it out and notifies.  The invariant [hinv_at] counts these
    moves: [x] chunks copied by [push()], [yo] loop iterations of the
    worker done, [kc] chunks collected by the tasks.  It says where
    each agent can be for given counters, what the two sequence cells
    hold (the number of [notifyOne] additions so far, wrapped to 32
    bits), what each region holds while a chunk is in transit, and
    that the collected buffers are the first [kc] chunks of the input.
    A [wait] returns only once the sequence cell has moved past the
    value it loaded (or a [notify] took it off the waiter list), which
    happens only after the partner's copy: that is what keeps the
    regions from being overwritten before they are read. *)

From S2P Require Import Prelude Monad Int32 Atomics Lock Cond Sync Phase Chunking Proxy Worker Pipeline Handshake.

Create Rewrite HintDb hs_rw.

(** ** The chunks by index *)

Section Chunks.
Context (L C : nat).
Hypothesis HC : 0 < C.

Local Abbreviation cs := (expected_chunks L C).

Lemma ec_facts : L = C * (L / C) + L mod C /\ L mod C < C /\
  length cs = L / C + (if L mod C =? 0 then 0 else 1).
Proof.
  split_and!; [apply Nat.div_mod; lia | apply Nat.mod_upper_bound; lia |].
  unfold expected_chunks. rewrite length_app, length_replicate.
  by destruct (L mod C =? 0).
Qed.

Lemma ec_lt_iff j : j < length cs <-> j * C < L.
Proof.
  destruct ec_facts as (HL & Hr & ->). destruct (Nat.eqb_spec (L mod C) 0); nia.
Qed.

Lemma ec_lookup j : j < length cs -> cs !!! j = Nat.min C (L - j * C).
Proof.
  destruct ec_facts as (HL & Hr & Hn). rewrite Hn. intros Hj.
  unfold expected_chunks. destruct (decide (j < L / C)).
  - rewrite lookup_total_app_l by (rewrite length_replicate; lia).
    rewrite lookup_total_replicate_2 by lia. nia.
  - destruct (Nat.eqb_spec (L mod C) 0); [lia|].
    rewrite lookup_total_app_r by (rewrite length_replicate; lia).
    rewrite length_replicate. replace (j - L / C) with 0 by lia. cbn. nia.
Qed.

Lemma ec_off j : j <= length cs -> sum_list (take j cs) = Nat.min (j * C) L.
Proof.
  destruct ec_facts as (HL & Hr & Hn). rewrite Hn. intros Hj.
  unfold expected_chunks. destruct (decide (j <= L / C)).
  - rewrite take_app_le by (rewrite length_replicate; lia).
    rewrite take_replicate, sum_list_replicate.
    assert (j * C <= L / C * C) by (apply Nat.mul_le_mono_r; lia). nia.
  - destruct (Nat.eqb_spec (L mod C) 0); [lia|].
    assert (j = S (L / C)) as -> by lia.
    rewrite take_app, length_replicate, take_replicate, Nat.min_r by lia.
    replace (S (L / C) - L / C) with 1 by lia.
    rewrite sum_list_with_app, sum_list_replicate. cbn. nia.
Qed.

Lemma ec_pos j : j < length cs -> 0 < cs !!! j <= C.
Proof. intros Hj. rewrite ec_lookup by done. pose proof (proj1 (ec_lt_iff j) Hj). lia. Qed.

Lemma ec_off_S j : j < length cs -> sum_list (take (S j) cs) = sum_list (take j cs) + cs !!! j.
Proof.
  intros Hj. rewrite !ec_off, ec_lookup by lia. pose proof (proj1 (ec_lt_iff j) Hj). lia.
Qed.

Lemma ec_chunk_size j : j < length cs -> chunk_size L C (sum_list (take j cs)) = cs !!! j.
Proof.
  intros Hj. pose proof (proj1 (ec_lt_iff j) Hj) as Hlt.
  rewrite ec_off, ec_lookup by lia. rewrite Nat.min_l by lia.
  unfold chunk_size. destruct (Nat.ltb_spec L (j * C + C)); [|lia].
  destruct ec_facts as (HL & Hr & _).
  assert (L / C = j) as Hq by (symmetry; apply Nat.div_unique with (L - j * C); lia).
  rewrite Hq in HL. lia.
Qed.

Lemma ec_test j : j <= length cs -> (sum_list (take j cs) < L <-> j < length cs).
Proof. intros Hj. rewrite ec_off, ec_lt_iff by done. lia. Qed.

Lemma ec_more j : j < length cs -> (sum_list (take j cs) + cs !!! j < L <-> S j < length cs).
Proof. intros Hj. rewrite <- ec_off_S, ec_test by done. reflexivity. Qed.

Lemma ec_short j : j < length cs -> cs !!! j < C -> S j = length cs.
Proof.
  intros Hj Hs. destruct (decide (S j < length cs)) as [Hm|]; [|lia].
  apply ec_lt_iff in Hm. rewrite ec_lookup in Hs by done. lia.
Qed.

Lemma ec_off_end : sum_list (take (length cs) cs) = L.
Proof. rewrite ec_off by done. destruct ec_facts as (HL & Hr & ->). destruct (Nat.eqb_spec (L mod C) 0); nia. Qed.
End Chunks.

(** ** Counters and program points *)

(** Chunks the worker has read in its current iteration. *)
Definition wk_read (wp : wpc) : nat :=
  match wp with WkPost _ | WkUnlock _ | WkFinish _ | WkWait _ | WkAdvance _ => 1 | _ => 0 end.

(** ["push"] messages it has posted in its current iteration. *)
Definition wk_posted (wp : wpc) : nat :=
  match wp with WkUnlock _ | WkFinish _ | WkWait _ | WkAdvance _ => 1 | _ => 0 end.

(** Its [readCond.notifyOne()] additions in its current iteration. *)
Definition wk_added (wp : wpc) (ph : aphase) : nat :=
  match wp with
  | WkWait _ => if decide (ph = PhNotify false) then 0 else 1
  | WkAdvance _ => 1
  | _ => 0
  end.

(** [push()] has copied a chunk and not yet added its notification. *)
Definition mp_pending (mp : mpc) (ph : aphase) : nat :=
  match mp with
  | MpNotify => 1
  | MpWait => if decide (ph = PhNotify false) then 1 else 0
  | _ => 0
  end.

(** An [onReceived] task has added its notification. *)
Definition rt_added (r : rpc) (ph : aphase) : nat :=
  match r with
  | RtUnlock => if decide (ph = PhNotify false) then 0 else 1
  | RtDone => 1
  | _ => 0
  end.

Definition phW (s : hs) (u : nat) : aphase := aphase_of (hs_wpcs s !!! u).
Definition phR (s : hs) (u : nat) : aphase := aphase_of (hs_rpcs s !!! u).

(** The last task and its read-pair phase. *)
Definition last_task (s : hs) : option (rpc * aphase) :=
  (fun r => (r, phR s (length (hs_tasks s)))) <$> last (hs_tasks s).

(** The notifications on the read condition: one per task but the
    last, and the last's own. *)
Definition tasks_added (s : hs) : nat :=
  pred (length (hs_tasks s)) + match last_task s with Some (r, ph) => rt_added r ph | None => 0 end.
Arguments last_task : simpl never.
Arguments tasks_added : simpl never.

(** The ["push"] message to the worker has been posted. *)
Definition posted (s : hs) : bool :=
  bool_decide (hs_toWorker s = [MsgPush]) || bool_decide (hs_wp s <> WkIdle).

(** ** Where each agent can be *)

Section Configs.
Context (ab : list Byte.byte) (C : nat).

Definition hcs : list nat := expected_chunks (length ab) C.
Definition hN : nat := length hcs.
Definition hoff (j : nat) : nat := sum_list (take j hcs).
Definition hchunk (j : nat) : list Byte.byte := take (hcs !!! j) (drop (hoff j) ab).
Definition hchunks (k : nat) : list (list Byte.byte) := map hchunk (seq 0 k).

(** [push()] at [mp] with write-pair phase [ph]; [x] chunks copied,
    the worker at [y] chunks read and [aK] notifications added. *)
Definition main_cfg (mp : mpc) (ph phK : aphase) (x y aK : nat) (pst : bool) : Prop :=
  match mp with
  | MpIdle => ph = PhIdle /\ x = 0 /\ pst = false
  | MpTest =>
      (ph = PhAcq /\ x = 0 /\ pst = false) \/
      (ph = PhHeld /\ y = x /\ aK = x /\ (x = 0 -> pst = false)) \/
      (ph = PhLoad /\ x = S y /\ aK = y) \/
      (exists v, ph = PhWait v /\ v = wrap32 (Z.of_nat (x + (x - 1))) /\ 1 <= x /\
                 (aK = x - 1 \/ aK = x)) \/
      (ph = PhParked /\ 1 <= x /\ (aK = x - 1 \/ (aK = x /\ phK = PhNotify true))) \/
      (ph = PhRelock /\ 1 <= x /\ aK = x)
  | MpCopy => ph = PhHeld /\ y = x /\ aK = x /\ pst = true /\ x < hN
  | MpNotify => ph = PhHeld /\ x = S y /\ aK = y
  | MpWait => (ph = PhNotify false \/ ph = PhNotify true \/ ph = PhHeld) /\ x = S y /\ aK = y
  | MpDone => (ph = PhUnlock \/ ph = PhIdle) /\ x = hN /\ y = x /\ aK = x
  | MpThrown => False
  end.

(** The worker at [wp] with write-pair phase [ph]; [aM] notifications
    of [push()] added. *)
Definition worker_wcfg (wp : wpc) (ph phM : aphase) (x yo aM : nat) : Prop :=
  match wp with
  | WkIdle => ph = PhIdle /\ yo = 0
  | WkTest => (ph = PhAcq /\ yo = 0) \/ (ph = PhHeld /\ (x = S yo \/ (yo = hN /\ x = hN)))
  | WkCopy n | WkPost n | WkUnlock n | WkFinish n => ph = PhHeld /\ x = S yo /\ n = hcs !!! yo
  | WkWait n => (ph = PhNotify false \/ ph = PhNotify true \/ ph = PhHeld) /\ x = S yo /\ n = hcs !!! yo
  | WkAdvance n => n = hcs !!! yo /\
      ((S yo = hN /\ ph = PhHeld /\ x = hN) \/
       (S yo < hN /\
        ((ph = PhLoad /\ x = S yo /\ aM = S yo) \/
         (exists v, ph = PhWait v /\ v = wrap32 (Z.of_nat (S yo + S yo)) /\
                    (aM = S yo \/ aM = S (S yo))) \/
         (ph = PhParked /\ (aM = S yo \/ (aM = S (S yo) /\ phM = PhNotify true))) \/
         (ph = PhRelock /\ aM = S (S yo)) \/
         (ph = PhHeld /\ x = S (S yo)))))
  | WkDone => (ph = PhUnlock \/ ph = PhIdle) /\ yo = hN
  | WkThrown => False
  end.

(** The last task, if any, has returned and released the lock. *)
Definition last_done (lt : option (rpc * aphase)) : Prop :=
  match lt with None => True | Some (r, q) => r = RtDone /\ (q = PhUnlock \/ q = PhIdle) end.

(** The worker at [wp] with read-pair phase [ph]; [kt] tasks, [kc]
    chunks collected, [aT] notifications of the tasks added, the last
    task [lt] with its phase. *)
Definition worker_rcfg (wp : wpc) (ph : aphase) (lt : option (rpc * aphase)) (yo kt kc aT : nat) : Prop :=
  match wp with
  | WkIdle | WkTest | WkDone => ph = PhIdle /\ kt = yo /\ kc = yo /\ aT = yo
  | WkCopy _ => (ph = PhAcq \/ ph = PhHeld /\ last_done lt) /\ kt = yo /\ kc = yo /\ aT = yo
  | WkPost _ => ph = PhHeld /\ last_done lt /\ kt = yo /\ kc = yo /\ aT = yo
  | WkUnlock _ => (kt = yo /\ kc = yo /\ last_done lt \/ kt = S yo) /\
      ((ph = PhLoad /\ aT = yo) \/
       (exists v, ph = PhWait v /\ v = wrap32 (Z.of_nat yo) /\ (aT = yo \/ aT = S yo)) \/
       (ph = PhParked /\ (aT = yo \/ (aT = S yo /\ option_map snd lt = Some (PhNotify true)))) \/
       (ph = PhRelock /\ aT = S yo) \/
       (ph = PhHeld /\ aT = S yo))
  | WkFinish _ => (ph = PhUnlock \/ ph = PhIdle) /\ kt = S yo /\ kc = S yo /\ aT = S yo
  | WkWait _ | WkAdvance _ => ph = PhIdle /\ kt = S yo /\ kc = S yo /\ aT = S yo
  | WkThrown => False
  end.

(** The last [onReceived] task, the [k]-th. *)
Definition task_cfg (r : rpc) (ph : aphase) (k kc : nat) : Prop :=
  match r with
  | RtCheck n => n = hcs !!! k /\ (ph = PhAcq \/ ph = PhHeld) /\ kc = k
  | RtUnlock => (ph = PhNotify false \/ ph = PhNotify true \/ ph = PhHeld) /\ kc = S k
  | RtDone => (ph = PhUnlock \/ ph = PhIdle) /\ kc = S k
  | _ => False
  end.

(** The worker has posted ["finish"]. *)
Definition fin_posted (wp : wpc) (yo : nat) : Prop :=
  match wp with
  | WkWait n | WkAdvance n => n < C
  | WkTest | WkDone => yo = hN /\ 0 < hN /\ hcs !!! (hN - 1) < C
  | _ => False
  end.
End Configs.

Arguments hchunks : simpl never.

(** ** The invariant *)

(** Every task but the last has returned and released the lock. *)
Definition old_done (s : hs) : Prop :=
  forall j, S j < length (hs_tasks s) ->
    hs_tasks s !! j = Some RtDone /\ (phR s (S j) = PhUnlock \/ phR s (S j) = PhIdle).
Arguments old_done : simpl never.

(** The messages the main thread has to handle, against the worker's
    progress ([pK] ["push"] messages posted, [fin] ["finish"] posted),
    and what [__onMessage] has made of the status and of [done()]. *)
Definition queue_ok (ab : list Byte.byte) (C : nat) (mp : mpc) (toMain : list from_worker)
    (st : status) (d : option (list (list Byte.byte))) (kt pK : nat) (fin : Prop) : Prop :=
  (mp = MpIdle /\ toMain = [FwInited] /\ st = INIT /\ d = None) \/
  (mp <> MpIdle /\
   ((toMain = [] /\ pK = kt) \/
    (toMain = [FwPush (Some (hcs ab C !!! kt))] /\ pK = S kt) \/
    (toMain = [FwFinish] /\ pK = kt /\ fin)) /\
   ((st = WORKING /\ d = None /\ (toMain = [] -> ~ fin)) \/
    (st = FINISHED /\ d = Some (hchunks ab C (hN ab C)) /\ toMain = [] /\ fin))).

Arguments queue_ok : simpl never.

Definition queue_cfg (ab : list Byte.byte) (C : nat) (s : hs) (yo : nat) : Prop :=
  queue_ok ab C (hs_mp s) (hs_toMain s) (px_status (hs_px s)) (hs_done s) (length (hs_tasks s))
    (yo + wk_posted (hs_wp s)) (fin_posted ab C (hs_wp s) yo).

Lemma queue_ok_fin ab C mp tm st d kt pK fin fin' :
  queue_ok ab C mp tm st d kt pK fin -> (fin' <-> fin) -> queue_ok ab C mp tm st d kt pK fin'.
Proof. unfold queue_ok. naive_solver. Qed.

Lemma queue_ok_eq ab C mp tm st d kt pK pK' fin fin' :
  queue_ok ab C mp tm st d kt pK fin -> pK' = pK -> (fin' <-> fin) -> queue_ok ab C mp tm st d kt pK' fin'.
Proof. intros Hq ->. by apply queue_ok_fin. Qed.

Record hinv_at (ab : list Byte.byte) (C R : nat) (s : hs) (x yo : nat) : Prop := {
  hi_rinv : inv READ_LOCK READ_COND (Sys (hs_mem s) (hs_rpcs s));
  hi_winv : inv WRITE_LOCK WRITE_COND (Sys (hs_mem s) (hs_wpcs s));
  hi_wlen : length (hs_wpcs s) = 2;
  hi_rlen : length (hs_rpcs s) = S (length (hs_tasks s));
  hi_ab : px_ab (hs_px s) = ab;
  hi_opts : px_opts (hs_px s) = TaskConf C R;
  hi_C : 0 < C <= R;
  hi_doneSet : px_doneSet (hs_px s) = true;
  hi_wsize : w_readBufferSize (hs_w s) = C;
  hi_wfile : w_fileLength (hs_w s) = length ab;
  hi_wstatus : w_status (hs_w s) = WWORKING \/ (w_status (hs_w s) = WINITED /\ hs_wp s = WkIdle);
  hi_lenA : length (px_writeBuffer (hs_px s)) = C;
  hi_lenB : length (px_readBuffer (hs_px s)) = R;
  hi_x : px_offset (hs_px s) = hoff ab C x /\ x <= hN ab C;
  hi_yo : w_readOffset (hs_w s) = hoff ab C yo /\ yo <= hN ab C;
  hi_xy : yo + wk_read (hs_wp s) <= x <= S (yo + wk_read (hs_wp s));
  hi_wc : cells (hs_mem s) !! WRITE_COND =
            Some (wrap32 (Z.of_nat (x - mp_pending (hs_mp s) (phW s W_PUSH) +
                                    (yo + wk_added (hs_wp s) (phW s W_WORKER)))));
  hi_rc : cells (hs_mem s) !! READ_COND = Some (wrap32 (Z.of_nat (tasks_added s)));
  hi_main : main_cfg ab C (hs_mp s) (phW s W_PUSH) (phW s W_WORKER) x (yo + wk_read (hs_wp s))
              (yo + wk_added (hs_wp s) (phW s W_WORKER)) (posted s);
  hi_wkw : worker_wcfg ab C (hs_wp s) (phW s W_WORKER) (phW s W_PUSH) x yo
             (x - mp_pending (hs_mp s) (phW s W_PUSH));
  hi_wkr : worker_rcfg (hs_wp s) (phR s R_WORKER) (last_task s) yo (length (hs_tasks s))
             (length (px_targets (hs_px s))) (tasks_added s);
  hi_old : old_done s;
  hi_last : match last_task s with
            | None => length (px_targets (hs_px s)) = 0
            | Some (r, ph) => task_cfg ab C r ph (pred (length (hs_tasks s))) (length (px_targets (hs_px s)))
            end;
  hi_inbox : hs_toWorker s = [] \/ (hs_toWorker s = [MsgPush] /\ hs_wp s = WkIdle);
  hi_posted : posted s = true -> 0 < hN ab C;
  hi_queue : queue_cfg ab C s yo;
  hi_dA : x = S (yo + wk_read (hs_wp s)) ->
          take (hcs ab C !!! (yo + wk_read (hs_wp s))) (px_writeBuffer (hs_px s)) =
          hchunk ab C (yo + wk_read (hs_wp s));
  hi_dB : yo + wk_read (hs_wp s) = S (length (px_targets (hs_px s))) ->
          take (hcs ab C !!! length (px_targets (hs_px s))) (px_readBuffer (hs_px s)) =
          hchunk ab C (length (px_targets (hs_px s)));
  hi_tg : px_targets (hs_px s) = hchunks ab C (length (px_targets (hs_px s)))
}.

Definition hinv (ab : list Byte.byte) (C R : nat) (s : hs) : Prop := exists x yo, hinv_at ab C R s x yo.

(** ** The chunks of the transfer *)

Section HChunks.
Context (ab : list Byte.byte) (C : nat).
Hypothesis HC : 0 < C.

Lemma hcs_pos j : j < hN ab C -> 0 < hcs ab C !!! j <= C.
Proof. apply ec_pos, HC. Qed.

Lemma hoff_S j : j < hN ab C -> hoff ab C (S j) = hoff ab C j + hcs ab C !!! j.
Proof. apply ec_off_S, HC. Qed.

Lemma hchunk_size j : j < hN ab C -> chunk_size (length ab) C (hoff ab C j) = hcs ab C !!! j.
Proof. apply ec_chunk_size, HC. Qed.

Lemma hoff_test j : j <= hN ab C -> (hoff ab C j < length ab <-> j < hN ab C).
Proof. apply ec_test, HC. Qed.

Lemma hoff_more j : j < hN ab C -> (hoff ab C j + hcs ab C !!! j < length ab <-> S j < hN ab C).
Proof. apply ec_more, HC. Qed.

Lemma hcs_short j : j < hN ab C -> hcs ab C !!! j < C -> S j = hN ab C.
Proof. apply ec_short, HC. Qed.

Lemma hchunk_length j : j < hN ab C -> length (hchunk ab C j) = hcs ab C !!! j.
Proof.
  intros Hj. unfold hchunk. rewrite length_take, length_drop.
  pose proof (ec_off_S (length ab) C HC j Hj). pose proof (ec_off (length ab) C HC (S j) Hj).
  unfold hoff, hN, hcs in *. lia.
Qed.

Lemma hchunks_S k : hchunks ab C (S k) = hchunks ab C k ++ [hchunk ab C k].
Proof. unfold hchunks. by rewrite seq_S, map_app. Qed.

Lemma hoff_pos j : 0 < j -> j <= hN ab C -> 0 < hoff ab C j.
Proof.
  intros Hj HjN. unfold hoff, hN, hcs in *. rewrite ec_off by done.
  pose proof (proj1 (ec_lt_iff (length ab) C HC 0) ltac:(lia)). nia.
Qed.
End HChunks.

(** ** The initial state *)

Lemma make_cells_eval : make_cells = Some (WCells WRITE_LOCK WRITE_COND READ_LOCK READ_COND).
Proof. reflexivity. Qed.

Lemma hinit_eval C R ab :
  hinit (TaskConf C R) ab =
  Some (HS (Shmem (replicate 8 0%Z) ∅) [Idle] [Idle; Idle]
           (Proxy ab (TaskConf C R) (replicate C Byte.x00) (replicate R Byte.x00) [] INIT 0 true true)
           MpIdle [] [FwInited]
           (Worker WINITED C R (length ab) 0 (Some ProxyWriteRegion) (Some ProxyReadRegion)
                   (replicate R Byte.x00) (Some (WCells WRITE_LOCK WRITE_COND READ_LOCK READ_COND)))
           WkIdle [] None).
Proof.
  unfold hinit. rewrite new_lock_sab_eval. cbn -[make_cells].
  unfold ftw_init, ftw_setup. unfold_monad. rewrite make_cells_eval. cbn.
  rewrite bool_decide_true by done. reflexivity.
Qed.

Lemma hinv_init C R ab s :
  0 < C <= R -> hinit (TaskConf C R) ab = Some s -> hinv_at ab C R s 0 0.
Proof.
  intros HC Hs. rewrite hinit_eval in Hs. injection Hs as <-.
  destruct lock_sab_init_ok as [Hr Hw].
  constructor; cbn; rewrite ?length_replicate; try done; try lia.
  - apply (inv_init _ _ _ 1 Hr).
  - apply (inv_init _ _ _ 2 Hw).
  - by right.
  - split; [reflexivity | lia].
  - split; [reflexivity | lia].
  - intros j Hj. cbn in Hj. lia.
  - by left.
  - left. done.
Qed.

(** ** Reading phases after a step *)

Lemma phW_wpair s m pcs u : phW (with_wpair s m pcs) u = aphase_of (pcs !!! u).
Proof. reflexivity. Qed.

Lemma phR_rpair s m pcs u : phR (with_rpair s m pcs) u = aphase_of (pcs !!! u).
Proof. reflexivity. Qed.

Lemma phase_insert (pcs : list tpc) t q u :
  t < length pcs -> aphase_of (<[t:=q]> pcs !!! u) = if decide (u = t) then aphase_of q else aphase_of (pcs !!! u).
Proof.
  intros Ht. case_decide; subst; [by rewrite list_lookup_total_insert_eq|].
  by rewrite list_lookup_total_insert_ne.
Qed.

(** ** Exclusion on each pair *)

Section Excl.
Context (ab : list Byte.byte) (C R : nat) (s : hs) (x yo : nat).
Hypothesis H : hinv_at ab C R s x yo.

Lemma excl_W : client_holds (phW s W_WORKER) = true -> client_holds (phW s W_PUSH) = true -> False.
Proof.
  intros H0 H1. pose proof (hi_wlen _ _ _ _ _ _ H) as Hl.
  assert (0 = 1)%nat; [|lia].
  apply (holds_excl _ _ _ 0 1 (hs_wpcs s !!! 0) (hs_wpcs s !!! 1) (hi_winv _ _ _ _ _ _ H));
    try (apply list_lookup_lookup_total_lt; cbn; lia); by apply client_holds_holds.
Qed.

Lemma excl_R u1 u2 : u1 < length (hs_rpcs s) -> u2 < length (hs_rpcs s) ->
  client_holds (phR s u1) = true -> client_holds (phR s u2) = true -> u1 = u2.
Proof.
  intros L1 L2 H1 H2.
  apply (holds_excl _ _ _ u1 u2 (hs_rpcs s !!! u1) (hs_rpcs s !!! u2) (hi_rinv _ _ _ _ _ _ H));
    try (apply list_lookup_lookup_total_lt; cbn; lia); by apply client_holds_holds.
Qed.
Lemma W_main_free : client_holds (phW s W_WORKER) = true -> client_holds (phW s W_PUSH) = false.
Proof. intros H0. destruct (client_holds (phW s W_PUSH)) eqn:E; [|done]. by destruct excl_W. Qed.

Lemma W_worker_free : client_holds (phW s W_PUSH) = true -> client_holds (phW s W_WORKER) = false.
Proof. intros H1. destruct (client_holds (phW s W_WORKER)) eqn:E; [|done]. by destruct excl_W. Qed.
End Excl.

(** ** The sequence cells *)

Lemma wrap32_S_neq n : wrap32 (Z.of_nat (S n)) <> wrap32 (Z.of_nat n).
Proof.
  rewrite Nat2Z.inj_succ, <- Z.add_1_r, wrap32_add_eq. unfold two32.
  rewrite Z.mod_small; lia.
Qed.

Lemma wrap32_S n : wrap32 (wrap32 (Z.of_nat n) + 1) = wrap32 (Z.of_nat (S n)).
Proof. rewrite wrap32_add_l, Nat2Z.inj_succ, Z.add_1_r. reflexivity. Qed.

(** ** Lock and condition operations of the agents *)

Lemma rcall_call s t a q' s' :
  call_target a = Some q' -> rcall t a s = Some s' ->
  s' = with_rpair s (hs_mem s) (<[t:=q']> (hs_rpcs s)) /\
  hs_rpcs s !! t = Some (if a is ALock then Idle else Held) /\
  (inv READ_LOCK READ_COND (Sys (hs_mem s) (hs_rpcs s)) ->
   inv READ_LOCK READ_COND (Sys (hs_mem s) (<[t:=q']> (hs_rpcs s)))).
Proof.
  unfold rcall. intros Ha Hs. destruct (tstep _ _ _ _ _) as [s2|] eqn:E; [|done].
  injection Hs as <-. pose proof E as E'.
  apply (pair_call READ_LOCK READ_COND _ _ t a q' s2 Ha) in E as [-> Ht].
  split_and!; [done | done |]. intros Hi. exact (inv_step _ _ _ _ _ _ Hi E').
Qed.

Lemma wcall_call s t a q' s' :
  call_target a = Some q' -> wcall t a s = Some s' ->
  s' = with_wpair s (hs_mem s) (<[t:=q']> (hs_wpcs s)) /\
  hs_wpcs s !! t = Some (if a is ALock then Idle else Held) /\
  (inv WRITE_LOCK WRITE_COND (Sys (hs_mem s) (hs_wpcs s)) ->
   inv WRITE_LOCK WRITE_COND (Sys (hs_mem s) (<[t:=q']> (hs_wpcs s)))).
Proof.
  unfold wcall. intros Ha Hs. destruct (tstep _ _ _ _ _) as [s2|] eqn:E; [|done].
  injection Hs as <-. pose proof E as E'.
  apply (pair_call WRITE_LOCK WRITE_COND _ _ t a q' s2 Ha) in E as [-> Ht].
  split_and!; [done | done |]. intros Hi. exact (inv_step _ _ _ _ _ _ Hi E').
Qed.

(** The phases after a call. *)
Section CallPhases.
Context (s : hs) (m : shmem) (t : nat) (q : tpc).
Lemma phW_call_self : t < length (hs_wpcs s) -> phW (with_wpair s m (<[t:=q]> (hs_wpcs s))) t = aphase_of q.
Proof. intros Ht. unfold phW. cbn. by rewrite list_lookup_total_insert_eq. Qed.
Lemma phW_call_other u : u <> t -> phW (with_wpair s m (<[t:=q]> (hs_wpcs s))) u = phW s u.
Proof. intros Hu. unfold phW. cbn. by rewrite list_lookup_total_insert_ne. Qed.
Lemma phR_call_self : t < length (hs_rpcs s) -> phR (with_rpair s m (<[t:=q]> (hs_rpcs s))) t = aphase_of q.
Proof. intros Ht. unfold phR. cbn. by rewrite list_lookup_total_insert_eq. Qed.
Lemma phR_call_other u : u <> t -> phR (with_rpair s m (<[t:=q]> (hs_rpcs s))) u = phR s u.
Proof. intros Hu. unfold phR. cbn. by rewrite list_lookup_total_insert_ne. Qed.
End CallPhases.

(** The worker's read-pair moves do not change what the tasks count. *)
Lemma last_task_rworker s m q : last_task (with_rpair s m (<[R_WORKER:=q]> (hs_rpcs s))) = last_task s.
Proof.
  unfold last_task. cbn. destruct (last (hs_tasks s)) eqn:E; [|done].
  assert (length (hs_tasks s) <> 0) by (destruct (hs_tasks s); done).
  cbn. by rewrite phR_call_other.
Qed.

Lemma tasks_added_rworker s m q : tasks_added (with_rpair s m (<[R_WORKER:=q]> (hs_rpcs s))) = tasks_added s.
Proof. unfold tasks_added. by rewrite last_task_rworker. Qed.

Lemma old_done_rworker s s0 m q :
  old_done s -> hs_tasks s0 = hs_tasks s -> old_done (with_rpair s0 m (<[R_WORKER:=q]> (hs_rpcs s))).
Proof.
  intros Ho Ht j Hj. unfold phR. cbn in *. rewrite list_lookup_total_insert_ne by (unfold R_WORKER; lia).
  rewrite Ht in *. by apply Ho.
Qed.

#[export] Hint Rewrite phW_call_self phR_call_self
  using (cbn; unfold W_WORKER, W_PUSH, R_WORKER; lia) : hs_rw.
#[export] Hint Rewrite phW_call_other phR_call_other
  using (unfold W_WORKER, W_PUSH, R_WORKER; lia) : hs_rw.
#[export] Hint Rewrite tasks_added_rworker last_task_rworker : hs_rw.

Lemma at_rest_phase q : at_rest q = true -> aphase_of q = PhIdle \/ aphase_of q = PhHeld.
Proof. destruct q; simpl; auto; done. Qed.

Lemma lookup_phase (pcs : list tpc) u q : pcs !! u = Some q -> aphase_of (pcs !!! u) = aphase_of q.
Proof. intros H. by rewrite (list_lookup_total_correct _ _ _ H). Qed.

Lemma worker_step_open s s' :
  length (hs_wpcs s) = 2 -> length (hs_rpcs s) <> 0 -> worker_step s = Some s' ->
  (phW s W_WORKER = PhIdle \/ phW s W_WORKER = PhHeld) /\
  (phR s R_WORKER = PhIdle \/ phR s R_WORKER = PhHeld) /\ worker_body s = Some s'.
Proof.
  intros Hw Hr. unfold worker_step, phW, phR.
  rewrite (list_lookup_lookup_total_lt (hs_wpcs s) W_WORKER) by (unfold W_WORKER, W_PUSH, R_WORKER; lia).
  rewrite (list_lookup_lookup_total_lt (hs_rpcs s) R_WORKER) by (unfold W_WORKER, W_PUSH, R_WORKER; lia). cbn.
  destruct (at_rest (hs_wpcs s !!! W_WORKER)) eqn:E1, (at_rest (hs_rpcs s !!! R_WORKER)) eqn:E2;
    try done. intros Hs. split_and!; [by apply at_rest_phase.. | done].
Qed.

Lemma push_step_open s s' :
  length (hs_wpcs s) = 2 -> push_step s = Some s' ->
  (phW s W_PUSH = PhIdle \/ phW s W_PUSH = PhHeld) /\ push_body s = Some s'.
Proof.
  intros Hw. unfold push_step, phW.
  rewrite (list_lookup_lookup_total_lt (hs_wpcs s) W_PUSH) by (unfold W_WORKER, W_PUSH, R_WORKER; lia). cbn.
  destruct (at_rest (hs_wpcs s !!! W_PUSH)) eqn:E1; try done. intros Hs.
  split; [by apply at_rest_phase | done].
Qed.

Lemma task_step_open k s s' :
  length (hs_rpcs s) = S (length (hs_tasks s)) -> task_step k s = Some s' ->
  k < length (hs_tasks s) /\ (phR s (S k) = PhIdle \/ phR s (S k) = PhHeld) /\ task_body k s = Some s'.
Proof.
  intros Hr. unfold task_step, phR. destruct (hs_rpcs s !! S k) as [q|] eqn:Eq; [|done].
  pose proof (lookup_lt_Some _ _ _ Eq) as Hk. rewrite (lookup_phase _ _ _ Eq). cbn.
  destruct (at_rest q) eqn:E1; try done. intros Hs.
  split_and!; [lia | by apply at_rest_phase | done].
Qed.

(** ** What a statement leaves alone *)

Section Untouched.
Context (s : hs).
Lemma phW_worker px w wp tm tw u : phW (with_worker s px w wp tm tw) u = phW s u.
Proof. reflexivity. Qed.
Lemma phW_main px mp ts tm tw d u : phW (with_main s px mp ts tm tw d) u = phW s u.
Proof. reflexivity. Qed.
Lemma phW_rpair m pcs u : phW (with_rpair s m pcs) u = phW s u.
Proof. reflexivity. Qed.
Lemma phR_worker px w wp tm tw u : phR (with_worker s px w wp tm tw) u = phR s u.
Proof. reflexivity. Qed.
Lemma phR_main px mp ts tm tw d u : phR (with_main s px mp ts tm tw d) u = phR s u.
Proof. reflexivity. Qed.
Lemma phR_wpair m pcs u : phR (with_wpair s m pcs) u = phR s u.
Proof. reflexivity. Qed.
Lemma tasks_added_worker px w wp tm tw : tasks_added (with_worker s px w wp tm tw) = tasks_added s.
Proof. reflexivity. Qed.
Lemma tasks_added_wpair m pcs : tasks_added (with_wpair s m pcs) = tasks_added s.
Proof. reflexivity. Qed.
Lemma tasks_added_main px mp tm tw d : tasks_added (with_main s px mp (hs_tasks s) tm tw d) = tasks_added s.
Proof. reflexivity. Qed.
Lemma last_task_main px mp tm tw d : last_task (with_main s px mp (hs_tasks s) tm tw d) = last_task s.
Proof. reflexivity. Qed.
Lemma old_done_main px mp tm tw d : old_done (with_main s px mp (hs_tasks s) tm tw d) = old_done s.
Proof. reflexivity. Qed.
Lemma last_task_worker px w wp tm tw : last_task (with_worker s px w wp tm tw) = last_task s.
Proof. reflexivity. Qed.
Lemma last_task_wpair m pcs : last_task (with_wpair s m pcs) = last_task s.
Proof. reflexivity. Qed.
Lemma posted_worker px w wp tm tw :
  posted (with_worker s px w wp tm tw) = bool_decide (tw = [MsgPush]) || bool_decide (wp <> WkIdle).
Proof. reflexivity. Qed.
Lemma posted_main px mp ts tm tw d :
  posted (with_main s px mp ts tm tw d) = bool_decide (tw = [MsgPush]) || bool_decide (hs_wp s <> WkIdle).
Proof. reflexivity. Qed.
Lemma posted_main_tw px mp ts tm d : posted (with_main s px mp ts tm (hs_toWorker s) d) = posted s.
Proof. reflexivity. Qed.
Lemma posted_rpair m pcs : posted (with_rpair s m pcs) = posted s.
Proof. reflexivity. Qed.
Lemma posted_wpair m pcs : posted (with_wpair s m pcs) = posted s.
Proof. reflexivity. Qed.
Lemma queue_cfg_wpair ab C m pcs yo : queue_cfg ab C (with_wpair s m pcs) yo = queue_cfg ab C s yo.
Proof. reflexivity. Qed.
Lemma queue_cfg_rpair ab C m pcs yo : queue_cfg ab C (with_rpair s m pcs) yo = queue_cfg ab C s yo.
Proof. reflexivity. Qed.
End Untouched.

#[export] Hint Rewrite phW_worker phW_main phW_rpair phR_worker phR_main phR_wpair
  tasks_added_worker tasks_added_wpair last_task_worker last_task_wpair
  tasks_added_main last_task_main old_done_main
  posted_worker posted_main_tw posted_rpair posted_wpair queue_cfg_wpair queue_cfg_rpair : hs_rw.

(** A ["push"] posted by [push()] or a worker past its first statement. *)
Ltac posted_true := rewrite ?(bool_decide_true (_ <> WkIdle)) by done; rewrite ?orb_true_r.

Lemma posted_busy s : hs_wp s <> WkIdle -> posted s = true.
Proof. intros H. unfold posted. rewrite (bool_decide_true (_ <> _)) by done. apply orb_true_r. Qed.

Lemma posted_msg s : hs_toWorker s = [MsgPush] -> posted s = true.
Proof. intros H. unfold posted. by rewrite bool_decide_true. Qed.

(** ** Configurations under a partner's move *)

Section Frames.
Context (ab : list Byte.byte) (C : nat).

(** [push()] away from the lock does not look at the worker's
    phase, nor at its chunk count once it has copied one more. *)
Lemma main_cfg_phK mp ph phK phK' x y aK pst :
  main_cfg ab C mp ph phK x y aK pst -> (phK' = PhNotify true \/ phK <> PhNotify true) ->
  main_cfg ab C mp ph phK' x y aK pst.
Proof. destruct mp; cbn; naive_solver. Qed.

Lemma main_cfg_y mp ph phK x y y' aK pst :
  main_cfg ab C mp ph phK x y aK pst -> client_holds ph = false -> x = S y ->
  main_cfg ab C mp ph phK x y' aK pst.
Proof. destruct mp; cbn; intros Hm Hh Hx; (destruct_or? Hm; destruct_and? Hm); subst; try done; try lia; naive_solver. Qed.

Lemma worker_wcfg_phM wp ph phM phM' x yo aM :
  worker_wcfg ab C wp ph phM x yo aM -> (phM' = PhNotify true \/ phM <> PhNotify true) ->
  worker_wcfg ab C wp ph phM' x yo aM.
Proof. destruct wp; cbn; naive_solver. Qed.

Lemma worker_wcfg_x wp ph phM x x' yo aM :
  worker_wcfg ab C wp ph phM x yo aM -> client_holds ph = false ->
  worker_wcfg ab C wp ph phM x' yo aM.
Proof. destruct wp; cbn; intros Hw Hh; (destruct_or? Hw; destruct_and? Hw); subst; try done; naive_solver. Qed.
End Frames.

(** ** The counters at a given phase *)

Lemma wk_added_wait_nf n : wk_added (WkWait n) (PhNotify false) = 0.
Proof. reflexivity. Qed.
Lemma wk_added_wait n ph : ph <> PhNotify false -> wk_added (WkWait n) ph = 1.
Proof. intros Hph. cbn. by rewrite decide_False. Qed.
Lemma mp_pending_wait_nf : mp_pending MpWait (PhNotify false) = 1.
Proof. reflexivity. Qed.
Lemma mp_pending_wait ph : ph <> PhNotify false -> mp_pending MpWait ph = 0.
Proof. intros Hph. cbn. by rewrite decide_False. Qed.
Lemma rt_added_unlock_nf : rt_added RtUnlock (PhNotify false) = 0.
Proof. reflexivity. Qed.
Lemma rt_added_unlock ph : ph <> PhNotify false -> rt_added RtUnlock ph = 1.
Proof. intros Hph. cbn. by rewrite decide_False. Qed.

#[export] Hint Rewrite wk_added_wait_nf mp_pending_wait_nf rt_added_unlock_nf : hs_rw.
#[export] Hint Rewrite wk_added_wait mp_pending_wait rt_added_unlock using done : hs_rw.

Lemma last_task_len s :
  match last_task s with None => length (hs_tasks s) = 0 | Some _ => length (hs_tasks s) <> 0 end.
Proof.
  unfold last_task. destruct (last (hs_tasks s)) eqn:E; cbn.
  - apply last_Some in E as (l & ->). rewrite length_app. cbn. lia.
  - apply last_None in E as ->. done.
Qed.

(** ** Facts of the configurations *)

Section CfgFacts.
Context (ab : list Byte.byte) (C : nat).

Lemma rt_added_le r ph : rt_added r ph <= 1.
Proof. destruct r; cbn; try case_decide; lia. Qed.

(** A task that has added its notification has collected its chunk. *)
Lemma task_cfg_added r ph k kc : task_cfg ab C r ph k kc -> rt_added r ph = 1 -> kc = S k.
Proof. destruct r; cbn; try case_decide; naive_solver lia. Qed.

(** [push()] away from the lock has no notification pending. *)
Lemma main_pending_free mp ph phK x y aK pst :
  main_cfg ab C mp ph phK x y aK pst -> client_holds ph = false -> mp_pending mp ph = 0.
Proof.
  destruct mp; cbn; try done; intros Hm Hh;
    [destruct Hm as (-> & _) | destruct Hm as ([-> | [-> | ->]] & _)]; done.
Qed.

Lemma main_started mp ph phK x y aK pst :
  main_cfg ab C mp ph phK x y aK pst -> x <> 0 -> mp <> MpIdle.
Proof. intros Hm Hx ->. cbn in Hm. lia. Qed.

(** With every ["push"] handled and no ["finish"] posted, the queue is empty. *)
Lemma queue_ok_nofin mp tm st d kt fin :
  queue_ok ab C mp tm st d kt kt fin -> ~ fin -> mp <> MpIdle -> tm = [] /\ st = WORKING /\ d = None.
Proof. unfold queue_ok. naive_solver lia. Qed.

Lemma queue_ok_working mp tm st d kt pK fin :
  queue_ok ab C mp tm st d kt pK fin -> ~ fin -> mp <> MpIdle -> st = WORKING /\ d = None.
Proof. unfold queue_ok. naive_solver. Qed.

Lemma queue_ok_mp mp mp' tm st d kt pK fin :
  mp <> MpIdle -> mp' <> MpIdle -> queue_ok ab C mp tm st d kt pK fin -> queue_ok ab C mp' tm st d kt pK fin.
Proof. unfold queue_ok. naive_solver. Qed.

Lemma queue_ok_push mp kt fin :
  mp <> MpIdle -> ~ fin ->
  queue_ok ab C mp [FwPush (Some (hcs ab C !!! kt))] WORKING None kt (S kt) fin.
Proof. unfold queue_ok. naive_solver. Qed.

Lemma queue_ok_post mp kt (b : bool) fin :
  mp <> MpIdle -> (fin <-> b = true) ->
  queue_ok ab C mp (if b then [FwFinish] else []) WORKING None kt kt fin.
Proof. unfold queue_ok. destruct b; naive_solver. Qed.
(** The worker's read-pair configuration against the tasks. *)
Lemma rcfg_gap wp ph lt yo kt kc aT :
  worker_rcfg wp ph lt yo kt kc aT -> kt = S kc -> (exists n, wp = WkUnlock n) /\ yo = kc.
Proof. destruct wp; cbn; naive_solver lia. Qed.

Lemma rcfg_push_pending wp ph lt yo kt kc aT :
  worker_rcfg wp ph lt yo kt kc aT -> yo + wk_posted wp = S kt ->
  (exists n, wp = WkUnlock n) /\ kt = yo /\ kc = yo /\ last_done lt.
Proof. destruct wp; cbn; naive_solver lia. Qed.

Lemma rcfg_unlock_tasks n ph lt lt' yo kt kt' kc kc' aT :
  worker_rcfg (WkUnlock n) ph lt yo kt kc aT -> kt' = S yo -> aT = yo ->
  worker_rcfg (WkUnlock n) ph lt' yo kt' kc' aT.
Proof. cbn. naive_solver lia. Qed.

Lemma rcfg_last_release wp ph lt' yo kt kc aT :
  worker_rcfg wp ph (Some (RtUnlock, PhHeld)) yo kt kc aT -> client_holds ph = false ->
  worker_rcfg wp ph lt' yo kt kc aT.
Proof. destruct wp; cbn; try done; intros Hw Hh; destruct_and? Hw; destruct_or? Hw; naive_solver. Qed.

Lemma fin_kc wp ph lt yo kt kc aT :
  worker_rcfg wp ph lt yo kt kc aT -> fin_posted ab C wp yo -> kc = kt.
Proof. destruct wp; cbn; naive_solver lia. Qed.
End CfgFacts.

Lemma fin_kc_N ab C wp ph ph' phM lt x yo aM kt kc aT :
  0 < C -> x <= hN ab C ->
  worker_rcfg wp ph lt yo kt kc aT -> worker_wcfg ab C wp ph' phM x yo aM ->
  fin_posted ab C wp yo -> kc = hN ab C.
Proof.
  intros HC Hx Hr Hw Hf. destruct wp; cbn in Hr, Hw, Hf; try done; try lia.
  - destruct Hw as (_ & Hx1 & ->). pose proof (hcs_short ab C HC yo ltac:(lia) Hf). lia.
  - destruct Hw as (-> & Hw). assert (yo < hN ab C) by lia.
    pose proof (hcs_short ab C HC yo ltac:(lia) Hf). lia.
Qed.

Lemma posted_false s : posted s = false -> hs_wp s = WkIdle /\ hs_toWorker s <> [MsgPush].
Proof.
  unfold posted. intros Hp. apply orb_false_iff in Hp as [H1 H2].
  apply bool_decide_eq_false in H1, H2. split; [|done]. destruct (hs_wp s); naive_solver.
Qed.

(** ** The last task *)

Lemma last_task_at s k r :
  S k = length (hs_tasks s) -> hs_tasks s !! k = Some r -> last_task s = Some (r, phR s (S k)).
Proof.
  intros Hk Hr. unfold last_task. rewrite last_lookup, <- Hk. cbn. by rewrite Hr.
Qed.

Section SetLast.
Context (s s0 : hs) (m : shmem) (k : nat) (r : rpc) (q : tpc).
Hypothesis Hk : S k = length (hs_tasks s).
Hypothesis Hl : S k < length (hs_rpcs s).
Hypothesis Ht : hs_tasks s0 = <[k:=r]> (hs_tasks s).

Lemma last_task_set : last_task (with_rpair s0 m (<[S k:=q]> (hs_rpcs s))) = Some (r, aphase_of q).
Proof.
  unfold last_task, phR. cbn. rewrite Ht, length_insert, last_lookup, length_insert, <- Hk. cbn.
  rewrite list_lookup_insert_eq by lia. cbn. by rewrite list_lookup_total_insert_eq.
Qed.

Lemma tasks_added_set :
  tasks_added (with_rpair s0 m (<[S k:=q]> (hs_rpcs s))) = k + rt_added r (aphase_of q).
Proof. unfold tasks_added. rewrite last_task_set. cbn. rewrite Ht, length_insert. lia. Qed.

Lemma old_done_set : old_done s -> old_done (with_rpair s0 m (<[S k:=q]> (hs_rpcs s))).
Proof.
  intros Ho j Hj. unfold phR. cbn in *. rewrite Ht, length_insert in *.
  rewrite list_lookup_insert_ne, list_lookup_total_insert_ne by lia. by apply Ho.
Qed.
End SetLast.

(** A new task appended by ["push"]. *)
Section Spawn.
Context (s s0 : hs) (m : shmem) (r : rpc) (q : tpc).
Hypothesis Hl : length (hs_rpcs s) = S (length (hs_tasks s)).
Hypothesis Ht : hs_tasks s0 = hs_tasks s ++ [r].
Local Abbreviation kt := (length (hs_tasks s)).
Local Abbreviation s' := (with_rpair s0 m (<[S kt:=q]> (hs_rpcs s ++ [Idle]))).

Lemma phR_spawn_old u : u < S kt -> phR s' u = phR s u.
Proof.
  intros Hu. unfold phR. cbn. rewrite list_lookup_total_insert_ne by lia.
  by rewrite lookup_total_app_l by lia.
Qed.

Lemma phR_spawn_new : phR s' (S kt) = aphase_of q.
Proof. unfold phR. cbn. rewrite list_lookup_total_insert_eq; [done|]. rewrite length_app. cbn. lia. Qed.

Lemma last_task_spawn : last_task s' = Some (r, aphase_of q).
Proof.
  unfold last_task. cbn. rewrite Ht, last_app. cbn. rewrite length_app, Nat.add_1_r.
  by rewrite phR_spawn_new.
Qed.

Lemma tasks_added_spawn : tasks_added s' = kt + rt_added r (aphase_of q).
Proof. unfold tasks_added. rewrite last_task_spawn. cbn. rewrite Ht, length_app. cbn. lia. Qed.

Lemma old_done_spawn : old_done s -> last_done (last_task s) -> old_done s'.
Proof.
  intros Ho Hd j Hj. cbn in Hj. rewrite Ht, length_app in Hj. cbn in Hj.
  rewrite phR_spawn_old by lia. cbn. rewrite Ht.
  destruct (decide (S j < kt)) as [Hlt|Hge].
  - rewrite lookup_app_l by lia. by apply Ho.
  - assert (S j = kt) as Hj' by lia.
    destruct (last (hs_tasks s)) as [r0|] eqn:E.
    + unfold last_task in Hd. rewrite E in Hd. cbn in Hd. destruct Hd as [-> Hph].
      rewrite lookup_app_l by lia. rewrite last_lookup in E. rewrite <- Hj' in E. cbn in E.
      rewrite E, Hj'. done.
    + apply last_None in E. rewrite E in Hj'. done.
Qed.
End Spawn.

(** With the last task done, the read condition holds one notification per task. *)
Lemma tasks_added_done s : last_done (last_task s) -> tasks_added s = length (hs_tasks s).
Proof.
  intros Hd. pose proof (last_task_len s) as Hl. unfold tasks_added.
  destruct (last_task s) as [[r ph]|]; cbn in *; [destruct Hd as [-> _]; cbn; lia | lia].
Qed.

Ltac hinv_open H :=
  pose proof H as [Hri Hwi Hwl Hrl Hab Hop HC Hds Hws Hwf Hwst HlA HlB Hx Hyo Hxy Hwc Hrc
                   Hmain Hwkw Hwkr Hold Hlast Hinb Hpst Hq HdA HdB Htg].
