(* ===== verification/HandshakeWorker.v ===== *)
(** * The worker's statements keep the invariant

    One lemma per statement of the worker's ["push"] handler
    ([worker_body] of [Handshake.v], compress.worker.ts 41-75): each
    takes a state satisfying [hinv_at] with the worker at that
    statement to one satisfying it again, with the counters of the
    statement's effect. *)

From S2P Require Import Prelude Monad Int32 Atomics Lock Cond Sync Phase Chunking Proxy Worker Pipeline Handshake HandshakeInv.

Section WorkerSteps.
Context (ab : list Byte.byte) (C R : nat) (s s' : hs) (x yo : nat).
Hypothesis H : hinv_at ab C R s x yo.

(** The worker's copy: chunk [yo] from the write region to the read region. *)
Lemma hinv_wk_copy n :
  phR s R_WORKER = PhIdle \/ phR s R_WORKER = PhHeld ->
  hs_wp s = WkCopy n -> worker_body s = Some s' -> hinv_at ab C R s' x yo.
Proof.
  intros Hrest Hwp Hs. unfold worker_body in Hs. rewrite Hwp in Hs. hinv_open H.
  rewrite Hwp in *. cbn in Hwkw, Hwkr, Hxy, HdA, HdB, Hmain. destruct Hwkw as (HphW & Hx1 & Hn).
  pose proof (hcs_pos ab C ltac:(lia) yo ltac:(lia)).
  assert (Hlt : length (take n (px_writeBuffer (hs_px s))) = n) by (rewrite length_take; lia).
  pose proof (W_main_free _ _ _ _ _ _ H ltac:(by rewrite HphW)) as HM.
  rewrite (proj2 (Nat.ltb_ge _ _)) in Hs by lia. injection Hs as <-.
  constructor; autorewrite with hs_rw; cbn; try assumption.
  - destruct Hwst as [?|[? ?]]; [by left|done].
  - rewrite overwrite_length; lia.
  - lia.
  - rewrite posted_busy in Hmain by (by rewrite Hwp). rewrite orb_true_r.
    eapply main_cfg_y; [exact Hmain|done|lia].
  - split_and!; assumption.
  - destruct Hwkr as ([Ha|Hb] & ?); [destruct Hrest; congruence|tauto].
  - left. destruct Hinb as [?|[? ?]]; done.
  - intros _. apply Hpst, posted_busy. by rewrite Hwp.
  - unfold queue_cfg in Hq |- *. rewrite Hwp in Hq. exact Hq.
  - lia.
  - intros Hk. destruct Hwkr as (_ & _ & -> & _). rewrite overwrite_take by lia.
    subst n. replace yo with (yo + 0) by lia. apply HdA. lia.
Qed.

Lemma hinv_wk_idle :
  hs_wp s = WkIdle -> worker_body s = Some s' -> hinv_at ab C R s' x yo.
Proof.
  intros Hwp Hs. unfold worker_body in Hs. rewrite Hwp in Hs. hinv_open H.
  rewrite Hwp in *. cbn in Hwkw, Hwkr, Hxy, HdA, HdB, Hmain, Hwc.
  destruct Hwkw as [HphW ->]. destruct Hwkr as (HphR & Hkt & Hkc & HaT).
  destruct Hinb as [Ht|[Ht _]]; rewrite Ht in Hs; [done|].
  pose proof (Hpst (posted_msg _ Ht)) as HN.
  assert (Hs' : wcall W_WORKER ALock (with_worker s (hs_px s) (set_wstatus WWORKING (hs_w s)) WkTest
                  (hs_toMain s) []) = Some s') by (destruct Hwst as [E|[E _]]; rewrite E in Hs; exact Hs).
  eapply wcall_call in Hs'; [|reflexivity]. destruct Hs' as (-> & Hw0 & Hwinv). cbn in Hw0, Hwinv.
  rewrite posted_msg in Hmain by done.
  constructor; autorewrite with hs_rw; cbn; posted_true; try assumption; try (left; assumption).
  - by apply Hwinv.
  - by rewrite length_insert.
  - by left.
  - eapply main_cfg_phK; [exact Hmain|]. right. by rewrite HphW.
  - by left.
  - tauto.
  - by left.
  - intros _. exact HN.
  - unfold queue_cfg in *. rewrite Hwp in Hq. eapply queue_ok_fin; [exact Hq|]. cbn. lia.
Qed.
(** The loop test: copy the next chunk, or release the write lock. *)
Lemma hinv_wk_test :
  phW s W_WORKER = PhIdle \/ phW s W_WORKER = PhHeld ->
  hs_wp s = WkTest -> worker_body s = Some s' -> hinv_at ab C R s' x yo.
Proof.
  intros Hrest Hwp Hs. unfold worker_body in Hs. rewrite Hwp in Hs. hinv_open H.
  rewrite Hwp in *. cbn in Hwkw, Hwkr, Hxy, HdA, HdB, Hmain, Hwc.
  destruct Hwkw as [[Ha _]|[HphW Hx1]]; [destruct Hrest; congruence|].
  destruct Hwkr as (HphR & Hkt & Hkc & HaT).
  rewrite posted_busy in Hmain, Hpst by (by rewrite Hwp).
  destruct Hwst as [Hwst|[_ ?]]; [|done]. destruct Hinb as [Hinb|[_ ?]]; [|done].
  rewrite Hwf, (proj1 Hyo), Hws in Hs.
  destruct (Nat.ltb_spec (hoff ab C yo) (length ab)) as [Hlt|Hge].
  - apply hoff_test in Hlt; [|lia|lia]. rewrite hchunk_size in Hs by lia.
    eapply rcall_call in Hs; [|reflexivity]. destruct Hs as (-> & Hr0 & Hrinv). cbn in Hr0, Hrinv.
    constructor; autorewrite with hs_rw; cbn; posted_true; try assumption; try (left; assumption).
    + by apply Hrinv.
    + by rewrite length_insert.
    + split_and!; [done|lia|done].
    + split_and!; [by left|done..].
    + by apply (old_done_rworker s).
    + unfold queue_cfg in *. rewrite Hwp in Hq. eapply queue_ok_fin; [exact Hq|]. cbn. lia.
  - assert (yo = hN ab C) by (pose proof (hoff_test ab C ltac:(lia) yo ltac:(lia)); lia).
    eapply wcall_call in Hs; [|reflexivity]. destruct Hs as (-> & Hw0 & Hwinv). cbn in Hw0, Hwinv.
    constructor; autorewrite with hs_rw; cbn; posted_true; try assumption; try (left; assumption).
    + by apply Hwinv.
    + by rewrite length_insert.
    + eapply main_cfg_phK; [exact Hmain|]. right. by rewrite HphW.
    + split; [by left|done].
    + tauto.
    + unfold queue_cfg in *. rewrite Hwp in Hq. exact Hq.
Qed.

(** ["push"] to the main thread, then [readCond.wait]. *)
Lemma hinv_wk_post n :
  hs_wp s = WkPost n -> worker_body s = Some s' -> hinv_at ab C R s' x yo.
Proof.
  intros Hwp Hs. unfold worker_body in Hs. rewrite Hwp in Hs. hinv_open H.
  rewrite Hwp in *. cbn in Hwkw, Hwkr, Hxy, HdA, HdB, Hmain, Hwc. destruct Hwkw as (HphW & Hx1 & Hn).
  destruct Hwkr as (HphR & Hld & Hkt & Hkc & HaT).
  rewrite posted_busy in Hmain, Hpst by (by rewrite Hwp).
  destruct Hwst as [Hwst|[_ ?]]; [|done]. destruct Hinb as [Hinb|[_ ?]]; [|done].
  pose proof (main_started _ _ _ _ _ _ _ _ _ Hmain ltac:(lia)) as Hmp.
  unfold queue_cfg in Hq. rewrite Hwp, Hkt, Nat.add_0_r in Hq. cbn in Hq.
  apply queue_ok_nofin in Hq as (Htm & Hst & Hd); [|tauto|done].
  eapply rcall_call in Hs; [|reflexivity]. destruct Hs as (-> & Hr0 & Hrinv). cbn in Hr0, Hrinv.
  constructor; autorewrite with hs_rw; cbn; posted_true; try assumption; try (left; assumption).
  - by apply Hrinv.
  - by rewrite length_insert.
  - split_and!; done.
  - split; [left; split_and!; done | left; done].
  - by apply (old_done_rworker s).
  - unfold queue_cfg; cbn. rewrite Htm, Hst, Hd, Hn, <- Hkt. cbn. rewrite Nat.add_1_r.
    apply queue_ok_push; [done|tauto].
Qed.
(** [readLock.unlock()] once the task has copied the chunk out. *)
Lemma hinv_wk_unlock n :
  phR s R_WORKER = PhIdle \/ phR s R_WORKER = PhHeld ->
  hs_wp s = WkUnlock n -> worker_body s = Some s' -> hinv_at ab C R s' x yo.
Proof.
  intros Hrest Hwp Hs. unfold worker_body in Hs. rewrite Hwp in Hs. hinv_open H.
  rewrite Hwp in *. cbn in Hwkw, Hwkr, Hxy, HdA, HdB, Hmain, Hwc. destruct Hwkw as (HphW & Hx1 & Hn).
  rewrite posted_busy in Hmain, Hpst by (by rewrite Hwp).
  destruct Hwst as [Hwst|[_ ?]]; [|done]. destruct Hinb as [Hinb|[_ ?]]; [|done].
  destruct Hwkr as [Hk Hph].
  assert (HaT : tasks_added s = S yo) by
    (destruct Hph as [(E&_)|[(v&E&_)|[(E&_)|[(E&?)|(E&?)]]]]; rewrite ?E in Hrest; destruct Hrest; congruence).
  pose proof (last_task_len s) as Hlen. unfold tasks_added in HaT.
  assert (Hkt : length (hs_tasks s) = S yo /\ length (px_targets (hs_px s)) = S yo).
  { destruct (last_task s) as [[r ph]|] eqn:E.
    - pose proof (rt_added_le r ph).
      destruct Hk as [(Hk1 & _ & -> & _)|Hk]; [lia|]. split; [done|].
      rewrite Hk in Hlast. apply (task_cfg_added _ _ _ _ _ _ Hlast). lia.
    - lia. }
  eapply rcall_call in Hs; [|reflexivity]. destruct Hs as (-> & Hr0 & Hrinv). cbn in Hr0, Hrinv.
  constructor; autorewrite with hs_rw; cbn; posted_true; try assumption; try (left; assumption).
  - by apply Hrinv.
  - by rewrite length_insert.
  - split_and!; done.
  - unfold tasks_added. split_and!; [by left | tauto.. | lia].
  - by apply (old_done_rworker s).
  - unfold queue_cfg in *. rewrite Hwp in Hq. exact Hq.
Qed.

(** [writeCond.notifyOne()], with ["finish"] posted after a short chunk. *)
Lemma hinv_wk_finish n :
  phR s R_WORKER = PhIdle \/ phR s R_WORKER = PhHeld ->
  hs_wp s = WkFinish n -> worker_body s = Some s' -> hinv_at ab C R s' x yo.
Proof.
  intros Hrest Hwp Hs. unfold worker_body in Hs. rewrite Hwp in Hs. hinv_open H.
  rewrite Hwp in *. cbn in Hwkw, Hwkr, Hxy, HdA, HdB, Hmain, Hwc. destruct Hwkw as (HphW & Hx1 & Hn).
  rewrite posted_busy in Hmain, Hpst by (by rewrite Hwp).
  destruct Hwst as [Hwst|[_ ?]]; [|done]. destruct Hinb as [Hinb|[_ ?]]; [|done].
  destruct Hwkr as ([HphR|HphR] & Hkt & Hkc & HaT); [rewrite HphR in Hrest; destruct Hrest; congruence|].
  pose proof (main_started _ _ _ _ _ _ _ _ _ Hmain ltac:(lia)) as Hmp.
  unfold queue_cfg in Hq. rewrite Hwp, Hkt, Nat.add_1_r in Hq. cbn in Hq.
  apply queue_ok_nofin in Hq as (Htm & Hst & Hd); [|tauto|done].
  eapply wcall_call in Hs; [|reflexivity]. destruct Hs as (-> & Hw0 & Hwinv). cbn in Hw0, Hwinv.
  constructor; autorewrite with hs_rw; cbn; posted_true; try assumption; try (left; assumption).
  - by apply Hwinv.
  - by rewrite length_insert.
  - eapply main_cfg_phK; [exact Hmain|]. right. by rewrite HphW.
  - split_and!; [by left|done..].
  - split_and!; done.
  - unfold queue_cfg. rewrite Hws. cbn -[Nat.ltb]. rewrite Htm, Hst, Hd, Hkt, Nat.add_1_r.
    apply queue_ok_post; [done|]. symmetry. apply Nat.ltb_lt.
Qed.

(** [writeCond.wait] for the next chunk, skipped after the last one. *)
Lemma hinv_wk_wait n :
  phW s W_WORKER = PhIdle \/ phW s W_WORKER = PhHeld ->
  hs_wp s = WkWait n -> worker_body s = Some s' -> hinv_at ab C R s' x yo.
Proof.
  intros Hrest Hwp Hs. unfold worker_body in Hs. rewrite Hwp in Hs. hinv_open H.
  rewrite Hwp in *. cbn in Hwkw, Hwkr, Hxy, HdA, HdB. destruct Hwkw as (Hph & Hx1 & Hn).
  assert (HphW : phW s W_WORKER = PhHeld) by (destruct Hph as [E|[E|E]]; rewrite E in Hrest |- *; destruct Hrest; congruence).
  rewrite HphW, wk_added_wait in Hmain, Hwc by done. cbn in Hmain.
  rewrite posted_busy in Hmain, Hpst by (by rewrite Hwp).
  destruct Hwst as [Hwst|[_ ?]]; [|done]. destruct Hinb as [Hinb|[_ ?]]; [|done].
  pose proof (W_main_free _ _ _ _ _ _ H ltac:(by rewrite HphW)) as HM.
  pose proof (main_pending_free _ _ _ _ _ _ _ _ _ Hmain HM) as Hpend.
  subst n. rewrite Hwf, (proj1 Hyo) in Hs.
  destruct (Nat.ltb_spec (hoff ab C yo + hcs ab C !!! yo) (length ab)) as [Hlt|Hge].
  - apply hoff_more in Hlt; [|lia|lia].
    eapply wcall_call in Hs; [|reflexivity]. destruct Hs as (-> & Hw0 & Hwinv). cbn in Hw0, Hwinv.
    constructor; autorewrite with hs_rw; cbn; posted_true; try assumption; try (left; assumption).
    + by apply Hwinv.
    + by rewrite length_insert.
    + eapply main_cfg_phK; [exact Hmain|]. by right.
    + split; [done|]. right. split; [done|]. left. split_and!; [done|done|lia].
    + unfold queue_cfg in *. rewrite Hwp in Hq. exact Hq.
  - assert (S yo = hN ab C) by (pose proof (hoff_more ab C ltac:(lia) yo ltac:(lia)); lia).
    injection Hs as <-.
    constructor; autorewrite with hs_rw; cbn; posted_true; try assumption; try (left; assumption).
    + rewrite HphW. exact Hmain.
    + split; [done|]. left. split_and!; [done|done|lia].
    + unfold queue_cfg in *. rewrite Hwp in Hq. exact Hq.
Qed.
(** [readOffset += size]: the next iteration. *)
Lemma hinv_wk_advance n :
  phW s W_WORKER = PhIdle \/ phW s W_WORKER = PhHeld ->
  hs_wp s = WkAdvance n -> worker_body s = Some s' -> hinv_at ab C R s' x (S yo).
Proof.
  intros Hrest Hwp Hs. unfold worker_body in Hs. rewrite Hwp in Hs. injection Hs as <-. hinv_open H.
  rewrite Hwp in *. cbn in Hwkw, Hwkr, Hxy, HdA, HdB, Hmain, Hwc. destruct Hwkw as (-> & Hc).
  assert (HphW : phW s W_WORKER = PhHeld /\
                 (S yo = hN ab C /\ x = hN ab C \/ S yo < hN ab C /\ x = S (S yo))).
  { destruct Hc as [(? & ? & ?)|(? & [(E&_)|[(v&E&_)|[(E&_)|[(E&_)|(? & ?)]]]])];
      try (rewrite E in Hrest; destruct Hrest; congruence); tauto. }
  destruct HphW as [HphW Hc']. clear Hc.
  rewrite posted_busy in Hmain, Hpst by (by rewrite Hwp).
  destruct Hwst as [Hwst|[_ ?]]; [|done]. destruct Hinb as [Hinb|[_ ?]]; [|done].
  destruct Hwkr as (HphR & Hkt & Hkc & HaT).
  assert (Hyn : yo < hN ab C) by lia.
  constructor; autorewrite with hs_rw; cbn; posted_true; rewrite ?Nat.add_0_r, ?Nat.add_1_r in *;
    try assumption; try (left; assumption).
  - rewrite (proj1 Hyo), hoff_S by lia. split; [done|lia].
  - right. split; [done|]. lia.
  - split_and!; done.
  - unfold queue_cfg in *. rewrite Hwp in Hq. eapply queue_ok_eq; [exact Hq|cbn; lia|]. cbn.
    split.
    + intros (E & _ & Hs'). by replace yo with (hN ab C - 1) by lia.
    + intros Hs'. pose proof (hcs_short ab C ltac:(lia) yo Hyn Hs').
      split_and!; [lia|lia|]. by replace (hN ab C - 1) with yo by lia.
Qed.
End WorkerSteps.

(** A step of the worker keeps the invariant; an iteration's end
    moves its counter. *)
Lemma hinv_worker_step ab C R s s' x yo :
  hinv_at ab C R s x yo -> worker_step s = Some s' ->
  hinv_at ab C R s' x yo \/ hinv_at ab C R s' x (S yo).
Proof.
  intros H Hs. pose proof (hi_wlen _ _ _ _ _ _ H) as Hw. pose proof (hi_rlen _ _ _ _ _ _ H) as Hr.
  apply worker_step_open in Hs as (HrW & HrR & Hs); [|done|lia].
  destruct (hs_wp s) eqn:Hwp.
  - left. by apply (hinv_wk_idle ab C R s).
  - left. by apply (hinv_wk_test ab C R s).
  - left. by apply (hinv_wk_copy ab C R s _ _ _ H n).
  - left. by apply (hinv_wk_post ab C R s _ _ _ H n).
  - left. by apply (hinv_wk_unlock ab C R s _ _ _ H n).
  - left. by apply (hinv_wk_finish ab C R s _ _ _ H n).
  - left. by apply (hinv_wk_wait ab C R s _ _ _ H n).
  - right. by apply (hinv_wk_advance ab C R s _ _ _ H n).
  - unfold worker_body in Hs. by rewrite Hwp in Hs.
  - unfold worker_body in Hs. by rewrite Hwp in Hs.
Qed.
