(* ===== verification/HandshakeMain.v ===== *)
(** * The main thread's statements keep the invariant

    [push()] (lib.ts 166-215, [push_body] of [Handshake.v]), the
    [onReceived] tasks (lib.ts 209-236, [task_body]) and
    [__onMessage] on the worker's messages ([main_step]): one lemma per
    statement, each taking a state satisfying [hinv_at] to one
    satisfying it again. *)

From S2P Require Import Prelude Monad Int32 Atomics Lock Cond Sync Phase Chunking Proxy Worker Pipeline Handshake HandshakeInv.

Section PushSteps.
Context (ab : list Byte.byte) (C R : nat) (s s' : hs) (x yo : nat).
Hypothesis H : hinv_at ab C R s x yo.

(** The loop test of [push()]: post ["push"] before the first chunk,
    or release the write lock after the last. *)
Lemma hinv_mp_test :
  phW s W_PUSH = PhIdle \/ phW s W_PUSH = PhHeld ->
  hs_mp s = MpTest -> push_body s = Some s' -> hinv_at ab C R s' x yo.
Proof.
  intros Hrest Hmp Hs. unfold push_body in Hs. rewrite Hmp in Hs. hinv_open H.
  rewrite Hmp in *. cbn in Hmain, Hwkw, Hwc.
  destruct Hmain as [(E&_)|[(HphM & Hy & HaK & Hpst0)|[(E&_)|[(v&E&_)|[(E&_)|(E&_)]]]]];
    try (rewrite E in Hrest; destruct Hrest; congruence).
  rewrite (proj1 Hx), Hab in Hs.
  destruct (Nat.ltb_spec (hoff ab C x) (length ab)) as [Hlt|Hge].
  - apply hoff_test in Hlt; [|lia|lia]. injection Hs as <-.
    destruct (decide (x = 0)) as [->|Hx0].
    + destruct (posted_false s (Hpst0 eq_refl)) as [Hwp0 Htw].
      destruct Hinb as [Hinb|[? _]]; [|done]. rewrite Hinb.
      assert (hoff ab C 0 = 0) as -> by reflexivity. cbn.
      constructor; autorewrite with hs_rw; rewrite ?posted_main; cbn; try assumption.
      * rewrite bool_decide_true by done. split_and!; done.
      * right. done.
      * intros _. lia.
      * unfold queue_cfg in *. cbn. eapply queue_ok_mp; [| |exact Hq]; congruence.
    + assert ((hoff ab C x =? 0) = false) as -> by (apply Nat.eqb_neq; pose proof (hoff_pos ab C ltac:(lia) x); lia).
      assert (Hwp : hs_wp s <> WkIdle).
      { intros E. rewrite E in Hwkw, Hy. cbn in Hwkw, Hy. lia. }
      rewrite app_nil_r.
      constructor; autorewrite with hs_rw; rewrite ?(posted_busy s Hwp); cbn; try assumption.
      * split_and!; done.
      * intros _. lia.
      * unfold queue_cfg in *. cbn. eapply queue_ok_mp; [| |exact Hq]; congruence.
  - assert (x = hN ab C) by (pose proof (hoff_test ab C ltac:(lia) x ltac:(lia)); lia).
    eapply wcall_call in Hs; [|reflexivity]. destruct Hs as (-> & Hw1 & Hwinv). cbn in Hw1, Hwinv.
    constructor; autorewrite with hs_rw; cbn; try assumption.
    + by apply Hwinv.
    + by rewrite length_insert.
    + split_and!; [by left|done..].
    + eapply worker_wcfg_phM; [exact Hwkw|]. right. by rewrite HphM.
    + unfold queue_cfg in *. cbn. eapply queue_ok_mp; [| |exact Hq]; congruence.
Qed.
(** The copy of chunk [x] into the write region. *)
Lemma hinv_mp_copy :
  hs_mp s = MpCopy -> push_body s = Some s' -> hinv_at ab C R s' (S x) yo.
Proof.
  intros Hmp Hs. unfold push_body in Hs. rewrite Hmp in Hs. hinv_open H.
  rewrite Hmp in *. cbn in Hmain, Hwkw, Hwc. destruct Hmain as (HphM & Hy & HaK & Hp & HxN).
  assert (Hw : write_size (hs_px s) = hcs ab C !!! x).
  { unfold write_size. rewrite Hab, Hop, (proj1 Hx). cbn. apply hchunk_size; lia. }
  assert (Hv : push_view (hs_px s) = hchunk ab C x).
  { unfold push_view. rewrite Hw, (proj1 Hx), Hab. reflexivity. }
  pose proof (hcs_pos ab C ltac:(lia) x HxN). pose proof (hchunk_length ab C ltac:(lia) x HxN).
  rewrite Hv, Hw, HlA in Hs. rewrite (proj2 (Nat.ltb_ge _ _)) in Hs by lia. injection Hs as <-.
  pose proof (W_worker_free _ _ _ _ _ _ H ltac:(by rewrite HphM)) as HK.
  constructor; autorewrite with hs_rw; cbn; try assumption.
  - rewrite overwrite_length; lia.
  - rewrite (proj1 Hx), hoff_S by lia. split; [done|lia].
  - lia.
  - split_and!; [done|lia|lia].
  - eapply worker_wcfg_x; [exact Hwkw|done].
  - unfold queue_cfg in *. cbn. eapply queue_ok_mp; [| |exact Hq]; congruence.
  - intros _. rewrite Hy. apply overwrite_take. lia.
Qed.

(** [writeCond.notifyOne()] after the copy. *)
Lemma hinv_mp_notify :
  hs_mp s = MpNotify -> push_body s = Some s' -> hinv_at ab C R s' x yo.
Proof.
  intros Hmp Hs. unfold push_body in Hs. rewrite Hmp in Hs. hinv_open H.
  rewrite Hmp in *. cbn in Hmain, Hwkw, Hwc. destruct Hmain as (HphM & Hy & HaK).
  eapply wcall_call in Hs; [|reflexivity]. destruct Hs as (-> & Hw1 & Hwinv). cbn in Hw1, Hwinv.
  constructor; autorewrite with hs_rw; cbn; try assumption.
  - by apply Hwinv.
  - by rewrite length_insert.
  - split_and!; [by left|done..].
  - eapply worker_wcfg_phM; [exact Hwkw|]. right. by rewrite HphM.
  - unfold queue_cfg in *. cbn. eapply queue_ok_mp; [| |exact Hq]; congruence.
Qed.

(** [writeCond.wait] for the worker's read. *)
Lemma hinv_mp_wait :
  phW s W_PUSH = PhIdle \/ phW s W_PUSH = PhHeld ->
  hs_mp s = MpWait -> push_body s = Some s' -> hinv_at ab C R s' x yo.
Proof.
  intros Hrest Hmp Hs. unfold push_body in Hs. rewrite Hmp in Hs. hinv_open H.
  rewrite Hmp in *. cbn in Hmain. destruct Hmain as (Hph & Hy & HaK).
  assert (HphM : phW s W_PUSH = PhHeld) by (destruct Hph as [E|[E|E]]; rewrite E in Hrest |- *; destruct Hrest; congruence).
  rewrite HphM, mp_pending_wait in Hwkw, Hwc by done.
  eapply wcall_call in Hs; [|reflexivity]. destruct Hs as (-> & Hw1 & Hwinv). cbn in Hw1, Hwinv.
  constructor; autorewrite with hs_rw; cbn; try assumption.
  - by apply Hwinv.
  - by rewrite length_insert.
  - right. right. left. done.
  - eapply worker_wcfg_phM; [exact Hwkw|]. by right.
  - unfold queue_cfg in *. cbn. eapply queue_ok_mp; [| |exact Hq]; congruence.
Qed.
End PushSteps.

Section TaskSteps.
Context (ab : list Byte.byte) (C R : nat) (s s' : hs) (x yo : nat).
Hypothesis H : hinv_at ab C R s x yo.

(** A task at a statement is the last one: the others have returned. *)
Lemma task_is_last k r :
  k < length (hs_tasks s) -> hs_tasks s !! k = Some r -> r <> RtDone -> S k = length (hs_tasks s).
Proof.
  intros Hk Hr Hne. destruct (decide (S k < length (hs_tasks s))) as [Hlt|]; [|lia].
  destruct (hi_old _ _ _ _ _ _ H k Hlt) as [E _]. congruence.
Qed.

(** [onReceived] after [asyncLock]: the status and size tests, the
    copy out of the read region, [readCond.notifyOne()]. *)
Lemma hinv_rt_check k n :
  phR s (S k) = PhIdle \/ phR s (S k) = PhHeld -> k < length (hs_tasks s) ->
  hs_tasks s !! k = Some (RtCheck n) -> task_body k s = Some s' -> hinv_at ab C R s' x yo.
Proof.
  intros Hrest Hk Hr Hs. pose proof (task_is_last k _ Hk Hr ltac:(done)) as Hkt. hinv_open H.
  rewrite (last_task_at s k _ Hkt Hr) in Hlast, Hwkr. cbn in Hlast. rewrite <- Hkt in Hlast. cbn in Hlast.
  destruct Hlast as (-> & [E|HphT] & Hkc); [rewrite E in Hrest; destruct Hrest; congruence|].
  destruct (rcfg_gap _ _ _ _ _ _ _ Hwkr ltac:(lia)) as [[n' Hwp] Hyo'].
  rewrite Hwp in *. cbn in Hxy, HdB, Hwkr, Hmain.
  assert (Hmp : hs_mp s <> MpIdle).
  { intros E. rewrite E in Hmain. cbn in Hmain. lia. }
  unfold queue_cfg in Hq. rewrite Hwp in Hq.
  destruct (queue_ok_working _ _ _ _ _ _ _ _ _ Hq ltac:(cbn; tauto) Hmp) as [Hst Hd].
  pose proof (hcs_pos ab C ltac:(lia) k ltac:(lia)).
  unfold task_body in Hs. rewrite Hr in Hs. cbn [mbind option_bind] in Hs.
  rewrite Hst, bool_decide_true in Hs by done. cbn [negb] in Hs.
  rewrite Hop in Hs. cbn [readBufferSize] in Hs. rewrite (proj2 (Nat.ltb_ge _ _)) in Hs by lia.
  eapply rcall_call in Hs; [|reflexivity]. destruct Hs as (-> & Hr0 & Hrinv). cbn in Hr0, Hrinv.
  assert (Hl : S k < length (hs_rpcs s)) by lia.
  constructor; autorewrite with hs_rw; cbn; rewrite ?Hwp; cbn; try assumption.
  - by apply Hrinv.
  - by rewrite !length_insert.
  - rewrite (tasks_added_set s _ _ k RtUnlock _ Hkt Hl) by done.
    unfold tasks_added in Hrc. rewrite (last_task_at s k _ Hkt Hr), <- Hkt in Hrc. cbn in Hrc |- *.
    rewrite Hrc; repeat f_equal; lia.
  - rewrite (tasks_added_set s _ _ k RtUnlock _ Hkt Hl) by done. rewrite length_insert, length_app.
    change (rt_added RtUnlock (aphase_of (TNotify false NtAdd))) with 0. rewrite Nat.add_0_r.
    assert (HaT : tasks_added s = k).
    { unfold tasks_added. rewrite (last_task_at s k _ Hkt Hr), <- Hkt. cbn. lia. }
    rewrite HaT in Hwkr.
    eapply (rcfg_unlock_tasks n' _ (Some (RtCheck (hcs ab C !!! k), phR s (S k))) _ _
      (length (hs_tasks s)) _ (length (px_targets (hs_px s)))); [exact Hwkr|lia|lia].
  - by apply (old_done_set s _ _ k RtUnlock).
  - rewrite (last_task_set s _ _ k RtUnlock _ Hkt Hl) by done. rewrite length_insert, length_app, <- Hkt.
    cbn. split; [by left|lia].
  - unfold queue_cfg. cbn. rewrite length_insert, Hwp. exact Hq.
  - rewrite length_app. cbn. lia.
  - rewrite length_app. cbn [length]. rewrite Nat.add_1_r, hchunks_S. rewrite Htg at 1. f_equal. f_equal.
    rewrite <- Hkc. apply HdB. lia.
Qed.

(** [readLock.unlock()] at the end of [onReceived]. *)
Lemma hinv_rt_unlock k :
  phR s (S k) = PhIdle \/ phR s (S k) = PhHeld -> k < length (hs_tasks s) ->
  hs_tasks s !! k = Some RtUnlock -> task_body k s = Some s' -> hinv_at ab C R s' x yo.
Proof.
  intros Hrest Hk Hr Hs. pose proof (task_is_last k _ Hk Hr ltac:(done)) as Hkt. hinv_open H.
  rewrite (last_task_at s k _ Hkt Hr) in Hlast, Hwkr. cbn in Hlast. rewrite <- Hkt in Hlast. cbn in Hlast.
  destruct Hlast as (Hph & Hkc).
  assert (HphT : phR s (S k) = PhHeld) by (destruct Hph as [E|[E|E]]; rewrite E in Hrest |- *; destruct Hrest; congruence).
  rewrite HphT in Hwkr.
  assert (HW : client_holds (phR s R_WORKER) = false).
  { destruct (client_holds (phR s R_WORKER)) eqn:E; [|done].
    pose proof (excl_R _ _ _ _ _ _ H R_WORKER (S k) ltac:(unfold R_WORKER; lia) ltac:(lia) E ltac:(by rewrite HphT)).
    unfold R_WORKER in *. lia. }
  unfold task_body in Hs. rewrite Hr in Hs. cbn [mbind option_bind] in Hs.
  eapply rcall_call in Hs; [|reflexivity]. destruct Hs as (-> & Hr0 & Hrinv). cbn in Hr0, Hrinv.
  assert (Hl : S k < length (hs_rpcs s)) by lia.
  constructor; autorewrite with hs_rw; cbn; try assumption.
  - by apply Hrinv.
  - by rewrite !length_insert.
  - rewrite (tasks_added_set s _ _ k RtDone _ Hkt Hl) by done. cbn.
    unfold tasks_added in Hrc. rewrite (last_task_at s k _ Hkt Hr), HphT, rt_added_unlock, <- Hkt in Hrc by done.
    exact Hrc.
  - rewrite (tasks_added_set s _ _ k RtDone _ Hkt Hl) by done. rewrite length_insert.
    unfold tasks_added in Hwkr. rewrite (last_task_at s k _ Hkt Hr), HphT in Hwkr.
    assert (E : k + rt_added RtDone (aphase_of (TUnlock UlSub)) =
                pred (length (hs_tasks s)) + rt_added RtUnlock PhHeld)
      by (rewrite <- Hkt, rt_added_unlock by done; reflexivity).
    rewrite E. eapply rcfg_last_release; [exact Hwkr|done].
  - by apply (old_done_set s _ _ k RtDone).
  - rewrite (last_task_set s _ _ k RtDone _ Hkt Hl) by done. rewrite length_insert. cbn.
    split; [by left|lia].
  - unfold queue_cfg. cbn. by rewrite length_insert.
Qed.
End TaskSteps.

(** ** The messages from the worker *)

Lemma push_start_inited p :
  push_start (set_status INITED p) = (inr tt, set_status WORKING (set_status INITED p), [PxAcquire WRITE_LOCK]).
Proof. reflexivity. Qed.

Lemma onFinished_done p :
  px_doneSet p = true ->
  exists evs, onMessage 0 FwFinish p = (inr tt, set_status FINISHED p, evs) /\
              resolved evs = [px_targets p].
Proof.
  intros Hd. unfold onMessage, onFinished. unfold_monad. cbn. rewrite Hd.
  destruct (px_onProgress p); eexists; split; reflexivity.
Qed.

Section MainSteps.
Context (ab : list Byte.byte) (C R : nat) (s s' : hs) (x yo : nat).
Hypothesis H : hinv_at ab C R s x yo.

(** ["inited"]: [onInited] sets the status and starts [push()]. *)
Lemma hinv_main_inited :
  hs_toMain s = [FwInited] -> hs_mp s = MpIdle -> main_step s = Some s' -> hinv_at ab C R s' x yo.
Proof.
  intros Htm Hmp Hs. unfold main_step in Hs. rewrite Htm, Hmp, bool_decide_true, push_start_inited in Hs by done.
  hinv_open H. rewrite Hmp in *. cbn in Hmain, Hwkw, Hwc. destruct Hmain as (HphM & -> & Hp).
  destruct (posted_false s Hp) as [Hwp Htw]. rewrite Hwp in *. cbn in Hwkw, Hwkr, Hxy, Hwc.
  destruct Hwkw as [HphK ->]. destruct Hwkr as (HphR & Hkt & Hkc & HaT).
  assert (Hd : hs_done s = None).
  { unfold queue_cfg, queue_ok in Hq. destruct Hq as [(_ & _ & _ & Hd)|(E & _)]; [done|congruence]. }
  eapply wcall_call in Hs; [|reflexivity]. destruct Hs as (-> & Hw1 & Hwinv). cbn in Hw1, Hwinv.
  constructor; autorewrite with hs_rw; cbn; rewrite ?Hwp; cbn; try assumption.
  - by apply Hwinv.
  - by rewrite length_insert.
  - left. split_and!; done.
  - split; done.
  - split_and!; done.
  - unfold queue_cfg. cbn. rewrite Hwp, Hkt, Hd. cbn.
    apply (queue_ok_post _ _ _ _ false); [done|]. cbn. split; [done|intros [=]].
Qed.

(** ["push"]: a new [onReceived] task, up to its [asyncLock]. *)
Lemma hinv_main_push n :
  hs_toMain s = [FwPush (Some n)] -> yo + wk_posted (hs_wp s) = S (length (hs_tasks s)) ->
  n = hcs ab C !!! length (hs_tasks s) -> main_step s = Some s' -> hinv_at ab C R s' x yo.
Proof.
  intros Htm HpK Hn Hs. unfold main_step in Hs. rewrite Htm in Hs. cbn [default] in Hs. hinv_open H.
  destruct (rcfg_push_pending _ _ _ _ _ _ _ Hwkr HpK) as ([n' Hwp] & Hkt & Hkc & Hld).
  rewrite Hwp in *. cbn in Hwkr, Hxy, HdB, Hmain.
  assert (Hmp : hs_mp s <> MpIdle) by (intros E; rewrite E in Hmain; cbn in Hmain; lia).
  unfold queue_cfg in Hq. rewrite Hwp in Hq.
  destruct (queue_ok_working _ _ _ _ _ _ _ _ _ Hq ltac:(cbn; tauto) Hmp) as [Hst Hd].
  eapply rcall_call in Hs; [|reflexivity]. destruct Hs as (-> & Hr0 & Hrinv). cbn in Hr0, Hrinv.
  pose proof (tasks_added_done s Hld) as HaT.
  constructor; autorewrite with hs_rw; cbn; rewrite ?Hwp; cbn; try assumption.
  - apply Hrinv, inv_extend, Hri.
  - rewrite length_insert, !length_app. cbn. lia.
  - rewrite (tasks_added_spawn s _ _ (RtCheck n) _ Hrl) by done. cbn. rewrite Hrc, HaT. repeat f_equal. lia.
  - replace (phR (with_rpair s (hs_mem s) (hs_rpcs s ++ [Idle])) R_WORKER) with (phR s R_WORKER)
      by (unfold phR; cbn; rewrite lookup_total_app_l; [done|unfold R_WORKER; lia]).
    rewrite (tasks_added_spawn s _ _ (RtCheck n) _ Hrl) by done.
    rewrite (last_task_spawn s _ _ (RtCheck n) _ Hrl) by done. rewrite length_app. cbn.
    rewrite Nat.add_0_r, HaT in *. eapply (rcfg_unlock_tasks n' _ (last_task s) (Some (RtCheck n, PhAcq)) _ (length (hs_tasks s)) _
      (length (px_targets (hs_px s)))); [exact Hwkr|lia|lia].
  - apply (old_done_spawn s _ _ (RtCheck n) _ Hrl); done.
  - rewrite (last_task_spawn s _ _ (RtCheck n) _ Hrl) by done. rewrite length_app. cbn.
    split_and!; [by rewrite Nat.add_1_r, Nat.pred_succ | by left | lia].
  - unfold queue_cfg. cbn. rewrite Hwp, Hst, Hd, length_app, Hkt. cbn.
    apply (queue_ok_post _ _ _ _ false); [done|]. cbn. split; [done|intros [=]].
Qed.

(** ["finish"]: [onFinished] resolves [done()] with the buffers. *)
Lemma hinv_main_finish :
  hs_toMain s = [FwFinish] -> fin_posted ab C (hs_wp s) yo -> main_step s = Some s' -> hinv_at ab C R s' x yo.
Proof.
  intros Htm Hfin Hs. hinv_open H.
  destruct (onFinished_done (hs_px s) Hds) as (evs & Hev & Hres).
  unfold main_step in Hs. rewrite Htm, Hev, Hres in Hs. injection Hs as <-.
  pose proof (fin_kc_N ab C _ _ _ _ _ x yo _ _ _ _ ltac:(lia) ltac:(lia) Hwkr Hwkw Hfin) as HkN.
  unfold queue_cfg in Hq. rewrite Htm in Hq.
  assert (Hmp : hs_mp s <> MpIdle) by (destruct Hq as [(_ & E & _)|(? & _)]; done).
  constructor; autorewrite with hs_rw; cbn; try assumption.
  - unfold queue_cfg. cbn. unfold queue_ok. right. split; [done|]. split.
    + left. split; [done|]. destruct Hq as [(_ & E & _)|(_ & Hm & _)]; [done|].
      destruct Hm as [(E & _)|[(E & _)|(_ & ? & _)]]; done.
    + right. split_and!; [done| |done|done]. by rewrite Htg, HkN.
Qed.
End MainSteps.

(** ** The main thread's steps *)

Lemma hinv_push_step ab C R s s' x yo :
  hinv_at ab C R s x yo -> push_step s = Some s' ->
  hinv_at ab C R s' x yo \/ hinv_at ab C R s' (S x) yo.
Proof.
  intros H Hs. apply push_step_open in Hs as [Hrest Hs]; [|apply (hi_wlen _ _ _ _ _ _ H)].
  destruct (hs_mp s) eqn:Hmp.
  - unfold push_body in Hs. by rewrite Hmp in Hs.
  - left. by apply (hinv_mp_test ab C R s).
  - right. by apply (hinv_mp_copy ab C R s).
  - left. by apply (hinv_mp_notify ab C R s).
  - left. by apply (hinv_mp_wait ab C R s).
  - unfold push_body in Hs. by rewrite Hmp in Hs.
  - unfold push_body in Hs. by rewrite Hmp in Hs.
Qed.

Lemma hinv_task_step ab C R s s' x yo k :
  hinv_at ab C R s x yo -> task_step k s = Some s' -> hinv_at ab C R s' x yo.
Proof.
  intros H Hs. apply task_step_open in Hs as (Hk & Hrest & Hs); [|apply (hi_rlen _ _ _ _ _ _ H)].
  destruct (hs_tasks s !! k) as [r|] eqn:Hr; [|unfold task_body in Hs; by rewrite Hr in Hs].
  destruct r.
  - by apply (hinv_rt_check ab C R s _ _ _ H k size).
  - by apply (hinv_rt_unlock ab C R s _ _ _ H k).
  - unfold task_body in Hs. by rewrite Hr in Hs.
  - unfold task_body in Hs. by rewrite Hr in Hs.
  - unfold task_body in Hs. by rewrite Hr in Hs.
Qed.

Lemma hinv_main_step ab C R s s' x yo :
  hinv_at ab C R s x yo -> main_step s = Some s' -> hinv_at ab C R s' x yo.
Proof.
  intros H Hs. pose proof (hi_queue _ _ _ _ _ _ H) as Hq. unfold queue_cfg, queue_ok in Hq.
  destruct Hq as [(Hmp & Htm & _)|(Hmp & Htm & _)]; [by apply (hinv_main_inited ab C R s)|].
  destruct Htm as [(Htm & _)|[(Htm & HpK)|(Htm & _ & Hfin)]].
  - unfold main_step in Hs. by rewrite Htm in Hs.
  - by apply (hinv_main_push ab C R s _ _ _ H (hcs ab C !!! length (hs_tasks s))).
  - by apply (hinv_main_finish ab C R s).
Qed.
