(* ===== verification/HandshakeRun.v ===== *)
(** * The atomic steps inside the lock and condition functions keep the invariant

    An [HRunW] or [HRunR] step is one atomic operation of an agent
    inside [asyncLock], [unlock], [notifyOne] or [wait] (lock.js).
    On each pair, the invariant's part about that pair is a predicate
    of the phases of its agents and of its sequence cell ([wpair_ok],
    [rpair_ok]); one lemma per kind of atomic step ([astep] of
    [Phase.v]) shows it preserved, and [pair_run] connects these to
    [Sync.v]'s transition. *)

From S2P Require Import Prelude Monad Int32 Atomics Lock Cond Sync Phase Chunking Proxy Worker Pipeline Handshake HandshakeInv.

Ltac brk := repeat match goal with
  | H : False |- _ => destruct H
  | H : _ /\ _ |- _ => destruct H
  | H : _ \/ _ |- _ => destruct H
  | H : exists _, _ |- _ => destruct H
  end.

Lemma wk_added_le wp ph : wk_added wp ph <= wk_read wp.
Proof. destruct wp; cbn; try case_decide; lia. Qed.

Lemma wrap32_nat_succ_neq a b : b = S a -> wrap32 (Z.of_nat b) <> wrap32 (Z.of_nat a).
Proof. intros ->. apply wrap32_S_neq. Qed.

Lemma main_cfg_phK_free ab C mp ph phK phK' x y aK pst :
  main_cfg ab C mp ph phK x y aK pst -> ph <> PhParked -> main_cfg ab C mp ph phK' x y aK pst.
Proof. destruct mp; cbn; naive_solver. Qed.

Lemma worker_wcfg_phM_free ab C wp ph phM phM' x yo aM :
  worker_wcfg ab C wp ph phM x yo aM -> ph <> PhParked -> worker_wcfg ab C wp ph phM' x yo aM.
Proof. destruct wp; cbn; naive_solver. Qed.

Lemma mp_pending_wake mp : mp_pending mp PhParked = mp_pending mp PhRelock.
Proof. by destruct mp. Qed.

Lemma wk_added_wake wp : wk_added wp PhParked = wk_added wp PhRelock.
Proof. by destruct wp. Qed.

Section WPair.
Context (ab : list Byte.byte) (C : nat) (mp : mpc) (wp : wpc) (x yo : nat) (pst : bool).
Hypothesis HC : 0 < C.
Hypothesis Hx : x <= hN ab C.
Hypothesis Hpst : pst = true -> 0 < hN ab C.
Hypothesis Hpf : pst = false -> wp = WkIdle.
Hypothesis Hpt : wp <> WkIdle -> pst = true.
Hypothesis Hxy1 : yo + wk_read wp <= x.
Hypothesis Hxy2 : x <= S (yo + wk_read wp).

(** The write pair's part of the invariant: the sequence cell [c] and
    where [push()] ([phM]) and the worker ([phK]) can be. *)
Definition wpair_ok (phK phM : aphase) (c : Z) : Prop :=
  c = wrap32 (Z.of_nat (x - mp_pending mp phM + (yo + wk_added wp phK))) /\
  main_cfg ab C mp phM phK x (yo + wk_read wp) (yo + wk_added wp phK) pst /\
  worker_wcfg ab C wp phK phM x yo (x - mp_pending mp phM).

(** The worker acquires the lock at its first [asyncLock]: [push()] has copied the first chunk. *)
Lemma wk_acq_held phM c :
  wpair_ok PhAcq phM c -> client_holds phM = false -> wpair_ok PhHeld phM c.
Proof.
  unfold wpair_ok. intros (Hc & Hm & Hw) Hh.
  destruct wp eqn:Ewp; cbn in Hw; brk; try discriminate. subst.
  pose proof (Hpt ltac:(congruence)) as Hp. pose proof (Hpst Hp).
  split_and!; [done| |].
  - eapply main_cfg_phK; [exact Hm|]. by right.
  - cbn. right. split; [done|]. left.
    destruct mp; cbn in Hm; brk; subst; try discriminate; try lia.
Qed.
Lemma wk_unlock_idle phM c : wpair_ok PhUnlock phM c -> wpair_ok PhIdle phM c.
Proof.
  unfold wpair_ok. intros (Hc & Hm & Hw).
  destruct wp eqn:Ewp; cbn in Hw; brk; try discriminate. try subst wp.
  split_and!; [done| |by split; [right|]].
  eapply main_cfg_phK; [exact Hm|]. by right.
Qed.

Lemma wk_load phM c : wpair_ok PhLoad phM c -> wpair_ok (PhWait c) phM c.
Proof.
  unfold wpair_ok. intros (Hc & Hm & Hw).
  destruct wp eqn:Ewp; cbn in Hw; brk; try discriminate. try subst wp.
  split_and!; [done| |].
  - eapply main_cfg_phK; [exact Hm|]. by right.
  - cbn. split; [done|]. right. split; [done|]. right. left. eexists. split_and!; [reflexivity| |by left].
    rewrite Hc. do 2 f_equal. cbn. lia.
Qed.

Ltac inj_wait := match goal with H : PhWait _ = PhWait _ |- _ => injection H as <- end.

Lemma wk_park v phM c :
  c = wrap32 v -> wpair_ok (PhWait v) phM c -> wpair_ok PhParked phM c.
Proof.
  unfold wpair_ok. intros Hcv (Hc & Hm & Hw).
  destruct wp eqn:Ewp; cbn in Hw; brk; try discriminate; try subst wp; inj_wait; subst v.
  - split_and!; [done| |].
    + eapply main_cfg_phK; [exact Hm|]. by right.
    + cbn. split; [done|]. right. split; [done|]. right. right. left. split; [done|by left].
  - exfalso. rewrite wrap32_idem, Hc in Hcv. cbn in Hcv.
    replace (x - mp_pending mp phM) with (S (S yo)) in Hcv by lia.
    eapply (wrap32_nat_succ_neq (S yo + S yo)); [|exact Hcv]. lia.
Qed.

Lemma wk_noteq v phM c :
  c <> wrap32 v -> wpair_ok (PhWait v) phM c -> wpair_ok PhRelock phM c.
Proof.
  unfold wpair_ok. intros Hcv (Hc & Hm & Hw).
  destruct wp eqn:Ewp; cbn in Hw; brk; try discriminate; try subst wp; inj_wait; subst v.
  - exfalso. apply Hcv. rewrite wrap32_idem, Hc. cbn. do 2 f_equal. lia.
  - split_and!; [done| |].
    + eapply main_cfg_phK; [exact Hm|]. by right.
    + cbn. split; [done|]. right. split; [done|]. do 3 right. left. done.
Qed.

Lemma wk_relock_held phM c :
  client_holds phM = false -> wpair_ok PhRelock phM c -> wpair_ok PhHeld phM c.
Proof.
  unfold wpair_ok. intros Hh (Hc & Hm & Hw).
  pose proof (main_pending_free _ _ _ _ _ _ _ _ _ Hm Hh) as Hp.
  destruct wp eqn:Ewp; cbn in Hw; brk; try discriminate; simplify_eq; try subst wp.
  split_and!; [done| |].
  - eapply main_cfg_phK; [exact Hm|]. by right.
  - cbn. split; [done|]. right. split; [done|]. do 4 right. split; [done|lia].
Qed.
(** The worker's [writeCond.notifyOne()] adds to the sequence cell. *)
Lemma wk_add phM c :
  client_holds phM = false -> wpair_ok (PhNotify false) phM c ->
  wpair_ok (PhNotify true) phM (wrap32 (c + 1)).
Proof.
  unfold wpair_ok. intros Hh (Hc & Hm & Hw).
  destruct wp eqn:Ewp; cbn in Hw; brk; try discriminate; try subst wp.
  rewrite wk_added_wait by done. rewrite wk_added_wait_nf in Hc, Hm. split_and!.
  - rewrite Hc, wrap32_S. do 2 f_equal. lia.
  - destruct mp; cbn in Hm |- *; brk; subst; try discriminate; try lia.
    + right. right. right. left. eexists. split_and!; [reflexivity|done|done|right; lia].
    + right. right. right. right. left. split_and!; [done|done|right; split; [lia|done]].
  - cbn. split_and!; [by right; left|done..].
Qed.

(** The worker's [notifyOne] wakes [push()] if it sleeps in [wait]. *)
Lemma wk_wake phM phM' c :
  client_holds phM = false ->
  (phM = PhParked -> phM' = PhRelock) -> (phM' = phM \/ phM = PhParked /\ phM' = PhRelock) ->
  wpair_ok (PhNotify true) phM c -> wpair_ok PhHeld phM' c.
Proof.
  unfold wpair_ok. intros Hh Hw1 Hw2 (Hc & Hm & Hw). revert Hw1 Hw2.
  destruct wp eqn:Ewp; cbn in Hw; brk; try discriminate; try subst wp. intros Hw1 Hw2.
  rewrite wk_added_wait in Hc, Hm |- * by done.
  destruct Hw2 as [->|[-> ->]].
  - assert (phM <> PhParked) by (intros E; specialize (Hw1 E); congruence).
    split_and!; [done| |].
    + by eapply main_cfg_phK_free.
    + cbn. split_and!; [by right; right|done..].
  - rewrite <- mp_pending_wake. split_and!; [done| |].
    + destruct mp; cbn in Hm |- *; brk; subst; try discriminate; try lia.
      do 5 right. split_and!; [done|lia..].
    + cbn. split_and!; [by right; right|done..].
Qed.
(** [push()] acquires the write lock at its first [asyncLock]:
    the worker has not started. *)
Lemma mp_acq_held phK c :
  wpair_ok phK PhAcq c -> wpair_ok phK PhHeld c.
Proof.
  unfold wpair_ok. intros (Hc & Hm & Hw).
  destruct mp eqn:Emp; cbn in Hm; brk; try discriminate; try subst mp. subst.
  rewrite (Hpf eq_refl) in *. cbn in Hw |- *. brk. subst.
  split; [done|]. split; [|done]. right. left. split_and!; done.
Qed.

Lemma mp_unlock_idle phK c : wpair_ok phK PhUnlock c -> wpair_ok phK PhIdle c.
Proof.
  unfold wpair_ok. intros (Hc & Hm & Hw).
  destruct mp eqn:Emp; cbn in Hm; brk; try discriminate; try subst mp.
  split_and!; [done|by split_and!; [right|..]|].
  eapply worker_wcfg_phM; [exact Hw|]. by right.
Qed.

Lemma mp_load phK c : wpair_ok phK PhLoad c -> wpair_ok phK (PhWait c) c.
Proof.
  unfold wpair_ok. intros (Hc & Hm & Hw).
  destruct mp eqn:Emp; cbn in Hm; brk; try discriminate; try subst mp.
  split_and!; [done| |].
  - cbn. right. right. right. left. eexists. split_and!; [reflexivity| |lia|left; lia].
    rewrite Hc. cbn. do 2 f_equal. lia.
  - eapply worker_wcfg_phM; [exact Hw|]. by right.
Qed.

Lemma mp_park v phK c :
  c = wrap32 v -> wpair_ok phK (PhWait v) c -> wpair_ok phK PhParked c.
Proof.
  unfold wpair_ok. intros Hcv (Hc & Hm & Hw).
  destruct mp eqn:Emp; cbn in Hm; brk; try discriminate; try subst mp; inj_wait; subst v.
  - split_and!; [done| |].
    + cbn. do 4 right. left. split_and!; [done|lia|by left].
    + eapply worker_wcfg_phM; [exact Hw|]. by right.
  - exfalso. rewrite wrap32_idem, Hc in Hcv. cbn in Hcv.
    eapply (wrap32_nat_succ_neq (x + (x - 1))); [|exact Hcv]. lia.
Qed.

Lemma mp_noteq v phK c :
  c <> wrap32 v -> wpair_ok phK (PhWait v) c -> wpair_ok phK PhRelock c.
Proof.
  unfold wpair_ok. intros Hcv (Hc & Hm & Hw).
  destruct mp eqn:Emp; cbn in Hm; brk; try discriminate; try subst mp; inj_wait; subst v.
  - exfalso. apply Hcv. rewrite wrap32_idem, Hc. cbn. do 2 f_equal. lia.
  - split_and!; [done| |].
    + cbn. do 5 right. split_and!; [done|lia|lia].
    + eapply worker_wcfg_phM; [exact Hw|]. by right.
Qed.

Lemma mp_relock_held phK c :
  wpair_ok phK PhRelock c -> wpair_ok phK PhHeld c.
Proof.
  unfold wpair_ok. intros (Hc & Hm & Hw). pose proof (wk_added_le wp phK).
  destruct mp eqn:Emp; cbn in Hm; brk; try discriminate; try subst mp.
  split_and!; [done| |].
  - cbn. right. left. split_and!; [done|lia|lia|lia].
  - eapply worker_wcfg_phM; [exact Hw|]. by right.
Qed.
(** [push()]'s [writeCond.notifyOne()] after its copy. *)
Lemma mp_add phK c :
  client_holds phK = false -> wpair_ok phK (PhNotify false) c ->
  wpair_ok phK (PhNotify true) (wrap32 (c + 1)).
Proof.
  unfold wpair_ok. intros Hh (Hc & Hm & Hw).
  destruct mp eqn:Emp; cbn in Hm; brk; try discriminate; try subst mp.
  rewrite mp_pending_wait_nf in Hc, Hw. rewrite mp_pending_wait by done. split_and!.
  - rewrite Hc, wrap32_S. do 2 f_equal. lia.
  - cbn. split_and!; [by right; left|done|done].
  - destruct wp eqn:Ewp; cbn in Hw |- *; brk; subst; cbn in *; try discriminate; try lia; try done;
      naive_solver lia.
Qed.

(** [push()]'s [notifyOne] wakes the worker if it sleeps in [wait]. *)
Lemma mp_wake phK phK' c :
  client_holds phK = false ->
  (phK = PhParked -> phK' = PhRelock) -> (phK' = phK \/ phK = PhParked /\ phK' = PhRelock) ->
  wpair_ok phK (PhNotify true) c -> wpair_ok phK' PhHeld c.
Proof.
  unfold wpair_ok. intros Hh Hw1 Hw2 (Hc & Hm & Hw). revert Hw1 Hw2.
  destruct mp eqn:Emp; cbn in Hm; brk; try discriminate; try subst mp. intros Hw1 Hw2.
  rewrite mp_pending_wait in Hc, Hw |- * by done.
  destruct Hw2 as [->|[-> ->]].
  - assert (phK <> PhParked) by (intros E; specialize (Hw1 E); congruence).
    split_and!; [done|by cbn; split_and!; [right; right|..]|].
    by eapply worker_wcfg_phM_free.
  - rewrite <- wk_added_wake. split_and!; [done|by cbn; split_and!; [right; right|..]|].
    destruct wp eqn:Ewp; cbn in Hw |- *; brk; subst; cbn in *; try discriminate; try lia; try done;
      naive_solver lia.
Qed.
(** One atomic step of the worker on the write pair. *)
Lemma wpair_step_worker phK phK' phM phM' c :
  wpair_ok phK phM c -> astep c phK phK' ->
  (client_holds phK = false \/ client_holds phM = false) ->
  ((phK = PhAcq \/ phK = PhRelock) -> phK' = PhHeld -> client_holds phM = false) ->
  (phM' = phM \/ phM = PhParked /\ phM' = PhRelock /\ phK = PhNotify true) ->
  (phK = PhNotify true -> phM = PhParked -> phM' = PhRelock) ->
  wpair_ok phK' phM' (if bool_decide (phK = PhNotify false) then wrap32 (c + 1) else c).
Proof.
  intros Hok Hst Hex Hacq Hoth Hwk.
  destruct Hoth as [->|(HP & HR & E)];
    [|subst; destruct Hex as [Hex|Hex]; [done|]; inversion Hst; subst;
      rewrite bool_decide_false by done; apply (wk_wake PhParked); [done|done|by right|done]].
  inversion Hst; subst; rewrite ?bool_decide_false by done; rewrite ?bool_decide_true by done.
  - done.
  - apply wk_acq_held; [done|]. apply Hacq; [by left|done].
  - done.
  - by apply wk_unlock_idle.
  - by apply wk_load.
  - done.
  - by eapply wk_park.
  - by eapply wk_noteq.
  - done.
  - apply wk_relock_held; [|done]. apply Hacq; [by right|done].
  - apply wk_add; [destruct Hex; done|done].
  - eapply (wk_wake phM); [destruct Hex; done|by intros; apply Hwk|by left|done].
Qed.

(** One atomic step of [push()] on the write pair. *)
Lemma wpair_step_main phK phK' phM phM' c :
  wpair_ok phK phM c -> astep c phM phM' ->
  (client_holds phK = false \/ client_holds phM = false) ->
  ((phM = PhAcq \/ phM = PhRelock) -> phM' = PhHeld -> client_holds phK = false) ->
  (phK' = phK \/ phK = PhParked /\ phK' = PhRelock /\ phM = PhNotify true) ->
  (phM = PhNotify true -> phK = PhParked -> phK' = PhRelock) ->
  wpair_ok phK' phM' (if bool_decide (phM = PhNotify false) then wrap32 (c + 1) else c).
Proof.
  intros Hok Hst Hex Hacq Hoth Hwk.
  destruct Hoth as [->|(HP & HR & E)];
    [|subst; destruct Hex as [Hex|Hex]; [|done]; inversion Hst; subst;
      rewrite bool_decide_false by done; apply (mp_wake PhParked); [done|done|by right|done]].
  inversion Hst; subst; rewrite ?bool_decide_false by done; rewrite ?bool_decide_true by done.
  - done.
  - by apply mp_acq_held.
  - done.
  - by apply mp_unlock_idle.
  - by apply mp_load.
  - done.
  - by eapply mp_park.
  - by eapply mp_noteq.
  - done.
  - by apply mp_relock_held.
  - apply mp_add; [destruct Hex; done|done].
  - eapply (mp_wake phK); [destruct Hex; done|by intros; apply Hwk|by left|done].
Qed.
End WPair.

(** ** The write pair's atomic steps *)

Lemma pairs_disjoint_W :
  READ_LOCK <> WRITE_LOCK /\ READ_LOCK <> WRITE_COND /\ READ_COND <> WRITE_LOCK /\ READ_COND <> WRITE_COND.
Proof. vm_compute. split_and!; done. Qed.

Lemma pairs_disjoint_R :
  WRITE_LOCK <> READ_LOCK /\ WRITE_LOCK <> READ_COND /\ WRITE_COND <> READ_LOCK /\ WRITE_COND <> READ_COND.
Proof. vm_compute. split_and!; done. Qed.

(** An agent that the step does not hold the lock for is not in a
    client-holding phase. *)
Lemma not_holds_phase q : holds q = false -> client_holds (aphase_of q) = false.
Proof. intros H. destruct (client_holds _) eqn:E; [|done]. by rewrite (client_holds_holds q E) in H. Qed.

Lemma hinv_runW ab C R s s' x yo t :
  hinv_at ab C R s x yo -> wcall t ARun s = Some s' -> hinv_at ab C R s' x yo.
Proof.
  intros H Hs. hinv_open H. unfold wcall in Hs.
  destruct (tstep _ _ _ _ _) as [s2|] eqn:E; [|done]. cbn in Hs. injection Hs as <-.
  destruct (pair_run _ _ _ _ pairs_disjoint_W _ _ _ _ _ Hwi Hri E)
    as (c & p & p' & ws & Hc & Hp & _ & Hast & Hc' & Hoth & Hacq & Hwk & Hself & Hwi2 & Hri2 & Hcr & Hlen).
  pose proof (lookup_lt_Some _ _ _ Hp) as Ht. rewrite Hwl in Ht.
  assert (Hok : wpair_ok ab C (hs_mp s) (hs_wp s) x yo (posted s) (phW s W_WORKER) (phW s W_PUSH) c).
  { split_and!; [|exact Hmain|exact Hwkw]. rewrite Hwc in Hc. by injection Hc. }
  assert (Hex : client_holds (phW s W_WORKER) = false \/ client_holds (phW s W_PUSH) = false).
  { destruct (client_holds (phW s W_WORKER)) eqn:E0; [right|by left]. by apply (W_main_free _ _ _ _ _ _ H). }
  assert (L0 : hs_wpcs s !! 0 = Some (hs_wpcs s !!! 0)) by (apply list_lookup_lookup_total_lt; lia).
  assert (L1 : hs_wpcs s !! 1 = Some (hs_wpcs s !!! 1)) by (apply list_lookup_lookup_total_lt; lia).
  set (pK' := aphase_of (sys_pcs s2 !!! 0)). set (pM' := aphase_of (sys_pcs s2 !!! 1)).
  assert (Hnew : wpair_ok ab C (hs_mp s) (hs_wp s) x yo (posted s) pK' pM'
                   (if bool_decide (aphase_of p = PhNotify false) then wrap32 (c + 1) else c)).
  { destruct t as [|[|t]]; [| |lia]; rewrite L0 in Hp || rewrite L1 in Hp; injection Hp as <-.
    - eapply wpair_step_worker with (phM := phW s W_PUSH);
        [lia|lia|exact Hpst|intros E0; by destruct (posted_false s E0)|apply posted_busy|lia|lia
        |exact Hok|unfold pK'; rewrite Hself; exact Hast|exact Hex| | |].
      + intros Ha Hh. unfold pK' in Hh. rewrite Hself in Hh. apply not_holds_phase, (Hacq Ha Hh 1), L1.
      + unfold pM'. destruct (Hoth 1 _ ltac:(done) L1) as [->|(? & -> & ?)]; [by left|by right].
      + intros Hn Hpk. apply (Hwk Hn 1 _ ltac:(done) L1 Hpk).
        intros u' q' Hu' Hq'. destruct u' as [|[|u']]; try done; [|by apply lookup_lt_Some in Hu'; lia].
        rewrite L0 in Hu'. injection Hu' as <-. unfold phW in Hn. congruence.
    - eapply wpair_step_main with (phK := phW s W_WORKER);
        [lia|lia|exact Hpst|intros E0; by destruct (posted_false s E0)|apply posted_busy|lia|lia
        |exact Hok|unfold pM'; rewrite Hself; exact Hast|exact Hex| | |].
      + intros Ha Hh. unfold pM' in Hh. rewrite Hself in Hh. apply not_holds_phase, (Hacq Ha Hh 0), L0.
      + unfold pK'. destruct (Hoth 0 _ ltac:(done) L0) as [->|(? & -> & ?)]; [by left|by right].
      + intros Hn Hpk. apply (Hwk Hn 0 _ ltac:(done) L0 Hpk).
        intros u' q' Hu' Hq'. destruct u' as [|[|u']]; try done; [|by apply lookup_lt_Some in Hu'; lia].
        rewrite L1 in Hu'. injection Hu' as <-. unfold phW in Hn. congruence. }
  destruct Hnew as (Hc2 & Hm2 & Hw2).
  constructor; autorewrite with hs_rw; cbn; try assumption.
  - by destruct s2.
  - by rewrite Hlen.
  - rewrite Hc'. f_equal. exact Hc2.
  - by rewrite Hcr.
Qed.

(** ** The read pair *)

(** The last task's configuration, or no task. *)
Definition last_cfg (ab : list Byte.byte) (C : nat) (lt : option (rpc * aphase)) (kt kc : nat) : Prop :=
  match lt with
  | None => kt = 0 /\ kc = 0
  | Some (r, q) => kt <> 0 /\ task_cfg ab C r q (pred kt) kc
  end.

(** The notifications of [kt] tasks whose last is [lt] ([tasks_added]). *)
Definition added_of (kt : nat) (lt : option (rpc * aphase)) : nat :=
  pred kt + match lt with Some (r, q) => rt_added r q | None => 0 end.

Lemma rcfg_lt_change wp ph lt lt' yo kt kc aT :
  worker_rcfg wp ph lt yo kt kc aT -> (last_done lt <-> last_done lt') ->
  (ph = PhParked -> (option_map snd lt = Some (PhNotify true) <-> option_map snd lt' = Some (PhNotify true))) ->
  worker_rcfg wp ph lt' yo kt kc aT.
Proof. destruct wp; cbn; try done; intros Hw H1 H2; brk; subst; naive_solver. Qed.

Section RPair.
Context (ab : list Byte.byte) (C : nat) (wp : wpc) (yo kt kc : nat).

(** The read pair's part of the invariant: the worker's phase [ph],
    the last task [lt] and the sequence cell [c]. *)
Definition rpair_ok (ph : aphase) (lt : option (rpc * aphase)) (c : Z) : Prop :=
  worker_rcfg wp ph lt yo kt kc (added_of kt lt) /\ last_cfg ab C lt kt kc /\
  c = wrap32 (Z.of_nat (added_of kt lt)).

Lemma rpair_worker_not_notify ph lt c : rpair_ok ph lt c -> ph <> PhNotify false.
Proof. intros (Hw & _ & _) ->. destruct wp; cbn in Hw; brk; discriminate. Qed.

(** One atomic step of the worker on the read pair. *)
Lemma rpair_step_worker ph ph' lt c :
  rpair_ok ph lt c -> astep c ph ph' ->
  ((ph = PhAcq \/ ph = PhRelock) -> ph' = PhHeld ->
     forall r q, lt = Some (r, q) -> client_holds q = false) ->
  rpair_ok ph' lt c.
Proof.
  intros Hok Hst Hacq. unfold rpair_ok in *. destruct Hok as (Hw & Hl & Hc).
  set (aT := added_of kt lt) in *. clearbody aT.
  inversion Hst; subst; try done; split_and!; try done.
  - (* acquire at the copy *)
    destruct wp; cbn in Hw |- *; brk; try discriminate; subst.
    split_and!; try done. right. split; [done|]. destruct lt as [[r q]|]; [|done].
    pose proof (Hacq ltac:(by left) eq_refl r q eq_refl) as Hq.
    destruct r; cbn in Hl |- *; brk; subst; try done; first [lia|naive_solver].
  - destruct wp; cbn in Hw |- *; brk; try discriminate; subst; naive_solver.
  - destruct wp; cbn in Hw |- *; brk; try discriminate; subst; naive_solver.
  - destruct wp; cbn in Hw |- *; brk; try discriminate; simplify_eq; try naive_solver.
    all: exfalso; rewrite wrap32_idem in H; eapply (wrap32_nat_succ_neq yo); [|exact H]; lia.
  - destruct wp; cbn in Hw |- *; brk; try discriminate; simplify_eq; try naive_solver.
    all: exfalso; apply H; by rewrite wrap32_idem.
  - destruct wp; cbn in Hw |- *; brk; try discriminate; subst; naive_solver.
  - exfalso. destruct wp; cbn in Hw; brk; discriminate.
  - exfalso. destruct wp; cbn in Hw; brk; discriminate.
Qed.
(** A step of the last task that changes neither the count nor what the
    worker's configuration reads of it. *)
Lemma rpair_task_same ph r q q' c :
  rpair_ok ph (Some (r, q)) c -> task_cfg ab C r q' (pred kt) kc ->
  (last_done (Some (r, q)) <-> last_done (Some (r, q'))) ->
  (ph = PhParked -> q <> PhNotify true /\ q' <> PhNotify true) ->
  rt_added r q = rt_added r q' -> rpair_ok ph (Some (r, q')) c.
Proof.
  unfold rpair_ok, added_of. intros (Hw & [Hk _] & Hc) Ht Hd Hp Ha. rewrite <- Ha.
  split_and!; [|done|done]. eapply rcfg_lt_change; [exact Hw|exact Hd|]. cbn. naive_solver.
Qed.

(** One atomic step of the last task on the read pair: the worker's phase
    is unchanged except that the task's notify wakes it when it is parked. *)
Lemma rpair_step_task ph ph' r q q' c :
  rpair_ok ph (Some (r, q)) c -> astep c q q' ->
  (client_holds ph = true -> client_holds q = true -> False) ->
  (ph' = ph \/ (ph = PhParked /\ ph' = PhRelock /\ q = PhNotify true)) ->
  (q = PhNotify true -> ph = PhParked -> ph' = PhRelock) ->
  rpair_ok ph' (Some (r, q'))
    (if bool_decide (q = PhNotify false) then wrap32 (c + 1) else c).
Proof.
  intros Hok Hst Hex Hoth Hwk. pose proof Hok as (Hw & [Hk Ht] & Hc).
  revert Hoth. inversion Hst; subst q q'; rewrite ?bool_decide_false by done;
    destruct r; cbn in Ht; brk; try discriminate; intros Hoth;
    try (destruct Hoth as [->|(_ & _ & ?)]; [|discriminate];
         eapply rpair_task_same; [exact Hok|cbn; naive_solver|cbn; naive_solver|done|done]).
  - (* the notify counts *)
    rewrite bool_decide_true by done. destruct Hoth as [->|(_ & _ & ?)]; [|discriminate].
    unfold rpair_ok, added_of in *. cbn in Hw, Hc |- *. rewrite Nat.add_0_r in Hw, Hc.
    rewrite decide_False by done.
    split; [|split; [split; [done|split; [by right; left|done]]|rewrite Hc, wrap32_S; f_equal; lia]].
    destruct wp; cbn in Hw |- *; brk; subst; try lia; try (exfalso; by apply (Hex eq_refl)).
    all: split; [by right|]; naive_solver lia.
  - (* the notify has counted: the parked worker is woken *)
    unfold rpair_ok, added_of in *. cbn in Hw, Hc |- *.
    split; [|split; [split; [done|split; [by right; right|done]]|done]].
    destruct (decide (ph = PhParked)) as [->|Hnp].
    + rewrite (Hwk eq_refl eq_refl). destruct wp; cbn in Hw |- *; brk; subst; try lia; try discriminate.
      all: split; [by right|]; naive_solver lia.
    + destruct Hoth as [->|(? & _)]; [|done].
      eapply rcfg_lt_change; [exact Hw|cbn; naive_solver|done].
Qed.
End RPair.

(** The tasks are never parked on the read condition. *)
Lemma task_not_parked ab C R s x yo u :
  hinv_at ab C R s x yo -> u <> R_WORKER -> phR s u <> PhParked.
Proof.
  intros H Hu. destruct u as [|j]; [done|].
  destruct (decide (S j < length (hs_tasks s))) as [Hj|Hj].
  { destruct (hi_old _ _ _ _ _ _ H j Hj) as [_ [-> | ->]]; discriminate. }
  destruct (decide (S j = length (hs_tasks s))) as [Hk|Hk].
  - destruct (lookup_lt_is_Some_2 (hs_tasks s) j) as [r Hr]; [lia|].
    pose proof (hi_last _ _ _ _ _ _ H) as Hl. rewrite (last_task_at s j r Hk Hr) in Hl.
    intros E. rewrite E in Hl. destruct r; cbn in Hl; brk; discriminate.
  - pose proof (hi_rlen _ _ _ _ _ _ H). unfold phR.
    rewrite list_lookup_total_alt, lookup_ge_None_2 by lia. discriminate.
Qed.

(** The read pair's part of the invariant, read off a state. *)
Lemma hinv_rpair_ok ab C R s x yo :
  hinv_at ab C R s x yo ->
  rpair_ok ab C (hs_wp s) yo (length (hs_tasks s)) (length (px_targets (hs_px s)))
    (phR s R_WORKER) (last_task s) (wrap32 (Z.of_nat (tasks_added s))).
Proof.
  intros H. split_and!; [exact (hi_wkr _ _ _ _ _ _ H)| |reflexivity].
  pose proof (last_task_len s). pose proof (hi_last _ _ _ _ _ _ H).
  destruct (last_task s) as [[r q]|]; by split.
Qed.

(** An agent of a pair that is not parked keeps its phase when another
    one runs. *)
Lemma run_other_phase (pcs pcs2 : list tpc) t u p :
  length pcs2 = length pcs ->
  (forall u q, u <> t -> pcs !! u = Some q ->
     aphase_of (pcs2 !!! u) = aphase_of q \/
     (aphase_of q = PhParked /\ aphase_of (pcs2 !!! u) = PhRelock /\ p = PhNotify true)) ->
  u <> t -> aphase_of (pcs !!! u) <> PhParked -> aphase_of (pcs2 !!! u) = aphase_of (pcs !!! u).
Proof.
  intros Hlen Hoth Hu Hnp. destruct (pcs !! u) as [q|] eqn:E.
  - rewrite (list_lookup_total_correct _ _ _ E) in Hnp |- *.
    destruct (Hoth u q Hu E) as [?|(? & _)]; [done|contradiction].
  - apply lookup_ge_None_1 in E. rewrite !list_lookup_total_alt, !lookup_ge_None_2 by lia. done.
Qed.

Lemma last_task_same s s' :
  hs_tasks s' = hs_tasks s ->
  (length (hs_tasks s) <> 0 -> phR s' (length (hs_tasks s)) = phR s (length (hs_tasks s))) ->
  last_task s' = last_task s.
Proof.
  intros Ht Hp. unfold last_task. rewrite Ht. destruct (last (hs_tasks s)) eqn:E; [|done].
  cbn. rewrite Hp; [done|]. apply last_Some in E as (l & ->). rewrite length_app. cbn. lia.
Qed.

Lemma last_task_phase s r q : last_task s = Some (r, q) -> q = phR s (length (hs_tasks s)).
Proof. unfold last_task. intros (r' & _ & E)%fmap_Some. by injection E as _ ->. Qed.

Lemma old_done_same s s' :
  hs_tasks s' = hs_tasks s ->
  (forall j, S j < length (hs_tasks s) -> phR s (S j) = PhUnlock \/ phR s (S j) = PhIdle ->
     phR s' (S j) = PhUnlock \/ phR s' (S j) = PhIdle) ->
  old_done s -> old_done s'.
Proof.
  intros Ht Hp Ho j. unfold old_done in Ho. rewrite Ht. intros Hj.
  destruct (Ho j Hj) as [? Hq]. split; [done|]. by apply Hp.
Qed.

(** An atomic step on the read pair (the worker's [readCond] calls or a
    task's [readLock]/[readCond] calls) preserves the invariant. *)
Lemma hinv_runR ab C R s s' x yo t :
  hinv_at ab C R s x yo -> rcall t ARun s = Some s' -> hinv_at ab C R s' x yo.
Proof.
  intros H Hs. pose proof (hinv_rpair_ok _ _ _ _ _ _ H) as Hok.
  pose proof (fun u => task_not_parked ab C R s x yo u H) as Hnp. hinv_open H. unfold rcall in Hs.
  destruct (tstep _ _ _ _ _) as [s2|] eqn:E; [|done]. cbn in Hs. injection Hs as <-.
  destruct (pair_run _ _ _ _ pairs_disjoint_R _ _ _ _ _ Hri Hwi E)
    as (c & p & p' & ws & Hc & Hp & _ & Hast & Hc' & Hoth & Hacq & Hwk & Hself & Hri2 & Hwi2 & Hcw & Hlen).
  rewrite Hrc in Hc. injection Hc as Hc0. rewrite Hc0 in Hok.
  pose proof (lookup_lt_Some _ _ _ Hp) as Ht. rewrite Hrl in Ht.
  set (s1 := with_rpair s (sys_mem s2) (sys_pcs s2)).
  assert (Hsame : forall u, u <> t -> u <> R_WORKER -> phR s1 u = phR s u).
  { intros u Hu Hu0. apply (run_other_phase _ _ t u (aphase_of p) Hlen Hoth Hu), Hnp, Hu0. }
  assert (Hts : phR s1 t = aphase_of p') by exact Hself.
  assert (Hpt : phR s t = aphase_of p) by (unfold phR; by rewrite (list_lookup_total_correct _ _ _ Hp)).
  assert (L0 : hs_rpcs s !! R_WORKER = Some (hs_rpcs s !!! R_WORKER))
    by (apply list_lookup_lookup_total_lt; unfold R_WORKER; lia).
  assert (Hnew : rpair_ok ab C (hs_wp s) yo (length (hs_tasks s)) (length (px_targets (hs_px s)))
                   (phR s1 R_WORKER) (last_task s1)
                   (if bool_decide (aphase_of p = PhNotify false) then wrap32 (c + 1) else c)
                 /\ old_done s1).
  { destruct (decide (t = R_WORKER)) as [->|Ht0].
    - (* the worker *)
      assert (Hlt : last_task s1 = last_task s)
        by (apply last_task_same; [done|intros; apply Hsame; unfold R_WORKER; lia]).
      rewrite <- Hpt, bool_decide_false by (eapply rpair_worker_not_notify; exact Hok).
      split; [|apply (old_done_same s); [done|intros j ? ?; rewrite Hsame by (unfold R_WORKER; lia); done|done]].
      rewrite Hlt, Hts. eapply rpair_step_worker; [exact Hok|rewrite Hpt; exact Hast|].
      intros Ha Hh r q Hl. rewrite Hpt in Ha. rewrite (last_task_phase _ _ _ Hl).
      unfold phR. apply not_holds_phase, (Hacq Ha Hh (length (hs_tasks s))), list_lookup_lookup_total_lt. lia.
    - destruct t as [|k]; [done|].
      destruct (decide (S k = length (hs_tasks s))) as [Hk|Hk].
      + (* the last task *)
        destruct (lookup_lt_is_Some_2 (hs_tasks s) k) as [r Hr]; [lia|].
        rewrite (last_task_at s k r Hk Hr), Hpt in Hok.
        rewrite (last_task_at s1 k r Hk Hr), Hts.
        split; [|apply (old_done_same s); [done|intros j ? ?; rewrite Hsame by (unfold R_WORKER; lia); done|done]].
        eapply rpair_step_task; [exact Hok|exact Hast| | |].
        * intros E1 E2. rewrite <- Hpt in E2.
          enough (R_WORKER = S k) by done. apply (excl_R _ _ _ _ _ _ H); unfold R_WORKER; [lia|lia|done|done].
        * destruct (Hoth R_WORKER _ ltac:(done) L0) as [E0|(? & ? & ?)]; [by left|by right].
        * intros Hn Hpk. apply (Hwk Hn R_WORKER _ ltac:(done) L0 Hpk).
          intros u' q' Hu' Hq'. destruct (decide (u' = R_WORKER)) as [|Hu0]; [done|].
          exfalso. apply (Hnp u' Hu0). unfold phR. by rewrite (list_lookup_total_correct _ _ _ Hu').
      + (* an older task, releasing its lock *)
        destruct (Hold k ltac:(lia)) as [_ Hdq]. rewrite Hpt in Hdq.
        assert (Hw0 : phR s1 R_WORKER = phR s R_WORKER).
        { destruct (Hoth R_WORKER _ ltac:(done) L0) as [E0|(_ & _ & E0)]; [done|].
          rewrite E0 in Hdq. by destruct Hdq. }
        assert (Hlt : last_task s1 = last_task s)
          by (apply last_task_same; [done|intros; apply Hsame; unfold R_WORKER; lia]).
        rewrite Hw0, Hlt, bool_decide_false by (destruct Hdq as [-> | ->]; discriminate).
        split; [exact Hok|]. apply (old_done_same s); [done| |done].
        intros j Hj Hdq'. destruct (decide (j = k)) as [->|Hjk].
        * rewrite Hts. destruct Hdq as [E1|E1]; rewrite E1 in Hast; inversion Hast; auto.
        * rewrite Hsame by (unfold R_WORKER; lia). done. }
  destruct Hnew as [(Hw2 & Hl2 & Hc2) Ho2].
  constructor; autorewrite with hs_rw; cbn; try assumption.
  - by destruct s2.
  - by rewrite Hlen.
  - rewrite Hcw. exact Hwc.
  - rewrite Hc'. f_equal. exact Hc2.
  - destruct (last_task s1) as [[r q]|]; cbn in Hl2; tauto.
Qed.
