(* ===== verification/HandshakeSafety.v ===== *)
(** * What every run of the handshake guarantees

    The invariant [hinv_at] of [HandshakeInv.v] holds in the state
    [hinit] builds and every [hstep] keeps it ([HandshakeWorker.v],
    [HandshakeMain.v], [HandshakeRun.v]), so it holds in every state a
    run reaches, whatever the interleaving of the worker, [push()], the
    [onReceived] tasks and the main thread's message handler.  Read
    off it: the regions' locks exclude each other's holders, the
    chunks collected so far are a prefix of the input, cut at the
    sizes [expected_chunks] gives, what [done()] is resolved with is
    the whole input, no agent takes an error exit, and when the region
    size divides the input's length [done()] is never resolved.  Two
    runs are evaluated: one on three bytes that resolves [done()], one
    on two bytes that stops with every agent idle. *)

From S2P Require Import Prelude Monad Int32 Atomics Lock Cond Sync Phase Chunking Proxy Worker Pipeline Handshake HandshakeInv HandshakeWorker HandshakeMain HandshakeRun.

(** ** Preservation and reachability *)

Lemma hinv_hstep ab C R a s s' : hinv ab C R s -> hstep a s = Some s' -> hinv ab C R s'.
Proof.
  intros (x & yo & H) Hs. destruct a; cbn in Hs.
  - exists x, yo. by eapply hinv_runR.
  - exists x, yo. by eapply hinv_runW.
  - destruct (hinv_worker_step _ _ _ _ _ _ _ H Hs); by eexists _, _.
  - destruct (hinv_push_step _ _ _ _ _ _ _ H Hs); by eexists _, _.
  - exists x, yo. by eapply hinv_task_step.
  - exists x, yo. by eapply hinv_main_step.
Qed.

Lemma hinv_reachable C R ab s :
  0 < C <= R -> hreachable (TaskConf C R) ab s -> hinv ab C R s.
Proof.
  intros HC Hr. induction Hr as [s Hs|a s s' _ IH Hs].
  - exists 0, 0. by apply hinv_init.
  - by eapply hinv_hstep.
Qed.

Lemma hrun_reachable opts ab tr s s' :
  hreachable opts ab s -> hrun tr s = Some s' -> hreachable opts ab s'.
Proof.
  revert s. induction tr as [|a tr IH]; cbn; intros s Hr Hs; [by injection Hs as <-|].
  destruct (hstep a s) as [s1|] eqn:E; [|done]. eapply IH; [|done]. by eapply hreach_step.
Qed.

(** ** The chunks *)

Lemma hchunks_concat ab C k :
  0 < C -> k <= hN ab C -> concat (hchunks ab C k) = take (hoff ab C k) ab.
Proof.
  intros HC. induction k as [|k IH]; intros Hk; [done|].
  rewrite hchunks_S, concat_app, IH by lia. cbn. rewrite app_nil_r, (hoff_S ab C HC k) by lia.
  apply take_take_drop.
Qed.

Lemma hoff_N ab C : 0 < C -> hoff ab C (hN ab C) = length ab.
Proof. intros HC. unfold hoff, hN, hcs. rewrite firstn_all. by apply expected_chunks_sum. Qed.

Lemma task_cfg_kc ab C r q k kc : task_cfg ab C r q k kc -> kc <= S k.
Proof. destruct r; cbn; naive_solver lia. Qed.

(** The chunks collected: no more than the worker has read. *)
Lemma targets_read ab C R s x yo :
  hinv_at ab C R s x yo -> length (px_targets (hs_px s)) <= yo + wk_read (hs_wp s).
Proof.
  intros H. pose proof (hi_wkr _ _ _ _ _ _ H) as Hw. pose proof (hi_last _ _ _ _ _ _ H) as Hl.
  destruct (last_task s) as [[r q]|]; [apply task_cfg_kc in Hl|].
  all: destruct (hs_wp s); cbn in Hw |- *; naive_solver lia.
Qed.

(** When [C] divides the input's length every chunk is full. *)
Lemma hcs_full ab C j :
  0 < C -> length ab mod C = 0 -> j < hN ab C -> C <= hcs ab C !!! j.
Proof.
  intros HC Hm Hj. pose proof (expected_chunks_short (length ab) C HC) as Hs.
  rewrite Hm in Hs. cbn in Hs. apply (cnt_zero_iff _ _) with (i := j) in Hs; [|exact Hj].
  by apply Nat.ltb_ge.
Qed.

(** ** A run

    A schedule of the 110 steps that [transformFile] on the three bytes
    [1; 2; 3] with regions of two bytes takes to resolve [done()]: the
    worker copies [[1; 2]], [push()] reports it, a task collects it,
    then the same for [[3]], whose short length ends the loop. *)
Definition demo_trace : list hact :=
  [HMain; HRunW 1; HPush; HWorker; HRunW 0; HPush; HPush; HRunW 0; HRunW 0; HRunW 1;
   HRunW 1; HPush; HRunW 1; HRunW 1; HRunW 1; HRunW 1; HRunW 0; HRunW 1; HWorker; HRunR 0;
   HWorker; HWorker; HMain; HRunR 0; HRunR 0; HRunR 0; HRunR 1; HTask 0; HRunR 1; HRunR 1;
   HTask 0; HRunR 0; HRunR 0; HRunR 0; HRunR 1; HRunR 1; HRunR 1; HRunR 0; HWorker; HRunR 0;
   HRunR 0; HRunR 0; HWorker; HRunW 0; HRunW 0; HRunW 1; HRunW 1; HWorker; HRunW 0; HRunW 0;
   HRunW 0; HRunW 0; HRunW 0; HRunW 1; HPush; HPush; HPush; HRunW 1; HRunW 1; HRunW 0;
   HRunW 0; HPush; HRunW 1; HRunW 1; HRunW 1; HRunW 1; HRunW 0; HRunW 1; HWorker; HWorker;
   HRunR 0; HWorker; HWorker; HRunR 0; HRunR 0; HRunR 0; HMain; HRunR 2; HTask 1; HRunR 2;
   HRunR 2; HTask 1; HRunR 0; HRunR 0; HRunR 0; HRunR 2; HRunR 2; HRunR 2; HRunR 0; HWorker;
   HRunR 0; HRunR 0; HRunR 0; HWorker; HRunW 0; HRunW 0; HRunW 1; HRunW 1; HMain; HWorker;
   HWorker; HWorker; HRunW 0; HRunW 0; HRunW 0; HRunW 1; HPush; HRunW 1; HRunW 1; HRunW 1].

Definition demo_ab : list Byte.byte := [Byte.x01; Byte.x02; Byte.x03].

Definition demo_final : option hs := s ← hinit (TaskConf 2 2) demo_ab; hrun demo_trace s.

Lemma demo_final_reachable s : demo_final = Some s -> hreachable (TaskConf 2 2) demo_ab s.
Proof.
  unfold demo_final. destruct (hinit _ _) as [s0|] eqn:E; [|done].
  change (hrun demo_trace s0 = Some s -> hreachable (TaskConf 2 2) demo_ab s).
  apply hrun_reachable. by apply hreach_init.
Qed.

(** ** What every run guarantees *)

(** C3. Mutual exclusion: in every reachable state, the worker and
    [push()] never both hold [writeLock], and no two of the agents of
    [readLock] (the worker and the [onReceived] tasks) hold it at once. *)
Theorem hs_lock_exclusion C R ab s :
  0 < C <= R -> hreachable (TaskConf C R) ab s ->
  (client_holds (phW s W_WORKER) = true -> client_holds (phW s W_PUSH) = true -> False) /\
  (forall u1 u2, u1 < length (hs_rpcs s) -> u2 < length (hs_rpcs s) ->
     client_holds (phR s u1) = true -> client_holds (phR s u2) = true -> u1 = u2).
Proof.
  intros HC Hr. destruct (hinv_reachable C R ab s HC Hr) as (x & yo & H).
  split; [exact (excl_W _ _ _ _ _ _ H)|exact (excl_R _ _ _ _ _ _ H)].
Qed.

Lemma hs_lock_exclusion_witness :
  exists s, demo_final = Some s /\
    (client_holds (phW s W_WORKER) = true -> client_holds (phW s W_PUSH) = true -> False).
Proof.
  destruct demo_final as [s|] eqn:E; [|vm_compute in E; discriminate].
  exists s. split; [done|]. apply (hs_lock_exclusion 2 2 demo_ab s); [lia|by apply demo_final_reachable].
Defined.

(** C2. The chunks collected so far: in every reachable state the
    proxy's [targets] are the first [k] chunks of the input, cut at the
    sizes [expected_chunks] gives, for some [k] no larger than their
    number; their concatenation is a prefix of the input. *)
Theorem hs_targets_prefix C R ab s :
  0 < C <= R -> hreachable (TaskConf C R) ab s ->
  exists k, k <= hN ab C /\ px_targets (hs_px s) = hchunks ab C k /\
            concat (px_targets (hs_px s)) = take (hoff ab C k) ab.
Proof.
  intros HC Hr. destruct (hinv_reachable C R ab s HC Hr) as (x & yo & H).
  pose proof (targets_read _ _ _ _ _ _ H). pose proof (hi_xy _ _ _ _ _ _ H). pose proof (hi_x _ _ _ _ _ _ H).
  exists (length (px_targets (hs_px s))). rewrite <- (hi_tg _ _ _ _ _ _ H).
  split_and!; [lia|done|]. rewrite (hi_tg _ _ _ _ _ _ H) at 1. apply hchunks_concat; lia.
Qed.

Lemma hs_targets_prefix_witness :
  exists s, demo_final = Some s /\
    exists k, k <= hN demo_ab 2 /\ px_targets (hs_px s) = hchunks demo_ab 2 k /\
              concat (px_targets (hs_px s)) = take (hoff demo_ab 2 k) demo_ab.
Proof.
  destruct demo_final as [s|] eqn:E; [|vm_compute in E; discriminate].
  exists s. split; [done|]. apply (hs_targets_prefix 2 2 demo_ab s); [lia|by apply demo_final_reachable].
Defined.

(** C1. What [done()] receives: in every reachable state where the
    main thread has resolved [done()] with [r], [r] is the list of all
    the input's chunks, and their concatenation is the input. *)
Theorem hs_done_input C R ab s r :
  0 < C <= R -> hreachable (TaskConf C R) ab s -> hs_done s = Some r ->
  r = hchunks ab C (hN ab C) /\ concat r = ab.
Proof.
  intros HC Hr Hd. destruct (hinv_reachable C R ab s HC Hr) as (x & yo & H).
  pose proof (hi_queue _ _ _ _ _ _ H) as Hq. unfold queue_cfg, queue_ok in Hq.
  assert (r = hchunks ab C (hN ab C)) as ->.
  { rewrite Hd in Hq. brk; congruence. }
  split; [done|]. rewrite hchunks_concat, hoff_N by lia. apply firstn_all.
Qed.

(** The run above resolves [done()] with the input's two chunks. *)
Lemma hs_done_input_witness :
  exists s, demo_final = Some s /\ hs_done s = Some [[Byte.x01; Byte.x02]; [Byte.x03]] /\
    [[Byte.x01; Byte.x02]; [Byte.x03]] = hchunks demo_ab 2 (hN demo_ab 2) /\
    concat [[Byte.x01; Byte.x02]; [Byte.x03]] = demo_ab.
Proof.
  destruct demo_final as [s|] eqn:E; [|vm_compute in E; discriminate].
  assert (Hd : hs_done s = Some [[Byte.x01; Byte.x02]; [Byte.x03]])
    by (vm_compute in E; injection E as <-; reflexivity).
  exists s. split_and!; [done|exact Hd|..];
    apply (hs_done_input 2 2 demo_ab s); [lia|by apply demo_final_reachable|exact Hd|lia|by apply demo_final_reachable|exact Hd].
Defined.

(** The tasks are at their checks, unlocking or done. *)
Lemma tasks_no_error ab C R s x yo k :
  hinv_at ab C R s x yo ->
  hs_tasks s !! k <> Some RtReturned /\ hs_tasks s !! k <> Some RtThrown.
Proof.
  intros H. destruct (hs_tasks s !! k) as [r|] eqn:Hr; [|done].
  pose proof (lookup_lt_Some _ _ _ Hr) as Hk.
  destruct (decide (S k < length (hs_tasks s))) as [Hj|Hj].
  - destruct (hi_old _ _ _ _ _ _ H k Hj) as [Hd _]. rewrite Hr in Hd. by injection Hd as ->.
  - pose proof (hi_last _ _ _ _ _ _ H) as Hl. rewrite (last_task_at s k r ltac:(lia) Hr) in Hl.
    destruct r; cbn in Hl; done.
Qed.

(** C4. No error exit: in every reachable state with the sizes
    [transformFile] uses ([0 < C <= R]), [push()] has not thrown, the
    worker's handler has not thrown, and no [onReceived] task has
    returned early on a status other than [WORKING] (leaving the read
    lock held) or thrown on an oversized chunk. *)
Theorem hs_no_error C R ab s k :
  0 < C <= R -> hreachable (TaskConf C R) ab s ->
  hs_mp s <> MpThrown /\ hs_wp s <> WkThrown /\
  hs_tasks s !! k <> Some RtReturned /\ hs_tasks s !! k <> Some RtThrown.
Proof.
  intros HC Hr. destruct (hinv_reachable C R ab s HC Hr) as (x & yo & H).
  pose proof (hi_main _ _ _ _ _ _ H) as Hm. pose proof (hi_wkr _ _ _ _ _ _ H) as Hw.
  split_and!; [intros E; by rewrite E in Hm|intros E; by rewrite E in Hw|..];
    apply (tasks_no_error _ _ _ _ _ _ _ H).
Qed.

Lemma hs_no_error_witness :
  exists s, demo_final = Some s /\
    hs_mp s <> MpThrown /\ hs_wp s <> WkThrown /\
    hs_tasks s !! 1 <> Some RtReturned /\ hs_tasks s !! 1 <> Some RtThrown.
Proof.
  destruct demo_final as [s|] eqn:E; [|vm_compute in E; discriminate].
  exists s. split; [done|]. apply (hs_no_error 2 2 demo_ab s 1); [lia|by apply demo_final_reachable].
Defined.

(** ** A transfer that never ends

    The same transfer on the two bytes [1; 2]: both chunks of the
    region are full, so the worker never posts ["finish"]. *)
Definition hang_trace : list hact :=
  [HMain; HRunW 1; HPush; HWorker; HRunW 0; HPush; HPush; HRunW 0; HRunW 0; HRunW 1;
   HRunW 1; HPush; HRunW 1; HRunW 1; HRunW 1; HRunW 1; HRunW 0; HRunW 1; HWorker; HRunR 0;
   HWorker; HWorker; HMain; HRunR 0; HRunR 0; HRunR 0; HRunR 1; HTask 0; HRunR 1; HRunR 1;
   HTask 0; HRunR 0; HRunR 0; HRunR 0; HRunR 1; HRunR 1; HRunR 1; HRunR 0; HWorker; HRunR 0;
   HRunR 0; HRunR 0; HWorker; HRunW 0; HRunW 0; HRunW 1; HRunW 1; HWorker; HWorker; HWorker;
   HRunW 0; HRunW 0; HRunW 0; HRunW 1; HPush; HRunW 1; HRunW 1; HRunW 1].

Definition hang_ab : list Byte.byte := [Byte.x01; Byte.x02].

Definition hang_final : option hs := s ← hinit (TaskConf 2 2) hang_ab; hrun hang_trace s.

Lemma hang_final_reachable s : hang_final = Some s -> hreachable (TaskConf 2 2) hang_ab s.
Proof.
  unfold hang_final. destruct (hinit _ _) as [s0|] eqn:E; [|done].
  change (hrun hang_trace s0 = Some s -> hreachable (TaskConf 2 2) hang_ab s).
  apply hrun_reachable. by apply hreach_init.
Qed.


(** C5. [done()] never resolves when the region size divides the input
    length: in every reachable state of a transfer whose length is a
    multiple of [writeBufferSize] (the empty input included), [done()]
    is still pending, since the worker posts ["finish"] only after a
    short chunk. *)
Theorem hs_done_never_multiple C R ab s :
  0 < C <= R -> hreachable (TaskConf C R) ab s -> length ab mod C = 0 -> hs_done s = None.
Proof.
  intros HC Hr Hm. destruct (hinv_reachable C R ab s HC Hr) as (x & yo & H).
  pose proof (hi_queue _ _ _ _ _ _ H) as Hq. unfold queue_cfg, queue_ok in Hq.
  destruct (hs_done s) as [d|] eqn:Hd; [exfalso|done].
  assert (Hf : fin_posted ab C (hs_wp s) yo) by (brk; congruence).
  pose proof (hi_wkw _ _ _ _ _ _ H) as Hw. pose proof (hi_x _ _ _ _ _ _ H) as [_ Hx].
  destruct (hs_wp s); cbn in Hf, Hw; try done; brk; subst;
    match goal with
    | Hf : hcs _ _ !!! ?j < C |- _ => pose proof (hcs_full ab C j ltac:(lia) Hm ltac:(lia))
    end; lia.
Qed.

Lemma hs_done_never_multiple_witness :
  exists s, hang_final = Some s /\ (0 < 2 <= 2 /\ length hang_ab mod 2 = 0) /\ hs_done s = None.
Proof.
  destruct hang_final as [s|] eqn:E; [|vm_compute in E; discriminate].
  exists s. split; [done|]. split; [split; [lia|reflexivity]|].
  apply (hs_done_never_multiple 2 2 hang_ab s); [lia|by apply hang_final_reachable|reflexivity].
Defined.
