(* ===== verification/App.v ===== *)
(** * The drop zones of src/src/App.tsx

    [DropZone] (App.tsx 37-133) takes a dropped file, runs
    [transformFile] (66-82) on it and offers the result under a new
    name: [name.compress] for the compress zone, [name] with the first
    [".compress"] removed for the decompress zone (line 81).  Its React
    state is [isHover], [readingFile] and [progress] (38-40); [onDrop]
    (84-121) ignores drops while [readingFile] is set.

    The interleaving [zstep] follows React's semantics for these
    handlers: the state an event handler reads is the one of the last
    render, the updates it makes before its first [await] are applied
    together when it returns, and the update after an [await] is
    applied when that promise settles.  The UI rendering, the
    [Blob]/download code and the workers themselves are not modelled:
    a running [transformFile] is an element of [inflight] until it
    settles. *)

From stdpp Require Import strings.
From S2P Require Import Prelude.

(** ** File names *)

(** [s.indexOf(pat)]: the first position where [pat] starts. *)
Fixpoint index_of (pat s : string) : option nat :=
  if String.prefix pat s then Some 0%nat
  else match s with
       | EmptyString => None
       | String _ s' => S <$> index_of pat s'
       end.

(** [s.replace(pat, rep)] with a string pattern: only the first
    occurrence is replaced. *)
Definition replace_first (pat rep s : string) : string :=
  match index_of pat s with
  | None => s
  | Some k => String.substring 0 k s +:+ rep +:+
              String.substring (k + String.length pat) (String.length s - (k + String.length pat)) s
  end.

(** [`${file.name}.compress`] and [file.name.replace(".compress", "")]
    (line 81). *)
Definition compressed_name (name : string) : string := name +:+ ".compress".

Definition decompressed_name (name : string) : string := replace_first ".compress" "" name.

(** The name [saveBlobAsFile] is given for a zone of type [ty]. *)
Definition output_name (ty name : string) : string :=
  if String.eqb ty "compress" then compressed_name name else decompressed_name name.

(** ** The drop zone *)

Record dropzone := DZ { isHover : bool; readingFile : bool; progress : nat }.

(** A dropped item of [dataTransfer.items]: whether its [kind] is
    ["file"], and what [getAsFile()] returns. *)
Record item := Item { is_file : bool; as_file : option string }.

(** [evt.dataTransfer]: with [items] (lines 93-110) or only [files]
    (111-120). *)
Inductive transfer := WithItems (items : list item) | OnlyFiles (files : list string).

(** A running [transformFile]: the file, and whether its caller
    awaits it (and then runs [setReadingFile(false)]). *)
Record task := Task { t_file : string; t_awaited : bool }.

Record zone := Zone { z_state : dropzone; inflight : list task }.

Definition set_hover (b : bool) (d : dropzone) : dropzone := DZ b (readingFile d) (progress d).
Definition set_reading (b : bool) (d : dropzone) : dropzone := DZ (isHover d) b (progress d).
Definition set_progress (p : nat) (d : dropzone) : dropzone := DZ (isHover d) (readingFile d) p.

(** The outcome of [onDrop]'s synchronous part: the updates it made,
    the task it started, and whether it threw (["File Null!"]). *)
Record drop_result := DropResult { dr_updates : list (dropzone -> dropzone);
                                   dr_task : option task; dr_threw : bool }.

(** [onDrop] (84-121) on the state [d] of the last render. *)
Definition onDrop (d : dropzone) (dt : transfer) : drop_result :=
  let hover := [set_hover false] in
  if readingFile d then DropResult hover None false else
  match dt with
  | WithItems items =>
      match list_find is_file items with
      | None => DropResult hover None false
      | Some (_, it) =>
          match as_file it with
          | None => DropResult hover None true
          | Some f => DropResult (hover ++ [set_reading true]) (Some (Task f true)) false
          end
      end
  | OnlyFiles (f :: _) =>
      DropResult (hover ++ [set_reading true; set_reading false]) (Some (Task f false)) false
  | OnlyFiles [] => DropResult hover None false
  end.

(** The progress callback of [transformFile] (73-75). *)
Definition progress_callback (p : nat) (d : dropzone) : dropzone :=
  set_progress (if (p =? 100)%nat then 0 else p) d.

(** [progress > 0 ? <ProgressBar/> : null] (line 130). *)
Definition shows_progress (d : dropzone) : bool := (0 <? progress d)%nat.

(** The events of one drop zone: a drop, a drag entering or leaving,
    progress of a running transform, and a transform settling
    (resolved, or rejected when [ok] is false). *)
Inductive zevent :=
  | ZDrop (dt : transfer)
  | ZDrag (enter : bool)
  | ZProgress (p : nat)
  | ZSettle (k : nat) (ok : bool).

Definition zstep (e : zevent) (z : zone) : option zone :=
  match e with
  | ZDrop dt =>
      let r := onDrop (z_state z) dt in
      Some (Zone (foldl (fun d u => u d) (z_state z) (dr_updates r))
                 (inflight z ++ option_list (dr_task r)))
  | ZDrag b => Some (Zone (set_hover b (z_state z)) (inflight z))
  | ZProgress p => if bool_decide (inflight z = []) then None
                   else Some (Zone (progress_callback p (z_state z)) (inflight z))
  | ZSettle k ok =>
      t ← inflight z !! k;
      let d := if t_awaited t && ok then set_reading false (z_state z) else z_state z in
      Some (Zone d (delete k (inflight z)))
  end.

Definition zinit : zone := Zone (DZ false false 0) [].

(** The states reachable by events that [allowed] accepts. *)
Inductive zreachable (allowed : zevent -> bool) : zone -> Prop :=
  | zreach_init : zreachable allowed zinit
  | zreach_step e z z' : zreachable allowed z -> allowed e = true -> zstep e z = Some z' ->
      zreachable allowed z'.

(** A browser that provides [dataTransfer.items] (line 93). *)
Definition with_items (e : zevent) : bool :=
  match e with ZDrop (OnlyFiles _) => false | _ => true end.

(** ** Lemmas on strings *)

Lemma append_cons c s1 s2 : String c s1 +:+ s2 = String c (s1 +:+ s2).
Proof. reflexivity. Qed.

Lemma append_nil_r s : s +:+ "" = s.
Proof. induction s as [|c s IH]; [done|]. rewrite append_cons, IH. done. Qed.

Lemma length_append s1 s2 : String.length (s1 +:+ s2) = (String.length s1 + String.length s2)%nat.
Proof. induction s1 as [|c s1 IH]; [done|]. rewrite append_cons. cbn. by rewrite IH. Qed.

Lemma prefix_refl_app p t : String.prefix p (p +:+ t) = true.
Proof.
  induction p as [|c p IH]; [by destruct t|]. rewrite append_cons. cbn.
  destruct (Ascii.ascii_dec c c); [exact IH|done].
Qed.

Lemma prefix_refl p : String.prefix p p = true.
Proof. rewrite <- (append_nil_r p) at 2. apply prefix_refl_app. Qed.

Lemma prefix_nonempty t c q : String.prefix t (String c q) = true -> t <> "" -> exists t', t = String c t'.
Proof. destruct t as [|c' t']; [done|]. cbn. destruct (Ascii.ascii_dec c' c) as [->|]; [eauto|discriminate]. Qed.

(** An occurrence of [p] in [n ++ q] at the start that is not inside
    [n] runs into [q]. *)
Lemma prefix_cross p n q :
  String.prefix p (n +:+ q) = true -> String.prefix p n = false ->
  exists t, t <> "" /\ String.prefix t q = true /\ p = n +:+ t.
Proof.
  revert p. induction n as [|a n IH]; intros p Hpq Hpn.
  - exists p. split_and!; [by destruct p|done|done].
  - destruct p as [|b p]; [done|]. rewrite append_cons in Hpq. cbn in Hpq, Hpn.
    destruct (Ascii.ascii_dec b a) as [->|]; [|done].
    destruct (IH p Hpq Hpn) as (t & Ht & Htq & ->). exists t. done.
Qed.

Fixpoint has_char (c : Ascii.ascii) (s : string) : bool :=
  match s with EmptyString => false | String c' s' => Ascii.eqb c' c || has_char c s' end.

Lemma has_char_app c u v : has_char c (u +:+ String c v) = true.
Proof.
  induction u as [|c' u IH].
  - change ("" +:+ String c v) with (String c v). cbn. by rewrite Ascii.eqb_refl.
  - rewrite append_cons. cbn. by rewrite IH, orb_true_r.
Qed.

(** A pattern whose first character does not occur again is found
    at the end of [n ++ p] when it is not in [n]. *)
Lemma index_of_append c p' n :
  has_char c p' = false -> index_of (String c p') n = None ->
  index_of (String c p') (n +:+ String c p') = Some (String.length n).
Proof.
  intros Hc. induction n as [|a n IH]; intros Hn.
  - change ("" +:+ String c p') with (String c p'). cbn -[String.prefix]. by rewrite prefix_refl.
  - cbn -[String.prefix] in Hn. destruct (String.prefix (String c p') (String a n)) eqn:Hpn; [done|].
    destruct (index_of (String c p') n) eqn:Hi; [done|].
    rewrite append_cons. cbn -[String.prefix String.append]. rewrite <- append_cons.
    destruct (String.prefix (String c p') (String a n +:+ String c p')) eqn:Hpq.
    + exfalso. destruct (prefix_cross _ _ _ Hpq Hpn) as (t & Ht & Htq & Hp).
      destruct (prefix_nonempty _ _ _ Htq Ht) as [t' ->].
      rewrite append_cons in Hp. injection Hp as <- Hp'.
      rewrite Hp', has_char_app in Hc. discriminate.
    + rewrite (IH eq_refl). done.
Qed.

Lemma substring_prefix n q : String.substring 0 (String.length n) (n +:+ q) = n.
Proof. induction n as [|c n IH]; [by destruct q|]. rewrite append_cons. cbn. by rewrite IH. Qed.

Lemma substring_empty k s : String.substring k 0 s = "".
Proof. revert k. induction s as [|c s IH]; intros [|k]; cbn; auto. Qed.

(** ** Lemmas on the drop zone *)

Lemma foldl_updates_reading d us b :
  readingFile (foldl (fun d u => u d) d (us ++ [set_reading b])) = b.
Proof. by rewrite foldl_app. Qed.

Lemma foldl_hover_reading d : readingFile (foldl (fun d u => u d) d [set_hover false]) = readingFile d.
Proof. reflexivity. Qed.

(** The items branch of [onDrop] starts a task only when the zone was
    not reading, and then sets [readingFile]. *)
Lemma onDrop_items d items :
  (readingFile d = true -> dr_task (onDrop d (WithItems items)) = None) /\
  (length (option_list (dr_task (onDrop d (WithItems items)))) <= 1)%nat /\
  (dr_task (onDrop d (WithItems items)) <> None ->
   readingFile (foldl (fun d u => u d) d (dr_updates (onDrop d (WithItems items)))) = true).
Proof.
  unfold onDrop. destruct (readingFile d) eqn:Hr;
    [|destruct (list_find is_file items) as [[k it]|]; [destruct (as_file it)|]];
    cbn; split_and!; try done; lia.
Qed.

(** ** Theorems *)

(** C36. Compressing then decompressing a file gives back its name,
    [name.compress] with its first [".compress"] removed, for every
    name in which [".compress"] does not occur. *)
Theorem decompressed_compressed_name name :
  index_of ".compress" name = None -> decompressed_name (compressed_name name) = name.
Proof.
  intros Hn. unfold decompressed_name, compressed_name, replace_first.
  erewrite index_of_append; [| reflexivity | exact Hn].
  rewrite substring_prefix, length_append, Nat.sub_diag, substring_empty.
  change ("" +:+ "") with "". by rewrite !append_nil_r.
Qed.

Lemma decompressed_compressed_name_witness :
  index_of ".compress" "report.pdf" = None /\
  decompressed_name (compressed_name "report.pdf") = "report.pdf".
Proof. split; [reflexivity | apply decompressed_compressed_name; reflexivity]. Defined.

(** A name that contains [".compress"] elsewhere does not come back:
    [notes.compressed.txt] compresses to [notes.compressed.txt.compress]
    and decompresses to [notesed.txt.compress]. *)
Lemma decompressed_name_first_occurrence :
  decompressed_name (compressed_name "notes.compressed.txt") = "notesed.txt.compress".
Proof. reflexivity. Qed.

(** C37. In a browser that provides [dataTransfer.items], a drop zone
    runs at most one [transformFile] at a time, and while one runs
    [readingFile] is set, so [onDrop] ignores further drops. *)
Theorem dropzone_one_transform z :
  zreachable with_items z ->
  (length (inflight z) <= 1)%nat /\ (inflight z <> [] -> readingFile (z_state z) = true).
Proof.
  induction 1 as [|e z z' Hz [IH1 IH2] He Hs]; [cbn; split; [lia|done]|].
  destruct e as [[items|files]|b|p|k ok]; cbn in He, Hs; try discriminate.
  - injection Hs as <-. cbn.
    destruct (onDrop_items (z_state z) items) as (Hno & Hlen & Hset).
    destruct (readingFile (z_state z)) eqn:Hr.
    + rewrite (Hno eq_refl). cbn. rewrite app_nil_r. split; [lia|]. intros _. unfold onDrop. rewrite Hr. exact Hr.
    + assert (Hnil : inflight z = []) by (destruct (decide (inflight z = [])) as [|Hne]; [done|]; by apply IH2 in Hne).
      rewrite Hnil. cbn. split; [done|]. intros Ht. apply Hset.
      by destruct (dr_task (onDrop (z_state z) (WithItems items))).
  - injection Hs as <-. cbn. done.
  - destruct (bool_decide (inflight z = [])); [discriminate|]. injection Hs as <-. cbn. done.
  - destruct (inflight z !! k) as [t|] eqn:Ht; [|discriminate]. cbn in Hs. injection Hs as <-. cbn.
    destruct (inflight z) as [|t0 [|]] eqn:E; cbn in IH1; [done| |lia].
    destruct k; [|done]. cbn. split; [lia|done].
Qed.

Definition demo_drop : zevent := ZDrop (WithItems [Item false None; Item true (Some "a.txt")]).

Lemma dropzone_one_transform_witness :
  zreachable with_items (Zone (DZ false true 0) [Task "a.txt" true]) /\
  (length [Task "a.txt" true] <= 1)%nat /\
  ([Task "a.txt" true] <> [] -> readingFile (DZ false true 0) = true).
Proof.
  assert (H : zreachable with_items (Zone (DZ false true 0) [Task "a.txt" true]))
    by (apply (zreach_step with_items demo_drop zinit); [constructor | reflexivity | reflexivity]).
  split; [exact H | exact (dropzone_one_transform _ H)].
Defined.

(** Without [dataTransfer.items] the guard does nothing: [onDrop] sets
    [readingFile] and clears it again in the same batch, so a second
    drop starts a second transform beside the first. *)
Lemma dropzone_files_concurrent :
  zstep (ZDrop (OnlyFiles ["a"])) zinit = Some (Zone (DZ false false 0) [Task "a" false]) /\
  zstep (ZDrop (OnlyFiles ["b"])) (Zone (DZ false false 0) [Task "a" false]) =
    Some (Zone (DZ false false 0) [Task "a" false; Task "b" false]).
Proof. split; reflexivity. Qed.

(** A transform that fails (its promise rejects) never clears
    [readingFile]: the zone then ignores every later drop. *)
Lemma dropzone_stuck_after_failure e :
  zstep (ZSettle 0 false) (Zone (DZ false true 0) [Task "a.txt" true]) = Some (Zone (DZ false true 0) []) /\
  zstep (ZDrop e) (Zone (DZ false true 0) []) = Some (Zone (DZ false true 0) []).
Proof. split; reflexivity. Qed.
